(** * Union-Find (disjoint set union): the C++ classes of the repository

    The development embeds

    - [src/UnionFind/UnionFind.cpp]: class [UnionFind] with [find],
      the two overloads of [unionSets], [unionBySize] and [connected]
      (module [UnionFind] below);
    - the two classes of the Union-Find documentation: the optimised class
      with path compression, union by rank and a component counter (module
      [UnionFindRank]) and the size-tracking class (module [UnionFindSize]),
      with the helpers [countComponents] and [hasCycle].

    A C++ [int] is a [Z]; a [vector<int>] is a [list Z] read and written
    through [vget] and [vset], which fail outside the vector.  A member
    function is a computation in a state-and-failure monad [M]: it returns
    normally ([Ok]), throws ([Throw]), runs into undefined behaviour
    ([Fault]: an access outside a vector, or a signed overflow) or exhausts
    the recursion depth it was given ([Diverge]). *)

From Stdlib Require Import ZArith Lia Ascii.
From stdpp Require Import base tactics option list list_numbers sorting strings.

#[local] Open Scope Z_scope.

(** ** Machine integers *)

Definition INT_MAX : Z := 2147483647.
Definition INT_MIN : Z := -2147483648.

(** ** Outcomes and the monad of member functions *)

Inductive exn : Type :=
| invalid_argument
| length_error.

Inductive outcome (S A : Type) : Type :=
| Ok (a : A) (s : S)      (* normal return, with the store afterwards *)
| Throw (e : exn) (s : S) (* an exception leaves the function *)
| Fault (s : S)           (* undefined behaviour, with the store at that point *)
| Diverge.                (* recursion deeper than the fuel *)

Arguments Ok {S A} a s.
Arguments Throw {S A} e s.
Arguments Fault {S A} s.
Arguments Diverge {S A}.

Definition M (S A : Type) : Type := S → outcome S A.

#[global] Instance M_ret {S} : MRet (M S) := λ A a s, Ok a s.

#[global] Instance M_bind {S} : MBind (M S) := λ A B f m s,
  match m s with
  | Ok a s' => f a s'
  | Throw e s' => Throw e s'
  | Fault s' => Fault s'
  | Diverge => Diverge
  end.

Definition fault {S A} : M S A := λ s, Fault s.

(** Runs a computation on a component of the store (a data member). *)
Definition zoom {S T A} (get : S → T) (put : T → S → S) (m : M T A) : M S A :=
  λ s,
  match m (get s) with
  | Ok a t => Ok a (put t s)
  | Throw e t => Throw e (put t s)
  | Fault t => Fault (put t s)
  | Diverge => Diverge
  end.

(** The result of an [int] operation: outside the range of [int] the
    behaviour is undefined. *)
Definition checked {S} (z : Z) : M S Z :=
  if decide (INT_MIN ≤ z ≤ INT_MAX) then mret z else fault.

(** [for (i = lo; i < lo + count; i++) body(i)] *)
Fixpoint for_range {S} (count : nat) (i : Z) (body : Z → M S unit) : M S unit :=
  match count with
  | O => mret tt
  | S count' => body i;; for_range count' (i + 1) body
  end.

(** ** Vectors of [int] *)

Definition vget (v : list Z) (i : Z) : option Z :=
  if decide (0 ≤ i) then v !! Z.to_nat i else None.

Definition vset (v : list Z) (i x : Z) : option (list Z) :=
  if decide (0 ≤ i < Z.of_nat (length v)) then Some (<[Z.to_nat i := x]> v) else None.

(** [v[i]] as an rvalue and [v[i] = x], on the vector that is the store. *)
Definition vread (i : Z) : M (list Z) Z :=
  λ v, match vget v i with Some x => Ok x v | None => Fault v end.

Definition vwrite (i x : Z) : M (list Z) unit :=
  λ v, match vset v i x with Some v' => Ok tt v' | None => Fault v end.

(** ** [find], the same function in the three classes

<<
    int find(int u) {
        if (parent[u] != u) {
            parent[u] = find(parent[u]);  // Path compression
        }
        return parent[u];
    }
>>
    The store is the vector [parent]; [fuel] bounds the recursion depth. *)

Fixpoint find (fuel : nat) (u : Z) : M (list Z) Z :=
  match fuel with
  | O => λ _, Diverge
  | S fuel' =>
      pu ← vread u;
      (if decide (pu ≠ u)
       then r ← find fuel' pu; vwrite u r
       else mret tt);;
      vread u
  end.

(** ** The forest described by a [parent] vector *)

(** [path p x l r]: following [parent] from [x] visits exactly the nodes
    [l], of which the last, [r], is its own parent. *)
Inductive path (p : list Z) : Z → list Z → Z → Prop :=
| path_root x :
    vget p x = Some x → path p x [x] x
| path_step x y l r :
    vget p x = Some y → y ≠ x → path p y l r → path p x (x :: l) r.

Definition is_root (p : list Z) (r : Z) : Prop := vget p r = Some r.

(** [escapes p x l]: following [parent] from [x] visits the nodes [l], none
    of them its own parent, and then leaves the vector. *)
Inductive escapes (p : list Z) : Z → list Z → Prop :=
| escapes_out x :
    vget p x = None → escapes p x []
| escapes_step x y l :
    vget p x = Some y → y ≠ x → escapes p y l → escapes p x (x :: l).

Definition repr (p : list Z) (x r : Z) : Prop := ∃ l, path p x l r.

#[global] Instance is_root_dec (p : list Z) (r : Z) : Decision (is_root p r).
Proof. unfold is_root. apply _. Defined.

(** The number of roots, that is of sets. *)
Definition count_roots (p : list Z) : nat :=
  length (filter (is_root p) (seqZ 0 (Z.of_nat (length p)))).

(** Every element of the universe reaches a root: no cycle, no link that
    leaves the vector. *)
Definition forest (p : list Z) : Prop :=
  ∀ x, 0 ≤ x < Z.of_nat (length p) → ∃ r, repr p x r.

(** The vector after every node of [l] was pointed at [r]. *)
Definition relink (l : list Z) (r : Z) (p : list Z) : list Z :=
  foldr (λ i q, <[Z.to_nat i := r]> q) p l.

(** [same_sets p p']: same universe, same representative for every
    element.  This is what path compression preserves. *)
Definition same_sets (p p' : list Z) : Prop :=
  length p' = length p ∧ ∀ z s, repr p' z s ↔ repr p z s.

(** Two elements are in the same set when they have the same
    representative. *)
Definition same_set (p : list Z) (x y : Z) : Prop :=
  ∃ r, repr p x r ∧ repr p y r.

(** The root of [x] by plain traversal, without relinking (the [find] of
    the documentation's basic class); [None] when the traversal leaves the
    vector or is longer than [fuel]. *)
Fixpoint root_of (fuel : nat) (p : list Z) (x : Z) : option Z :=
  match fuel with
  | O => None
  | S fuel' =>
      match vget p x with
      | None => None
      | Some y => if decide (y = x) then Some x else root_of fuel' p y
      end
  end.

(** A check of [forest] that computes. *)
Definition forestb (p : list Z) : bool :=
  forallb (λ x, bool_decide (is_Some (root_of (length p) p x)))
          (seqZ 0 (Z.of_nat (length p))).

(** [merged p u v p']: [p'] describes the partition of [p] with the sets
    of [u] and [v] made one, by hanging one of their two roots under the
    other after some path compression; [p'] describes the partition of
    [p] when [u] and [v] were together already. *)
Definition merged (p : list Z) (u v : Z) (p' : list Z) : Prop :=
  ∃ ru rv q,
    repr p u ru ∧ repr p v rv ∧ same_sets p q ∧
    (ru = rv ∧ p' = q ∨
     ru ≠ rv ∧ (p' = <[Z.to_nat ru := rv]> q ∨ p' = <[Z.to_nat rv := ru]> q)).

(** The number of elements whose root is [r]. *)
Definition card (p : list Z) (r : Z) : nat :=
  length (filter (λ i, root_of (length p) p i = Some r)
                 (seqZ 0 (Z.of_nat (length p)))).

(** [ranked p rk]: along every link of [p] the rank grows, and the set of
    a root of rank [a] has at least [2 ^ a] elements.  This is what union
    by rank maintains. *)
Definition ranked (p rk : list Z) : Prop :=
  (∀ x y a b,
     vget p x = Some y → y ≠ x → vget rk x = Some a → vget rk y = Some b →
     a < b) ∧
  (∀ r a,
     is_root p r → vget rk r = Some a → 2 ^ a ≤ Z.of_nat (card p r)).

(** ** Graphs given by a list of edges

    An edge is a [vector<int>] whose first two entries are its endpoints. *)

Definition valid_edge (n : Z) (edge : list Z) : Prop :=
  match vget edge 0, vget edge 1 with
  | Some a, Some b => 0 ≤ a < n ∧ 0 ≤ b < n
  | _, _ => False
  end.

(** [joined R edges]: the least symmetric and transitive relation that
    holds [R] and relates the endpoints of every edge. *)
Inductive joined (R : Z → Z → Prop) (edges : list (list Z)) : Z → Z → Prop :=
| joined_base x y : R x y → joined R edges x y
| joined_edge edge a b :
    edge ∈ edges → vget edge 0 = Some a → vget edge 1 = Some b →
    joined R edges a b
| joined_sym x y : joined R edges x y → joined R edges y x
| joined_trans x y z :
    joined R edges x y → joined R edges y z → joined R edges x z.

(** Two vertices of [{0, ..., n-1}] are connected when a walk along the
    edges leads from one to the other. *)
Definition connected_in (n : Z) (edges : list (list Z)) : Z → Z → Prop :=
  joined (λ x y, x = y ∧ 0 ≤ x < n) edges.

(** The edge [e] closes a cycle over [edges]: its endpoints are joined
    already. *)
Definition closes (R : Z → Z → Prop) (edges : list (list Z)) (e : list Z) : Prop :=
  ∃ u v, vget e 0 = Some u ∧ vget e 1 = Some v ∧ joined R edges u v.

Definition closes_in (n : Z) (edges : list (list Z)) (e : list Z) : Prop :=
  closes (λ x y, x = y ∧ 0 ≤ x < n) edges e.

(** [R] has [k] classes on [{0, ..., n-1}]: there are [k] representatives,
    no two of them related, and every element is related to one. *)
Definition classes (n : Z) (R : Z → Z → Prop) (k : nat) : Prop :=
  ∃ reps : list Z,
    length reps = k ∧ NoDup reps ∧
    (∀ r, r ∈ reps → 0 ≤ r < n) ∧
    (∀ r r', r ∈ reps → r' ∈ reps → R r r' → r = r') ∧
    (∀ x, 0 ≤ x < n → ∃ r, r ∈ reps ∧ R x r).

(** [v.resize(n, x)]: a negative [int] converts to a [size_t] above
    [max_size()], and [resize] throws [std::length_error]. *)
Definition resize (n x : Z) : M (list Z) unit :=
  λ v,
  if decide (n < 0) then Throw length_error v
  else Ok tt (take (Z.to_nat n) v ++ replicate (Z.to_nat n - length v)%nat x).

(** The operands of [==] are evaluated in an unspecified order. *)
Inductive eval_order : Type := left_first | right_first.

(** ** [src/UnionFind/UnionFind.cpp] *)

Module UnionFind.

Record state : Type := { parent : list Z; rank : list Z }.

Definition set_parent (p : list Z) (s : state) : state :=
  {| parent := p; rank := rank s |}.
Definition set_rank (r : list Z) (s : state) : state :=
  {| parent := parent s; rank := r |}.

Definition on_parent {A} : M (list Z) A → M state A := zoom parent set_parent.
Definition on_rank {A} : M (list Z) A → M state A := zoom rank set_rank.

(** The members before the constructor body runs. *)
Definition empty : state := {| parent := []; rank := [] |}.

Definition UnionFind (n : Z) : M state unit :=
  on_parent (resize n 0);;
  on_rank (resize n 0);;
  for_range (Z.to_nat n) 0 (λ i, on_parent (vwrite i i)).

Definition find (fuel : nat) (u : Z) : M state Z := on_parent (find fuel u).

(** [void unionSets(int u, int v)]: union by rank. *)
Definition unionSets (fuel : nat) (u v : Z) : M state unit :=
  rootU ← find fuel u;
  rootV ← find fuel v;
  if decide (rootU ≠ rootV) then
    a ← on_rank (vread rootU);
    b ← on_rank (vread rootV);
    if decide (a < b) then on_parent (vwrite rootU rootV)
    else
      a' ← on_rank (vread rootU);
      b' ← on_rank (vread rootV);
      if decide (a' > b') then on_parent (vwrite rootV rootU)
      else
        on_parent (vwrite rootV rootU);;
        r ← on_rank (vread rootU);
        r' ← checked (r + 1);
        on_rank (vwrite rootU r')
  else mret tt.

(** [void unionSets(int u, int v, bool byRank)] *)
Definition unionSets_byRank (fuel : nat) (u v : Z) (byRank : bool) : M state unit :=
  if byRank then unionSets fuel u v
  else
    rootU ← find fuel u;
    rootV ← find fuel v;
    if decide (rootU ≠ rootV) then on_parent (vwrite rootV rootU)
    else mret tt.

(** [void unionBySize(int u, int v, vector<int>& size)]: the store is the
    object together with the caller's vector. *)
Definition on_this {A} : M state A → M (state * list Z) A :=
  zoom fst (λ s st, (s, st.2)).
Definition on_size {A} : M (list Z) A → M (state * list Z) A :=
  zoom snd (λ v st, (st.1, v)).

Definition unionBySize (fuel : nat) (u v : Z) : M (state * list Z) unit :=
  rootU ← on_this (find fuel u);
  rootV ← on_this (find fuel v);
  if decide (rootU ≠ rootV) then
    a ← on_size (vread rootU);
    b ← on_size (vread rootV);
    if decide (a < b) then
      on_this (on_parent (vwrite rootU rootV));;
      x ← on_size (vread rootV);
      y ← on_size (vread rootU);
      z ← checked (x + y);
      on_size (vwrite rootV z)
    else
      on_this (on_parent (vwrite rootV rootU));;
      x ← on_size (vread rootU);
      y ← on_size (vread rootV);
      z ← checked (x + y);
      on_size (vwrite rootU z)
  else mret tt.

(** [bool connected(int u, int v) { return find(u) == find(v); }] *)
Definition connected (ord : eval_order) (fuel : nat) (u v : Z) : M state bool :=
  match ord with
  | left_first =>
      a ← find fuel u; b ← find fuel v; mret (bool_decide (a = b))
  | right_first =>
      b ← find fuel v; a ← find fuel u; mret (bool_decide (a = b))
  end.

(** A well-formed object over the universe [{0, ..., n-1}]. *)
Definition wf (n : Z) (s : state) : Prop :=
  0 ≤ n ∧ length (parent s) = Z.to_nat n ∧ length (rank s) = Z.to_nat n ∧
  forest (parent s).

(** Every rank is at most the number of merges so far, so that no rank
    leaves the range of [int]. *)
Definition ranks_bounded (n : Z) (s : state) : Prop :=
  ∀ i a, vget (rank s) i = Some a →
         0 ≤ a ∧ a + Z.of_nat (count_roots (parent s)) ≤ n.

Definition inv (n : Z) (s : state) : Prop :=
  wf n s ∧ n ≤ INT_MAX ∧ ranks_bounded n s.

(** The calls a client can make on an object, and the states they lead to. *)
Inductive call : Type :=
| call_find (u : Z)
| call_unionSets (u v : Z)
| call_unionSets_byRank (u v : Z) (byRank : bool)
| call_unionBySize (u v : Z) (size : list Z)
| call_connected (ord : eval_order) (u v : Z).

Definition run (fuel : nat) (c : call) : M state unit :=
  match c with
  | call_find u => find fuel u;; mret tt
  | call_unionSets u v => unionSets fuel u v
  | call_unionSets_byRank u v byRank => unionSets_byRank fuel u v byRank
  | call_unionBySize u v size =>
      λ s, zoom (λ s, (s, size)) (λ st _, st.1) (unionBySize fuel u v) s
  | call_connected ord u v => connected ord fuel u v;; mret tt
  end.

Inductive reachable (n : Z) : state → Prop :=
| reachable_new s :
    UnionFind n empty = Ok tt s → reachable n s
| reachable_call s fuel c s' :
    reachable n s → run fuel c s = Ok tt s' → reachable n s'.

(** A union whose arguments are in the set of [x]. *)
Definition involves (s : state) (c : call) (x : Z) : Prop :=
  match c with
  | call_find _ | call_connected _ _ _ => False
  | call_unionSets u v | call_unionSets_byRank u v _ | call_unionBySize u v _ =>
      same_set (parent s) x u ∨ same_set (parent s) x v
  end.

(** [quiet x s s']: a sequence of calls leads from [s] to [s'], none of
    them a union that involves the set of [x]. *)
Inductive quiet (x : Z) : state → state → Prop :=
| quiet_refl s : quiet x s s
| quiet_call s fuel c s1 s2 :
    run fuel c s = Ok tt s1 → ¬ involves s c x → quiet x s1 s2 →
    quiet x s s2.

(** The pair a call unites, as an edge. *)
Definition united (c : call) : list (list Z) :=
  match c with
  | call_find _ | call_connected _ _ _ => []
  | call_unionSets u v | call_unionSets_byRank u v _ | call_unionBySize u v _ =>
      [[u; v]]
  end.

(** [history n edges s]: calls that returned lead from [UnionFind(n)] to
    [s], and [edges] are the pairs they united, the last one first. *)
Inductive history (n : Z) : list (list Z) → state → Prop :=
| history_new s :
    UnionFind n empty = Ok tt s → history n [] s
| history_call edges s fuel c s' :
    history n edges s → run fuel c s = Ok tt s' →
    history n (united c ++ edges) s'.

(** [sized n s size]: the object [s] and a vector [size] of the caller,
    which was [n] ones at the start, after calls of [find], [connected]
    and [unionBySize] with that vector, and of no other union. *)
Inductive sized (n : Z) : state → list Z → Prop :=
| sized_new s :
    UnionFind n empty = Ok tt s → sized n s (replicate (Z.to_nat n) 1)
| sized_query s size fuel c s' :
    sized n s size → united c = [] → run fuel c s = Ok tt s' →
    sized n s' size
| sized_union s size fuel u v s' size' :
    sized n s size → unionBySize fuel u v (s, size) = Ok tt (s', size') →
    sized n s' size'.

(** The vector holds, at every root, the number of elements of its set. *)
Definition sizes_ok (n : Z) (s : state) (size : list Z) : Prop :=
  wf n s ∧ length size = Z.to_nat n ∧
  ∀ r, is_root (parent s) r →
       vget size r = Some (Z.of_nat (card (parent s) r)).

(** What a checked operation would do with a bad argument: throw
    [std::invalid_argument] and leave the object as it was. *)
Definition rejects {A} (o : outcome state A) (s : state) : Prop :=
  o = Throw invalid_argument s.

End UnionFind.

(** ** The optimised class of the documentation: path compression, union
    by rank, component counter *)

Module UnionFindRank.

Record state : Type :=
  { parent : list Z; rank : list Z; components : Z }.

Definition set_parent (p : list Z) (s : state) : state :=
  {| parent := p; rank := rank s; components := components s |}.
Definition set_rank (r : list Z) (s : state) : state :=
  {| parent := parent s; rank := r; components := components s |}.
Definition set_components (c : Z) (s : state) : state :=
  {| parent := parent s; rank := rank s; components := c |}.

Definition on_parent {A} : M (list Z) A → M state A := zoom parent set_parent.
Definition on_rank {A} : M (list Z) A → M state A := zoom rank set_rank.
Definition read_components : M state Z := λ s, Ok (components s) s.
Definition write_components (c : Z) : M state unit :=
  λ s, Ok tt (set_components c s).

Definition empty : state := {| parent := []; rank := []; components := 0 |}.

Definition UnionFind (n : Z) : M state unit :=
  on_parent (resize n 0);;
  on_rank (resize n 0);;
  write_components n;;
  for_range (Z.to_nat n) 0 (λ i, on_parent (vwrite i i)).

Definition find (fuel : nat) (x : Z) : M state Z := on_parent (find fuel x).

(** [bool unite(int x, int y)]: union by rank. *)
Definition unite (fuel : nat) (x y : Z) : M state bool :=
  rootX ← find fuel x;
  rootY ← find fuel y;
  if decide (rootX = rootY) then mret false
  else
    a ← on_rank (vread rootX);
    b ← on_rank (vread rootY);
    (if decide (a < b) then on_parent (vwrite rootX rootY)
     else
       a' ← on_rank (vread rootX);
       b' ← on_rank (vread rootY);
       if decide (a' > b') then on_parent (vwrite rootY rootX)
       else
         on_parent (vwrite rootY rootX);;
         r ← on_rank (vread rootX);
         r' ← checked (r + 1);
         on_rank (vwrite rootX r'));;
    c ← read_components;
    c' ← checked (c - 1);
    write_components c';;
    mret true.

Definition connected (ord : eval_order) (fuel : nat) (x y : Z) : M state bool :=
  match ord with
  | left_first =>
      a ← find fuel x; b ← find fuel y; mret (bool_decide (a = b))
  | right_first =>
      b ← find fuel y; a ← find fuel x; mret (bool_decide (a = b))
  end.

Definition getComponents : M state Z := read_components.

(** [for (auto& edge : edges)] with [edge[0]] and [edge[1]]. *)
Definition endpoints (edge : list Z) : M state (Z * Z) :=
  λ s,
  match vget edge 0, vget edge 1 with
  | Some a, Some b => Ok (a, b) s
  | _, _ => Fault s
  end.

(** [int countComponents(int n, vector<vector<int>>& edges)] *)
Fixpoint countComponents_loop (fuel : nat) (edges : list (list Z)) : M state unit :=
  match edges with
  | [] => mret tt
  | edge :: rest =>
      e ← endpoints edge;
      unite fuel e.1 e.2;;
      countComponents_loop fuel rest
  end.

Definition countComponents (fuel : nat) (n : Z) (edges : list (list Z)) : M state Z :=
  UnionFind n;; countComponents_loop fuel edges;; getComponents.

(** [bool hasCycle(int n, vector<vector<int>>& edges)] *)
Fixpoint hasCycle_loop (fuel : nat) (edges : list (list Z)) : M state bool :=
  match edges with
  | [] => mret false
  | edge :: rest =>
      e ← endpoints edge;
      united ← unite fuel e.1 e.2;
      if negb united then mret true else hasCycle_loop fuel rest
  end.

Definition hasCycle (fuel : nat) (n : Z) (edges : list (list Z)) : M state bool :=
  UnionFind n;; hasCycle_loop fuel edges.

(** [vector<int> findRedundantConnection(vector<vector<int>>& edges)]:
    the vertices are numbered from 1, the universe has [edges.size() + 1]
    elements. *)
Fixpoint findRedundantConnection_loop (fuel : nat) (edges : list (list Z))
  : M state (list Z) :=
  match edges with
  | [] => mret []
  | edge :: rest =>
      e ← endpoints edge;
      united ← unite fuel e.1 e.2;
      if negb united then mret edge else findRedundantConnection_loop fuel rest
  end.

Definition findRedundantConnection (fuel : nat) (edges : list (list Z))
  : M state (list Z) :=
  n ← checked (Z.of_nat (length edges));
  m ← checked (n + 1);
  UnionFind m;;
  findRedundantConnection_loop fuel edges.

(** [int getSetSize(int x)]: counts the elements whose root is the root
    of [x].
<<
        int root = find(x);
        int count = 0;
        for (int i = 0; i < parent.size(); i++) {
            if (find(i) == root) { count++; }
        }
        return count;
>>
    [find] keeps the length of [parent], so the loop runs [parent.size()]
    times, as read at its start; [todo] is the number of iterations left. *)
Fixpoint getSetSize_loop (fuel : nat) (todo : nat) (i root count : Z) : M state Z :=
  match todo with
  | O => mret count
  | S todo' =>
      r ← find fuel i;
      count' ← (if decide (r = root) then checked (count + 1) else mret count);
      i' ← checked (i + 1);
      getSetSize_loop fuel todo' i' root count'
  end.

Definition parent_size : M state nat := λ s, Ok (length (parent s)) s.

Definition getSetSize (fuel : nat) (x : Z) : M state Z :=
  root ← find fuel x;
  todo ← parent_size;
  getSetSize_loop fuel todo 0 root 0.

(** A well-formed object over [{0, ..., n-1}]: the vector [parent] is a
    forest, the counter is the number of roots, and every rank is at most
    the number of merges so far. *)
Definition inv (n : Z) (s : state) : Prop :=
  0 ≤ n ≤ INT_MAX ∧
  length (parent s) = Z.to_nat n ∧ length (rank s) = Z.to_nat n ∧
  forest (parent s) ∧
  components s = Z.of_nat (count_roots (parent s)) ∧
  ∀ i a, vget (rank s) i = Some a → 0 ≤ a ∧ a + components s ≤ n.

Inductive call : Type :=
| call_find (x : Z)
| call_unite (x y : Z)
| call_connected (ord : eval_order) (x y : Z)
| call_getComponents.

Definition run (fuel : nat) (c : call) : M state unit :=
  match c with
  | call_find x => find fuel x;; mret tt
  | call_unite x y => unite fuel x y;; mret tt
  | call_connected ord x y => connected ord fuel x y;; mret tt
  | call_getComponents => getComponents;; mret tt
  end.

Inductive reachable (n : Z) : state → Prop :=
| reachable_new s :
    UnionFind n empty = Ok tt s → reachable n s
| reachable_call s fuel c s' :
    reachable n s → run fuel c s = Ok tt s' → reachable n s'.

(** [struct Edge { int u, v, weight; ... }], compared by [weight]. *)
Record Edge : Type := { u : Z; v : Z; weight : Z }.

Definition Edge_lt (a b : Edge) : Prop := weight a < weight b.

(** The endpoints of an [Edge] as an edge of a graph. *)
Definition Edge_ends (e : Edge) : list Z := [u e; v e].

Definition valid_Edge (n : Z) (e : Edge) : Prop :=
  0 ≤ u e < n ∧ 0 ≤ v e < n.

(** One possible [sort]: a merge sort by weight. *)
Definition Edge_le (a b : Edge) : Prop := weight a ≤ weight b.

#[global] Instance Edge_le_dec a b : Decision (Edge_le a b).
Proof. unfold Edge_le. apply _. Defined.

Definition sort_by_weight : list Edge → list Edge := merge_sort Edge_le.

(** [vector<Edge> kruskalMST(vector<Edge>& edges, int n)]
<<
    sort(edges.begin(), edges.end());
    UnionFind uf(n);
    vector<Edge> mst;
    for (auto& edge : edges) {
        if (uf.unite(edge.u, edge.v)) { mst.push_back(edge); }
    }
    return mst;
>>
    [std::sort] is not stable, the order it gives to edges of one weight is
    not specified: [sort] is a parameter.  The store is the local [uf];
    the result is the caller's vector as [sort] has left it, with [mst]. *)
Fixpoint kruskalMST_loop (fuel : nat) (edges mst : list Edge) : M state (list Edge) :=
  match edges with
  | [] => mret mst
  | edge :: rest =>
      b ← unite fuel (u edge) (v edge);
      kruskalMST_loop fuel rest (if (b : bool) then mst ++ [edge] else mst)
  end.

Definition kruskalMST (sort : list Edge → list Edge)
    (fuel : nat) (edges : list Edge) (n : Z) : M state (list Edge * list Edge) :=
  let sorted := sort edges in
  UnionFind n;;
  mst ← kruskalMST_loop fuel sorted [];
  mret (sorted, mst).

(** [isConnected[i][j]], a read in a [vector<vector<int>>]. *)
Definition mget (m : list (list Z)) (i j : Z) : option Z :=
  if decide (0 ≤ i) then
    match m !! Z.to_nat i with Some row => vget row j | None => None end
  else None.

(** [int findCircleNum(vector<vector<int>>& isConnected)]
<<
    int n = isConnected.size();
    UnionFind uf(n);
    for (int i = 0; i < n; i++) {
        for (int j = i + 1; j < n; j++) {
            if (isConnected[i][j] == 1) { uf.unite(i, j); }
        }
    }
    return uf.getComponents();
>> *)
Definition findCircleNum_body (fuel : nat) (isConnected : list (list Z))
    (i j : Z) : M state unit :=
  λ s,
  match mget isConnected i j with
  | None => Fault s
  | Some c => if decide (c = 1) then (unite fuel i j;; mret tt) s else Ok tt s
  end.

Definition findCircleNum (fuel : nat) (isConnected : list (list Z)) : M state Z :=
  n ← checked (Z.of_nat (length isConnected));
  UnionFind n;;
  for_range (Z.to_nat n) 0
    (λ i, for_range (Z.to_nat (n - (i + 1))) (i + 1)
            (findCircleNum_body fuel isConnected i));;
  getComponents.

(** The pairs [i < j] that the matrix marks with [1], as edges. *)
Definition marked (isConnected : list (list Z)) (i j : Z) : list (list Z) :=
  if decide (mget isConnected i j = Some 1) then [[i; j]] else [].

Definition adjacent (isConnected : list (list Z)) (n : Z) : list (list Z) :=
  concat ((λ i, concat (marked isConnected i <$> seqZ (i + 1) (n - (i + 1))))
          <$> seqZ 0 n).

(** [eq[i]] on a [std::string]: the character at [i], the terminating
    null at [i == eq.size()], undefined beyond. *)
Definition char_at (eq : string) (i : nat) : M state ascii :=
  λ s,
  match String.get i eq with
  | Some c => Ok c s
  | None => if decide (i = String.length eq) then Ok Ascii.zero s else Fault s
  end.

(** [c - 'a'], in [int]. *)
Definition letter (c : ascii) : Z := Z.of_nat (nat_of_ascii c) - 97.

(** [bool equationsPossible(vector<string>& equations)]
<<
    UnionFind uf(26);
    for (auto& eq : equations) {
        if (eq[1] == '=') { uf.unite(eq[0] - 'a', eq[3] - 'a'); }
    }
    for (auto& eq : equations) {
        if (eq[1] == '!') {
            if (uf.connected(eq[0] - 'a', eq[3] - 'a')) { return false; }
        }
    }
    return true;
>> *)
Fixpoint equationsPossible_unions (fuel : nat) (equations : list string)
  : M state unit :=
  match equations with
  | [] => mret tt
  | eq :: rest =>
      op ← char_at eq 1;
      (if decide (op = "="%char) then
         a ← char_at eq 0;
         b ← char_at eq 3;
         unite fuel (letter a) (letter b);; mret tt
       else mret tt);;
      equationsPossible_unions fuel rest
  end.

Fixpoint equationsPossible_checks (ord : eval_order) (fuel : nat)
    (equations : list string) : M state bool :=
  match equations with
  | [] => mret true
  | eq :: rest =>
      op ← char_at eq 1;
      if decide (op = "!"%char) then
        a ← char_at eq 0;
        b ← char_at eq 3;
        r ← connected ord fuel (letter a) (letter b);
        if (r : bool) then mret false
        else equationsPossible_checks ord fuel rest
      else equationsPossible_checks ord fuel rest
  end.

Definition equationsPossible (ord : eval_order) (fuel : nat)
    (equations : list string) : M state bool :=
  UnionFind 26;;
  equationsPossible_unions fuel equations;;
  equationsPossible_checks ord fuel equations.

(** An equation as the code reads it: the operands are the characters 0
    and 3, the operator is the character 1. *)
Definition operands (eq : string) : option (Z * Z) :=
  match String.get 0 eq, String.get 3 eq with
  | Some a, Some b => Some (letter a, letter b)
  | _, _ => None
  end.

Definition operator (eq : string) : option ascii := String.get 1 eq.

(** Both operands are lower-case letters. *)
Definition lowercase (eq : string) : Prop :=
  ∃ x y, operands eq = Some (x, y) ∧ 0 ≤ x < 26 ∧ 0 ≤ y < 26.

(** The values [val] of the 26 variables satisfy the equation. *)
Definition satisfies (val : Z → Z) (eq : string) : Prop :=
  ∀ x y, operands eq = Some (x, y) →
         (operator eq = Some "="%char → val x = val y) ∧
         (operator eq = Some "!"%char → val x ≠ val y).

(** The pairs that the equalities unite. *)
Definition equalities (equations : list string) : list (list Z) :=
  concat ((λ eq,
             match operands eq with
             | Some (x, y) =>
                 if decide (operator eq = Some "="%char) then [[x; y]] else []
             | None => []
             end) <$> equations).

End UnionFindRank.

(** ** The size-tracking class of the documentation *)

Module UnionFindSize.

Record state : Type :=
  { parent : list Z; size : list Z; components : Z }.

Definition set_parent (p : list Z) (s : state) : state :=
  {| parent := p; size := size s; components := components s |}.
Definition set_size (v : list Z) (s : state) : state :=
  {| parent := parent s; size := v; components := components s |}.
Definition set_components (c : Z) (s : state) : state :=
  {| parent := parent s; size := size s; components := c |}.

Definition on_parent {A} : M (list Z) A → M state A := zoom parent set_parent.
Definition on_size {A} : M (list Z) A → M state A := zoom size set_size.
Definition read_components : M state Z := λ s, Ok (components s) s.
Definition write_components (c : Z) : M state unit :=
  λ s, Ok tt (set_components c s).

Definition empty : state := {| parent := []; size := []; components := 0 |}.

Definition UnionFind (n : Z) : M state unit :=
  on_parent (resize n 0);;
  on_size (resize n 1);;
  write_components n;;
  for_range (Z.to_nat n) 0 (λ i, on_parent (vwrite i i)).

Definition find (fuel : nat) (x : Z) : M state Z := on_parent (find fuel x).

(** [bool unite(int x, int y)]: union by size. *)
Definition unite (fuel : nat) (x y : Z) : M state bool :=
  rootX ← find fuel x;
  rootY ← find fuel y;
  if decide (rootX = rootY) then mret false
  else
    a ← on_size (vread rootX);
    b ← on_size (vread rootY);
    (if decide (a < b) then
       on_parent (vwrite rootX rootY);;
       u ← on_size (vread rootY);
       v ← on_size (vread rootX);
       w ← checked (u + v);
       on_size (vwrite rootY w)
     else
       on_parent (vwrite rootY rootX);;
       u ← on_size (vread rootX);
       v ← on_size (vread rootY);
       w ← checked (u + v);
       on_size (vwrite rootX w));;
    c ← read_components;
    c' ← checked (c - 1);
    write_components c';;
    mret true.

(** [int getSetSize(int x) { return size[find(x)]; }] *)
Definition getSetSize (fuel : nat) (x : Z) : M state Z :=
  r ← find fuel x; on_size (vread r).

Definition getComponents : M state Z := read_components.

(** A well-formed object over [{0, ..., n-1}]: the vector [parent] is a
    forest, the counter is the number of roots, and the size recorded at
    a root is the number of elements of its set. *)
Definition inv (n : Z) (s : state) : Prop :=
  0 ≤ n ≤ INT_MAX ∧
  length (parent s) = Z.to_nat n ∧ length (size s) = Z.to_nat n ∧
  forest (parent s) ∧
  components s = Z.of_nat (count_roots (parent s)) ∧
  ∀ r, is_root (parent s) r →
       vget (size s) r = Some (Z.of_nat (card (parent s) r)).

(** The calls a client can make on an object; [history n edges s]: calls
    that returned lead from [UnionFind(n)] to [s], and [edges] are the
    pairs given to [unite], the last one first. *)
Inductive call : Type :=
| call_find (x : Z)
| call_unite (x y : Z)
| call_getSetSize (x : Z)
| call_getComponents.

Definition run (fuel : nat) (c : call) : M state unit :=
  match c with
  | call_find x => find fuel x;; mret tt
  | call_unite x y => unite fuel x y;; mret tt
  | call_getSetSize x => getSetSize fuel x;; mret tt
  | call_getComponents => getComponents;; mret tt
  end.

Definition united (c : call) : list (list Z) :=
  match c with
  | call_unite x y => [[x; y]]
  | _ => []
  end.

Inductive history (n : Z) : list (list Z) → state → Prop :=
| history_new s :
    UnionFind n empty = Ok tt s → history n [] s
| history_call edges s fuel c s' :
    history n edges s → run fuel c s = Ok tt s' →
    history n (united c ++ edges) s'.

End UnionFindSize.

(** ** The basic class of the documentation: no compression, no rank

    The vector [parent] is the only data member, and the store. *)

Module UnionFindBasic.

Definition UnionFind (n : Z) : M (list Z) unit :=
  resize n 0;;
  for_range (Z.to_nat n) 0 (λ i, vwrite i i).

(** [int find(int x)]: the root by plain traversal.
<<
        if (parent[x] == x) { return x; }
        return find(parent[x]);
>> *)
Fixpoint find (fuel : nat) (x : Z) : M (list Z) Z :=
  match fuel with
  | O => λ _, Diverge
  | S fuel' =>
      px ← vread x;
      if decide (px = x) then mret x
      else px' ← vread x; find fuel' px'
  end.

(** [void unite(int x, int y)] *)
Definition unite (fuel : nat) (x y : Z) : M (list Z) unit :=
  rootX ← find fuel x;
  rootY ← find fuel y;
  if decide (rootX ≠ rootY) then vwrite rootX rootY else mret tt.

Definition connected (ord : eval_order) (fuel : nat) (x y : Z) : M (list Z) bool :=
  match ord with
  | left_first =>
      a ← find fuel x; b ← find fuel y; mret (bool_decide (a = b))
  | right_first =>
      b ← find fuel y; a ← find fuel x; mret (bool_decide (a = b))
  end.

Inductive call : Type :=
| call_find (x : Z)
| call_unite (x y : Z)
| call_connected (ord : eval_order) (x y : Z).

Definition run (fuel : nat) (c : call) : M (list Z) unit :=
  match c with
  | call_find x => find fuel x;; mret tt
  | call_unite x y => unite fuel x y
  | call_connected ord x y => connected ord fuel x y;; mret tt
  end.

Definition united (c : call) : list (list Z) :=
  match c with
  | call_unite x y => [[x; y]]
  | _ => []
  end.

(** [history n edges p]: calls that returned lead from [UnionFind(n)] to
    the vector [p], and [edges] are the pairs given to [unite], the last
    one first. *)
Inductive history (n : Z) : list (list Z) → list Z → Prop :=
| history_new p :
    UnionFind n [] = Ok tt p → history n [] p
| history_call edges p fuel c p' :
    history n edges p → run fuel c p = Ok tt p' →
    history n (united c ++ edges) p'.

End UnionFindBasic.

(** * Properties *)

Section vectors.
Implicit Types (v : list Z) (i j x : Z).

Lemma vget_Some v i x :
  vget v i = Some x ↔ 0 ≤ i ∧ v !! Z.to_nat i = Some x.
Proof. unfold vget. case_decide; [tauto|]. split; [done|tauto]. Qed.

Lemma vget_range v i x : vget v i = Some x → 0 ≤ i < Z.of_nat (length v).
Proof.
  intros [? Hl%lookup_lt_Some]%vget_Some. lia.
Qed.

Lemma vget_is_Some v i : 0 ≤ i < Z.of_nat (length v) → is_Some (vget v i).
Proof.
  intros Hi. unfold vget. rewrite decide_True by lia.
  apply lookup_lt_is_Some. lia.
Qed.

Lemma vget_None v i : vget v i = None ↔ ¬ 0 ≤ i < Z.of_nat (length v).
Proof.
  split.
  - intros Hn Hi. destruct (vget_is_Some v i Hi) as [x Hx]. congruence.
  - intros Hi. destruct (vget v i) eqn:E; [|done].
    apply vget_range in E. lia.
Qed.

Lemma vget_insert_eq v i x :
  0 ≤ i < Z.of_nat (length v) → vget (<[Z.to_nat i := x]> v) i = Some x.
Proof.
  intros Hi. apply vget_Some. split; [lia|].
  apply list_lookup_insert_eq. lia.
Qed.

Lemma vget_insert_ne v i j x :
  0 ≤ i → i ≠ j → vget (<[Z.to_nat i := x]> v) j = vget v j.
Proof.
  intros Hi Hne. unfold vget. case_decide; [|done].
  apply list_lookup_insert_ne. lia.
Qed.

Lemma vset_Some v i x v' :
  vset v i x = Some v' ↔
  0 ≤ i < Z.of_nat (length v) ∧ v' = <[Z.to_nat i := x]> v.
Proof.
  unfold vset. case_decide; [|split; [done|tauto]].
  split; [intros [= <-]; done|intros [_ ->]; done].
Qed.

Lemma vset_in_range v i x :
  0 ≤ i < Z.of_nat (length v) → vset v i x = Some (<[Z.to_nat i := x]> v).
Proof. intros. unfold vset. by rewrite decide_True. Qed.

Lemma vset_None v i x : vset v i x = None ↔ ¬ 0 ≤ i < Z.of_nat (length v).
Proof. unfold vset. case_decide; [split; [done|tauto]|tauto]. Qed.

Lemma vget_ext v v' :
  length v = length v' → (∀ i, vget v i = vget v' i) → v = v'.
Proof.
  intros Hlen H. apply list_eq. intros k.
  specialize (H (Z.of_nat k)). unfold vget in H.
  rewrite !decide_True, !Nat2Z.id in H by lia. done.
Qed.
End vectors.

(** Unfolding of one call of [find]. *)
Lemma find_unfold fuel u p :
  find (S fuel) u p =
  match vget p u with
  | None => Fault p
  | Some pu =>
      if decide (pu ≠ u) then
        match find fuel pu p with
        | Ok r p1 =>
            match vset p1 u r with
            | Some p2 =>
                match vget p2 u with
                | Some x => Ok x p2
                | None => Fault p2
                end
            | None => Fault p1
            end
        | Throw e p1 => Throw e p1
        | Fault p1 => Fault p1
        | Diverge => Diverge
        end
      else Ok pu p
  end.
Proof.
  cbn [find]. unfold mbind, M_bind, vread, vwrite, mret, M_ret.
  destruct (vget p u) as [pu|] eqn:Hu; [|done].
  case_decide.
  - destruct (find fuel pu p) as [r p1|e p1|p1|]; try done.
    destruct (vset p1 u r); done.
  - by rewrite Hu.
Qed.

(** ** Paths and representatives *)

Section paths.
Implicit Types (p : list Z) (l : list Z) (x y r : Z).

Lemma path_head p x l r : path p x l r → ∃ l', l = x :: l'.
Proof. destruct 1; eauto. Qed.

Lemma path_start_range p x l r :
  path p x l r → 0 ≤ x < Z.of_nat (length p).
Proof. destruct 1; eauto using vget_range. Qed.

Lemma path_is_root p x l r : path p x l r → is_root p r.
Proof. induction 1; auto. Qed.

Lemma path_last p x l r : path p x l r → last l = Some r.
Proof.
  induction 1 as [|x y l r Hx Hne Hp IH]; [done|].
  destruct (path_head _ _ _ _ Hp) as [l' ->]. done.
Qed.

Lemma path_functional p x l r l' r' :
  path p x l r → path p x l' r' → l = l' ∧ r = r'.
Proof.
  intros H. revert l' r'.
  induction H as [x Hx|x y l r Hx Hne Hp IH]; intros l' r' H'.
  - inversion H'; subst; [done|congruence].
  - inversion H' as [|? y' l0 ? Hx' Hne' Hp']; subst; [congruence|].
    assert (y' = y) as -> by congruence.
    destruct (IH _ _ Hp') as [-> ->]. done.
Qed.

Lemma path_range p x l r :
  path p x l r → Forall (λ i, 0 ≤ i < Z.of_nat (length p)) l.
Proof.
  induction 1 as [x Hx|x y l r Hx Hne Hp IH].
  - apply Forall_singleton. by eapply vget_range.
  - apply Forall_cons. split; [by eapply vget_range|done].
Qed.

Lemma path_suffix p x l r i :
  path p x l r → i ∈ l →
  ∃ l', path p i l' r ∧ (length l' ≤ length l)%nat.
Proof.
  induction 1 as [x Hx|x y l r Hx Hne Hp IH]; intros Hi.
  - apply list_elem_of_singleton in Hi as ->.
    exists [x]. split; [by constructor|done].
  - apply elem_of_cons in Hi as [->|Hi].
    + exists (x :: l). split; [by econstructor|done].
    + destruct (IH Hi) as (l' & Hl' & Hlen).
      exists l'. split; [done|]. simpl. lia.
Qed.

Lemma path_NoDup p x l r : path p x l r → NoDup l.
Proof.
  induction 1 as [x Hx|x y l r Hx Hne Hp IH].
  - apply NoDup_singleton.
  - apply NoDup_cons. split; [|done].
    intros Hin.
    destruct (path_suffix _ _ _ _ _ Hp Hin) as (l' & Hl' & Hlen).
    assert (path p x (x :: l) r) as Hfull by (by econstructor).
    destruct (path_functional _ _ _ _ _ _ Hl' Hfull) as [-> _].
    simpl in Hlen. lia.
Qed.

(** A path never visits more nodes than the vector has. *)
Lemma path_length p x l r : path p x l r → (length l ≤ length p)%nat.
Proof.
  intros Hp.
  assert (l ⊆+ seqZ 0 (Z.of_nat (length p))) as Hsub.
  { apply NoDup_submseteq; [by eapply path_NoDup|].
    intros i Hi. apply elem_of_seqZ.
    pose proof (path_range _ _ _ _ Hp) as Hr.
    rewrite Forall_forall in Hr. specialize (Hr i Hi). lia. }
  apply submseteq_length in Hsub.
  rewrite length_seqZ in Hsub. lia.
Qed.

(** Only the last node of a path is a root. *)
Lemma path_root_unique p x l r i :
  path p x l r → i ∈ l → is_root p i → i = r.
Proof.
  induction 1 as [x Hx|x y l r Hx Hne Hp IH]; intros Hi Hroot.
  - by apply list_elem_of_singleton in Hi.
  - apply elem_of_cons in Hi as [->|Hi]; [|by apply IH].
    unfold is_root in Hroot. congruence.
Qed.

Lemma path_end_in p x l r : path p x l r → r ∈ l.
Proof.
  intros Hp. apply path_last in Hp.
  apply last_Some in Hp as [l' ->].
  apply elem_of_app. right. apply list_elem_of_singleton. done.
Qed.

Lemma repr_functional p x r r' : repr p x r → repr p x r' → r = r'.
Proof.
  intros [l Hl] [l' Hl']. by destruct (path_functional _ _ _ _ _ _ Hl Hl').
Qed.

Lemma repr_is_root p x r : repr p x r → is_root p r.
Proof. intros [l Hl]. by eapply path_is_root. Qed.

Lemma repr_root p r : is_root p r → repr p r r.
Proof. intros Hr. exists [r]. by constructor. Qed.

Lemma repr_step p x y r :
  vget p x = Some y → repr p y r → repr p x r.
Proof.
  intros Hx [l Hl]. destruct (decide (y = x)) as [->|Hne].
  - assert (r = x) as ->.
    { eapply repr_functional; [by eexists|by apply repr_root]. }
    by apply repr_root.
  - exists (x :: l). by econstructor.
Qed.

Lemma repr_range p x r : repr p x r → 0 ≤ x < Z.of_nat (length p).
Proof. intros [l Hl]. by eapply path_start_range. Qed.

Lemma repr_root_range p x r : repr p x r → 0 ≤ r < Z.of_nat (length p).
Proof. intros Hr. eapply vget_range, repr_is_root, Hr. Qed.

Lemma repr_idem p x r : repr p x r → repr p r r.
Proof. intros Hr. by eapply repr_root, repr_is_root. Qed.
End paths.

(** ** Path compression *)

Section compression.
Implicit Types (p q : list Z) (l k : list Z) (x y z r s : Z).

Lemma length_relink l r p : length (relink l r p) = length p.
Proof.
  induction l as [|i l IH]; [done|].
  simpl. by rewrite length_insert.
Qed.

Lemma vget_relink_in l r p i :
  Forall (λ j, 0 ≤ j < Z.of_nat (length p)) l →
  i ∈ l → vget (relink l r p) i = Some r.
Proof.
  induction l as [|j l IH]; intros Hr Hi; [by apply elem_of_nil in Hi|].
  apply Forall_cons in Hr as [Hj Hr]. simpl.
  destruct (decide (j = i)) as [->|Hne].
  - apply vget_insert_eq. by rewrite length_relink.
  - rewrite vget_insert_ne by lia.
    apply elem_of_cons in Hi as [->|Hi]; [done|]. by apply IH.
Qed.

Lemma vget_relink_notin l r p i :
  Forall (λ j, 0 ≤ j < Z.of_nat (length p)) l →
  i ∉ l → vget (relink l r p) i = vget p i.
Proof.
  induction l as [|j l IH]; intros Hr Hi; [done|].
  apply Forall_cons in Hr as [Hj Hr].
  apply not_elem_of_cons in Hi as [Hne Hi]. simpl.
  rewrite vget_insert_ne by lia. by apply IH.
Qed.

Lemma relink_root p r : is_root p r → relink [r] r p = p.
Proof.
  intros [? Hr]%vget_Some. simpl. by apply list_insert_id.
Qed.

(** The result of [find] is determined by the path of its argument. *)
Lemma find_path p x l r fuel :
  path p x l r → (length l ≤ fuel)%nat →
  find fuel x p = Ok r (relink l r p).
Proof.
  intros Hp. revert fuel.
  induction Hp as [x Hx|x y l r Hx Hne Hp IH]; intros fuel Hf.
  - destruct fuel as [|fuel]; [simpl in Hf; lia|].
    rewrite find_unfold, Hx, decide_False by (intros ?; done).
    by rewrite relink_root.
  - destruct fuel as [|fuel]; [simpl in Hf; lia|].
    simpl in Hf.
    rewrite find_unfold, Hx, decide_True by done.
    rewrite IH by lia.
    apply vget_range in Hx.
    rewrite vset_in_range by (by rewrite length_relink).
    rewrite vget_insert_eq by (by rewrite length_relink).
    done.
Qed.

(** Conversely a call that returns has followed a path. *)
Lemma find_Ok fuel x p r p' :
  find fuel x p = Ok r p' →
  ∃ l, path p x l r ∧ (length l ≤ fuel)%nat ∧ p' = relink l r p.
Proof.
  revert x r p'. induction fuel as [|fuel IH]; intros x r p' H; [done|].
  rewrite find_unfold in H.
  destruct (vget p x) as [pu|] eqn:Hx; [|done].
  case_decide as Hne.
  - destruct (find fuel pu p) as [r1 p1|e p1|p1|] eqn:Hrec; try done.
    destruct (IH _ _ _ Hrec) as (l & Hl & Hlen & ->).
    destruct (vset _ x r1) as [p2|] eqn:Hset; [|done].
    apply vset_Some in Hset as [Hxr ->].
    rewrite vget_insert_eq in H by done.
    injection H as <- <-.
    exists (x :: l). split_and!; [by econstructor|simpl; lia|done].
  - injection H as <- <-. subst pu.
    exists [x]. split_and!; [by constructor|simpl; lia|].
    by rewrite relink_root.
Qed.

(** The result does not depend on the fuel, once there is enough of it. *)
Lemma find_fuel_irrelevant fuel fuel' x p r p' r' p'' :
  find fuel x p = Ok r p' → find fuel' x p = Ok r' p'' → r' = r ∧ p'' = p'.
Proof.
  intros (l & Hl & _ & ->)%find_Ok (l' & Hl' & _ & ->)%find_Ok.
  by destruct (path_functional _ _ _ _ _ _ Hl Hl') as [-> ->].
Qed.

Lemma find_fuel_mono fuel fuel' x p r p' :
  find fuel x p = Ok r p' → (fuel ≤ fuel')%nat → find fuel' x p = Ok r p'.
Proof.
  intros (l & Hl & Hlen & ->)%find_Ok Hle. apply find_path; [done|lia].
Qed.

(** [find] throws nothing, and when it leaves the vector it has written
    nothing yet: the writes come after the root was reached. *)
Lemma find_no_Throw fuel x p e p' : find fuel x p ≠ Throw e p'.
Proof.
  revert x. induction fuel as [|fuel IH]; intros x H; [done|].
  rewrite find_unfold in H.
  destruct (vget p x) as [pu|] eqn:Hx; [|done].
  case_decide as Hne; [|done].
  destruct (find fuel pu p) as [r1 p1|e1 p1|p1|] eqn:Hrec; try done.
  - destruct (vset _ x r1) as [p2|]; [|done].
    destruct (vget p2 x); done.
  - injection H as -> ->. by eapply IH.
Qed.

Lemma find_Fault fuel x p p' : find fuel x p = Fault p' → p' = p.
Proof.
  revert x. induction fuel as [|fuel IH]; intros x H; [done|].
  rewrite find_unfold in H.
  destruct (vget p x) as [pu|] eqn:Hx; [|congruence].
  case_decide as Hne; [|done].
  destruct (find fuel pu p) as [r1 p1|e1 p1|p1|] eqn:Hrec; try done.
  - destruct (find_Ok _ _ _ _ _ Hrec) as (l & Hl & Hlen & ->).
    apply vget_range in Hx.
    rewrite vset_in_range, vget_insert_eq in H
      by (by rewrite length_relink). done.
  - injection H as <-. by eapply IH.
Qed.

(** A call that leaves the vector has followed an escaping chain, and
    conversely. *)
Lemma find_Fault_escapes fuel x p p' :
  find fuel x p = Fault p' → ∃ l, escapes p x l ∧ (length l < fuel)%nat.
Proof.
  revert x. induction fuel as [|fuel IH]; intros x H; [done|].
  rewrite find_unfold in H.
  destruct (vget p x) as [pu|] eqn:Hx.
  - case_decide as Hne; [|done].
    destruct (find fuel pu p) as [r1 p1|e1 p1|p1|] eqn:Hrec; try done.
    + destruct (find_Ok _ _ _ _ _ Hrec) as (l & Hl & Hlen & ->).
      apply vget_range in Hx.
      rewrite vset_in_range, vget_insert_eq in H
        by (by rewrite length_relink). done.
    + injection H as ->. destruct (IH _ Hrec) as (l & Hl & Hlen).
      exists (x :: l). split; [by econstructor|simpl; lia].
  - exists []. split; [by constructor|simpl; lia].
Qed.

Lemma escapes_find fuel x p l :
  escapes p x l → (length l < fuel)%nat → find fuel x p = Fault p.
Proof.
  intros He. revert fuel.
  induction He as [x Hx|x y l Hx Hne He IH]; intros fuel Hf;
    (destruct fuel as [|fuel]; [lia|]); rewrite find_unfold, Hx; [done|].
  rewrite decide_True by done. rewrite IH by (simpl in Hf; lia). done.
Qed.

Lemma escapes_functional p x l l' : escapes p x l → escapes p x l' → l = l'.
Proof.
  intros H. revert l'.
  induction H as [x Hx|x y l Hx Hne He IH]; intros l' H'.
  - inversion H'; subst; [done|congruence].
  - inversion H' as [|? y' l0 Hx' Hne' He']; subst; [congruence|].
    assert (y' = y) as -> by congruence. f_equal. by apply IH.
Qed.

Lemma escapes_suffix p x l i :
  escapes p x l → i ∈ l → ∃ l', escapes p i l' ∧ (length l' ≤ length l)%nat.
Proof.
  induction 1 as [x Hx|x y l Hx Hne He IH]; intros Hi.
  - by apply elem_of_nil in Hi.
  - apply elem_of_cons in Hi as [->|Hi].
    + exists (x :: l). split; [by econstructor|done].
    + destruct (IH Hi) as (l' & Hl' & Hlen).
      exists l'. split; [done|simpl; lia].
Qed.

Lemma escapes_length p x l : escapes p x l → (length l ≤ length p)%nat.
Proof.
  intros He.
  assert (NoDup l ∧ Forall (λ i, 0 ≤ i < Z.of_nat (length p)) l) as [Hnd Hr].
  { induction He as [x Hx|x y l Hx Hne He [IHnd IHr]]; [by split; constructor|].
    split.
    - apply NoDup_cons. split; [|done]. intros Hin.
      destruct (escapes_suffix _ _ _ _ He Hin) as (l' & Hl' & Hlen).
      assert (escapes p x (x :: l)) as Hfull by (by econstructor).
      rewrite (escapes_functional _ _ _ _ Hl' Hfull) in Hlen.
      simpl in Hlen. lia.
    - apply Forall_cons. split; [by eapply vget_range|done]. }
  assert (l ⊆+ seqZ 0 (Z.of_nat (length p))) as Hsub.
  { apply NoDup_submseteq; [done|].
    intros i Hi. apply elem_of_seqZ.
    rewrite Forall_forall in Hr. specialize (Hr i Hi). lia. }
  apply submseteq_length in Hsub. rewrite length_seqZ in Hsub. lia.
Qed.

(** More recursion than the vector has elements is conclusive: a call
    that runs out of it runs out of any amount, the chain has a cycle. *)
Lemma find_Diverge_cycle fuel x p :
  (length p < fuel)%nat → find fuel x p = Diverge →
  ∀ fuel', find fuel' x p = Diverge.
Proof.
  intros Hfuel Hd fuel'.
  destruct (find fuel' x p) as [r p'|e p'|p'|] eqn:H; [| | |done].
  - apply find_Ok in H as (l & Hl & _ & _).
    pose proof (path_length _ _ _ _ Hl).
    rewrite (find_path p x l r fuel) in Hd by (done || lia). done.
  - by apply find_no_Throw in H.
  - apply find_Fault_escapes in H as (l & Hl & _).
    pose proof (escapes_length _ _ _ Hl).
    rewrite (escapes_find fuel x p l) in Hd by (done || lia). done.
Qed.

(** One relinking step: pointing [x] at its own root shortens paths and
    keeps every representative. *)
Lemma path_insert_repr p x r z k s :
  repr p x r → path p z k s →
  ∃ k', path (<[Z.to_nat x := r]> p) z k' s ∧ (length k' ≤ length k)%nat.
Proof.
  intros Hx Hz.
  pose proof (repr_range _ _ _ Hx) as Hxr.
  pose proof (repr_is_root _ _ _ Hx) as Hroot.
  induction Hz as [z Hz|z y k s Hz Hne Hp IH].
  - exists [z]. split; [|done]. constructor.
    destruct (decide (x = z)) as [->|Hxz].
    + assert (r = z) as -> by (eapply repr_functional; [done|by apply repr_root]).
      by apply vget_insert_eq.
    + by rewrite vget_insert_ne by lia.
  - destruct IH as (k' & Hk' & Hlen).
    destruct (decide (x = z)) as [->|Hxz].
    + assert (repr p z s) as Hzs by (exists (z :: k); by econstructor).
      assert (r = s) as -> by (by eapply repr_functional).
      assert (s ≠ z) as Hsz by (unfold is_root in Hroot; congruence).
      exists [z; s]. split.
      * apply path_step with s; [by apply vget_insert_eq|done|].
        constructor. by rewrite vget_insert_ne by lia.
      * destruct (path_head _ _ _ _ Hp) as [k0 ->]. simpl. lia.
    + exists (z :: k'). split; [|simpl; lia].
      apply path_step with y; [|done..]. by rewrite vget_insert_ne by lia.
Qed.

Lemma path_relink p x l r z k s :
  path p x l r → path p z k s →
  ∃ k', path (relink l r p) z k' s ∧ (length k' ≤ length k)%nat.
Proof.
  intros Hx. revert z k s.
  induction Hx as [x Hx|x y l r Hx Hne Hp IH]; intros z k s Hz.
  - rewrite relink_root by done. eauto.
  - destruct (IH _ _ _ Hz) as (k1 & Hk1 & Hlen1).
    assert (path p x (x :: l) r) as Hfull by (by econstructor).
    destruct (IH _ _ _ Hfull) as (k2 & Hk2 & _).
    destruct (path_insert_repr (relink l r p) x r z k1 s) as (k' & Hk' & Hlen');
      [by eexists|done|].
    exists k'. split; [done|lia].
Qed.

Lemma repr_relink p x l r z s :
  path p x l r → repr p z s → repr (relink l r p) z s.
Proof.
  intros Hx [k Hk].
  destruct (path_relink _ _ _ _ _ _ _ Hx Hk) as (k' & Hk' & _). by eexists.
Qed.

Lemma forest_relink p x l r :
  forest p → path p x l r → forest (relink l r p).
Proof.
  intros Hf Hx z Hz. rewrite length_relink in Hz.
  destruct (Hf z Hz) as [s Hs]. exists s. by eapply repr_relink.
Qed.

(** In a forest relinking neither adds nor removes a representative. *)
Lemma repr_relink_iff p x l r z s :
  forest p → path p x l r →
  repr (relink l r p) z s ↔ repr p z s.
Proof.
  intros Hf Hx. split; [|by apply (repr_relink p x)].
  intros Hs. pose proof (repr_range _ _ _ Hs) as Hz.
  rewrite length_relink in Hz.
  destruct (Hf z Hz) as [s' Hs'].
  assert (s = s') as ->; [|done].
  apply (repr_functional (relink l r p) z); [done|]. by eapply repr_relink.
Qed.

(** After [find x] all the nodes of the path point at the root. *)
Lemma path_after_relink p x l r i :
  path p x l r → i ∈ l → vget (relink l r p) i = Some r.
Proof.
  intros Hx Hi. apply vget_relink_in; [by eapply path_range|done].
Qed.
End compression.

(** ** Linking one root under another *)

Section linking.
Implicit Types (p : list Z) (a b x z r s : Z).

Lemma is_root_link p a b i :
  is_root p a → a ≠ b →
  is_root (<[Z.to_nat a := b]> p) i ↔ is_root p i ∧ i ≠ a.
Proof.
  intros Ha Hab. pose proof (vget_range _ _ _ Ha) as Har.
  unfold is_root. destruct (decide (i = a)) as [->|Hne].
  - rewrite vget_insert_eq by done. split; [congruence|tauto].
  - rewrite vget_insert_ne by lia. tauto.
Qed.

(** The members of [a]'s tree move to [b]; nothing else changes. *)
Lemma repr_link p a b z s :
  is_root p a → is_root p b → a ≠ b →
  repr p z s →
  repr (<[Z.to_nat a := b]> p) z (if decide (s = a) then b else s).
Proof.
  intros Ha Hb Hab [k Hk].
  pose proof (vget_range _ _ _ Ha) as Har.
  assert (is_root (<[Z.to_nat a := b]> p) b) as Hb'
    by (apply is_root_link; auto).
  induction Hk as [z Hz|z y k s Hz Hne Hp IH].
  - case_decide as Hza.
    + subst z. eapply repr_step; [by apply vget_insert_eq|by apply repr_root].
    + apply repr_root. apply is_root_link; auto.
  - assert (z ≠ a) as Hza by (unfold is_root in Ha; congruence).
    eapply repr_step; [|exact IH]. by rewrite vget_insert_ne by lia.
Qed.

Lemma forest_link p a b :
  forest p → is_root p a → is_root p b → a ≠ b →
  forest (<[Z.to_nat a := b]> p).
Proof.
  intros Hf Ha Hb Hab z Hz. rewrite length_insert in Hz.
  destruct (Hf z Hz) as [s Hs]. eexists. by apply repr_link.
Qed.

Lemma repr_link_inv p a b z t :
  forest p → is_root p a → is_root p b → a ≠ b →
  repr (<[Z.to_nat a := b]> p) z t →
  ∃ s, repr p z s ∧ t = if decide (s = a) then b else s.
Proof.
  intros Hf Ha Hb Hab Ht.
  pose proof (repr_range _ _ _ Ht) as Hz. rewrite length_insert in Hz.
  destruct (Hf z Hz) as [s Hs]. exists s. split; [done|].
  apply (repr_functional (<[Z.to_nat a := b]> p) z); [done|].
  by apply repr_link.
Qed.
End linking.

(** ** Vectors that describe the same partition *)

Section same_sets_facts.
Implicit Types (p q : list Z).

Lemma same_sets_refl p : same_sets p p.
Proof. split; [done|tauto]. Qed.

Lemma same_sets_trans p q t :
  same_sets p q → same_sets q t → same_sets p t.
Proof.
  intros [Hl1 H1] [Hl2 H2]. split; [congruence|].
  intros z s. rewrite H2. apply H1.
Qed.

Lemma same_sets_sym p q : same_sets p q → same_sets q p.
Proof.
  intros [Hl H]. split; [done|]. intros z s. symmetry. apply H.
Qed.

Lemma same_sets_forest p q : same_sets p q → forest p → forest q.
Proof.
  intros [Hl H] Hf z Hz. rewrite Hl in Hz.
  destruct (Hf z Hz) as [s Hs]. exists s. by apply H.
Qed.

Lemma same_sets_is_root p q i : same_sets p q → is_root q i ↔ is_root p i.
Proof.
  intros [Hl H]. split; intros Hi.
  - eapply repr_is_root, H, repr_root, Hi.
  - eapply repr_is_root, H, repr_root, Hi.
Qed.

Lemma same_sets_relink p x l r :
  forest p → path p x l r → same_sets p (relink l r p).
Proof.
  intros Hf Hx. split; [apply length_relink|].
  intros z s. by apply (repr_relink_iff p x).
Qed.

(** In a forest, [find] on a valid element returns its representative
    and leaves a vector with the same sets, whatever the fuel above the
    size of the universe. *)
Lemma find_forest fuel p x :
  forest p → 0 ≤ x < Z.of_nat (length p) → (length p ≤ fuel)%nat →
  ∃ r p', find fuel x p = Ok r p' ∧ repr p x r ∧ same_sets p p'.
Proof.
  intros Hf Hx Hfuel. destruct (Hf x Hx) as [r [l Hl]].
  exists r, (relink l r p). split_and!.
  - apply find_path; [done|]. pose proof (path_length _ _ _ _ Hl). lia.
  - by exists l.
  - by eapply same_sets_relink.
Qed.

Lemma find_Ok_forest fuel p x r p' :
  forest p → find fuel x p = Ok r p' →
  repr p x r ∧ same_sets p p' ∧ forest p'.
Proof.
  intros Hf (l & Hl & _ & ->)%find_Ok.
  split_and!; [by exists l|by eapply same_sets_relink|by eapply forest_relink].
Qed.
End same_sets_facts.

(** ** Running monadic code *)

Section monad.
Context {S A B : Type}.
Implicit Types (m : M S A) (f : A → M S B).

Lemma bind_Ok m f s a s' : m s = Ok a s' → (m ≫= f) s = f a s'.
Proof. unfold mbind, M_bind. by intros ->. Qed.

Lemma bind_Fault m f s s' : m s = Fault s' → (m ≫= f) s = Fault s'.
Proof. unfold mbind, M_bind. by intros ->. Qed.

Lemma bind_Diverge m f s : m s = Diverge → (m ≫= f) s = Diverge.
Proof. unfold mbind, M_bind. by intros ->. Qed.

Lemma bind_Throw m f s e s' : m s = Throw e s' → (m ≫= f) s = Throw e s'.
Proof. unfold mbind, M_bind. by intros ->. Qed.

Lemma bind_Ok_inv m f s b s2 :
  (m ≫= f) s = Ok b s2 → ∃ a s1, m s = Ok a s1 ∧ f a s1 = Ok b s2.
Proof.
  unfold mbind, M_bind. destruct (m s) as [a s1| | |]; try done. eauto.
Qed.
End monad.

Lemma find_pair fuel p u v :
  forest p →
  0 ≤ u < Z.of_nat (length p) → 0 ≤ v < Z.of_nat (length p) →
  (length p ≤ fuel)%nat →
  ∃ ru rv p1 p2,
    find fuel u p = Ok ru p1 ∧ find fuel v p1 = Ok rv p2 ∧
    repr p u ru ∧ repr p v rv ∧ same_sets p p1 ∧ same_sets p p2.
Proof.
  intros Hf Hu Hv Hfuel.
  destruct (find_forest fuel p u) as (ru & p1 & Hfu & Hru & Hs1); [done..|].
  pose proof (same_sets_forest _ _ Hs1 Hf) as Hf1.
  destruct Hs1 as [Hl1 Hs1].
  destruct (find_forest fuel p1 v) as (rv & p2 & Hfv & Hrv & Hs2);
    [done|lia|lia|].
  exists ru, rv, p1, p2. split_and!; [done|done|done|by apply Hs1|done|].
  by apply same_sets_trans with p1.
Qed.

Lemma find_Ok_range fuel x p r p' :
  find fuel x p = Ok r p' →
  0 ≤ x < Z.of_nat (length p) ∧ 0 ≤ r < Z.of_nat (length p) ∧
  length p' = length p.
Proof.
  intros (l & Hl & _ & ->)%find_Ok. split; [|split].
  - by eapply path_start_range.
  - apply (vget_range p r r), (path_is_root p x l r Hl).
  - apply length_relink.
Qed.

Section primitives.
Context {S T A : Type} (get : S → T) (put : T → S → S).

Lemma zoom_Ok (m : M T A) s a t :
  m (get s) = Ok a t → zoom get put m s = Ok a (put t s).
Proof. unfold zoom. by intros ->. Qed.

Lemma zoom_Fault (m : M T A) s t :
  m (get s) = Fault t → zoom get put m s = Fault (put t s).
Proof. unfold zoom. by intros ->. Qed.

Lemma zoom_Ok_inv (m : M T A) s a s' :
  zoom get put m s = Ok a s' → ∃ t, m (get s) = Ok a t ∧ s' = put t s.
Proof.
  unfold zoom. destruct (m (get s)) as [a' t| | |]; try done.
  intros [= -> <-]. eauto.
Qed.
End primitives.

Lemma vread_Ok v i x : vget v i = Some x → vread i v = Ok x v.
Proof. unfold vread. by intros ->. Qed.

Lemma vread_Fault v i : vget v i = None → vread i v = Fault v.
Proof. unfold vread. by intros ->. Qed.

Lemma vwrite_Ok v i x :
  0 ≤ i < Z.of_nat (length v) → vwrite i x v = Ok tt (<[Z.to_nat i := x]> v).
Proof. intros Hi. unfold vwrite. by rewrite vset_in_range. Qed.

Lemma checked_Ok {S} z (s : S) :
  INT_MIN ≤ z ≤ INT_MAX → checked z s = Ok z s.
Proof. intros Hz. unfold checked. by rewrite decide_True. Qed.

Lemma checked_Fault {S} z (s : S) :
  ¬ INT_MIN ≤ z ≤ INT_MAX → checked (S := S) z s = Fault s.
Proof. intros Hz. unfold checked. by rewrite decide_False. Qed.

Lemma ret_Ok {S A} (a : A) (s : S) : (mret a : M S A) s = Ok a s.
Proof. done. Qed.

Create HintDb mrun discriminated.
#[local] Hint Resolve vread_Ok vwrite_Ok : mrun.
#[local] Hint Extern 1 (checked _ _ = Ok _ _) => apply checked_Ok; lia : mrun.
#[local] Hint Extern 1 (@mret _ _ _ _ _ = Ok _ _) => reflexivity : mrun.

(** One step of a sequence whose first command returns. *)
Ltac mstep := erewrite bind_Ok by (eauto with mrun).

Section UnionFind_cpp.
#[local] Abbreviation state := UnionFind.state.
#[local] Abbreviation parent := UnionFind.parent.
#[local] Abbreviation rank := UnionFind.rank.
#[local] Abbreviation set_parent := UnionFind.set_parent.
#[local] Abbreviation set_rank := UnionFind.set_rank.
Implicit Types (s : state).

Lemma UF_find_Ok fuel u s r p' :
  find fuel u (parent s) = Ok r p' →
  UnionFind.find fuel u s = Ok r (set_parent p' s).
Proof. apply zoom_Ok. Qed.

Lemma UF_rank_read s i a :
  vget (rank s) i = Some a → UnionFind.on_rank (vread i) s = Ok a s.
Proof.
  intros H. unfold UnionFind.on_rank.
  erewrite zoom_Ok by (by apply vread_Ok). by destruct s.
Qed.

Lemma UF_parent_write s i x :
  0 ≤ i < Z.of_nat (length (parent s)) →
  UnionFind.on_parent (vwrite i x) s
  = Ok tt (set_parent (<[Z.to_nat i := x]> (parent s)) s).
Proof. intros H. apply zoom_Ok. by apply vwrite_Ok. Qed.

Lemma UF_rank_write s i x :
  0 ≤ i < Z.of_nat (length (rank s)) →
  UnionFind.on_rank (vwrite i x) s
  = Ok tt (set_rank (<[Z.to_nat i := x]> (rank s)) s).
Proof. intros H. apply zoom_Ok. by apply vwrite_Ok. Qed.

Hint Resolve UF_find_Ok UF_rank_read UF_parent_write UF_rank_write : mrun.

Lemma UF_unionSets_result fuel u v s ru rv p1 p2 a b :
  find fuel u (parent s) = Ok ru p1 →
  find fuel v p1 = Ok rv p2 →
  vget (rank s) ru = Some a → vget (rank s) rv = Some b →
  UnionFind.unionSets fuel u v s =
    if decide (ru = rv) then Ok tt (set_parent p2 s)
    else if decide (a < b) then
      Ok tt (set_parent (<[Z.to_nat ru := rv]> p2) s)
    else if decide (a > b) then
      Ok tt (set_parent (<[Z.to_nat rv := ru]> p2) s)
    else if decide (INT_MIN ≤ a + 1 ≤ INT_MAX) then
      Ok tt {| UnionFind.parent := <[Z.to_nat rv := ru]> p2;
               UnionFind.rank := <[Z.to_nat ru := a + 1]> (rank s) |}
    else Fault (set_parent (<[Z.to_nat rv := ru]> p2) s).
Proof.
  intros Hu Hv Ha Hb.
  destruct (find_Ok_range _ _ _ _ _ Hu) as (_ & Hru & Hl1).
  destruct (find_Ok_range _ _ _ _ _ Hv) as (_ & Hrv & Hl2).
  pose proof (vget_range _ _ _ Ha) as Hra.
  unfold UnionFind.unionSets.
  mstep. mstep.
  destruct (decide (ru = rv)) as [->|Hne].
  { by rewrite decide_False by (intros ?; done). }
  rewrite decide_True by done.
  mstep. mstep.
  destruct (decide (a < b)) as [Hlt|Hge].
  { rewrite UF_parent_write by (simpl; lia). done. }
  mstep. mstep.
  destruct (decide (a > b)) as [Hgt|Hle].
  { rewrite UF_parent_write by (simpl; lia). done. }
  erewrite bind_Ok by (apply UF_parent_write; simpl; lia).
  mstep.
  destruct (decide (INT_MIN ≤ a + 1 ≤ INT_MAX)) as [Hin|Hout].
  - mstep. rewrite UF_rank_write by (simpl; lia). done.
  - erewrite bind_Fault by (by apply checked_Fault). done.
Qed.
End UnionFind_cpp.

(** ** Plain traversal computes the representative *)

Section root_of_facts.
Implicit Types (p : list Z) (x r : Z).

Lemma root_of_repr fuel p x r : root_of fuel p x = Some r → repr p x r.
Proof.
  revert x. induction fuel as [|fuel IH]; intros x H; [done|].
  simpl in H. destruct (vget p x) as [y|] eqn:Hx; [|done].
  case_decide as Hy.
  - injection H as <-. subst y. by apply repr_root.
  - eapply repr_step; [done|]. by apply IH.
Qed.

Lemma path_root_of fuel p x l r :
  path p x l r → (length l ≤ fuel)%nat → root_of fuel p x = Some r.
Proof.
  intros Hp. revert fuel.
  induction Hp as [x Hx|x y l r Hx Hne Hp IH]; intros fuel Hf;
    (destruct fuel as [|fuel]; [simpl in Hf; lia|]); simpl in *.
  - by rewrite Hx, decide_True.
  - rewrite Hx, decide_False by done. apply IH. lia.
Qed.

Lemma repr_root_of p x r :
  repr p x r ↔ root_of (length p) p x = Some r.
Proof.
  split; [|apply root_of_repr].
  intros [l Hl]. eapply path_root_of; [done|]. by eapply path_length.
Qed.

Lemma forestb_forest p : forestb p = true → forest p.
Proof.
  unfold forestb. rewrite forallb_forall. intros H x Hx.
  assert (In x (seqZ 0 (Z.of_nat (length p)))) as Hin.
  { apply list_elem_of_In, elem_of_seqZ. lia. }
  apply H, bool_decide_eq_true in Hin as [r Hr].
  exists r. by eapply root_of_repr.
Qed.

#[global] Instance repr_dec p x r : Decision (repr p x r).
Proof.
  refine (cast_if (decide (root_of (length p) p x = Some r)));
    by rewrite repr_root_of.
Defined.
#[global] Instance same_set_dec p x y : Decision (same_set p x y).
Proof.
  destruct (root_of (length p) p x) as [r|] eqn:Hx.
  - refine (cast_if (decide (repr p y r))).
    + exists r. split; [by apply repr_root_of|done].
    + intros (r' & Hx' & Hy'). apply repr_root_of in Hx'. congruence.
  - right. intros (r & Hx' & _). apply repr_root_of in Hx'. congruence.
Defined.
End root_of_facts.

(** ** [UnionFind::find] *)

Section UnionFind_find.
#[local] Abbreviation parent := UnionFind.parent.
#[local] Abbreviation rank := UnionFind.rank.
Implicit Types (s : UnionFind.state).

(** C3.  In a state whose [parent] vector is a forest, [find(x)] on a
    valid element [x] returns the root [r] that ends the parent chain [l]
    of [x]: [r] is on the chain, is its own parent, and is the only node
    of the chain that is.  The call leaves every node of the chain
    pointing at [r], and changes neither another entry of [parent] nor
    [rank]. *)
Theorem UF_find_compresses fuel s x :
  forest (parent s) →
  0 ≤ x < Z.of_nat (length (parent s)) →
  (length (parent s) ≤ fuel)%nat →
  ∃ l r p',
    path (parent s) x l r ∧
    is_root (parent s) r ∧ r ∈ l ∧
    (∀ i, i ∈ l → is_root (parent s) i → i = r) ∧
    UnionFind.find fuel x s
    = Ok r {| UnionFind.parent := p'; UnionFind.rank := rank s |} ∧
    length p' = length (parent s) ∧
    (∀ i, i ∈ l → vget p' i = Some r) ∧
    (∀ i, i ∉ l → vget p' i = vget (parent s) i).
Proof.
  intros Hf Hx Hfuel. destruct (Hf x Hx) as [r [l Hl]].
  exists l, r, (relink l r (parent s)).
  pose proof (path_range _ _ _ _ Hl) as Hrange.
  split_and!.
  - done.
  - by eapply path_is_root.
  - by eapply path_end_in.
  - intros i. by eapply path_root_unique.
  - apply UF_find_Ok, find_path; [done|].
    pose proof (path_length _ _ _ _ Hl). lia.
  - apply length_relink.
  - intros i Hi. by apply vget_relink_in.
  - intros i Hi. by apply vget_relink_notin.
Qed.

Lemma UF_find_compresses_witness :
  ∃ l r p',
    path [1; 2; 3; 3; 4] 0 l r ∧
    is_root [1; 2; 3; 3; 4] r ∧ r ∈ l ∧
    (∀ i, i ∈ l → is_root [1; 2; 3; 3; 4] i → i = r) ∧
    UnionFind.find 5 0
      {| UnionFind.parent := [1; 2; 3; 3; 4]; UnionFind.rank := [0; 0; 0; 1; 0] |}
    = Ok r {| UnionFind.parent := p'; UnionFind.rank := [0; 0; 0; 1; 0] |} ∧
    length p' = 5%nat ∧
    (∀ i, i ∈ l → vget p' i = Some r) ∧
    (∀ i, i ∉ l → vget p' i = vget [1; 2; 3; 3; 4] i).
Proof.
  apply (UF_find_compresses 5
           {| UnionFind.parent := [1; 2; 3; 3; 4];
              UnionFind.rank := [0; 0; 0; 1; 0] |} 0).
  - apply forestb_forest. reflexivity.
  - simpl. lia.
  - simpl. lia.
Defined.

Example UF_find_chain :
  UnionFind.find 5 0
    {| UnionFind.parent := [1; 2; 3; 3; 4]; UnionFind.rank := [0; 0; 0; 1; 0] |}
  = Ok 3 {| UnionFind.parent := [3; 3; 3; 3; 4]; UnionFind.rank := [0; 0; 0; 1; 0] |}.
Proof. reflexivity. Qed.
End UnionFind_find.

(** ** Merging two sets *)

Section merging.
Implicit Types (p q : list Z) (u v x y z r : Z).

Lemma same_set_refl p x :
  forest p → 0 ≤ x < Z.of_nat (length p) → same_set p x x.
Proof. intros Hf Hx. destruct (Hf x Hx) as [r Hr]. by exists r. Qed.

Lemma same_set_sym p x y : same_set p x y → same_set p y x.
Proof. intros (r & ? & ?). by exists r. Qed.

Lemma same_set_trans p x y z : same_set p x y → same_set p y z → same_set p x z.
Proof.
  intros (r & Hx & Hy) (r' & Hy' & Hz).
  assert (r = r') as <- by (by eapply repr_functional). by exists r.
Qed.

Lemma same_set_repr p x y r : repr p x r → same_set p x y ↔ repr p y r.
Proof.
  intros Hx. split.
  - intros (r' & Hx' & Hy).
    by assert (r = r') as -> by (by eapply repr_functional).
  - intros Hy. by exists r.
Qed.

Lemma same_sets_same_set p q x y :
  same_sets p q → same_set q x y ↔ same_set p x y.
Proof.
  intros [_ H]. unfold same_set. split; intros (r & Hx & Hy); exists r.
  - by rewrite <- !H.
  - by rewrite !H.
Qed.

(** Linking the root [a] under the root [b] joins their two sets and no
    other. *)
Lemma same_set_link p a b x y :
  forest p → is_root p a → is_root p b → a ≠ b →
  same_set (<[Z.to_nat a := b]> p) x y ↔
  same_set p x y ∨
  (repr p x a ∧ repr p y b) ∨ (repr p x b ∧ repr p y a).
Proof.
  intros Hf Ha Hb Hab. split.
  - intros (t & Hx & Hy).
    apply repr_link_inv in Hx as (sx & Hx & Htx); [|done..].
    apply repr_link_inv in Hy as (sy & Hy & Hty); [|done..].
    destruct (decide (sx = a)) as [->|Hsx], (decide (sy = a)) as [->|Hsy].
    + left. by exists a.
    + right. left. split; [done|congruence].
    + right. right. split; [congruence|done].
    + left. exists sx. split; [done|congruence].
  - intros [(r & Hx & Hy)|[[Hx Hy]|[Hx Hy]]].
    + eexists. split; by apply repr_link.
    + exists b. pose proof (repr_link _ _ _ _ _ Ha Hb Hab Hx) as Hx'.
      pose proof (repr_link _ _ _ _ _ Ha Hb Hab Hy) as Hy'.
      rewrite decide_True in Hx' by done.
      rewrite decide_False in Hy' by done. done.
    + exists b. pose proof (repr_link _ _ _ _ _ Ha Hb Hab Hx) as Hx'.
      pose proof (repr_link _ _ _ _ _ Ha Hb Hab Hy) as Hy'.
      rewrite decide_False in Hx' by done.
      rewrite decide_True in Hy' by done. done.
Qed.

Lemma merged_length p u v p' : merged p u v p' → length p' = length p.
Proof.
  intros (ru & rv & q & _ & _ & [Hl _] & [[_ ->]|[_ [->| ->]]]);
    rewrite ?length_insert; done.
Qed.

Lemma merged_forest p u v p' : forest p → merged p u v p' → forest p'.
Proof.
  intros Hf (ru & rv & q & Hu & Hv & Hq & Hcase).
  pose proof (same_sets_forest _ _ Hq Hf) as Hfq.
  assert (is_root q ru) as Hru
    by (eapply same_sets_is_root; [done|by eapply repr_is_root]).
  assert (is_root q rv) as Hrv
    by (eapply same_sets_is_root; [done|by eapply repr_is_root]).
  destruct Hcase as [[_ ->]|[Hne [->| ->]]]; [done|..];
    apply forest_link; auto.
Qed.

(** The partition after a merge: the old one with the sets of [u] and [v]
    joined. *)
Lemma merged_same_set p u v p' x y :
  forest p → merged p u v p' →
  same_set p' x y ↔
  same_set p x y ∨
  (same_set p x u ∧ same_set p y v) ∨ (same_set p x v ∧ same_set p y u).
Proof.
  intros Hf (ru & rv & q & Hu & Hv & Hq & Hcase).
  pose proof (same_sets_forest _ _ Hq Hf) as Hfq.
  assert (is_root q ru) as Hru
    by (eapply same_sets_is_root; [done|by eapply repr_is_root]).
  assert (is_root q rv) as Hrv
    by (eapply same_sets_is_root; [done|by eapply repr_is_root]).
  assert (∀ z, same_set p z u ↔ repr q z ru) as Hsu.
  { intros z. destruct Hq as [_ Hq]. rewrite Hq.
    split; [intros Hz%same_set_sym; by eapply same_set_repr|].
    intros Hz. by exists ru. }
  assert (∀ z, same_set p z v ↔ repr q z rv) as Hsv.
  { intros z. destruct Hq as [_ Hq]. rewrite Hq.
    split; [intros Hz%same_set_sym; by eapply same_set_repr|].
    intros Hz. by exists rv. }
  rewrite <- (same_sets_same_set p q x y Hq), !Hsu, !Hsv.
  destruct Hcase as [[<- ->]|[Hne [->| ->]]].
  - split; [tauto|]. intros [?|[[? ?]|[? ?]]]; [done|by exists ru..].
  - rewrite same_set_link by auto. tauto.
  - rewrite same_set_link by auto. tauto.
Qed.

Lemma merged_joins p u v p' :
  forest p → merged p u v p' → same_set p' u v.
Proof.
  intros Hf Hm. apply (merged_same_set p u v p' u v Hf Hm).
  destruct Hm as (ru & rv & q & Hu & Hv & _).
  right. left. split; [by exists ru|by exists rv].
Qed.

(** A merge of two elements of one set changes no set. *)
Lemma merged_same p u v p' z r :
  forest p → merged p u v p' → same_set p u v →
  repr p' z r ↔ repr p z r.
Proof.
  intros Hf (ru & rv & q & Hu & Hv & Hq & Hcase) Huv.
  assert (ru = rv) as Heq.
  { apply (same_set_repr p u v ru Hu) in Huv. by eapply repr_functional. }
  destruct Hcase as [[_ ->]|[Hne _]]; [|done].
  by destruct Hq as [_ Hq].
Qed.

(** A merge keeps the representative of the elements of the other sets. *)
Lemma merged_other p u v p' z r :
  forest p → merged p u v p' →
  ¬ same_set p z u → ¬ same_set p z v →
  repr p z r → repr p' z r.
Proof.
  intros Hf (ru & rv & q & Hu & Hv & Hq & Hcase) Hzu Hzv Hz.
  pose proof (same_sets_forest _ _ Hq Hf) as Hfq.
  assert (is_root q ru) as Hru
    by (eapply same_sets_is_root; [done|by eapply repr_is_root]).
  assert (is_root q rv) as Hrv
    by (eapply same_sets_is_root; [done|by eapply repr_is_root]).
  assert (r ≠ ru) as Hr1 by (intros ->; apply Hzu; by exists ru).
  assert (r ≠ rv) as Hr2 by (intros ->; apply Hzv; by exists rv).
  assert (repr q z r) as Hzq by (by apply Hq).
  destruct Hcase as [[_ ->]|[Hne [->| ->]]]; [done|..].
  - pose proof (repr_link q ru rv z r Hru Hrv Hne Hzq) as H.
    by rewrite decide_False in H.
  - pose proof (repr_link q rv ru z r Hrv Hru (not_eq_sym Hne) Hzq) as H.
    by rewrite decide_False in H.
Qed.
End merging.

(** ** Inversion of the primitive commands *)

Lemma vread_Ok_inv v i x v' : vread i v = Ok x v' → v' = v ∧ vget v i = Some x.
Proof. unfold vread. destruct (vget v i); [|done]. by intros [= -> ->]. Qed.

Lemma vwrite_Ok_inv v i x u v' :
  vwrite i x v = Ok u v' →
  0 ≤ i < Z.of_nat (length v) ∧ v' = <[Z.to_nat i := x]> v.
Proof.
  unfold vwrite. destruct (vset v i x) eqn:E; [|done].
  intros [= _ <-]. by apply vset_Some.
Qed.

Lemma checked_Ok_inv {S} z z' (s s' : S) :
  checked z s = Ok z' s' → z' = z ∧ s' = s ∧ INT_MIN ≤ z ≤ INT_MAX.
Proof. unfold checked. case_decide; [|done]. by intros [= -> ->]. Qed.

Lemma finds_same_sets fuel p u v ru rv p1 p2 :
  forest p →
  find fuel u p = Ok ru p1 → find fuel v p1 = Ok rv p2 →
  repr p u ru ∧ repr p v rv ∧ same_sets p p1 ∧ same_sets p p2 ∧
  is_root p2 ru ∧ is_root p2 rv.
Proof.
  intros Hf Hu Hv.
  destruct (find_Ok_forest _ _ _ _ _ Hf Hu) as (Hru & Hs1 & Hf1).
  destruct (find_Ok_forest _ _ _ _ _ Hf1 Hv) as (Hrv & Hs2 & Hf2).
  assert (same_sets p p2) as Hs by (by eapply same_sets_trans).
  assert (repr p v rv) as Hrv' by (by apply Hs1).
  split_and!; try done.
  - eapply same_sets_is_root; [done|by eapply repr_is_root].
  - eapply same_sets_is_root; [done|by eapply repr_is_root].
Qed.

(** ** [UnionFind::unionSets], [unionBySize] and [connected] *)

Section UnionFind_union.
#[local] Abbreviation state := UnionFind.state.
#[local] Abbreviation parent := UnionFind.parent.
#[local] Abbreviation rank := UnionFind.rank.
#[local] Abbreviation set_parent := UnionFind.set_parent.
#[local] Abbreviation set_rank := UnionFind.set_rank.
Implicit Types (s : state).

Lemma UF_find_inv fuel u s r s' :
  UnionFind.find fuel u s = Ok r s' →
  ∃ p', find fuel u (parent s) = Ok r p' ∧ s' = set_parent p' s.
Proof. apply zoom_Ok_inv. Qed.

Lemma UF_two_finds {A} fuel u v (k : Z → Z → M state A) s a s' :
  (ru ← UnionFind.find fuel u; rv ← UnionFind.find fuel v; k ru rv) s = Ok a s' →
  ∃ ru rv p1 p2,
    find fuel u (parent s) = Ok ru p1 ∧ find fuel v p1 = Ok rv p2 ∧
    k ru rv (set_parent p2 s) = Ok a s'.
Proof.
  intros H.
  apply bind_Ok_inv in H as (ru & s1 & Hu & H).
  apply UF_find_inv in Hu as (p1 & Hu & ->).
  apply bind_Ok_inv in H as (rv & s2 & Hv & H).
  apply UF_find_inv in Hv as (p2 & Hv & ->).
  by exists ru, rv, p1, p2.
Qed.

Lemma UF_rank_read_inv s i a s' :
  UnionFind.on_rank (vread i) s = Ok a s' → s' = s ∧ vget (rank s) i = Some a.
Proof.
  intros (t & [-> Hi]%vread_Ok_inv & ->)%zoom_Ok_inv. by destruct s.
Qed.

Lemma UF_unionSets_Ok fuel u v s s' :
  UnionFind.unionSets fuel u v s = Ok tt s' →
  ∃ ru rv p1 p2,
    find fuel u (parent s) = Ok ru p1 ∧ find fuel v p1 = Ok rv p2 ∧
    (ru = rv ∧ s' = set_parent p2 s ∨
     ru ≠ rv ∧ ∃ a b,
       vget (rank s) ru = Some a ∧ vget (rank s) rv = Some b ∧
       (a < b ∧ s' = set_parent (<[Z.to_nat ru := rv]> p2) s ∨
        a > b ∧ s' = set_parent (<[Z.to_nat rv := ru]> p2) s ∨
        a = b ∧ a + 1 ≤ INT_MAX ∧
        s' = {| UnionFind.parent := <[Z.to_nat rv := ru]> p2;
                UnionFind.rank := <[Z.to_nat ru := a + 1]> (rank s) |})).
Proof.
  intros H. pose proof H as H0.
  apply UF_two_finds in H0 as (ru & rv & p1 & p2 & Hu & Hv & H0).
  exists ru, rv, p1, p2. split; [done|]. split; [done|].
  destruct (decide (ru = rv)) as [->|Hne].
  { left. rewrite decide_False in H0 by (intros ?; done).
    by injection H0 as <-. }
  right. split; [done|].
  rewrite decide_True in H0 by done.
  apply bind_Ok_inv in H0 as (a & s1 & [-> Ha]%UF_rank_read_inv & H0).
  apply bind_Ok_inv in H0 as (b & s2 & [-> Hb]%UF_rank_read_inv & _).
  simpl in Ha, Hb. exists a, b. split; [done|]. split; [done|].
  rewrite (UF_unionSets_result _ _ _ _ _ _ _ _ _ _ Hu Hv Ha Hb) in H.
  rewrite decide_False in H by done.
  repeat case_decide; try done; injection H as <-.
  - by left.
  - right. by left.
  - right. right. split_and!; [lia|lia|done].
Qed.

Lemma UF_unionSets_merged fuel u v s s' :
  forest (parent s) →
  UnionFind.unionSets fuel u v s = Ok tt s' →
  merged (parent s) u v (parent s') ∧ length (rank s') = length (rank s).
Proof.
  intros Hf (ru & rv & p1 & p2 & Hu & Hv & Hcase)%UF_unionSets_Ok.
  destruct (finds_same_sets _ _ _ _ _ _ _ _ Hf Hu Hv)
    as (Hru & Hrv & _ & Hs & _ & _).
  destruct Hcase as [[-> ->]|[Hne (a & b & Ha & Hb & Hcase)]].
  - split; [|done]. exists rv, rv, p2. split_and!; try done. by left.
  - destruct Hcase as [[_ ->]|[[_ ->]|(_ & _ & ->)]]; simpl.
    + split; [|done]. exists ru, rv, p2. split_and!; try done.
      right. split; [done|]. by left.
    + split; [|done]. exists ru, rv, p2. split_and!; try done.
      right. split; [done|]. by right.
    + split; [|by rewrite length_insert].
      exists ru, rv, p2. split_and!; try done.
      right. split; [done|]. by right.
Qed.
Lemma UF_unionSets_byRank_true fuel u v s :
  UnionFind.unionSets_byRank fuel u v true s = UnionFind.unionSets fuel u v s.
Proof. done. Qed.

Lemma UF_unionSets_byRank_false fuel u v s ru rv p1 p2 :
  find fuel u (parent s) = Ok ru p1 →
  find fuel v p1 = Ok rv p2 →
  UnionFind.unionSets_byRank fuel u v false s =
    if decide (ru = rv) then Ok tt (set_parent p2 s)
    else Ok tt (set_parent (<[Z.to_nat rv := ru]> p2) s).
Proof.
  intros Hu Hv.
  destruct (find_Ok_range _ _ _ _ _ Hu) as (_ & Hru & Hl1).
  destruct (find_Ok_range _ _ _ _ _ Hv) as (_ & Hrv & Hl2).
  unfold UnionFind.unionSets_byRank.
  erewrite bind_Ok by (by apply UF_find_Ok).
  erewrite bind_Ok by (by apply UF_find_Ok).
  destruct (decide (ru = rv)) as [->|Hne].
  { by rewrite decide_False by (intros ?; done). }
  rewrite decide_True by done.
  rewrite UF_parent_write by (simpl; lia). done.
Qed.

Lemma UF_unionSets_byRank_merged fuel u v byRank s s' :
  forest (parent s) →
  UnionFind.unionSets_byRank fuel u v byRank s = Ok tt s' →
  merged (parent s) u v (parent s') ∧ length (rank s') = length (rank s).
Proof.
  intros Hf H. destruct byRank; [by apply UF_unionSets_merged in H|].
  pose proof H as H0.
  apply UF_two_finds in H0 as (ru & rv & p1 & p2 & Hu & Hv & _).
  rewrite (UF_unionSets_byRank_false _ _ _ _ _ _ _ _ Hu Hv) in H.
  destruct (finds_same_sets _ _ _ _ _ _ _ _ Hf Hu Hv)
    as (Hru & Hrv & _ & Hs & _ & _).
  case_decide as Heq; injection H as <-; (split; [|done]);
    exists ru, rv, p2; split_and!; try done.
  - by left.
  - right. split; [done|]. by right.
Qed.

(** [unionBySize] works on the object and on the vector of the caller. *)
Lemma UF_this_find_Ok fuel u s (size : list Z) r p' :
  find fuel u (parent s) = Ok r p' →
  UnionFind.on_this (UnionFind.find fuel u) (s, size)
  = Ok r (set_parent p' s, size).
Proof.
  intros H. unfold UnionFind.on_this.
  erewrite zoom_Ok by (by apply UF_find_Ok). done.
Qed.

Lemma UF_size_read s (size : list Z) i a :
  vget size i = Some a →
  UnionFind.on_size (vread i) (s, size) = Ok a (s, size).
Proof.
  intros H. unfold UnionFind.on_size.
  erewrite zoom_Ok by (by apply vread_Ok). done.
Qed.

Lemma UF_size_write s (size : list Z) i x :
  0 ≤ i < Z.of_nat (length size) →
  UnionFind.on_size (vwrite i x) (s, size)
  = Ok tt (s, <[Z.to_nat i := x]> size).
Proof.
  intros H. unfold UnionFind.on_size.
  erewrite zoom_Ok by (by apply vwrite_Ok). done.
Qed.

Lemma UF_this_parent_write s (size : list Z) i x :
  0 ≤ i < Z.of_nat (length (parent s)) →
  UnionFind.on_this (UnionFind.on_parent (vwrite i x)) (s, size)
  = Ok tt (set_parent (<[Z.to_nat i := x]> (parent s)) s, size).
Proof.
  intros H. unfold UnionFind.on_this.
  erewrite zoom_Ok by (by apply UF_parent_write). done.
Qed.

Lemma UF_unionBySize_result fuel u v s size ru rv p1 p2 a b :
  find fuel u (parent s) = Ok ru p1 →
  find fuel v p1 = Ok rv p2 →
  vget size ru = Some a → vget size rv = Some b →
  UnionFind.unionBySize fuel u v (s, size) =
    if decide (ru = rv) then Ok tt (set_parent p2 s, size)
    else if decide (a < b) then
      if decide (INT_MIN ≤ b + a ≤ INT_MAX) then
        Ok tt (set_parent (<[Z.to_nat ru := rv]> p2) s,
               <[Z.to_nat rv := b + a]> size)
      else Fault (set_parent (<[Z.to_nat ru := rv]> p2) s, size)
    else
      if decide (INT_MIN ≤ a + b ≤ INT_MAX) then
        Ok tt (set_parent (<[Z.to_nat rv := ru]> p2) s,
               <[Z.to_nat ru := a + b]> size)
      else Fault (set_parent (<[Z.to_nat rv := ru]> p2) s, size).
Proof.
  intros Hu Hv Ha Hb.
  destruct (find_Ok_range _ _ _ _ _ Hu) as (_ & Hru & Hl1).
  destruct (find_Ok_range _ _ _ _ _ Hv) as (_ & Hrv & Hl2).
  pose proof (vget_range _ _ _ Ha) as Hra.
  pose proof (vget_range _ _ _ Hb) as Hrb.
  unfold UnionFind.unionBySize.
  erewrite bind_Ok by (by apply UF_this_find_Ok).
  erewrite bind_Ok by (by apply UF_this_find_Ok).
  destruct (decide (ru = rv)) as [->|Hne].
  { by rewrite decide_False by (intros ?; done). }
  rewrite decide_True by done.
  erewrite bind_Ok by (by apply UF_size_read).
  erewrite bind_Ok by (by apply UF_size_read).
  destruct (decide (a < b)) as [Hlt|Hge].
  - erewrite bind_Ok by (apply UF_this_parent_write; simpl; lia).
    erewrite bind_Ok by (by apply UF_size_read).
    erewrite bind_Ok by (by apply UF_size_read).
    case_decide as Hin.
    + erewrite bind_Ok by (by apply checked_Ok).
      by rewrite UF_size_write.
    + by erewrite bind_Fault by (by apply checked_Fault).
  - erewrite bind_Ok by (apply UF_this_parent_write; simpl; lia).
    erewrite bind_Ok by (by apply UF_size_read).
    erewrite bind_Ok by (by apply UF_size_read).
    case_decide as Hin.
    + erewrite bind_Ok by (by apply checked_Ok).
      by rewrite UF_size_write.
    + by erewrite bind_Fault by (by apply checked_Fault).
Qed.

Lemma UF_unionBySize_Ok fuel u v s size s' size' :
  UnionFind.unionBySize fuel u v (s, size) = Ok tt (s', size') →
  ∃ ru rv p1 p2,
    find fuel u (parent s) = Ok ru p1 ∧ find fuel v p1 = Ok rv p2 ∧
    (ru = rv ∧ s' = set_parent p2 s ∧ size' = size ∨
     ru ≠ rv ∧ ∃ a b,
       vget size ru = Some a ∧ vget size rv = Some b ∧
       INT_MIN ≤ a + b ≤ INT_MAX ∧
       (a < b ∧ s' = set_parent (<[Z.to_nat ru := rv]> p2) s ∧
        size' = <[Z.to_nat rv := b + a]> size ∨
        ¬ a < b ∧ s' = set_parent (<[Z.to_nat rv := ru]> p2) s ∧
        size' = <[Z.to_nat ru := a + b]> size)).
Proof.
  intros H. pose proof H as H0. unfold UnionFind.unionBySize in H0.
  apply bind_Ok_inv in H0 as (ru & [s1 z1] & Hu & H0).
  apply zoom_Ok_inv in Hu as (t1 & (p1 & Hu & ->)%UF_find_inv & [= -> ->]).
  apply bind_Ok_inv in H0 as (rv & [s2 z2] & Hv & H0).
  apply zoom_Ok_inv in Hv as (t2 & (p2 & Hv & ->)%UF_find_inv & [= -> ->]).
  simpl in *.
  exists ru, rv, p1, p2. split; [done|]. split; [done|].
  destruct (decide (ru = rv)) as [->|Hne].
  { left. rewrite decide_False in H0 by (intros ?; done).
    by injection H0 as <- <-. }
  right. split; [done|].
  rewrite decide_True in H0 by done.
  apply bind_Ok_inv in H0 as (a & [s3 z3] & Ha & H0).
  apply zoom_Ok_inv in Ha as (t3 & [-> Ha]%vread_Ok_inv & [= -> ->]).
  apply bind_Ok_inv in H0 as (b & [s4 z4] & Hb & _).
  apply zoom_Ok_inv in Hb as (t4 & [-> Hb]%vread_Ok_inv & [= -> ->]).
  simpl in *. exists a, b. split; [done|]. split; [done|].
  rewrite (UF_unionBySize_result _ _ _ _ _ _ _ _ _ _ _ Hu Hv Ha Hb) in H.
  rewrite decide_False in H by done.
  repeat case_decide; try done; injection H as <- <-.
  - split; [lia|]. by left.
  - split; [lia|]. by right.
Qed.

Lemma UF_unionBySize_merged fuel u v s size s' size' :
  forest (parent s) →
  UnionFind.unionBySize fuel u v (s, size) = Ok tt (s', size') →
  merged (parent s) u v (parent s') ∧ rank s' = rank s ∧
  length size' = length size.
Proof.
  intros Hf (ru & rv & p1 & p2 & Hu & Hv & Hcase)%UF_unionBySize_Ok.
  destruct (finds_same_sets _ _ _ _ _ _ _ _ Hf Hu Hv)
    as (Hru & Hrv & _ & Hs & _ & _).
  destruct Hcase as [(-> & -> & ->)|[Hne (a & b & Ha & Hb & _ & Hcase)]].
  - split_and!; try done. exists rv, rv, p2. split_and!; try done. by left.
  - destruct Hcase as [(_ & -> & ->)|(_ & -> & ->)];
      (split_and!; [|done|by rewrite length_insert]);
      exists ru, rv, p2; split_and!; try done.
    + right. split; [done|]. by left.
    + right. split; [done|]. by right.
Qed.

(** [connected] in either order of evaluation. *)
Lemma UF_connected_Ok ord fuel u v s b s' :
  forest (parent s) →
  UnionFind.connected ord fuel u v s = Ok b s' →
  ∃ ru rv p',
    repr (parent s) u ru ∧ repr (parent s) v rv ∧
    b = bool_decide (ru = rv) ∧
    s' = set_parent p' s ∧ same_sets (parent s) p'.
Proof.
  intros Hf H. destruct ord; unfold UnionFind.connected in H.
  - apply UF_two_finds in H as (ru & rv & p1 & p2 & Hu & Hv & [= <- <-]).
    destruct (finds_same_sets _ _ _ _ _ _ _ _ Hf Hu Hv)
      as (Hru & Hrv & _ & Hs2 & _ & _).
    by exists ru, rv, p2.
  - apply UF_two_finds in H as (rv & ru & p1 & p2 & Hv & Hu & [= <- <-]).
    destruct (finds_same_sets _ _ _ _ _ _ _ _ Hf Hv Hu)
      as (Hrv & Hru & _ & Hs2 & _ & _).
    by exists ru, rv, p2.
Qed.

Lemma UF_connected_total ord fuel u v s :
  forest (parent s) →
  0 ≤ u < Z.of_nat (length (parent s)) →
  0 ≤ v < Z.of_nat (length (parent s)) →
  (length (parent s) ≤ fuel)%nat →
  ∃ b s', UnionFind.connected ord fuel u v s = Ok b s'.
Proof.
  intros Hf Hu Hv Hfuel. destruct ord; unfold UnionFind.connected.
  - destruct (find_pair fuel _ u v Hf Hu Hv Hfuel)
      as (ru & rv & p1 & p2 & Hfu & Hfv & _).
    erewrite bind_Ok by (by apply UF_find_Ok).
    erewrite bind_Ok by (by apply UF_find_Ok). by eexists _, _.
  - destruct (find_pair fuel _ v u Hf Hv Hu Hfuel)
      as (rv & ru & p1 & p2 & Hfv & Hfu & _).
    erewrite bind_Ok by (by apply UF_find_Ok).
    erewrite bind_Ok by (by apply UF_find_Ok). by eexists _, _.
Qed.

(** [connected] answers whether the two elements are in one set, and
    changes no set. *)
Lemma UF_connected_spec ord fuel u v s :
  forest (parent s) →
  0 ≤ u < Z.of_nat (length (parent s)) →
  0 ≤ v < Z.of_nat (length (parent s)) →
  (length (parent s) ≤ fuel)%nat →
  ∃ b p',
    UnionFind.connected ord fuel u v s = Ok b (set_parent p' s) ∧
    same_sets (parent s) p' ∧
    (b = true ↔ same_set (parent s) u v).
Proof.
  intros Hf Hu Hv Hfuel.
  destruct (UF_connected_total ord fuel u v s) as (b & s' & H); [done..|].
  destruct (UF_connected_Ok _ _ _ _ _ _ _ Hf H)
    as (ru & rv & p' & Hru & Hrv & -> & -> & Hs).
  exists (bool_decide (ru = rv)), p'. split_and!; [done..|].
  rewrite bool_decide_eq_true. split.
  - intros ->. by exists rv.
  - intros Hsame. apply (same_set_repr _ _ _ _ Hru) in Hsame.
    by eapply repr_functional.
Qed.
End UnionFind_union.

(** ** Construction *)

Section lenses.
Context {S T : Type} (get : S → T) (put : T → S → S).
Hypothesis get_put : ∀ t s, get (put t s) = t.
Hypothesis put_put : ∀ t t' s, put t (put t' s) = put t s.
Hypothesis put_get : ∀ s, put (get s) s = s.

Lemma for_range_zoom k i (body : Z → M T unit) s :
  for_range k i (λ j, zoom get put (body j)) s
  = zoom get put (for_range k i body) s.
Proof.
  revert i s. induction k as [|k IH]; intros i s.
  - unfold zoom. simpl. unfold mret, M_ret. by rewrite put_get.
  - simpl. unfold mbind, M_bind. unfold zoom at 1 3.
    destruct (body i (get s)) as [[] t|e t|t|]; try done.
    rewrite IH. unfold zoom. rewrite get_put.
    destruct (for_range k (i + 1) body t); by rewrite ?put_put.
Qed.
End lenses.

Lemma for_range_identity k i v :
  0 ≤ i → i + Z.of_nat k ≤ Z.of_nat (length v) →
  ∃ v', for_range k i (λ j, vwrite j j) v = Ok tt v' ∧
        length v' = length v ∧
        ∀ j, vget v' j = if decide (i ≤ j < i + Z.of_nat k) then Some j
                         else vget v j.
Proof.
  revert i v. induction k as [|k IH]; intros i v Hi Hk.
  - exists v. split_and!; [done..|]. intros j. by rewrite decide_False by lia.
  - destruct (IH (i + 1) (<[Z.to_nat i := i]> v)) as (v' & Hrun & Hlen & Hget);
      [lia|rewrite length_insert; lia|].
    exists v'. split_and!.
    + simpl. erewrite bind_Ok by (apply vwrite_Ok; lia). done.
    + by rewrite Hlen, length_insert.
    + intros j. rewrite Hget.
      destruct (decide (j = i)) as [->|Hne].
      * rewrite decide_False, decide_True by lia.
        apply vget_insert_eq. lia.
      * rewrite vget_insert_ne by lia.
        repeat case_decide; first [done|lia].
Qed.

Lemma vget_seqZ n j :
  vget (seqZ 0 n) j = if decide (0 ≤ j < n) then Some j else None.
Proof.
  unfold vget. case_decide as Hj.
  - case_decide as Hn.
    + rewrite lookup_seqZ_lt by lia. f_equal. lia.
    + apply lookup_seqZ_ge. lia.
  - by rewrite decide_False by lia.
Qed.

Lemma identity_loop n :
  0 ≤ n →
  for_range (Z.to_nat n) 0 (λ j, vwrite j j) (replicate (Z.to_nat n) 0)
  = Ok tt (seqZ 0 n).
Proof.
  intros Hn.
  destruct (for_range_identity (Z.to_nat n) 0 (replicate (Z.to_nat n) 0))
    as (v' & -> & Hlen & Hget); [lia|rewrite length_replicate; lia|].
  f_equal. apply vget_ext.
  - by rewrite Hlen, length_replicate, length_seqZ.
  - intros j. rewrite Hget, vget_seqZ.
    repeat case_decide; first [done|lia|idtac].
    apply vget_None. rewrite length_replicate. lia.
Qed.

Lemma resize_empty n x :
  0 ≤ n → resize n x [] = Ok tt (replicate (Z.to_nat n) x).
Proof.
  intros Hn. unfold resize. rewrite decide_False by lia.
  rewrite take_nil. simpl. by rewrite Nat.sub_0_r.
Qed.

Lemma forest_seqZ n : forest (seqZ 0 n).
Proof.
  intros x Hx. rewrite length_seqZ in Hx. exists x. apply repr_root.
  unfold is_root. rewrite vget_seqZ. by rewrite decide_True by lia.
Qed.

Lemma repr_seqZ n x r : repr (seqZ 0 n) x r → r = x.
Proof.
  intros Hr. pose proof (repr_range _ _ _ Hr) as Hx.
  rewrite length_seqZ in Hx.
  eapply repr_functional; [done|]. apply repr_root.
  unfold is_root. rewrite vget_seqZ. by rewrite decide_True by lia.
Qed.

(** The constructor of [UnionFind.cpp]. *)
Lemma UF_new n :
  0 ≤ n →
  UnionFind.UnionFind n UnionFind.empty
  = Ok tt {| UnionFind.parent := seqZ 0 n;
             UnionFind.rank := replicate (Z.to_nat n) 0 |}.
Proof.
  intros Hn. unfold UnionFind.UnionFind.
  erewrite bind_Ok by (apply zoom_Ok; by apply resize_empty).
  erewrite bind_Ok by (apply zoom_Ok; by apply resize_empty).
  unfold UnionFind.on_parent.
  rewrite for_range_zoom by (done || by intros []).
  erewrite zoom_Ok by (by apply identity_loop). done.
Qed.

Lemma UF_new_negative n :
  n < 0 →
  UnionFind.UnionFind n UnionFind.empty = Throw length_error UnionFind.empty.
Proof.
  intros Hn. unfold UnionFind.UnionFind.
  erewrite bind_Throw; [done|].
  unfold UnionFind.on_parent, zoom, resize. simpl.
  by rewrite decide_True.
Qed.

Lemma UF_new_inv n s :
  UnionFind.UnionFind n UnionFind.empty = Ok tt s →
  0 ≤ n ∧ s = {| UnionFind.parent := seqZ 0 n;
                 UnionFind.rank := replicate (Z.to_nat n) 0 |}.
Proof.
  intros H. destruct (decide (n < 0)) as [Hn|Hn].
  - by rewrite UF_new_negative in H.
  - rewrite UF_new in H by lia. injection H as <-. split; [lia|done].
Qed.

(** ** The states of a [UnionFind] object *)

Section UnionFind_states.
#[local] Abbreviation parent := UnionFind.parent.
#[local] Abbreviation rank := UnionFind.rank.
Implicit Types (s : UnionFind.state).

(** What one call does to the partition: nothing, or one merge. *)
Lemma UF_run_step fuel c s s' :
  forest (parent s) →
  UnionFind.run fuel c s = Ok tt s' →
  (same_sets (parent s) (parent s') ∨ ∃ u v, merged (parent s) u v (parent s')) ∧
  length (rank s') = length (rank s).
Proof.
  intros Hf H. destruct c as [u|u v|u v byRank|u v size|ord u v]; simpl in H.
  - apply bind_Ok_inv in H as (r & s1 & (p' & Hu & ->)%UF_find_inv & [= <-]).
    destruct (find_Ok_forest _ _ _ _ _ Hf Hu) as (_ & Hs & _).
    split; [by left|done].
  - apply UF_unionSets_merged in H as [Hm Hl]; [|done].
    split; [right; by exists u, v|done].
  - apply UF_unionSets_byRank_merged in H as [Hm Hl]; [|done].
    split; [right; by exists u, v|done].
  - apply zoom_Ok_inv in H as ([s1 size'] & H & ->).
    apply UF_unionBySize_merged in H as (Hm & Hr & _); [|done].
    split; [right; by exists u, v|]. simpl. by rewrite Hr.
  - apply bind_Ok_inv in H as (b & s1 & H & [= <-]).
    apply UF_connected_Ok in H as (ru & rv & p' & _ & _ & _ & -> & Hs); [|done].
    split; [by left|done].
Qed.

Lemma UF_run_wf n fuel c s s' :
  UnionFind.wf n s → UnionFind.run fuel c s = Ok tt s' → UnionFind.wf n s'.
Proof.
  intros (Hn & Hlp & Hlr & Hf) H.
  destruct (UF_run_step _ _ _ _ Hf H) as [[Hs|(u & v & Hm)] Hl].
  - split_and!; [done| |congruence|by eapply same_sets_forest].
    destruct Hs as [-> _]. done.
  - split_and!; [done| |congruence|by eapply merged_forest].
    by rewrite (merged_length _ _ _ _ Hm).
Qed.

Lemma UF_new_wf n s :
  UnionFind.UnionFind n UnionFind.empty = Ok tt s → UnionFind.wf n s.
Proof.
  intros [Hn ->]%UF_new_inv. split_and!; simpl.
  - done.
  - by rewrite length_seqZ.
  - by rewrite length_replicate.
  - apply forest_seqZ.
Qed.

Lemma UF_reachable_wf n s : UnionFind.reachable n s → UnionFind.wf n s.
Proof.
  induction 1 as [s H|s fuel c s' _ IH H].
  - by apply UF_new_wf.
  - by eapply UF_run_wf.
Qed.

Lemma UF_find_total fuel s x :
  forest (parent s) →
  0 ≤ x < Z.of_nat (length (parent s)) →
  (length (parent s) ≤ fuel)%nat →
  ∃ r p', UnionFind.find fuel x s = Ok r (UnionFind.set_parent p' s) ∧
          repr (parent s) x r ∧ same_sets (parent s) p'.
Proof.
  intros Hf Hx Hfuel.
  destruct (find_forest fuel _ x Hf Hx Hfuel) as (r & p' & H & Hr & Hs).
  exists r, p'. split_and!; [by apply UF_find_Ok|done..].
Qed.

(** C4.  In every state reached from [UnionFind(n)] by calls of [find],
    of the unions (by rank, without rank, by size) and of [connected],
    the parent vector has no cycle: from every element the traversal of
    [parent] ends, within [n] steps, at a root of the universe; every
    element has exactly one root, so that the sets of the roots partition
    [{0, ..., n-1}]; [connected] returns [true] exactly for two elements
    with the same root; and [find] returns, whatever the shape of the
    chains, as soon as the recursion may be as deep as [n]. *)
Theorem UF_reachable_forest n s :
  UnionFind.reachable n s →
  0 ≤ n ∧ length (parent s) = Z.to_nat n ∧
  (∀ x, 0 ≤ x < n →
     ∃ r, root_of (Z.to_nat n) (parent s) x = Some r ∧
          repr (parent s) x r ∧ is_root (parent s) r ∧ 0 ≤ r < n ∧
          ∀ r', repr (parent s) x r' → r' = r) ∧
  (∀ ord fuel x y,
     0 ≤ x < n → 0 ≤ y < n → (Z.to_nat n ≤ fuel)%nat →
     ∃ b s', UnionFind.connected ord fuel x y s = Ok b s' ∧
             (b = true ↔ same_set (parent s) x y)) ∧
  (∀ fuel x,
     0 ≤ x < n → (Z.to_nat n ≤ fuel)%nat →
     ∃ r s', UnionFind.find fuel x s = Ok r s' ∧ repr (parent s) x r).
Proof.
  intros (Hn & Hlp & Hlr & Hf)%UF_reachable_wf.
  split; [done|]. split; [done|]. split_and!.
  - intros x Hx. destruct (Hf x) as [r Hr]; [lia|].
    exists r. split_and!.
    + rewrite <- Hlp. by apply repr_root_of.
    + done.
    + by eapply repr_is_root.
    + apply repr_root_range in Hr. lia.
    + apply repr_root_range in Hr. lia.
    + intros r' Hr'. by eapply repr_functional.
  - intros ord fuel x y Hx Hy Hfuel.
    destruct (UF_connected_spec ord fuel x y s) as (b & p' & H & _ & Hb);
      [done|lia..|].
    by exists b, (UnionFind.set_parent p' s).
  - intros fuel x Hx Hfuel.
    destruct (UF_find_total fuel s x) as (r & p' & H & Hr & _); [done|lia..|].
    by exists r, (UnionFind.set_parent p' s).
Qed.

Lemma UF_reachable_example :
  UnionFind.reachable 4
    {| UnionFind.parent := [0; 0; 0; 3]; UnionFind.rank := [1; 0; 0; 0] |}.
Proof.
  apply UnionFind.reachable_call
    with (s := {| UnionFind.parent := [0; 0; 2; 3]; UnionFind.rank := [1; 0; 0; 0] |})
         (fuel := 4%nat) (c := UnionFind.call_unionSets 2 1); [|reflexivity].
  apply UnionFind.reachable_call
    with (s := {| UnionFind.parent := [0; 1; 2; 3]; UnionFind.rank := [0; 0; 0; 0] |})
         (fuel := 4%nat) (c := UnionFind.call_unionSets 0 1); [|reflexivity].
  apply UnionFind.reachable_new. reflexivity.
Qed.

Lemma UF_reachable_forest_witness :
  0 ≤ 4 ∧ length [0; 0; 0; 3] = Z.to_nat 4 ∧
  (∀ x, 0 ≤ x < 4 →
     ∃ r, root_of (Z.to_nat 4) [0; 0; 0; 3] x = Some r ∧
          repr [0; 0; 0; 3] x r ∧ is_root [0; 0; 0; 3] r ∧ 0 ≤ r < 4 ∧
          ∀ r', repr [0; 0; 0; 3] x r' → r' = r) ∧
  (∀ ord fuel x y,
     0 ≤ x < 4 → 0 ≤ y < 4 → (Z.to_nat 4 ≤ fuel)%nat →
     ∃ b s', UnionFind.connected ord fuel x y
               {| UnionFind.parent := [0; 0; 0; 3]; UnionFind.rank := [1; 0; 0; 0] |}
             = Ok b s' ∧
             (b = true ↔ same_set [0; 0; 0; 3] x y)) ∧
  (∀ fuel x,
     0 ≤ x < 4 → (Z.to_nat 4 ≤ fuel)%nat →
     ∃ r s', UnionFind.find fuel x
               {| UnionFind.parent := [0; 0; 0; 3]; UnionFind.rank := [1; 0; 0; 0] |}
             = Ok r s' ∧ repr [0; 0; 0; 3] x r).
Proof.
  apply (UF_reachable_forest 4
           {| UnionFind.parent := [0; 0; 0; 3]; UnionFind.rank := [1; 0; 0; 0] |}).
  apply UF_reachable_example.
Defined.
End UnionFind_states.

(** ** Counting the roots *)

Section counting.
Context {A : Type} (P Q : A → Prop)
        `{!∀ x, Decision (P x), !∀ x, Decision (Q x)}.

Lemma filter_agree (l : list A) :
  (∀ x, x ∈ l → (P x ↔ Q x)) → filter P l = filter Q l.
Proof.
  induction l as [|x l IH]; intros Hagree; [done|].
  assert (P x ↔ Q x) as Hx by (apply Hagree; left).
  assert (filter P l = filter Q l) as Hl
    by (apply IH; intros; apply Hagree; by right).
  destruct (decide (P x)) as [HP|HP].
  - rewrite !filter_cons_True by tauto. by rewrite Hl.
  - rewrite !filter_cons_False by tauto. done.
Qed.

Lemma length_filter_remove (l : list A) a :
  NoDup l → a ∈ l → P a → (∀ x, Q x ↔ P x ∧ x ≠ a) →
  length (filter P l) = S (length (filter Q l)).
Proof.
  intros Hnd Ha HPa HQ.
  induction l as [|x l IH]; [by apply elem_of_nil in Ha|].
  apply NoDup_cons in Hnd as [Hx Hnd].
  apply elem_of_cons in Ha as [->|Ha].
  - rewrite filter_cons_True by done.
    rewrite (filter_cons_False Q) by (rewrite HQ; tauto).
    simpl. f_equal. f_equal. apply filter_agree.
    intros y Hy. rewrite HQ. split; [|tauto].
    intros HPy. split; [done|]. by intros ->.
  - assert (x ≠ a) as Hxa by (by intros ->).
    destruct (decide (P x)) as [HP|HP].
    + rewrite (filter_cons_True P), (filter_cons_True Q) by (rewrite ?HQ; tauto).
      simpl. f_equal. by apply IH.
    + rewrite (filter_cons_False P), (filter_cons_False Q) by (rewrite ?HQ; tauto).
      by apply IH.
Qed.
End counting.

Section count_roots_facts.
Implicit Types (p q : list Z) (a b : Z).

Lemma count_roots_same_sets p q : same_sets p q → count_roots q = count_roots p.
Proof.
  intros Hs. unfold count_roots.
  destruct Hs as [Hl Hs']. rewrite Hl.
  f_equal. apply list_filter_iff. intros i.
  apply (same_sets_is_root p q). by split.
Qed.

(** Hanging a root under another element removes exactly one root. *)
Lemma count_roots_link p a b :
  is_root p a → a ≠ b →
  count_roots p = S (count_roots (<[Z.to_nat a := b]> p)).
Proof.
  intros Ha Hab. unfold count_roots. rewrite length_insert.
  apply length_filter_remove with a.
  - apply NoDup_seqZ.
  - apply elem_of_seqZ. apply vget_range in Ha. lia.
  - done.
  - intros i. by apply is_root_link.
Qed.

Lemma count_roots_seqZ n : count_roots (seqZ 0 n) = Z.to_nat n.
Proof.
  unfold count_roots. rewrite length_seqZ.
  rewrite (filter_agree _ (λ _, True)).
  - assert (∀ l : list Z, filter (λ _, True) l = l) as Hall.
    { induction l as [|x l IH]; [done|].
      rewrite filter_cons_True by done. by f_equal. }
    by rewrite Hall, length_seqZ, Nat2Z.id.
  - intros i Hi%elem_of_seqZ. split; [done|]. intros _.
    unfold is_root. rewrite vget_seqZ. by rewrite decide_True by lia.
Qed.

Lemma count_roots_le p : (count_roots p ≤ length p)%nat.
Proof.
  unfold count_roots.
  etrans; [apply length_filter|]. rewrite length_seqZ. lia.
Qed.

Lemma count_roots_pos p a : is_root p a → (1 ≤ count_roots p)%nat.
Proof.
  intros Ha. unfold count_roots.
  assert (a ∈ filter (is_root p) (seqZ 0 (Z.of_nat (length p)))) as Hin.
  { apply list_elem_of_filter. split; [done|].
    apply elem_of_seqZ. apply vget_range in Ha. lia. }
  destruct (filter _ _); [by apply elem_of_nil in Hin|simpl; lia].
Qed.
End count_roots_facts.

(** ** Ranks stay in the range of [int] *)

Section UnionFind_ranks.
#[local] Abbreviation parent := UnionFind.parent.
#[local] Abbreviation rank := UnionFind.rank.
Implicit Types (s : UnionFind.state).

Lemma merged_count_roots p u v p' :
  forest p → merged p u v p' → (count_roots p' ≤ count_roots p)%nat.
Proof.
  intros Hf (ru & rv & q & Hu & Hv & Hq & Hcase).
  rewrite <- (count_roots_same_sets p q Hq).
  assert (is_root q ru) as Hru
    by (eapply same_sets_is_root; [done|by eapply repr_is_root]).
  assert (is_root q rv) as Hrv
    by (eapply same_sets_is_root; [done|by eapply repr_is_root]).
  destruct Hcase as [[_ ->]|[Hne [->| ->]]]; [done|..].
  - rewrite (count_roots_link q ru rv) by done. lia.
  - rewrite (count_roots_link q rv ru) by done. lia.
Qed.

Lemma UF_ranks_bounded_same n s s' :
  rank s' = rank s →
  (count_roots (parent s') ≤ count_roots (parent s))%nat →
  UnionFind.ranks_bounded n s → UnionFind.ranks_bounded n s'.
Proof.
  intros Hr Hc Hb i a Hi. rewrite Hr in Hi.
  destruct (Hb i a Hi). lia.
Qed.

Lemma UF_ranks_bounded_incr n s s' ru a :
  vget (rank s) ru = Some a →
  rank s' = <[Z.to_nat ru := a + 1]> (rank s) →
  S (count_roots (parent s')) = count_roots (parent s) →
  UnionFind.ranks_bounded n s → UnionFind.ranks_bounded n s'.
Proof.
  intros Ha Hr Hc Hb i x Hi. rewrite Hr in Hi.
  pose proof (vget_range _ _ _ Ha) as Hra.
  destruct (decide (i = ru)) as [->|Hne].
  - rewrite vget_insert_eq in Hi by done. injection Hi as <-.
    destruct (Hb ru a Ha). lia.
  - rewrite vget_insert_ne in Hi by lia.
    destruct (Hb i x Hi). lia.
Qed.

Lemma UF_unionSets_ranks_bounded n fuel u v s s' :
  forest (parent s) →
  UnionFind.unionSets fuel u v s = Ok tt s' →
  UnionFind.ranks_bounded n s → UnionFind.ranks_bounded n s'.
Proof.
  intros Hf H.
  pose proof (UF_unionSets_merged _ _ _ _ _ Hf H) as [Hm _].
  apply UF_unionSets_Ok in H as (ru & rv & p1 & p2 & Hu & Hv & Hcase).
  destruct (finds_same_sets _ _ _ _ _ _ _ _ Hf Hu Hv)
    as (_ & _ & _ & Hs & Hru & Hrv).
  destruct Hcase as [[_ ->]|[Hne (a & b & Ha & Hb & Hcase)]].
  { apply UF_ranks_bounded_same; [done|]. simpl.
    by rewrite (count_roots_same_sets _ _ Hs). }
  destruct Hcase as [[_ ->]|[[_ ->]|(_ & _ & ->)]].
  - apply UF_ranks_bounded_same; [done|]. by eapply merged_count_roots.
  - apply UF_ranks_bounded_same; [done|]. by eapply merged_count_roots.
  - apply UF_ranks_bounded_incr with ru a; [done..|]. simpl.
    rewrite <- (count_roots_link p2 rv ru) by done.
    by apply count_roots_same_sets.
Qed.

Lemma UF_run_ranks_bounded n fuel c s s' :
  forest (parent s) →
  UnionFind.run fuel c s = Ok tt s' →
  UnionFind.ranks_bounded n s → UnionFind.ranks_bounded n s'.
Proof.
  intros Hf H.
  destruct c as [u|u v|u v byRank|u v size|ord u v]; unfold UnionFind.run in H.
  - apply bind_Ok_inv in H as (r & s1 & (p' & Hu & ->)%UF_find_inv & [= <-]).
    destruct (find_Ok_forest _ _ _ _ _ Hf Hu) as (_ & Hs & _).
    apply UF_ranks_bounded_same; [done|]. simpl.
    by rewrite (count_roots_same_sets _ _ Hs).
  - by eapply UF_unionSets_ranks_bounded.
  - destruct byRank; [by eapply UF_unionSets_ranks_bounded|].
    pose proof (UF_unionSets_byRank_merged _ _ _ false _ _ Hf H) as [Hm _].
    pose proof H as H0.
    apply UF_two_finds in H0 as (ru & rv & p1 & p2 & Hu & Hv & _).
    rewrite (UF_unionSets_byRank_false _ _ _ _ _ _ _ _ Hu Hv) in H.
    apply UF_ranks_bounded_same; [|by eapply merged_count_roots].
    by case_decide; injection H as <-.
  - apply zoom_Ok_inv in H as ([s1 size'] & H & ->).
    apply UF_unionBySize_merged in H as (Hm & Hr & _); [|done].
    apply UF_ranks_bounded_same; [done|by eapply merged_count_roots].
  - apply bind_Ok_inv in H as (b & s1 & H & [= <-]).
    apply UF_connected_Ok in H as (ru & rv & p' & _ & _ & _ & -> & Hs); [|done].
    apply UF_ranks_bounded_same; [done|]. simpl.
    by rewrite (count_roots_same_sets _ _ Hs).
Qed.

Lemma UF_run_inv n fuel c s s' :
  UnionFind.inv n s → UnionFind.run fuel c s = Ok tt s' → UnionFind.inv n s'.
Proof.
  intros (Hwf & Hn & Hb) H. split_and!; [by eapply UF_run_wf|done|].
  eapply UF_run_ranks_bounded; [|done..]. by destruct Hwf as (_ & _ & _ & Hf).
Qed.

Lemma UF_new_inv_holds n s :
  n ≤ INT_MAX →
  UnionFind.UnionFind n UnionFind.empty = Ok tt s → UnionFind.inv n s.
Proof.
  intros Hmax H. split_and!; [by apply UF_new_wf|done|].
  apply UF_new_inv in H as [Hn ->]. intros i a Hi. simpl in *.
  rewrite count_roots_seqZ.
  apply vget_Some in Hi as [_ Hi]. apply lookup_replicate in Hi as [-> _]. lia.
Qed.

Lemma UF_reachable_inv n s :
  n ≤ INT_MAX → UnionFind.reachable n s → UnionFind.inv n s.
Proof.
  intros Hmax. induction 1 as [s H|s fuel c s' _ IH H].
  - by apply UF_new_inv_holds.
  - by eapply UF_run_inv.
Qed.
End UnionFind_ranks.

(** ** Union by rank *)

Section UnionFind_by_rank.
#[local] Abbreviation parent := UnionFind.parent.
#[local] Abbreviation rank := UnionFind.rank.
#[local] Abbreviation set_parent := UnionFind.set_parent.
Implicit Types (s : UnionFind.state).

Lemma UF_inv_forest n s : UnionFind.inv n s → forest (parent s).
Proof. by intros ((_ & _ & _ & Hf) & _). Qed.

Lemma UF_inv_length n s :
  UnionFind.inv n s →
  Z.of_nat (length (parent s)) = n ∧ Z.of_nat (length (rank s)) = n.
Proof. intros ((Hn & -> & -> & _) & _). lia. Qed.

(** A rank found at a root can be incremented. *)
Lemma UF_inv_rank_room n s r a :
  UnionFind.inv n s → is_root (parent s) r → vget (rank s) r = Some a →
  INT_MIN ≤ a + 1 ≤ INT_MAX.
Proof.
  intros (_ & Hmax & Hb) Hr Ha. destruct (Hb r a Ha) as [H0 Hle].
  pose proof (count_roots_pos _ _ Hr). unfold INT_MIN. lia.
Qed.

(** The complete description of a union by rank on valid elements. *)
Lemma UF_unionSets_spec n fuel u v s :
  UnionFind.inv n s →
  0 ≤ u < n → 0 ≤ v < n → (Z.to_nat n ≤ fuel)%nat →
  ∃ ru rv a b q,
    repr (parent s) u ru ∧ repr (parent s) v rv ∧
    vget (rank s) ru = Some a ∧ vget (rank s) rv = Some b ∧
    same_sets (parent s) q ∧
    UnionFind.unionSets fuel u v s =
      Ok tt (if decide (ru = rv) then set_parent q s
             else if decide (a < b) then set_parent (<[Z.to_nat ru := rv]> q) s
             else if decide (a > b) then set_parent (<[Z.to_nat rv := ru]> q) s
             else {| UnionFind.parent := <[Z.to_nat rv := ru]> q;
                     UnionFind.rank := <[Z.to_nat ru := a + 1]> (rank s) |}).
Proof.
  intros Hinv Hu Hv Hfuel.
  pose proof (UF_inv_forest _ _ Hinv) as Hf.
  destruct (UF_inv_length _ _ Hinv) as [Hlp Hlr].
  destruct (find_pair fuel (parent s) u v)
    as (ru & rv & p1 & p2 & Hfu & Hfv & Hru & Hrv & _ & Hs); [done|lia..|].
  destruct (vget_is_Some (rank s) ru) as [a Ha].
  { apply repr_root_range in Hru. lia. }
  destruct (vget_is_Some (rank s) rv) as [b Hb].
  { apply repr_root_range in Hrv. lia. }
  exists ru, rv, a, b, p2. split_and!; [done..|].
  rewrite (UF_unionSets_result _ _ _ _ _ _ _ _ _ _ Hfu Hfv Ha Hb).
  repeat case_decide; try done.
  exfalso. pose proof (repr_is_root _ _ _ Hru) as Hroot.
  pose proof (UF_inv_rank_room _ _ _ _ Hinv Hroot Ha). lia.
Qed.

(** C7.  A union by rank of two elements with distinct roots [ru] and
    [rv], of ranks [a] and [b]: when [a < b] the root [ru] is attached
    under [rv], when [a > b] the root [rv] is attached under [ru], and in
    both cases the vector [rank] is left as it was; when [a = b] the
    root [rv] is attached under [ru] and the rank of [ru], and no other
    entry of [rank], becomes [a + 1].  A union of two elements with the
    same root leaves [rank] as it was too. *)
Theorem UF_unionSets_by_rank n fuel u v s ru rv a b :
  UnionFind.inv n s →
  repr (parent s) u ru → repr (parent s) v rv →
  vget (rank s) ru = Some a → vget (rank s) rv = Some b →
  (Z.to_nat n ≤ fuel)%nat →
  ∃ s',
    UnionFind.unionSets fuel u v s = Ok tt s' ∧
    (ru ≠ rv → a < b →
       vget (parent s') ru = Some rv ∧ is_root (parent s') rv ∧
       rank s' = rank s) ∧
    (ru ≠ rv → a > b →
       vget (parent s') rv = Some ru ∧ is_root (parent s') ru ∧
       rank s' = rank s) ∧
    (ru ≠ rv → a = b →
       vget (parent s') rv = Some ru ∧ is_root (parent s') ru ∧
       rank s' = <[Z.to_nat ru := a + 1]> (rank s)) ∧
    (ru = rv → rank s' = rank s).
Proof.
  intros Hinv Hru Hrv Ha Hb Hfuel.
  destruct (UF_inv_length _ _ Hinv) as [Hlp Hlr].
  destruct (UF_unionSets_spec n fuel u v s)
    as (ru' & rv' & a' & b' & q & Hru' & Hrv' & Ha' & Hb' & Hs & ->);
    [done| | |done|].
  { apply repr_range in Hru. lia. }
  { apply repr_range in Hrv. lia. }
  assert (ru' = ru) as -> by (by eapply repr_functional).
  assert (rv' = rv) as -> by (by eapply repr_functional).
  assert (a' = a) as -> by congruence.
  assert (b' = b) as -> by congruence.
  assert (is_root q ru) as Hqu
    by (eapply same_sets_is_root; [done|by eapply repr_is_root]).
  assert (is_root q rv) as Hqv
    by (eapply same_sets_is_root; [done|by eapply repr_is_root]).
  pose proof (vget_range _ _ _ Hqu) as Hu_range.
  pose proof (vget_range _ _ _ Hqv) as Hv_range.
  eexists. split; [done|]. split_and!.
  - intros Hne Hlt. rewrite decide_False, decide_True by done. simpl.
    split_and!; [by apply vget_insert_eq| |done].
    apply is_root_link; auto.
  - intros Hne Hgt.
    rewrite decide_False, decide_False, decide_True by (done || lia). simpl.
    split_and!; [by apply vget_insert_eq| |done].
    apply is_root_link; auto.
  - intros Hne Heq.
    rewrite decide_False, decide_False, decide_False by (done || lia). simpl.
    split_and!; [by apply vget_insert_eq| |done].
    apply is_root_link; auto.
  - intros Heq. by rewrite decide_True.
Qed.

Lemma UF_inv_example :
  UnionFind.inv 4
    {| UnionFind.parent := [0; 0; 0; 3]; UnionFind.rank := [1; 0; 0; 0] |}.
Proof.
  apply UF_reachable_inv; [by vm_compute|apply UF_reachable_example].
Qed.

Lemma UF_unionSets_by_rank_witness :
  ∃ s',
    UnionFind.unionSets 4 3 1
      {| UnionFind.parent := [0; 0; 0; 3]; UnionFind.rank := [1; 0; 0; 0] |}
    = Ok tt s' ∧
    (3 ≠ 0 → 0 < 1 →
       vget (parent s') 3 = Some 0 ∧ is_root (parent s') 0 ∧
       rank s' = [1; 0; 0; 0]) ∧
    (3 ≠ 0 → 0 > 1 →
       vget (parent s') 0 = Some 3 ∧ is_root (parent s') 3 ∧
       rank s' = [1; 0; 0; 0]) ∧
    (3 ≠ 0 → 0 = 1 →
       vget (parent s') 0 = Some 3 ∧ is_root (parent s') 3 ∧
       rank s' = <[Z.to_nat 3 := 0 + 1]> [1; 0; 0; 0]) ∧
    (3 = 0 → rank s' = [1; 0; 0; 0]).
Proof.
  apply (UF_unionSets_by_rank 4 4 3 1
           {| UnionFind.parent := [0; 0; 0; 3]; UnionFind.rank := [1; 0; 0; 0] |}
           3 0 0 1).
  - apply UF_inv_example.
  - apply repr_root_of. reflexivity.
  - apply repr_root_of. reflexivity.
  - reflexivity.
  - reflexivity.
  - simpl. lia.
Defined.

Example UF_unionSets_lower_under_higher :
  UnionFind.unionSets 4 3 1
    {| UnionFind.parent := [0; 0; 0; 3]; UnionFind.rank := [1; 0; 0; 0] |}
  = Ok tt {| UnionFind.parent := [0; 0; 0; 0]; UnionFind.rank := [1; 0; 0; 0] |}.
Proof. reflexivity. Qed.

Example UF_unionSets_equal_rank :
  UnionFind.unionSets 4 2 3
    {| UnionFind.parent := [0; 1; 2; 3]; UnionFind.rank := [0; 0; 0; 0] |}
  = Ok tt {| UnionFind.parent := [0; 1; 2; 2]; UnionFind.rank := [0; 0; 1; 0] |}.
Proof. reflexivity. Qed.
End UnionFind_by_rank.

(** ** Union, then [connected] *)

Section UnionFind_connectivity.
#[local] Abbreviation parent := UnionFind.parent.
#[local] Abbreviation rank := UnionFind.rank.
#[local] Abbreviation set_parent := UnionFind.set_parent.
Implicit Types (s : UnionFind.state).

Lemma UF_unionSets_total n fuel u v s :
  UnionFind.inv n s →
  0 ≤ u < n → 0 ≤ v < n → (Z.to_nat n ≤ fuel)%nat →
  ∃ s', UnionFind.unionSets fuel u v s = Ok tt s' ∧ UnionFind.inv n s' ∧
        merged (parent s) u v (parent s').
Proof.
  intros Hinv Hu Hv Hfuel.
  destruct (UF_unionSets_spec n fuel u v s)
    as (ru & rv & a & b & q & _ & _ & _ & _ & _ & H); [done..|].
  eexists. split; [done|]. split.
  - by apply (UF_run_inv n fuel (UnionFind.call_unionSets u v) s).
  - eapply UF_unionSets_merged; [by eapply UF_inv_forest|done].
Qed.

Lemma UF_connected_answer n ord fuel u v s :
  UnionFind.inv n s →
  0 ≤ u < n → 0 ≤ v < n → (Z.to_nat n ≤ fuel)%nat →
  ∃ s', UnionFind.connected ord fuel u v s
        = Ok (bool_decide (same_set (parent s) u v)) s' ∧
        same_sets (parent s) (parent s').
Proof.
  intros Hinv Hu Hv Hfuel.
  pose proof (UF_inv_forest _ _ Hinv) as Hf.
  destruct (UF_inv_length _ _ Hinv) as [Hlp _].
  destruct (UF_connected_spec ord fuel u v s) as (b & p' & H & Hs & Hb);
    [done|lia..|].
  exists (set_parent p' s). split; [|done]. rewrite H. f_equal.
  destruct b.
  - symmetry. apply bool_decide_eq_true. by apply Hb.
  - symmetry. apply bool_decide_eq_false. intros Hsame.
    by apply Hb in Hsame.
Qed.

(** C5.  After [unionSets(x, y)] on valid elements, [connected(x, y)]
    returns [true].  A second [unionSets(x, y)] changes no set: the same
    pairs are in one set before and after it, and [connected] gives the
    same answer for every pair of valid elements. *)
Theorem UF_union_then_connected n ord fuel x y s :
  UnionFind.inv n s →
  0 ≤ x < n → 0 ≤ y < n → (Z.to_nat n ≤ fuel)%nat →
  ∃ s1 s2,
    UnionFind.unionSets fuel x y s = Ok tt s1 ∧
    (∃ t, UnionFind.connected ord fuel x y s1 = Ok true t) ∧
    UnionFind.unionSets fuel x y s1 = Ok tt s2 ∧
    (∀ a b, same_set (parent s2) a b ↔ same_set (parent s1) a b) ∧
    (∀ ord' a b, 0 ≤ a < n → 0 ≤ b < n →
       ∃ c t1 t2,
         UnionFind.connected ord' fuel a b s1 = Ok c t1 ∧
         UnionFind.connected ord' fuel a b s2 = Ok c t2).
Proof.
  intros Hinv Hx Hy Hfuel.
  pose proof (UF_inv_forest _ _ Hinv) as Hf.
  destruct (UF_unionSets_total n fuel x y s) as (s1 & H1 & Hinv1 & Hm1);
    [done..|].
  pose proof (UF_inv_forest _ _ Hinv1) as Hf1.
  destruct (UF_unionSets_total n fuel x y s1) as (s2 & H2 & Hinv2 & Hm2);
    [done..|].
  pose proof (merged_joins _ _ _ _ Hf Hm1) as Hjoined.
  assert (∀ a b, same_set (parent s2) a b ↔ same_set (parent s1) a b) as Hsame.
  { intros a b. unfold same_set.
    split; intros (r & Ha & Hb); exists r.
    - by rewrite <- !(merged_same _ _ _ _ _ _ Hf1 Hm2 Hjoined).
    - by rewrite !(merged_same _ _ _ _ _ _ Hf1 Hm2 Hjoined). }
  exists s1, s2. split_and!; [done| |done|done|].
  - destruct (UF_connected_answer n ord fuel x y s1) as (t & Ht & _); [done..|].
    exists t. rewrite Ht. by rewrite bool_decide_eq_true_2.
  - intros ord' a b Ha Hb.
    destruct (UF_connected_answer n ord' fuel a b s1) as (t1 & Ht1 & _);
      [done..|].
    destruct (UF_connected_answer n ord' fuel a b s2) as (t2 & Ht2 & _);
      [done..|].
    exists (bool_decide (same_set (parent s1) a b)), t1, t2.
    split; [done|]. rewrite Ht2. f_equal.
    apply bool_decide_ext, Hsame.
Qed.

Lemma UF_union_then_connected_witness :
  ∃ s1 s2,
    UnionFind.unionSets 4 3 1
      {| UnionFind.parent := [0; 0; 0; 3]; UnionFind.rank := [1; 0; 0; 0] |}
    = Ok tt s1 ∧
    (∃ t, UnionFind.connected right_first 4 3 1 s1 = Ok true t) ∧
    UnionFind.unionSets 4 3 1 s1 = Ok tt s2 ∧
    (∀ a b, same_set (parent s2) a b ↔ same_set (parent s1) a b) ∧
    (∀ ord' a b, 0 ≤ a < 4 → 0 ≤ b < 4 →
       ∃ c t1 t2,
         UnionFind.connected ord' 4 a b s1 = Ok c t1 ∧
         UnionFind.connected ord' 4 a b s2 = Ok c t2).
Proof.
  apply (UF_union_then_connected 4 right_first 4 3 1
           {| UnionFind.parent := [0; 0; 0; 3]; UnionFind.rank := [1; 0; 0; 0] |}).
  - apply UF_inv_example.
  - lia.
  - lia.
  - simpl. lia.
Defined.
End UnionFind_connectivity.

(** ** Stability of [find] *)

Section UnionFind_stability.
#[local] Abbreviation parent := UnionFind.parent.
#[local] Abbreviation rank := UnionFind.rank.
Implicit Types (s : UnionFind.state).

Lemma UF_run_keeps_repr fuel c s s' x r :
  forest (parent s) →
  UnionFind.run fuel c s = Ok tt s' →
  ¬ UnionFind.involves s c x →
  repr (parent s) x r → repr (parent s') x r.
Proof.
  intros Hf H Hx Hr.
  assert (∀ u v, ¬ (same_set (parent s) x u ∨ same_set (parent s) x v) →
                 merged (parent s) u v (parent s') → repr (parent s') x r)
    as Hmerge.
  { intros u v Hnot Hm. eapply merged_other; [done|done| | |done]; tauto. }
  destruct c as [u|u v|u v byRank|u v size|ord u v]; simpl in Hx.
  - destruct (UF_run_step _ _ _ _ Hf H) as [[Hs|(u' & v' & Hm)] _].
    + by apply Hs.
    + simpl in H.
      apply bind_Ok_inv in H as (r0 & s1 & (p' & Hu & ->)%UF_find_inv & [= <-]).
      destruct (find_Ok_forest _ _ _ _ _ Hf Hu) as (_ & Hs & _). by apply Hs.
  - apply (Hmerge u v Hx). by apply (UF_unionSets_merged fuel).
  - apply (Hmerge u v Hx). by apply (UF_unionSets_byRank_merged fuel _ _ byRank).
  - apply (Hmerge u v Hx). simpl in H.
    apply zoom_Ok_inv in H as ([s1 size'] & H & ->).
    by apply UF_unionBySize_merged in H as (Hm & _).
  - simpl in H. apply bind_Ok_inv in H as (b & s1 & H & [= <-]).
    apply UF_connected_Ok in H as (ru & rv & p' & _ & _ & _ & -> & Hs); [|done].
    by apply Hs.
Qed.

Lemma UF_quiet_keeps_repr n s s' x r :
  UnionFind.wf n s → UnionFind.quiet x s s' →
  repr (parent s) x r → UnionFind.wf n s' ∧ repr (parent s') x r.
Proof.
  intros Hwf Hq. revert Hwf.
  induction Hq as [s|s fuel c s1 s2 H Hx _ IH]; intros Hwf Hr; [done|].
  apply IH.
  - by eapply UF_run_wf.
  - eapply UF_run_keeps_repr; [|done..]. by destruct Hwf as (_ & _ & _ & Hf).
Qed.

(** C6.  [find(x)] returns the same root before and after any sequence
    of calls of [find] and [connected] and of unions whose arguments are
    outside the set of [x].  A call of [find] keeps the root of every
    element, and makes no traversal longer. *)
Theorem UF_find_stable n s :
  UnionFind.wf n s →
  (∀ x r s',
     repr (parent s) x r → UnionFind.quiet x s s' →
     repr (parent s') x r ∧
     ∀ fuel, (Z.to_nat n ≤ fuel)%nat →
       ∃ t t', UnionFind.find fuel x s = Ok r t ∧
               UnionFind.find fuel x s' = Ok r t') ∧
  (∀ fuel z rz s1,
     UnionFind.find fuel z s = Ok rz s1 →
     ∀ y k ry, path (parent s) y k ry →
       ∃ k', path (parent s1) y k' ry ∧ (length k' ≤ length k)%nat).
Proof.
  intros Hwf. split.
  - intros x r s' Hr Hq.
    destruct (UF_quiet_keeps_repr _ _ _ _ _ Hwf Hq Hr) as [Hwf' Hr'].
    split; [done|]. intros fuel Hfuel.
    destruct Hwf as (Hn & Hlp & _ & Hf). destruct Hwf' as (_ & Hlp' & _ & Hf').
    destruct (UF_find_total fuel s x) as (r1 & p1 & H1 & Hr1 & _);
      [done|apply repr_range in Hr; lia|lia|].
    destruct (UF_find_total fuel s' x) as (r2 & p2 & H2 & Hr2 & _);
      [done|apply repr_range in Hr'; lia|lia|].
    assert (r1 = r) as -> by (by eapply repr_functional).
    assert (r2 = r) as -> by (by eapply repr_functional).
    by eexists _, _.
  - intros fuel z rz s1 (p' & Hz & ->)%UF_find_inv y k ry Hy.
    apply find_Ok in Hz as (l & Hl & _ & ->). simpl.
    by eapply path_relink.
Qed.

Lemma UF_find_stable_witness :
  (∀ x r s',
     repr [0; 0; 0; 3] x r →
     UnionFind.quiet x
       {| UnionFind.parent := [0; 0; 0; 3]; UnionFind.rank := [1; 0; 0; 0] |} s' →
     repr (parent s') x r ∧
     ∀ fuel, (Z.to_nat 4 ≤ fuel)%nat →
       ∃ t t',
         UnionFind.find fuel x
           {| UnionFind.parent := [0; 0; 0; 3]; UnionFind.rank := [1; 0; 0; 0] |}
         = Ok r t ∧
         UnionFind.find fuel x s' = Ok r t') ∧
  (∀ fuel z rz s1,
     UnionFind.find fuel z
       {| UnionFind.parent := [0; 0; 0; 3]; UnionFind.rank := [1; 0; 0; 0] |}
     = Ok rz s1 →
     ∀ y k ry, path [0; 0; 0; 3] y k ry →
       ∃ k', path (parent s1) y k' ry ∧ (length k' ≤ length k)%nat).
Proof.
  apply (UF_find_stable 4
           {| UnionFind.parent := [0; 0; 0; 3]; UnionFind.rank := [1; 0; 0; 0] |}).
  apply UF_reachable_wf, UF_reachable_example.
Defined.

Example UF_quiet_example :
  UnionFind.quiet 3
    {| UnionFind.parent := [0; 1; 2; 3; 3]; UnionFind.rank := [0; 0; 0; 1; 0] |}
    {| UnionFind.parent := [0; 0; 0; 3; 3]; UnionFind.rank := [1; 0; 0; 1; 0] |}.
Proof.
  eapply UnionFind.quiet_call
    with (fuel := 5%nat) (c := UnionFind.call_unionSets 0 1);
    [reflexivity|unfold UnionFind.involves; compute_done|].
  eapply UnionFind.quiet_call
    with (fuel := 5%nat) (c := UnionFind.call_find 4);
    [reflexivity|unfold UnionFind.involves; compute_done|].
  eapply UnionFind.quiet_call
    with (fuel := 5%nat) (c := UnionFind.call_unionSets_byRank 0 2 false);
    [reflexivity|unfold UnionFind.involves; compute_done|].
  apply UnionFind.quiet_refl.
Qed.
End UnionFind_stability.

(** ** The overload [unionSets(u, v, byRank)] *)

Section UnionFind_overload.
#[local] Abbreviation parent := UnionFind.parent.
#[local] Abbreviation rank := UnionFind.rank.
#[local] Abbreviation set_parent := UnionFind.set_parent.
Implicit Types (s : UnionFind.state).

(** C10.  With [byRank = true] the overload is the union by rank.  With
    [byRank = false], on two elements with distinct roots [ru] and [rv], it
    attaches [rv] under [ru] whatever the vector [rank] holds (even a
    vector too short to be read), and leaves that vector as it was. *)
Theorem UF_unionSets_byRank_overload n fuel u v s ru rv :
  UnionFind.wf n s →
  repr (parent s) u ru → repr (parent s) v rv → ru ≠ rv →
  (Z.to_nat n ≤ fuel)%nat →
  UnionFind.unionSets_byRank fuel u v true s = UnionFind.unionSets fuel u v s ∧
  ∃ q, same_sets (parent s) q ∧
       vget (<[Z.to_nat rv := ru]> q) rv = Some ru ∧
       is_root (<[Z.to_nat rv := ru]> q) ru ∧
       ∀ ranks,
         UnionFind.unionSets_byRank fuel u v false
           {| UnionFind.parent := parent s; UnionFind.rank := ranks |}
         = Ok tt {| UnionFind.parent := <[Z.to_nat rv := ru]> q;
                    UnionFind.rank := ranks |}.
Proof.
  intros (Hn & Hlp & Hlr & Hf) Hru Hrv Hne Hfuel. split; [done|].
  destruct (find_pair fuel (parent s) u v)
    as (ru' & rv' & p1 & q & Hfu & Hfv & Hru' & Hrv' & _ & Hs);
    [done|apply repr_range in Hru; lia|apply repr_range in Hrv; lia|lia|].
  assert (ru' = ru) as -> by (by eapply repr_functional).
  assert (rv' = rv) as -> by (by eapply repr_functional).
  assert (is_root q ru) as Hqu
    by (eapply same_sets_is_root; [done|by eapply repr_is_root]).
  assert (is_root q rv) as Hqv
    by (eapply same_sets_is_root; [done|by eapply repr_is_root]).
  exists q. split_and!; [done| | |].
  - apply vget_insert_eq. by eapply vget_range.
  - apply is_root_link; auto.
  - intros ranks.
    rewrite (UF_unionSets_byRank_false fuel u v _ ru rv p1 q) by done.
    by rewrite decide_False.
Qed.

Lemma UF_unionSets_byRank_overload_witness :
  UnionFind.unionSets_byRank 4 3 1 true
    {| UnionFind.parent := [0; 0; 0; 3]; UnionFind.rank := [1; 0; 0; 0] |}
  = UnionFind.unionSets 4 3 1
      {| UnionFind.parent := [0; 0; 0; 3]; UnionFind.rank := [1; 0; 0; 0] |} ∧
  ∃ q, same_sets [0; 0; 0; 3] q ∧
       vget (<[Z.to_nat 0 := 3]> q) 0 = Some 3 ∧
       is_root (<[Z.to_nat 0 := 3]> q) 3 ∧
       ∀ ranks,
         UnionFind.unionSets_byRank 4 3 1 false
           {| UnionFind.parent := [0; 0; 0; 3]; UnionFind.rank := ranks |}
         = Ok tt {| UnionFind.parent := <[Z.to_nat 0 := 3]> q;
                    UnionFind.rank := ranks |}.
Proof.
  apply (UF_unionSets_byRank_overload 4 4 3 1
           {| UnionFind.parent := [0; 0; 0; 3]; UnionFind.rank := [1; 0; 0; 0] |}
           3 0).
  - apply UF_reachable_wf, UF_reachable_example.
  - apply repr_root_of. reflexivity.
  - apply repr_root_of. reflexivity.
  - lia.
  - simpl. lia.
Defined.

(** The higher rank of the root of [v] does not matter. *)
Example UF_unionSets_byRank_ignores_rank :
  UnionFind.unionSets_byRank 4 3 1 false
    {| UnionFind.parent := [0; 0; 0; 3]; UnionFind.rank := [1; 0; 0; 0] |}
  = Ok tt {| UnionFind.parent := [3; 0; 0; 3]; UnionFind.rank := [1; 0; 0; 0] |}
  ∧
  UnionFind.unionSets_byRank 4 3 1 true
    {| UnionFind.parent := [0; 0; 0; 3]; UnionFind.rank := [1; 0; 0; 0] |}
  = Ok tt {| UnionFind.parent := [0; 0; 0; 0]; UnionFind.rank := [1; 0; 0; 0] |}.
Proof. split; reflexivity. Qed.
End UnionFind_overload.

(** ** Element identifiers outside the universe *)

Section UnionFind_out_of_range.
#[local] Abbreviation parent := UnionFind.parent.
#[local] Abbreviation rank := UnionFind.rank.
#[local] Abbreviation set_parent := UnionFind.set_parent.
Implicit Types (s : UnionFind.state).

Lemma find_out_of_range fuel x p :
  ¬ 0 ≤ x < Z.of_nat (length p) → (0 < fuel)%nat → find fuel x p = Fault p.
Proof.
  intros Hx Hfuel. destruct fuel as [|fuel]; [lia|].
  rewrite find_unfold. by rewrite (proj2 (vget_None p x) Hx).
Qed.

Lemma UF_find_Fault fuel x s p' :
  find fuel x (parent s) = Fault p' →
  UnionFind.find fuel x s = Fault (set_parent p' s).
Proof. apply zoom_Fault. Qed.

Lemma UF_find_out_of_range fuel x s :
  ¬ 0 ≤ x < Z.of_nat (length (parent s)) → (0 < fuel)%nat →
  UnionFind.find fuel x s = Fault s.
Proof.
  intros Hx Hfuel.
  rewrite (UF_find_Fault fuel x s (parent s)) by (by apply find_out_of_range).
  by destruct s.
Qed.

(** C9, as the code has it.  No operation checks its arguments.  For an
    identifier [x] outside [0, n) the first access [parent[x]] is out of
    range: undefined behaviour, and no invalid-argument condition; nothing
    was written at that point when [x] is the argument looked up first.
    When [x] is looked up second, after a valid [y], the access out of
    range comes after the path of [y] was compressed.  With valid
    arguments [find], [unionSets] and [connected] return normally. *)
Theorem UF_no_bounds_check n fuel s x :
  UnionFind.inv n s → ¬ 0 ≤ x < n →
  (0 < fuel)%nat → (Z.to_nat n ≤ fuel)%nat →
  UnionFind.find fuel x s = Fault s ∧
  (∀ y, UnionFind.unionSets fuel x y s = Fault s ∧
        UnionFind.unionSets_byRank fuel x y false s = Fault s ∧
        UnionFind.connected left_first fuel x y s = Fault s ∧
        UnionFind.connected right_first fuel y x s = Fault s) ∧
  (∀ y size, UnionFind.unionBySize fuel x y (s, size) = Fault (s, size)) ∧
  (∀ y, 0 ≤ y < n →
     ∃ r q,
       find fuel y (parent s) = Ok r q ∧
       UnionFind.unionSets fuel y x s = Fault (set_parent q s) ∧
       UnionFind.connected left_first fuel y x s = Fault (set_parent q s) ∧
       UnionFind.connected right_first fuel x y s = Fault (set_parent q s)) ∧
  (∀ ord y z, 0 ≤ y < n → 0 ≤ z < n →
     (∃ r t, UnionFind.find fuel y s = Ok r t) ∧
     (∃ t, UnionFind.unionSets fuel y z s = Ok tt t) ∧
     (∃ b t, UnionFind.connected ord fuel y z s = Ok b t)).
Proof.
  intros Hinv Hx Hpos Hfuel.
  pose proof (UF_inv_forest _ _ Hinv) as Hf.
  destruct (UF_inv_length _ _ Hinv) as [Hlp Hlr].
  assert (UnionFind.find fuel x s = Fault s) as Hfault
    by (apply UF_find_out_of_range; [lia|done]).
  split_and!.
  - done.
  - intros y. split_and!.
    + unfold UnionFind.unionSets. by erewrite bind_Fault.
    + unfold UnionFind.unionSets_byRank. by erewrite bind_Fault.
    + unfold UnionFind.connected. by erewrite bind_Fault.
    + unfold UnionFind.connected. by erewrite bind_Fault.
  - intros y size. unfold UnionFind.unionBySize.
    erewrite bind_Fault; [done|].
    unfold UnionFind.on_this. by erewrite zoom_Fault.
  - intros y Hy.
    destruct (find_forest fuel (parent s) y) as (r & q & Hq & _ & [Hlq _]);
      [done|lia|lia|].
    assert (UnionFind.find fuel x (set_parent q s) = Fault (set_parent q s))
      as Hfault' by (apply UF_find_out_of_range; [simpl; lia|done]).
    exists r, q. split_and!; [done|..].
    + unfold UnionFind.unionSets.
      erewrite bind_Ok by (by apply UF_find_Ok). by erewrite bind_Fault.
    + unfold UnionFind.connected.
      erewrite bind_Ok by (by apply UF_find_Ok). by erewrite bind_Fault.
    + unfold UnionFind.connected.
      erewrite bind_Ok by (by apply UF_find_Ok). by erewrite bind_Fault.
  - intros ord y z Hy Hz. split_and!.
    + destruct (UF_find_total fuel s y) as (r & p' & H & _); [done|lia..|].
      by eexists _, _.
    + destruct (UF_unionSets_total n fuel y z s) as (t & H & _); [done..|].
      by eexists.
    + apply UF_connected_total; [done|lia..].
Qed.

Lemma UF_no_bounds_check_witness :
  UnionFind.find 4 7
    {| UnionFind.parent := [0; 0; 0; 3]; UnionFind.rank := [1; 0; 0; 0] |}
  = Fault {| UnionFind.parent := [0; 0; 0; 3]; UnionFind.rank := [1; 0; 0; 0] |} ∧
  (∀ y,
     UnionFind.unionSets 4 7 y
       {| UnionFind.parent := [0; 0; 0; 3]; UnionFind.rank := [1; 0; 0; 0] |}
     = Fault {| UnionFind.parent := [0; 0; 0; 3]; UnionFind.rank := [1; 0; 0; 0] |} ∧
     UnionFind.unionSets_byRank 4 7 y false
       {| UnionFind.parent := [0; 0; 0; 3]; UnionFind.rank := [1; 0; 0; 0] |}
     = Fault {| UnionFind.parent := [0; 0; 0; 3]; UnionFind.rank := [1; 0; 0; 0] |} ∧
     UnionFind.connected left_first 4 7 y
       {| UnionFind.parent := [0; 0; 0; 3]; UnionFind.rank := [1; 0; 0; 0] |}
     = Fault {| UnionFind.parent := [0; 0; 0; 3]; UnionFind.rank := [1; 0; 0; 0] |} ∧
     UnionFind.connected right_first 4 y 7
       {| UnionFind.parent := [0; 0; 0; 3]; UnionFind.rank := [1; 0; 0; 0] |}
     = Fault {| UnionFind.parent := [0; 0; 0; 3]; UnionFind.rank := [1; 0; 0; 0] |}) ∧
  (∀ y size,
     UnionFind.unionBySize 4 7 y
       ({| UnionFind.parent := [0; 0; 0; 3]; UnionFind.rank := [1; 0; 0; 0] |},
        size)
     = Fault ({| UnionFind.parent := [0; 0; 0; 3]; UnionFind.rank := [1; 0; 0; 0] |},
              size)) ∧
  (∀ y, 0 ≤ y < 4 →
     ∃ r q,
       find 4 y [0; 0; 0; 3] = Ok r q ∧
       UnionFind.unionSets 4 y 7
         {| UnionFind.parent := [0; 0; 0; 3]; UnionFind.rank := [1; 0; 0; 0] |}
       = Fault {| UnionFind.parent := q; UnionFind.rank := [1; 0; 0; 0] |} ∧
       UnionFind.connected left_first 4 y 7
         {| UnionFind.parent := [0; 0; 0; 3]; UnionFind.rank := [1; 0; 0; 0] |}
       = Fault {| UnionFind.parent := q; UnionFind.rank := [1; 0; 0; 0] |} ∧
       UnionFind.connected right_first 4 7 y
         {| UnionFind.parent := [0; 0; 0; 3]; UnionFind.rank := [1; 0; 0; 0] |}
       = Fault {| UnionFind.parent := q; UnionFind.rank := [1; 0; 0; 0] |}) ∧
  (∀ ord y z, 0 ≤ y < 4 → 0 ≤ z < 4 →
     (∃ r t,
        UnionFind.find 4 y
          {| UnionFind.parent := [0; 0; 0; 3]; UnionFind.rank := [1; 0; 0; 0] |}
        = Ok r t) ∧
     (∃ t,
        UnionFind.unionSets 4 y z
          {| UnionFind.parent := [0; 0; 0; 3]; UnionFind.rank := [1; 0; 0; 0] |}
        = Ok tt t) ∧
     (∃ b t,
        UnionFind.connected ord 4 y z
          {| UnionFind.parent := [0; 0; 0; 3]; UnionFind.rank := [1; 0; 0; 0] |}
        = Ok b t)).
Proof.
  apply (UF_no_bounds_check 4 4
           {| UnionFind.parent := [0; 0; 0; 3]; UnionFind.rank := [1; 0; 0; 0] |} 7).
  - apply UF_inv_example.
  - lia.
  - lia.
  - simpl. lia.
Defined.

(** C9 as the specification states it fails: [find(5)] on three elements
    is an access out of range, not a rejection, and [unionSets(0, 7)] has
    compressed the path of [0] when it reaches its access out of range. *)
Lemma UF_out_of_range_not_rejected :
  ¬ UnionFind.rejects
      (UnionFind.find 3 5
         {| UnionFind.parent := [1; 2; 2]; UnionFind.rank := [0; 0; 1] |})
      {| UnionFind.parent := [1; 2; 2]; UnionFind.rank := [0; 0; 1] |} ∧
  ¬ UnionFind.rejects
      (UnionFind.unionSets 3 0 7
         {| UnionFind.parent := [1; 2; 2]; UnionFind.rank := [0; 0; 1] |})
      {| UnionFind.parent := [1; 2; 2]; UnionFind.rank := [0; 0; 1] |} ∧
  UnionFind.unionSets 3 0 7
    {| UnionFind.parent := [1; 2; 2]; UnionFind.rank := [0; 0; 1] |}
  = Fault {| UnionFind.parent := [2; 2; 2]; UnionFind.rank := [0; 0; 1] |}.
Proof. split_and!; [by intros [=]|by intros [=]|reflexivity]. Qed.
End UnionFind_out_of_range.

(** ** The optimised class of the documentation *)

Section UnionFindRank_unite.
#[local] Abbreviation state := UnionFindRank.state.
#[local] Abbreviation parent := UnionFindRank.parent.
#[local] Abbreviation rank := UnionFindRank.rank.
#[local] Abbreviation components := UnionFindRank.components.
#[local] Abbreviation set_parent := UnionFindRank.set_parent.
#[local] Abbreviation set_rank := UnionFindRank.set_rank.
#[local] Abbreviation set_components := UnionFindRank.set_components.
Implicit Types (s : state).

Lemma UFR_find_Ok fuel x s r p' :
  find fuel x (parent s) = Ok r p' →
  UnionFindRank.find fuel x s = Ok r (set_parent p' s).
Proof. apply zoom_Ok. Qed.

Lemma UFR_find_inv fuel x s r s' :
  UnionFindRank.find fuel x s = Ok r s' →
  ∃ p', find fuel x (parent s) = Ok r p' ∧ s' = set_parent p' s.
Proof. apply zoom_Ok_inv. Qed.

Lemma UFR_two_finds {A} fuel x y (k : Z → Z → M state A) s a s' :
  (rx ← UnionFindRank.find fuel x; ry ← UnionFindRank.find fuel y; k rx ry) s
  = Ok a s' →
  ∃ rx ry p1 p2,
    find fuel x (parent s) = Ok rx p1 ∧ find fuel y p1 = Ok ry p2 ∧
    k rx ry (set_parent p2 s) = Ok a s'.
Proof.
  intros H.
  apply bind_Ok_inv in H as (rx & s1 & Hx & H).
  apply UFR_find_inv in Hx as (p1 & Hx & ->).
  apply bind_Ok_inv in H as (ry & s2 & Hy & H).
  apply UFR_find_inv in Hy as (p2 & Hy & ->).
  by exists rx, ry, p1, p2.
Qed.

Lemma UFR_rank_read s i a :
  vget (rank s) i = Some a → UnionFindRank.on_rank (vread i) s = Ok a s.
Proof.
  intros H. unfold UnionFindRank.on_rank.
  erewrite zoom_Ok by (by apply vread_Ok). by destruct s.
Qed.

Lemma UFR_rank_read_inv s i a s' :
  UnionFindRank.on_rank (vread i) s = Ok a s' →
  s' = s ∧ vget (rank s) i = Some a.
Proof.
  intros (t & [-> Hi]%vread_Ok_inv & ->)%zoom_Ok_inv. by destruct s.
Qed.

Lemma UFR_parent_write s i x :
  0 ≤ i < Z.of_nat (length (parent s)) →
  UnionFindRank.on_parent (vwrite i x) s
  = Ok tt (set_parent (<[Z.to_nat i := x]> (parent s)) s).
Proof. intros H. apply zoom_Ok. by apply vwrite_Ok. Qed.

Lemma UFR_rank_write s i x :
  0 ≤ i < Z.of_nat (length (rank s)) →
  UnionFindRank.on_rank (vwrite i x) s
  = Ok tt (set_rank (<[Z.to_nat i := x]> (rank s)) s).
Proof. intros H. apply zoom_Ok. by apply vwrite_Ok. Qed.

(** The end of a successful [unite]: [components--; return true;] *)
Lemma UFR_count_down s :
  (c ← UnionFindRank.read_components;
   c' ← checked (c - 1);
   UnionFindRank.write_components c';; mret true) s
  = if decide (INT_MIN ≤ components s - 1 ≤ INT_MAX)
    then Ok true (set_components (components s - 1) s)
    else Fault s.
Proof.
  erewrite bind_Ok by reflexivity.
  case_decide as Hc.
  - erewrite bind_Ok by (by apply checked_Ok).
    erewrite bind_Ok by reflexivity. done.
  - by erewrite bind_Fault by (by apply checked_Fault).
Qed.

Lemma UFR_unite_result fuel x y s rx ry p1 p2 a b :
  find fuel x (parent s) = Ok rx p1 →
  find fuel y p1 = Ok ry p2 →
  vget (rank s) rx = Some a → vget (rank s) ry = Some b →
  let finish := λ t : state,
    if decide (INT_MIN ≤ components t - 1 ≤ INT_MAX)
    then Ok true (set_components (components t - 1) t)
    else Fault t in
  UnionFindRank.unite fuel x y s =
    if decide (rx = ry) then Ok false (set_parent p2 s)
    else if decide (a < b) then
      finish (set_parent (<[Z.to_nat rx := ry]> p2) s)
    else if decide (a > b) then
      finish (set_parent (<[Z.to_nat ry := rx]> p2) s)
    else if decide (INT_MIN ≤ a + 1 ≤ INT_MAX) then
      finish (set_rank (<[Z.to_nat rx := a + 1]> (rank s))
                (set_parent (<[Z.to_nat ry := rx]> p2) s))
    else Fault (set_parent (<[Z.to_nat ry := rx]> p2) s).
Proof.
  intros Hx Hy Ha Hb finish.
  destruct (find_Ok_range _ _ _ _ _ Hx) as (_ & Hrx & Hl1).
  destruct (find_Ok_range _ _ _ _ _ Hy) as (_ & Hry & Hl2).
  pose proof (vget_range _ _ _ Ha) as Hra.
  unfold UnionFindRank.unite.
  erewrite bind_Ok by (by apply UFR_find_Ok).
  erewrite bind_Ok by (by apply UFR_find_Ok).
  destruct (decide (rx = ry)) as [->|Hne]; [done|].
  erewrite bind_Ok by (by apply UFR_rank_read).
  erewrite bind_Ok by (by apply UFR_rank_read).
  destruct (decide (a < b)) as [Hlt|Hge].
  { erewrite bind_Ok by (apply UFR_parent_write; simpl; lia).
    apply UFR_count_down. }
  destruct (decide (a > b)) as [Hgt|Hle].
  { erewrite bind_Ok; cycle 1.
    { erewrite bind_Ok by (by apply UFR_rank_read).
      erewrite bind_Ok by (by apply UFR_rank_read).
      rewrite decide_True by done.
      apply UFR_parent_write. simpl. lia. }
    apply UFR_count_down. }
  destruct (decide (INT_MIN ≤ a + 1 ≤ INT_MAX)) as [Hin|Hout].
  - erewrite bind_Ok; cycle 1.
    { erewrite bind_Ok by (by apply UFR_rank_read).
      erewrite bind_Ok by (by apply UFR_rank_read).
      rewrite decide_False by done.
      erewrite bind_Ok by (apply UFR_parent_write; simpl; lia).
      erewrite bind_Ok by (by apply UFR_rank_read).
      erewrite bind_Ok by (by apply checked_Ok).
      apply UFR_rank_write. simpl. lia. }
    apply UFR_count_down.
  - erewrite bind_Fault; [done|].
    erewrite bind_Ok by (by apply UFR_rank_read).
    erewrite bind_Ok by (by apply UFR_rank_read).
    rewrite decide_False by done.
    erewrite bind_Ok by (apply UFR_parent_write; simpl; lia).
    erewrite bind_Ok by (by apply UFR_rank_read).
    by erewrite bind_Fault by (by apply checked_Fault).
Qed.
End UnionFindRank_unite.

Section UnionFindRank_states.
#[local] Abbreviation state := UnionFindRank.state.
#[local] Abbreviation parent := UnionFindRank.parent.
#[local] Abbreviation rank := UnionFindRank.rank.
#[local] Abbreviation components := UnionFindRank.components.
#[local] Abbreviation set_parent := UnionFindRank.set_parent.
#[local] Abbreviation set_rank := UnionFindRank.set_rank.
#[local] Abbreviation set_components := UnionFindRank.set_components.
Implicit Types (s : state).

Lemma UFR_new n :
  0 ≤ n →
  UnionFindRank.UnionFind n UnionFindRank.empty
  = Ok tt {| UnionFindRank.parent := seqZ 0 n;
             UnionFindRank.rank := replicate (Z.to_nat n) 0;
             UnionFindRank.components := n |}.
Proof.
  intros Hn. unfold UnionFindRank.UnionFind.
  erewrite bind_Ok by (apply zoom_Ok; by apply resize_empty).
  erewrite bind_Ok by (apply zoom_Ok; by apply resize_empty).
  erewrite bind_Ok by reflexivity.
  unfold UnionFindRank.on_parent.
  rewrite for_range_zoom by (done || by intros []).
  erewrite zoom_Ok by (by apply identity_loop). done.
Qed.

Lemma UFR_new_negative n :
  n < 0 →
  UnionFindRank.UnionFind n UnionFindRank.empty
  = Throw length_error UnionFindRank.empty.
Proof.
  intros Hn. unfold UnionFindRank.UnionFind.
  erewrite bind_Throw; [done|].
  unfold UnionFindRank.on_parent, zoom, resize. simpl.
  by rewrite decide_True.
Qed.

Lemma UFR_new_inv n s :
  n ≤ INT_MAX →
  UnionFindRank.UnionFind n UnionFindRank.empty = Ok tt s →
  UnionFindRank.inv n s.
Proof.
  intros Hmax H. destruct (decide (n < 0)) as [Hn|Hn].
  { by rewrite UFR_new_negative in H. }
  rewrite UFR_new in H by lia. injection H as <-.
  split_and!; simpl.
  - lia.
  - done.
  - by rewrite length_seqZ.
  - by rewrite length_replicate.
  - apply forest_seqZ.
  - rewrite count_roots_seqZ. lia.
  - intros i a [_ Hi]%vget_Some. apply lookup_replicate in Hi as [-> _]. lia.
Qed.

Lemma UFR_unite_Ok fuel x y s b s' :
  UnionFindRank.unite fuel x y s = Ok b s' →
  ∃ rx ry p1 p2,
    find fuel x (parent s) = Ok rx p1 ∧ find fuel y p1 = Ok ry p2 ∧
    (rx = ry ∧ b = false ∧ s' = set_parent p2 s ∨
     rx ≠ ry ∧ b = true ∧ ∃ a c,
       vget (rank s) rx = Some a ∧ vget (rank s) ry = Some c ∧
       INT_MIN ≤ components s - 1 ≤ INT_MAX ∧
       (a < c ∧
        s' = set_components (components s - 1)
               (set_parent (<[Z.to_nat rx := ry]> p2) s) ∨
        a > c ∧
        s' = set_components (components s - 1)
               (set_parent (<[Z.to_nat ry := rx]> p2) s) ∨
        a = c ∧ INT_MIN ≤ a + 1 ≤ INT_MAX ∧
        s' = set_components (components s - 1)
               (set_rank (<[Z.to_nat rx := a + 1]> (rank s))
                  (set_parent (<[Z.to_nat ry := rx]> p2) s)))).
Proof.
  intros H. pose proof H as H0.
  apply UFR_two_finds in H0 as (rx & ry & p1 & p2 & Hx & Hy & H0).
  exists rx, ry, p1, p2. split; [done|]. split; [done|].
  destruct (decide (rx = ry)) as [->|Hne].
  { left. by injection H0 as <- <-. }
  right. split; [done|].
  apply bind_Ok_inv in H0 as (a & s1 & [-> Ha]%UFR_rank_read_inv & H0).
  apply bind_Ok_inv in H0 as (c & s2 & [-> Hc]%UFR_rank_read_inv & _).
  simpl in Ha, Hc.
  pose proof (UFR_unite_result _ _ _ _ _ _ _ _ _ _ Hx Hy Ha Hc) as Hres.
  simpl in Hres. rewrite Hres in H. clear Hres.
  rewrite decide_False in H by done.
  repeat case_decide; try done; injection H as <- <-;
    (split; [done|]); exists a, c; (split; [done|]); (split; [done|]);
    (split; [done|]).
  - by left.
  - right. by left.
  - right. right. split; [lia|]. by split.
Qed.

Lemma UFR_inv_forest n s : UnionFindRank.inv n s → forest (parent s).
Proof. by intros (_ & _ & _ & Hf & _). Qed.

Lemma UFR_inv_length n s :
  UnionFindRank.inv n s →
  Z.of_nat (length (parent s)) = n ∧ Z.of_nat (length (rank s)) = n.
Proof. intros (Hn & -> & -> & _). lia. Qed.

Lemma UFR_inv_same_sets n s q :
  UnionFindRank.inv n s → same_sets (parent s) q →
  UnionFindRank.inv n (set_parent q s).
Proof.
  intros ([Hn Hmax] & Hlp & Hlr & Hf & Hc & Hb) Hs.
  split_and!; simpl; try done.
  - destruct Hs as [-> _]. done.
  - by eapply same_sets_forest.
  - by rewrite (count_roots_same_sets _ _ Hs).
Qed.

(** The invariant after one link, with the ranks left alone or one of
    them incremented. *)
Lemma UFR_inv_link n s q lo hi ranks :
  UnionFindRank.inv n s → same_sets (parent s) q →
  is_root q lo → is_root q hi → lo ≠ hi →
  (ranks = rank s ∨
   ∃ i a, vget (rank s) i = Some a ∧ ranks = <[Z.to_nat i := a + 1]> (rank s)) →
  UnionFindRank.inv n
    {| UnionFindRank.parent := <[Z.to_nat lo := hi]> q;
       UnionFindRank.rank := ranks;
       UnionFindRank.components := components s - 1 |}.
Proof.
  intros (Hn & Hlp & Hlr & Hf & Hc & Hb) Hs Hlo Hhi Hne Hranks.
  pose proof (count_roots_link q lo hi Hlo Hne) as Hcount.
  rewrite (count_roots_same_sets _ _ Hs) in Hcount.
  split_and!; simpl.
  - lia.
  - lia.
  - rewrite length_insert. destruct Hs as [-> _]. done.
  - destruct Hranks as [->|(i & a & _ & ->)]; by rewrite ?length_insert.
  - apply forest_link; auto. by eapply same_sets_forest.
  - lia.
  - intros i a Hi. destruct Hranks as [->|(j & c & Hj & ->)].
    + destruct (Hb i a Hi). lia.
    + pose proof (vget_range _ _ _ Hj) as Hjr.
      destruct (decide (i = j)) as [->|Hij].
      * rewrite vget_insert_eq in Hi by done. injection Hi as <-.
        destruct (Hb j c Hj). lia.
      * rewrite vget_insert_ne in Hi by lia. destruct (Hb i a Hi). lia.
Qed.

Lemma UFR_unite_inv n fuel x y s b s' :
  UnionFindRank.inv n s →
  UnionFindRank.unite fuel x y s = Ok b s' →
  UnionFindRank.inv n s' ∧ merged (parent s) x y (parent s') ∧
  components s' = (if b then components s - 1 else components s) ∧
  (b = true ↔ ¬ same_set (parent s) x y).
Proof.
  intros Hinv (rx & ry & p1 & q & Hx & Hy & Hcase)%UFR_unite_Ok.
  pose proof (UFR_inv_forest _ _ Hinv) as Hf.
  destruct (finds_same_sets _ _ _ _ _ _ _ _ Hf Hx Hy)
    as (Hrx & Hry & _ & Hs & Hqx & Hqy).
  destruct Hcase as [(-> & -> & ->)|(Hne & -> & a & c & Ha & Hc & _ & Hcase)].
  - split_and!.
    + by apply UFR_inv_same_sets.
    + exists ry, ry, q. split_and!; try done. by left.
    + done.
    + split; [done|]. intros Hnot. exfalso. apply Hnot. by exists ry.
  - assert (¬ same_set (parent s) x y) as Hnot.
    { intros Hsame. apply (same_set_repr _ _ _ _ Hrx) in Hsame.
      apply Hne. by eapply repr_functional. }
    destruct Hcase as [[_ ->]|[[_ ->]|(_ & _ & ->)]].
    + split_and!; [|exists rx, ry, q; split_and!; try done|done|done].
      * apply (UFR_inv_link n s q rx ry (rank s)); auto.
      * right. split; [done|]. by left.
    + split_and!; [|exists rx, ry, q; split_and!; try done|done|done].
      * apply (UFR_inv_link n s q ry rx (rank s)); auto.
      * right. split; [done|]. by right.
    + split_and!; [|exists rx, ry, q; split_and!; try done|done|done].
      * apply (UFR_inv_link n s q ry rx); auto. right. by exists rx, a.
      * right. split; [done|]. by right.
Qed.

Lemma UFR_connected_Ok ord fuel x y s b s' :
  forest (parent s) →
  UnionFindRank.connected ord fuel x y s = Ok b s' →
  ∃ rx ry p',
    repr (parent s) x rx ∧ repr (parent s) y ry ∧
    b = bool_decide (rx = ry) ∧
    s' = set_parent p' s ∧ same_sets (parent s) p'.
Proof.
  intros Hf H. destruct ord; unfold UnionFindRank.connected in H.
  - apply UFR_two_finds in H as (rx & ry & p1 & p2 & Hx & Hy & [= <- <-]).
    destruct (finds_same_sets _ _ _ _ _ _ _ _ Hf Hx Hy)
      as (Hrx & Hry & _ & Hs2 & _ & _).
    by exists rx, ry, p2.
  - apply UFR_two_finds in H as (ry & rx & p1 & p2 & Hy & Hx & [= <- <-]).
    destruct (finds_same_sets _ _ _ _ _ _ _ _ Hf Hy Hx)
      as (Hry & Hrx & _ & Hs2 & _ & _).
    by exists rx, ry, p2.
Qed.

Lemma UFR_run_inv n fuel c s s' :
  UnionFindRank.inv n s →
  UnionFindRank.run fuel c s = Ok tt s' → UnionFindRank.inv n s'.
Proof.
  intros Hinv H. pose proof (UFR_inv_forest _ _ Hinv) as Hf.
  destruct c as [x|x y|ord x y|]; unfold UnionFindRank.run in H.
  - apply bind_Ok_inv in H as (r & s1 & (p' & Hx & ->)%UFR_find_inv & [= <-]).
    destruct (find_Ok_forest _ _ _ _ _ Hf Hx) as (_ & Hs & _).
    by apply UFR_inv_same_sets.
  - apply bind_Ok_inv in H as (b & s1 & H & [= <-]).
    by apply (UFR_unite_inv n) in H as (? & _).
  - apply bind_Ok_inv in H as (b & s1 & H & [= <-]).
    apply UFR_connected_Ok in H as (rx & ry & p' & _ & _ & _ & -> & Hs); [|done].
    by apply UFR_inv_same_sets.
  - apply bind_Ok_inv in H as (c & s1 & [= <- <-] & [= <-]). done.
Qed.

Lemma UFR_reachable_inv n s :
  n ≤ INT_MAX → UnionFindRank.reachable n s → UnionFindRank.inv n s.
Proof.
  intros Hmax. induction 1 as [s H|s fuel c s' _ IH H].
  - by apply UFR_new_inv.
  - by eapply UFR_run_inv.
Qed.

(** In a well-formed state [unite] on valid elements returns. *)
Lemma UFR_unite_total n fuel x y s :
  UnionFindRank.inv n s →
  0 ≤ x < n → 0 ≤ y < n → (Z.to_nat n ≤ fuel)%nat →
  ∃ b s', UnionFindRank.unite fuel x y s = Ok b s'.
Proof.
  intros Hinv Hx Hy Hfuel.
  pose proof (UFR_inv_forest _ _ Hinv) as Hf.
  destruct (UFR_inv_length _ _ Hinv) as [Hlp Hlr].
  destruct Hinv as (Hn & _ & _ & _ & Hc & Hb).
  destruct (find_pair fuel (parent s) x y)
    as (rx & ry & p1 & p2 & Hfx & Hfy & Hrx & Hry & _ & Hs); [done|lia..|].
  destruct (vget_is_Some (rank s) rx) as [a Ha].
  { apply repr_root_range in Hrx. lia. }
  destruct (vget_is_Some (rank s) ry) as [c Hc'].
  { apply repr_root_range in Hry. lia. }
  pose proof (UFR_unite_result _ _ _ _ _ _ _ _ _ _ Hfx Hfy Ha Hc') as Hres.
  simpl in Hres. rewrite Hres. clear Hres.
  pose proof (count_roots_pos _ _ (repr_is_root _ _ _ Hrx)) as Hpos.
  destruct (Hb rx a Ha) as [Ha0 Hle].
  assert (INT_MIN ≤ components s - 1 ≤ INT_MAX)
    by (unfold INT_MIN, INT_MAX in *; lia).
  assert (INT_MIN ≤ a + 1 ≤ INT_MAX)
    by (unfold INT_MIN, INT_MAX in *; lia).
  repeat case_decide; try done; by eexists _, _.
Qed.
End UnionFindRank_states.

(** ** What [unite] returns, and the component counter *)

Section UnionFindRank_claims.
#[local] Abbreviation state := UnionFindRank.state.
#[local] Abbreviation parent := UnionFindRank.parent.
#[local] Abbreviation rank := UnionFindRank.rank.
#[local] Abbreviation components := UnionFindRank.components.
#[local] Abbreviation set_parent := UnionFindRank.set_parent.
Implicit Types (s : state).

(** X20.  On valid elements [unite(x, y)] returns [false] when [x] and
    [y] have the same root, and then no set, no rank and not the counter
    has changed; it returns [true] when their roots differ, and then the
    two sets are one and there is one root less.  On the edges
    [(0,1), (1,2), (2,0)] over three elements the first two calls return
    [true] and the third returns [false], which [hasCycle] reports as a
    cycle. *)
Theorem UFR_unite_reports_merge :
  (∀ n fuel x y s,
     UnionFindRank.inv n s →
     0 ≤ x < n → 0 ≤ y < n → (Z.to_nat n ≤ fuel)%nat →
     ∃ b s',
       UnionFindRank.unite fuel x y s = Ok b s' ∧
       (same_set (parent s) x y →
          b = false ∧ same_sets (parent s) (parent s') ∧
          rank s' = rank s ∧ components s' = components s) ∧
       (¬ same_set (parent s) x y →
          b = true ∧ same_set (parent s') x y ∧
          S (count_roots (parent s')) = count_roots (parent s))) ∧
  (∃ s0 s1 s2 s3,
     UnionFindRank.UnionFind 3 UnionFindRank.empty = Ok tt s0 ∧
     UnionFindRank.unite 3 0 1 s0 = Ok true s1 ∧
     UnionFindRank.unite 3 1 2 s1 = Ok true s2 ∧
     UnionFindRank.unite 3 2 0 s2 = Ok false s3 ∧
     UnionFindRank.hasCycle 3 3 [[0; 1]; [1; 2]; [2; 0]] UnionFindRank.empty
     = Ok true s3).
Proof.
  split.
  - intros n fuel x y s Hinv Hx Hy Hfuel.
    pose proof (UFR_inv_forest _ _ Hinv) as Hf.
    destruct (UFR_unite_total n fuel x y s) as (b & s' & H); [done..|].
    exists b, s'. split; [done|].
    destruct (UFR_unite_inv _ _ _ _ _ _ _ Hinv H) as (Hinv' & Hm & Hc & Hb).
    split.
    + intros Hsame.
      assert (b = false) as -> by (destruct b; [by apply Hb in Hsame|done]).
      apply UFR_unite_Ok in H as (rx & ry & p1 & q & Hfx & Hfy & Hcase).
      destruct Hcase as [(_ & _ & ->)|(_ & [=] & _)].
      destruct (finds_same_sets _ _ _ _ _ _ _ _ Hf Hfx Hfy)
        as (_ & _ & _ & Hs & _ & _).
      done.
    + intros Hnot.
      assert (b = true) as -> by (by apply Hb).
      split; [done|]. split; [by eapply merged_joins|].
      destruct Hinv as (_ & _ & _ & _ & Hcs & _).
      destruct Hinv' as (_ & _ & _ & _ & Hcs' & _).
      pose proof (merged_count_roots _ _ _ _ Hf Hm). lia.
  - exists {| UnionFindRank.parent := [0; 1; 2]; UnionFindRank.rank := [0; 0; 0];
              UnionFindRank.components := 3 |},
           {| UnionFindRank.parent := [0; 0; 2]; UnionFindRank.rank := [1; 0; 0];
              UnionFindRank.components := 2 |},
           {| UnionFindRank.parent := [0; 0; 0]; UnionFindRank.rank := [1; 0; 0];
              UnionFindRank.components := 1 |},
           {| UnionFindRank.parent := [0; 0; 0]; UnionFindRank.rank := [1; 0; 0];
              UnionFindRank.components := 1 |}.
    split_and!; vm_compute; reflexivity.
Qed.

Lemma UFR_inv_example :
  UnionFindRank.inv 3
    {| UnionFindRank.parent := [0; 0; 2]; UnionFindRank.rank := [1; 0; 0];
       UnionFindRank.components := 2 |}.
Proof.
  apply UFR_reachable_inv; [by vm_compute|].
  apply UnionFindRank.reachable_call
    with (s := {| UnionFindRank.parent := [0; 1; 2];
                  UnionFindRank.rank := [0; 0; 0];
                  UnionFindRank.components := 3 |})
         (fuel := 3%nat) (c := UnionFindRank.call_unite 0 1); [|reflexivity].
  apply UnionFindRank.reachable_new. reflexivity.
Qed.

Lemma UFR_unite_reports_merge_witness :
  ∃ b s',
    UnionFindRank.unite 3 1 2
      {| UnionFindRank.parent := [0; 0; 2]; UnionFindRank.rank := [1; 0; 0];
         UnionFindRank.components := 2 |}
    = Ok b s' ∧
    (same_set [0; 0; 2] 1 2 →
       b = false ∧ same_sets [0; 0; 2] (parent s') ∧
       rank s' = [1; 0; 0] ∧ components s' = 2) ∧
    (¬ same_set [0; 0; 2] 1 2 →
       b = true ∧ same_set (parent s') 1 2 ∧
       S (count_roots (parent s')) = count_roots [0; 0; 2]).
Proof.
  apply (proj1 UFR_unite_reports_merge 3 3%nat 1 2
           {| UnionFindRank.parent := [0; 0; 2]; UnionFindRank.rank := [1; 0; 0];
              UnionFindRank.components := 2 |}).
  - apply UFR_inv_example.
  - lia.
  - lia.
  - simpl. lia.
Defined.

(** The same update of [parent] and [rank] as [UnionFind::unionSets],
    which returns nothing and counts nothing. *)
Lemma UFR_unite_unionSets fuel x y s b s' :
  UnionFindRank.unite fuel x y s = Ok b s' →
  UnionFind.unionSets fuel x y
    {| UnionFind.parent := parent s; UnionFind.rank := rank s |}
  = Ok tt {| UnionFind.parent := parent s'; UnionFind.rank := rank s' |}.
Proof.
  intros (rx & ry & p1 & q & Hfx & Hfy & Hcase)%UFR_unite_Ok.
  destruct Hcase as [(-> & -> & ->)|(Hne & -> & a & c & Ha & Hc & _ & Hcase)].
  - unfold UnionFind.unionSets.
    erewrite bind_Ok by (by apply UF_find_Ok).
    erewrite bind_Ok by (by apply UF_find_Ok).
    by rewrite decide_False by (intros ?; done).
  - rewrite (UF_unionSets_result fuel x y _ rx ry p1 q a c) by done.
    rewrite decide_False by done.
    destruct Hcase as [[Hlt ->]|[[Hgt ->]|(-> & Hmax & ->)]]; simpl.
    + by rewrite decide_True.
    + by rewrite decide_False, decide_True by lia.
    + by rewrite decide_False, decide_False, decide_True by (done || lia).
Qed.
(** X21.  After [UnionFind(n)], for every [n >= 0], [getComponents()]
    returns [n].  A call of [unite] that returns [true] leaves the counter
    one lower, one that returns [false] leaves it as it was, and so does
    every call of [find], [connected] and [getComponents].  In every
    state reached from [UnionFind(n)] the counter is the number of roots.
    On five elements and the edges [(0,1), (1,2), (3,4)],
    [countComponents] returns 2. *)
Theorem UFR_component_counter :
  (∀ n, 0 ≤ n →
     ∃ s, UnionFindRank.UnionFind n UnionFindRank.empty = Ok tt s ∧
          UnionFindRank.getComponents s = Ok n s) ∧
  (∀ fuel x y s b s',
     UnionFindRank.unite fuel x y s = Ok b s' →
     components s' = if b then components s - 1 else components s) ∧
  (∀ fuel c s s',
     UnionFindRank.run fuel c s = Ok tt s' →
     (∀ x y, c ≠ UnionFindRank.call_unite x y) →
     components s' = components s) ∧
  (∀ n s,
     n ≤ INT_MAX → UnionFindRank.reachable n s →
     components s = Z.of_nat (count_roots (parent s))) ∧
  (∃ s,
     UnionFindRank.countComponents 5 5 [[0; 1]; [1; 2]; [3; 4]]
       UnionFindRank.empty
     = Ok 2 s).
Proof.
  split_and!.
  - intros n Hn. eexists. split; [by apply UFR_new|done].
  - intros fuel x y s b s' (rx & ry & p1 & q & _ & _ & Hcase)%UFR_unite_Ok.
    destruct Hcase as [(_ & -> & ->)|(_ & -> & a & c & _ & _ & _ & Hcase)];
      [done|].
    by destruct Hcase as [[_ ->]|[[_ ->]|(_ & _ & ->)]].
  - intros fuel c s s' H Hc.
    destruct c as [x|x y|ord x y|]; unfold UnionFindRank.run in H.
    + by apply bind_Ok_inv in H
        as (r & s1 & (p' & _ & ->)%UFR_find_inv & [= <-]).
    + by destruct (Hc x y).
    + apply bind_Ok_inv in H as (b & s1 & H & [= <-]).
      destruct ord; unfold UnionFindRank.connected in H;
        by apply UFR_two_finds in H as (? & ? & ? & ? & _ & _ & [= _ <-]).
    + by apply bind_Ok_inv in H as (c & s1 & [= <- <-] & [= <-]).
  - intros n s Hmax Hr.
    by destruct (UFR_reachable_inv n s Hmax Hr) as (_ & _ & _ & _ & Hc & _).
  - exists {| UnionFindRank.parent := [0; 0; 0; 3; 3];
              UnionFindRank.rank := [1; 0; 0; 1; 0];
              UnionFindRank.components := 2 |}.
    vm_compute. reflexivity.
Qed.

Lemma UFR_component_counter_witness :
  ∃ s, UnionFindRank.UnionFind 5 UnionFindRank.empty = Ok tt s ∧
       UnionFindRank.getComponents s = Ok 5 s.
Proof.
  apply (proj1 UFR_component_counter 5). lia.
Defined.
End UnionFindRank_claims.

(** ** The number of elements of a set *)

Section counting_unions.
Context {A : Type} (P Q R : A → Prop)
        `{!∀ x, Decision (P x), !∀ x, Decision (Q x), !∀ x, Decision (R x)}.

Lemma length_filter_or (l : list A) :
  (∀ x, R x ↔ P x ∨ Q x) → (∀ x, P x → Q x → False) →
  length (filter R l) = (length (filter P l) + length (filter Q l))%nat.
Proof.
  intros HR Hdisj. induction l as [|x l IH]; [done|].
  destruct (decide (P x)) as [HP|HP], (decide (Q x)) as [HQ|HQ].
  - by destruct (Hdisj x).
  - rewrite (filter_cons_True R), (filter_cons_True P), (filter_cons_False Q)
      by (rewrite ?HR; tauto).
    simpl. by rewrite IH.
  - rewrite (filter_cons_True R), (filter_cons_False P), (filter_cons_True Q)
      by (rewrite ?HR; tauto).
    simpl. rewrite IH. lia.
  - rewrite (filter_cons_False R), (filter_cons_False P), (filter_cons_False Q)
      by (rewrite ?HR; tauto).
    done.
Qed.
End counting_unions.

Section card_facts.
Implicit Types (p q : list Z) (a b r : Z).

Lemma card_spec p r :
  card p r = length (filter (λ i, repr p i r) (seqZ 0 (Z.of_nat (length p)))).
Proof.
  unfold card. f_equal. apply list_filter_iff.
  intros i. symmetry. apply repr_root_of.
Qed.

Lemma card_same_sets p q r : same_sets p q → card q r = card p r.
Proof.
  intros [Hl Hs]. rewrite !card_spec, Hl. f_equal.
  apply list_filter_iff. intros i. apply Hs.
Qed.

(** After a link the set of the surviving root has the elements of both. *)
Lemma card_link p a b :
  forest p → is_root p a → is_root p b → a ≠ b →
  card (<[Z.to_nat a := b]> p) b = (card p a + card p b)%nat.
Proof.
  intros Hf Ha Hb Hab. rewrite !card_spec, length_insert.
  apply length_filter_or.
  - intros i. split.
    + intros (s & Hs & Heq)%repr_link_inv; [|done..].
      case_decide; subst; auto.
    + intros [Hi|Hi].
      * pose proof (repr_link p a b i a Ha Hb Hab Hi) as H.
        by rewrite decide_True in H.
      * pose proof (repr_link p a b i b Ha Hb Hab Hi) as H.
        by rewrite decide_False in H.
  - intros i Hia Hib. apply Hab. by eapply repr_functional.
Qed.

Lemma card_link_other p a b r :
  forest p → is_root p a → is_root p b → a ≠ b → r ≠ a → r ≠ b →
  card (<[Z.to_nat a := b]> p) r = card p r.
Proof.
  intros Hf Ha Hb Hab Hra Hrb. rewrite !card_spec, length_insert.
  f_equal. apply list_filter_iff. intros i. split.
  - intros (s & Hs & Heq)%repr_link_inv; [|done..].
    case_decide; subst; [done|]. done.
  - intros Hi. pose proof (repr_link p a b i r Ha Hb Hab Hi) as H.
    by rewrite decide_False in H.
Qed.

Lemma card_seqZ n r : 0 ≤ r < n → card (seqZ 0 n) r = 1%nat.
Proof.
  intros Hr. rewrite card_spec, length_seqZ.
  rewrite (length_filter_remove _ (λ _, False) _ r).
  - f_equal. induction (seqZ _ _) as [|x l IH]; [done|].
    by rewrite filter_cons_False by tauto.
  - apply NoDup_seqZ.
  - apply elem_of_seqZ. lia.
  - apply repr_root. unfold is_root.
    rewrite vget_seqZ. by rewrite decide_True by lia.
  - intros i. split; [done|]. intros [Hi Hne]. apply Hne.
    symmetry. by eapply repr_seqZ.
Qed.

Lemma card_pair_le p a b :
  a ≠ b → (card p a + card p b ≤ length p)%nat.
Proof.
  intros Hab. rewrite !card_spec.
  rewrite <- (length_filter_or _ _ (λ i, repr p i a ∨ repr p i b)).
  - etrans; [apply length_filter|]. rewrite length_seqZ. lia.
  - done.
  - intros i Hia Hib. apply Hab. by eapply repr_functional.
Qed.

Lemma card_pos p r : is_root p r → (1 ≤ card p r)%nat.
Proof.
  intros Hr. rewrite card_spec.
  assert (r ∈ filter (λ i, repr p i r) (seqZ 0 (Z.of_nat (length p)))) as Hin.
  { apply list_elem_of_filter. split; [by apply repr_root|].
    apply elem_of_seqZ. apply vget_range in Hr. lia. }
  destruct (filter _ _); [by apply elem_of_nil in Hin|simpl; lia].
Qed.
End card_facts.

(** ** The size-tracking class of the documentation *)

Section UnionFindSize_facts.
#[local] Abbreviation state := UnionFindSize.state.
#[local] Abbreviation parent := UnionFindSize.parent.
#[local] Abbreviation size := UnionFindSize.size.
#[local] Abbreviation components := UnionFindSize.components.
#[local] Abbreviation set_parent := UnionFindSize.set_parent.
#[local] Abbreviation set_size := UnionFindSize.set_size.
#[local] Abbreviation set_components := UnionFindSize.set_components.
Implicit Types (s : state).

Lemma UFS_find_Ok fuel x s r p' :
  find fuel x (parent s) = Ok r p' →
  UnionFindSize.find fuel x s = Ok r (set_parent p' s).
Proof. apply zoom_Ok. Qed.

Lemma UFS_size_read s i a :
  vget (size s) i = Some a → UnionFindSize.on_size (vread i) s = Ok a s.
Proof.
  intros H. unfold UnionFindSize.on_size.
  erewrite zoom_Ok by (by apply vread_Ok). by destruct s.
Qed.

Lemma UFS_parent_write s i x :
  0 ≤ i < Z.of_nat (length (parent s)) →
  UnionFindSize.on_parent (vwrite i x) s
  = Ok tt (set_parent (<[Z.to_nat i := x]> (parent s)) s).
Proof. intros H. apply zoom_Ok. by apply vwrite_Ok. Qed.

Lemma UFS_size_write s i x :
  0 ≤ i < Z.of_nat (length (size s)) →
  UnionFindSize.on_size (vwrite i x) s
  = Ok tt (set_size (<[Z.to_nat i := x]> (size s)) s).
Proof. intros H. apply zoom_Ok. by apply vwrite_Ok. Qed.

Lemma UFS_count_down s :
  (c ← UnionFindSize.read_components;
   c' ← checked (c - 1);
   UnionFindSize.write_components c';; mret true) s
  = if decide (INT_MIN ≤ components s - 1 ≤ INT_MAX)
    then Ok true (set_components (components s - 1) s)
    else Fault s.
Proof.
  erewrite bind_Ok by reflexivity.
  case_decide as Hc.
  - erewrite bind_Ok by (by apply checked_Ok).
    erewrite bind_Ok by reflexivity. done.
  - by erewrite bind_Fault by (by apply checked_Fault).
Qed.

Lemma UFS_unite_result fuel x y s rx ry p1 p2 a b :
  find fuel x (parent s) = Ok rx p1 →
  find fuel y p1 = Ok ry p2 →
  vget (size s) rx = Some a → vget (size s) ry = Some b →
  let finish := λ t : state,
    if decide (INT_MIN ≤ components t - 1 ≤ INT_MAX)
    then Ok true (set_components (components t - 1) t)
    else Fault t in
  UnionFindSize.unite fuel x y s =
    if decide (rx = ry) then Ok false (set_parent p2 s)
    else if decide (a < b) then
      if decide (INT_MIN ≤ b + a ≤ INT_MAX) then
        finish (set_size (<[Z.to_nat ry := b + a]> (size s))
                  (set_parent (<[Z.to_nat rx := ry]> p2) s))
      else Fault (set_parent (<[Z.to_nat rx := ry]> p2) s)
    else
      if decide (INT_MIN ≤ a + b ≤ INT_MAX) then
        finish (set_size (<[Z.to_nat rx := a + b]> (size s))
                  (set_parent (<[Z.to_nat ry := rx]> p2) s))
      else Fault (set_parent (<[Z.to_nat ry := rx]> p2) s).
Proof.
  intros Hx Hy Ha Hb finish.
  destruct (find_Ok_range _ _ _ _ _ Hx) as (_ & Hrx & Hl1).
  destruct (find_Ok_range _ _ _ _ _ Hy) as (_ & Hry & Hl2).
  pose proof (vget_range _ _ _ Ha) as Hra.
  pose proof (vget_range _ _ _ Hb) as Hrb.
  unfold UnionFindSize.unite.
  erewrite bind_Ok by (by apply UFS_find_Ok).
  erewrite bind_Ok by (by apply UFS_find_Ok).
  destruct (decide (rx = ry)) as [->|Hne]; [done|].
  erewrite bind_Ok by (by apply UFS_size_read).
  erewrite bind_Ok by (by apply UFS_size_read).
  destruct (decide (a < b)) as [Hlt|Hge].
  - case_decide as Hin.
    + erewrite bind_Ok; cycle 1.
      { erewrite bind_Ok by (apply UFS_parent_write; simpl; lia).
        erewrite bind_Ok by (by apply UFS_size_read).
        erewrite bind_Ok by (by apply UFS_size_read).
        erewrite bind_Ok by (by apply checked_Ok).
        apply UFS_size_write. simpl. lia. }
      apply UFS_count_down.
    + erewrite bind_Fault; [done|].
      erewrite bind_Ok by (apply UFS_parent_write; simpl; lia).
      erewrite bind_Ok by (by apply UFS_size_read).
      erewrite bind_Ok by (by apply UFS_size_read).
      by erewrite bind_Fault by (by apply checked_Fault).
  - case_decide as Hin.
    + erewrite bind_Ok; cycle 1.
      { erewrite bind_Ok by (apply UFS_parent_write; simpl; lia).
        erewrite bind_Ok by (by apply UFS_size_read).
        erewrite bind_Ok by (by apply UFS_size_read).
        erewrite bind_Ok by (by apply checked_Ok).
        apply UFS_size_write. simpl. lia. }
      apply UFS_count_down.
    + erewrite bind_Fault; [done|].
      erewrite bind_Ok by (apply UFS_parent_write; simpl; lia).
      erewrite bind_Ok by (by apply UFS_size_read).
      erewrite bind_Ok by (by apply UFS_size_read).
      by erewrite bind_Fault by (by apply checked_Fault).
Qed.

Lemma UFS_new n :
  0 ≤ n →
  UnionFindSize.UnionFind n UnionFindSize.empty
  = Ok tt {| UnionFindSize.parent := seqZ 0 n;
             UnionFindSize.size := replicate (Z.to_nat n) 1;
             UnionFindSize.components := n |}.
Proof.
  intros Hn. unfold UnionFindSize.UnionFind.
  erewrite bind_Ok by (apply zoom_Ok; by apply resize_empty).
  erewrite bind_Ok by (apply zoom_Ok; by apply resize_empty).
  erewrite bind_Ok by reflexivity.
  unfold UnionFindSize.on_parent.
  rewrite for_range_zoom by (done || by intros []).
  erewrite zoom_Ok by (by apply identity_loop). done.
Qed.

Lemma UFS_new_inv n :
  0 ≤ n ≤ INT_MAX →
  UnionFindSize.inv n
    {| UnionFindSize.parent := seqZ 0 n;
       UnionFindSize.size := replicate (Z.to_nat n) 1;
       UnionFindSize.components := n |}.
Proof.
  intros [Hn Hmax]. split_and!; simpl; try done.
  - by rewrite length_seqZ.
  - by rewrite length_replicate.
  - apply forest_seqZ.
  - rewrite count_roots_seqZ. lia.
  - intros r Hr. pose proof (vget_range _ _ _ Hr) as Hrr.
    rewrite length_seqZ in Hrr.
    rewrite card_seqZ by lia.
    apply vget_Some. split; [lia|]. apply lookup_replicate. split; [done|lia].
Qed.

Lemma UFS_inv_same_sets n s q :
  UnionFindSize.inv n s → same_sets (parent s) q →
  UnionFindSize.inv n (set_parent q s).
Proof.
  intros ([Hn Hmax] & Hlp & Hls & Hf & Hc & Hsz) Hs.
  split_and!; simpl; try done.
  - destruct Hs as [-> _]. done.
  - by eapply same_sets_forest.
  - by rewrite (count_roots_same_sets _ _ Hs).
  - intros r Hr. rewrite (card_same_sets _ _ r Hs).
    apply Hsz. by apply (same_sets_is_root (parent s) q r Hs).
Qed.

(** The invariant after the link of [low] under [high], with the sum of
    their sizes recorded at [high]. *)
Lemma UFS_inv_link n s q low high :
  UnionFindSize.inv n s → same_sets (parent s) q →
  is_root q low → is_root q high → low ≠ high →
  UnionFindSize.inv n
    {| UnionFindSize.parent := <[Z.to_nat low := high]> q;
       UnionFindSize.size :=
         <[Z.to_nat high :=
             Z.of_nat (card (parent s) low) + Z.of_nat (card (parent s) high)]>
           (size s);
       UnionFindSize.components := components s - 1 |}.
Proof.
  intros Hinv Hs Hlo Hhi Hne.
  pose proof (UFS_inv_same_sets _ _ _ Hinv Hs)
    as ([Hn Hmax] & Hlp & Hls & Hf & Hc & Hsz).
  simpl in *.
  pose proof (count_roots_link q low high Hlo Hne) as Hcount.
  pose proof (vget_range _ _ _ Hhi) as Hhr.
  split_and!; simpl.
  - lia.
  - lia.
  - by rewrite length_insert.
  - by rewrite length_insert.
  - by apply forest_link.
  - lia.
  - intros r [Hr Hrl]%is_root_link; [|done..].
    destruct (decide (r = high)) as [->|Hrh].
    + rewrite vget_insert_eq by lia. f_equal.
      rewrite card_link by done.
      rewrite !(card_same_sets _ _ _ Hs). lia.
    + rewrite vget_insert_ne by lia.
      rewrite card_link_other by done. by apply Hsz.
Qed.
Lemma UFS_inv_forest n s : UnionFindSize.inv n s → forest (parent s).
Proof. by intros (_ & _ & _ & Hf & _). Qed.

(** [getSetSize(x)] returns the number of elements of the set of [x]. *)
Lemma UFS_getSetSize_card n fuel x r s :
  UnionFindSize.inv n s → repr (parent s) x r → (Z.to_nat n ≤ fuel)%nat →
  ∃ q, UnionFindSize.getSetSize fuel x s
       = Ok (Z.of_nat (card (parent s) r)) (set_parent q s) ∧
       same_sets (parent s) q.
Proof.
  intros (Hn & Hlp & Hls & Hf & Hc & Hsz) Hr Hfuel.
  destruct (find_forest fuel (parent s) x) as (r' & q & Hq & Hr' & Hs);
    [done|by eapply repr_range|lia|].
  assert (r' = r) as -> by (by eapply repr_functional).
  exists q. split; [|done]. unfold UnionFindSize.getSetSize.
  erewrite bind_Ok by (by apply UFS_find_Ok).
  apply UFS_size_read. simpl. apply Hsz. by eapply repr_is_root.
Qed.

(** Union by size in the class that owns the sizes. *)
Lemma UFS_unite_sums n fuel x y s rx ry :
  UnionFindSize.inv n s →
  repr (parent s) x rx → repr (parent s) y ry → rx ≠ ry →
  (Z.to_nat n ≤ fuel)%nat →
  ∃ s' low high,
    UnionFindSize.unite fuel x y s = Ok true s' ∧
    UnionFindSize.inv n s' ∧
    (card (parent s) rx < card (parent s) ry → low = rx ∧ high = ry)%nat ∧
    (card (parent s) ry ≤ card (parent s) rx → low = ry ∧ high = rx)%nat ∧
    vget (parent s') low = Some high ∧ is_root (parent s') high ∧
    repr (parent s') x high ∧
    (∃ t, UnionFindSize.getSetSize fuel x s
          = Ok (Z.of_nat (card (parent s) rx)) t) ∧
    (∃ t, UnionFindSize.getSetSize fuel y s
          = Ok (Z.of_nat (card (parent s) ry)) t) ∧
    (∃ t, UnionFindSize.getSetSize fuel x s'
          = Ok (Z.of_nat (card (parent s) rx) + Z.of_nat (card (parent s) ry)) t) ∧
    components s' = components s - 1.
Proof.
  intros Hinv Hrx Hry Hne Hfuel.
  pose proof Hinv as ([Hn Hmax] & Hlp & Hls & Hf & Hc & Hsz).
  destruct (find_pair fuel (parent s) x y)
    as (rx' & ry' & p1 & q & Hfx & Hfy & Hrx' & Hry' & _ & Hs);
    [done|by eapply repr_range|by eapply repr_range|lia|].
  assert (rx' = rx) as -> by (by eapply repr_functional).
  assert (ry' = ry) as -> by (by eapply repr_functional).
  pose proof (repr_is_root _ _ _ Hrx) as Hprx.
  pose proof (repr_is_root _ _ _ Hry) as Hpry.
  assert (is_root q rx) as Hqx by (by apply (same_sets_is_root _ _ _ Hs)).
  assert (is_root q ry) as Hqy by (by apply (same_sets_is_root _ _ _ Hs)).
  assert (repr q x rx) as Hqrx by (by apply Hs).
  assert (repr q y ry) as Hqry by (by apply Hs).
  pose proof (vget_range _ _ _ Hqx) as Hxr.
  pose proof (vget_range _ _ _ Hqy) as Hyr.
  pose proof (Hsz rx Hprx) as Ha. pose proof (Hsz ry Hpry) as Hb.
  pose proof (card_pair_le (parent s) rx ry Hne) as Hsum.
  pose proof (count_roots_pos _ _ Hprx) as Hpos.
  pose proof (count_roots_le (parent s)) as Hcle.
  set (a := card (parent s) rx) in *. set (b := card (parent s) ry) in *.
  assert (∀ low high,
            is_root q low → is_root q high → low ≠ high →
            (rx = low ∧ ry = high ∨ rx = high ∧ ry = low) →
            let s' :=
              {| UnionFindSize.parent := <[Z.to_nat low := high]> q;
                 UnionFindSize.size :=
                   <[Z.to_nat high :=
                       Z.of_nat (card (parent s) low)
                       + Z.of_nat (card (parent s) high)]> (size s);
                 UnionFindSize.components := components s - 1 |} in
            UnionFindSize.inv n s' ∧
            vget (parent s') low = Some high ∧ is_root (parent s') high ∧
            repr (parent s') x high ∧
            ∃ t, UnionFindSize.getSetSize fuel x s'
                 = Ok (Z.of_nat (card (parent s) low)
                       + Z.of_nat (card (parent s) high)) t) as Hafter.
  { intros low high Hl Hh Hlh Hcase s'.
    assert (UnionFindSize.inv n s') as Hinv'
      by (by apply UFS_inv_link).
    assert (repr (parent s') x high) as Hrx2.
    { simpl. destruct Hcase as [[-> ->]|[-> ->]].
      - pose proof (repr_link q low high x low Hl Hh Hlh Hqrx) as H.
        by rewrite decide_True in H.
      - pose proof (repr_link q low high x high Hl Hh Hlh Hqrx) as H.
        by rewrite decide_False in H. }
    pose proof (vget_range _ _ _ Hh) as Hhr.
    split_and!; [done|..|done|].
    - simpl. apply vget_insert_eq. by eapply vget_range.
    - simpl. apply is_root_link; auto.
    - destruct (UFS_getSetSize_card n fuel x high s' Hinv' Hrx2 Hfuel)
        as (q' & Hget & _).
      eexists. rewrite Hget. f_equal.
      destruct Hinv' as (_ & _ & _ & _ & _ & Hsz').
      specialize (Hsz' high (repr_is_root _ _ _ Hrx2)). simpl in Hsz'.
      assert (length q = length (size s)) as Hlq
        by (destruct Hs as [-> _]; congruence).
      rewrite vget_insert_eq in Hsz' by lia.
      injection Hsz' as Heq. simpl. lia. }
  pose proof (UFS_unite_result _ _ _ _ _ _ _ _ _ _ Hfx Hfy Ha Hb) as Hres.
  simpl in Hres. rewrite Hres. clear Hres.
  rewrite decide_False by done.
  assert (INT_MIN ≤ components s - 1 ≤ INT_MAX)
    by (unfold INT_MIN, INT_MAX in *; lia).
  assert (INT_MIN ≤ Z.of_nat a + Z.of_nat b ≤ INT_MAX)
    by (unfold INT_MIN, INT_MAX in *; lia).
  destruct (UFS_getSetSize_card n fuel x rx s Hinv Hrx Hfuel) as (qx & Hgx & _).
  destruct (UFS_getSetSize_card n fuel y ry s Hinv Hry Hfuel) as (qy & Hgy & _).
  destruct (decide (Z.of_nat a < Z.of_nat b)) as [Hlt|Hge].
  - rewrite !decide_True by (simpl; lia).
    destruct (Hafter rx ry) as (Hinv' & Hlink & Hroot & Hx2 & t & Hget);
      [done|done|done|by left|].
    replace (Z.of_nat b + Z.of_nat a) with (Z.of_nat a + Z.of_nat b) by lia.
    eexists _, rx, ry. split; [done|].
    split_and!; try done; try lia; by eexists.
  - rewrite !decide_True by (simpl; lia).
    destruct (Hafter ry rx) as (Hinv' & Hlink & Hroot & Hx2 & t & Hget);
      [done|done|done|by right|].
    replace (Z.of_nat b + Z.of_nat a) with (Z.of_nat a + Z.of_nat b) in Hget
      by lia.
    replace (Z.of_nat (card (parent s) ry) + Z.of_nat (card (parent s) rx))
      with (Z.of_nat a + Z.of_nat b) in * by (unfold a, b; lia).
    eexists _, ry, rx. split; [done|].
    split_and!; try done; try lia; by eexists.
Qed.
(** Every [unite] that returns keeps the invariant. *)
Lemma UFS_unite_inv n fuel x y s b s' :
  UnionFindSize.inv n s →
  UnionFindSize.unite fuel x y s = Ok b s' → UnionFindSize.inv n s'.
Proof.
  intros Hinv H. pose proof H as H0. unfold UnionFindSize.unite in H0.
  apply bind_Ok_inv in H0 as (rx & s1 & (p1 & Hfx & ->)%zoom_Ok_inv & H0).
  apply bind_Ok_inv in H0 as (ry & s2 & (q & Hfy & ->)%zoom_Ok_inv & _).
  simpl in Hfy.
  pose proof Hinv as (_ & _ & _ & Hf & _ & Hsz).
  destruct (finds_same_sets _ _ _ _ _ _ _ _ Hf Hfx Hfy)
    as (Hrx & Hry & _ & Hs & _ & _).
  pose proof (Hsz rx (repr_is_root _ _ _ Hrx)) as Ha.
  pose proof (Hsz ry (repr_is_root _ _ _ Hry)) as Hb.
  pose proof (UFS_unite_result _ _ _ _ _ _ _ _ _ _ Hfx Hfy Ha Hb) as Hres.
  cbv zeta in Hres.
  destruct (decide (rx = ry)) as [Heq|Hne].
  - rewrite Hres in H. injection H as <- <-. by apply UFS_inv_same_sets.
  - set (fuel' := (fuel `max` Z.to_nat n)%nat).
    destruct (UFS_unite_sums n fuel' x y s rx ry) as (s'' & _ & _ & H' & Hinv' & _);
      [done..|lia|].
    assert (find fuel' x (parent s) = Ok rx p1) as Hfx'
      by (eapply find_fuel_mono; [done|lia]).
    assert (find fuel' y p1 = Ok ry q) as Hfy'
      by (eapply find_fuel_mono; [done|lia]).
    pose proof (UFS_unite_result _ _ _ _ _ _ _ _ _ _ Hfx' Hfy' Ha Hb) as Hres'.
    cbv zeta in Hres'. rewrite decide_False in Hres' by done.
    rewrite Hres' in H'. rewrite Hres in H.
    rewrite H in H'. by injection H' as -> ->.
Qed.

Example UFS_sizes_example :
  ∃ s0 s1 s2 s3,
    UnionFindSize.UnionFind 4 UnionFindSize.empty = Ok tt s0 ∧
    UnionFindSize.unite 4 0 1 s0 = Ok true s1 ∧
    UnionFindSize.unite 4 2 1 s1 = Ok true s2 ∧
    UnionFindSize.getSetSize 4 2 s2 = Ok 3 s3 ∧
    UnionFindSize.parent s3 = [0; 0; 0; 3] ∧
    UnionFindSize.size s3 = [3; 1; 1; 1] ∧
    UnionFindSize.components s3 = 2.
Proof.
  exists {| UnionFindSize.parent := [0; 1; 2; 3];
            UnionFindSize.size := [1; 1; 1; 1];
            UnionFindSize.components := 4 |},
         {| UnionFindSize.parent := [0; 0; 2; 3];
            UnionFindSize.size := [2; 1; 1; 1];
            UnionFindSize.components := 3 |},
         {| UnionFindSize.parent := [0; 0; 0; 3];
            UnionFindSize.size := [3; 1; 1; 1];
            UnionFindSize.components := 2 |},
         {| UnionFindSize.parent := [0; 0; 0; 3];
            UnionFindSize.size := [3; 1; 1; 1];
            UnionFindSize.components := 2 |}.
  split_and!; vm_compute; reflexivity.
Qed.
End UnionFindSize_facts.

(** ** Union by size *)

Section UnionFind_by_size.
#[local] Abbreviation parent := UnionFind.parent.
#[local] Abbreviation rank := UnionFind.rank.
#[local] Abbreviation set_parent := UnionFind.set_parent.
Implicit Types (s : UnionFind.state).

(** [unionBySize] on two elements with distinct roots [ru] and [rv],
    whose recorded sizes are [a] and [b]: the root of the strictly smaller
    size is attached under the other one ([rv] under [ru] when the sizes
    are equal), the size recorded at the surviving root becomes [a + b]
    and no other size changes; afterwards [find] returns the surviving
    root for both elements, so that the size recorded at the root of
    [find(u)] is the sum of the two original sizes.  The vector of sizes
    is the caller's: it has to hold a size for both roots, and their sum
    has to be an [int].  In the size-tracking class, which owns the
    sizes, [unite] on two elements with distinct roots returns [true],
    attaches the root of the strictly smaller set under the other, and
    [getSetSize(x)] afterwards returns the sum of what [getSetSize(x)] and
    [getSetSize(y)] returned before, the number of elements of the two
    sets. *)
Theorem union_by_size_sums :
  (∀ n fuel u v (s : UnionFind.state) size ru rv a b,
     UnionFind.wf n s →
     repr (parent s) u ru → repr (parent s) v rv → ru ≠ rv →
     vget size ru = Some a → vget size rv = Some b →
     INT_MIN ≤ a + b ≤ INT_MAX →
     (Z.to_nat n ≤ fuel)%nat →
     ∃ s' size' low high,
       UnionFind.unionBySize fuel u v (s, size) = Ok tt (s', size') ∧
       (a < b → low = ru ∧ high = rv) ∧
       (b ≤ a → low = rv ∧ high = ru) ∧
       vget (parent s') low = Some high ∧ is_root (parent s') high ∧
       vget size' high = Some (a + b) ∧
       (∀ i, i ≠ high → vget size' i = vget size i) ∧
       rank s' = rank s ∧
       (∃ t, UnionFind.find fuel u s' = Ok high t) ∧
       (∃ t, UnionFind.find fuel v s' = Ok high t)) ∧
  (∀ n fuel x y (s : UnionFindSize.state) rx ry,
     UnionFindSize.inv n s →
     repr (UnionFindSize.parent s) x rx →
     repr (UnionFindSize.parent s) y ry → rx ≠ ry →
     (Z.to_nat n ≤ fuel)%nat →
     ∃ (s' : UnionFindSize.state) low high a b,
       (∃ t, UnionFindSize.getSetSize fuel x s = Ok a t) ∧
       (∃ t, UnionFindSize.getSetSize fuel y s = Ok b t) ∧
       a = Z.of_nat (card (UnionFindSize.parent s) rx) ∧
       b = Z.of_nat (card (UnionFindSize.parent s) ry) ∧
       UnionFindSize.unite fuel x y s = Ok true s' ∧
       UnionFindSize.inv n s' ∧
       (a < b → low = rx ∧ high = ry) ∧
       (b ≤ a → low = ry ∧ high = rx) ∧
       vget (UnionFindSize.parent s') low = Some high ∧
       is_root (UnionFindSize.parent s') high ∧
       (∃ t, UnionFindSize.getSetSize fuel x s' = Ok (a + b) t)).
Proof.
  split; cycle 1.
  { intros n fuel x y s rx ry Hinv Hrx Hry Hne Hfuel.
    destruct (UFS_unite_sums n fuel x y s rx ry Hinv Hrx Hry Hne Hfuel)
      as (s' & low & high & Hu & Hinv' & Hlt & Hge & Hlink & Hroot & _ &
          Hgx & Hgy & Hg' & _).
    exists s', low, high, (Z.of_nat (card (UnionFindSize.parent s) rx)),
           (Z.of_nat (card (UnionFindSize.parent s) ry)).
    split_and!; try done.
    - intros H. apply Hlt. lia.
    - intros H. apply Hge. lia. }
  intros n fuel u v s size ru rv a b.
  intros (Hn & Hlp & Hlr & Hf) Hru Hrv Hne Ha Hb Hsum Hfuel.
  destruct (find_pair fuel (parent s) u v)
    as (ru' & rv' & p1 & q & Hfu & Hfv & Hru' & Hrv' & _ & Hs);
    [done|apply repr_range in Hru; lia|apply repr_range in Hrv; lia|lia|].
  assert (ru' = ru) as -> by (by eapply repr_functional).
  assert (rv' = rv) as -> by (by eapply repr_functional).
  pose proof (same_sets_forest _ _ Hs Hf) as Hfq.
  assert (is_root q ru) as Hqu
    by (eapply same_sets_is_root; [done|by eapply repr_is_root]).
  assert (is_root q rv) as Hqv
    by (eapply same_sets_is_root; [done|by eapply repr_is_root]).
  pose proof (vget_range _ _ _ Hqu) as Hu_range.
  pose proof (vget_range _ _ _ Hqv) as Hv_range.
  pose proof (vget_range _ _ _ Ha) as Ha_range.
  pose proof (vget_range _ _ _ Hb) as Hb_range.
  assert (repr q u ru) as Hqru by (by apply Hs).
  assert (repr q v rv) as Hqrv by (by apply Hs).
  assert (length q = Z.to_nat n) as Hlq by (destruct Hs as [-> _]; done).
  assert (∀ low high,
            is_root q low → is_root q high → low ≠ high →
            (ru = low ∧ rv = high ∨ ru = high ∧ rv = low) →
            ∀ x, x = u ∨ x = v →
              ∃ t, UnionFind.find fuel x (set_parent (<[Z.to_nat low := high]> q) s)
                   = Ok high t) as Hfind.
  { intros low high Hl Hh Hlh Hcase x Hx.
    assert (repr (<[Z.to_nat low := high]> q) x high) as Hrx.
    { destruct Hx as [-> | ->], Hcase as [[-> ->]|[-> ->]].
      - pose proof (repr_link q low high u low Hl Hh Hlh Hqru) as H.
        by rewrite decide_True in H.
      - pose proof (repr_link q low high u high Hl Hh Hlh Hqru) as H.
        by rewrite decide_False in H.
      - pose proof (repr_link q low high v high Hl Hh Hlh Hqrv) as H.
        by rewrite decide_False in H.
      - pose proof (repr_link q low high v low Hl Hh Hlh Hqrv) as H.
        by rewrite decide_True in H. }
    destruct (UF_find_total fuel (set_parent (<[Z.to_nat low := high]> q) s) x)
      as (r & p' & H & Hr & _); simpl.
    - by apply forest_link.
    - rewrite length_insert. apply repr_range in Hrx.
      by rewrite length_insert in Hrx.
    - rewrite length_insert. lia.
    - simpl in Hr. assert (r = high) as -> by (by eapply repr_functional).
      by eexists. }
  rewrite (UF_unionBySize_result _ _ _ _ _ _ _ _ _ _ _ Hfu Hfv Ha Hb).
  rewrite decide_False by done.
  destruct (decide (a < b)) as [Hlt|Hge].
  - rewrite decide_True by lia.
    exists (set_parent (<[Z.to_nat ru := rv]> q) s),
           (<[Z.to_nat rv := b + a]> size), ru, rv.
    split_and!; simpl; try done; try lia.
    + by apply vget_insert_eq.
    + apply is_root_link; auto.
    + rewrite vget_insert_eq by done. f_equal. lia.
    + intros i Hi. by rewrite vget_insert_ne by lia.
    + apply Hfind; auto.
    + apply Hfind; auto.
  - rewrite decide_True by lia.
    exists (set_parent (<[Z.to_nat rv := ru]> q) s),
           (<[Z.to_nat ru := a + b]> size), rv, ru.
    split_and!; simpl; try done; try lia.
    + by apply vget_insert_eq.
    + apply is_root_link; auto.
    + by rewrite vget_insert_eq.
    + intros i Hi. by rewrite vget_insert_ne by lia.
    + apply Hfind; auto.
    + apply Hfind; auto.
Qed.

Lemma union_by_size_sums_witness :
  ∃ s' size' low high,
    UnionFind.unionBySize 4 1 3
      ({| UnionFind.parent := [0; 0; 0; 3]; UnionFind.rank := [1; 0; 0; 0] |},
       [3; 1; 1; 1])
    = Ok tt (s', size') ∧
    (3 < 1 → low = 0 ∧ high = 3) ∧
    (1 ≤ 3 → low = 3 ∧ high = 0) ∧
    vget (parent s') low = Some high ∧ is_root (parent s') high ∧
    vget size' high = Some (3 + 1) ∧
    (∀ i, i ≠ high → vget size' i = vget [3; 1; 1; 1] i) ∧
    rank s' = [1; 0; 0; 0] ∧
    (∃ t, UnionFind.find 4 1 s' = Ok high t) ∧
    (∃ t, UnionFind.find 4 3 s' = Ok high t).
Proof.
  apply (proj1 union_by_size_sums 4 4%nat 1 3
           {| UnionFind.parent := [0; 0; 0; 3]; UnionFind.rank := [1; 0; 0; 0] |}
           [3; 1; 1; 1] 0 3 3 1).
  - apply UF_reachable_wf, UF_reachable_example.
  - apply repr_root_of. reflexivity.
  - apply repr_root_of. reflexivity.
  - lia.
  - reflexivity.
  - reflexivity.
  - unfold INT_MIN, INT_MAX. lia.
  - simpl. lia.
Defined.

Example UF_unionBySize_smaller_under_larger :
  UnionFind.unionBySize 4 3 1
    ({| UnionFind.parent := [0; 0; 0; 3]; UnionFind.rank := [1; 0; 0; 0] |},
     [3; 1; 1; 1])
  = Ok tt ({| UnionFind.parent := [0; 0; 0; 0]; UnionFind.rank := [1; 0; 0; 0] |},
           [4; 1; 1; 1]).
Proof. reflexivity. Qed.

Example UF_unionBySize_overflow :
  UnionFind.unionBySize 2 0 1
    ({| UnionFind.parent := [0; 1]; UnionFind.rank := [0; 0] |}, [INT_MAX; 1])
  = Fault ({| UnionFind.parent := [0; 0]; UnionFind.rank := [0; 0] |},
           [INT_MAX; 1]).
Proof. reflexivity. Qed.
End UnionFind_by_size.

(** * The callers of the documentation *)

(** ** Connectivity of a graph *)

Section joined_facts.
Implicit Types (R : Z → Z → Prop) (E : list (list Z)) (e : list Z).

Lemma joined_weaken R R' E E' x y :
  (∀ a b, R a b → joined R' E' a b) → (∀ edge, edge ∈ E → edge ∈ E') →
  joined R E x y → joined R' E' x y.
Proof.
  intros HR HE. induction 1 as [x y H|edge a b Hin Ha Hb|x y _ IH|x y z _ IH1 _ IH2].
  - by apply HR.
  - eapply joined_edge; [by apply HE|done..].
  - by apply joined_sym.
  - by eapply joined_trans.
Qed.

Lemma joined_ext R R' E x y :
  (∀ a b, R a b ↔ R' a b) → joined R E x y ↔ joined R' E x y.
Proof.
  intros H. split; apply joined_weaken; try done;
    intros a b Hab; apply joined_base; by apply H.
Qed.

(** Without edges nothing is added to an equivalence. *)
Lemma joined_nil R x y :
  (∀ a b, R a b → R b a) → (∀ a b c, R a b → R b c → R a c) →
  joined R [] x y ↔ R x y.
Proof.
  intros Hsym Htrans. split; [|apply joined_base].
  induction 1 as [x y H|edge a b Hin Ha Hb|x y _ IH|x y z _ IH1 _ IH2].
  - done.
  - by apply elem_of_nil in Hin.
  - by apply Hsym.
  - by eapply Htrans.
Qed.

(** The first edge can be moved into the base relation. *)
Lemma joined_cons R R' e E x y :
  (∀ a b, R' a b ↔ joined R [e] a b) →
  joined R' E x y ↔ joined R (e :: E) x y.
Proof.
  intros H. split.
  - apply joined_weaken.
    + intros a b Hab%H. revert Hab. apply joined_weaken.
      * intros; by apply joined_base.
      * intros edge ->%list_elem_of_singleton. left.
    + intros edge Hin. by right.
  - induction 1 as [x y HR|edge a b Hin Ha Hb|x y _ IH|x y z _ IH1 _ IH2].
    + apply joined_base, H. by apply joined_base.
    + apply elem_of_cons in Hin as [->|Hin].
      * apply joined_base, H. eapply joined_edge; [left|done..].
      * by eapply joined_edge.
    + by apply joined_sym.
    + by eapply joined_trans.
Qed.

Lemma joined_app_l R E E' x y : joined R E x y → joined R (E ++ E') x y.
Proof.
  apply joined_weaken; [intros; by apply joined_base|].
  intros edge Hin. apply elem_of_app. by left.
Qed.

(** Connected vertices are vertices. *)
Lemma connected_in_range n E x y :
  Forall (valid_edge n) E → connected_in n E x y → 0 ≤ x < n ∧ 0 ≤ y < n.
Proof.
  intros Hv. induction 1 as [x y [-> H]|edge a b Hin Ha Hb|x y _ IH|x y z _ IH1 _ IH2].
  - done.
  - rewrite Forall_forall in Hv. specialize (Hv edge Hin).
    unfold valid_edge in Hv. by rewrite Ha, Hb in Hv.
  - tauto.
  - tauto.
Qed.

(** The order and the repetition of the edges do not matter. *)
Lemma connected_in_perm n E E' x y :
  (∀ edge, edge ∈ E ↔ edge ∈ E') →
  connected_in n E x y ↔ connected_in n E' x y.
Proof.
  intros H. split; apply joined_weaken;
    try (intros; by apply joined_base); intros edge; apply H.
Qed.
End joined_facts.

(** Two systems of representatives have the same number of elements. *)
Section classes_facts.
Context (R : Z → Z → Prop).
Hypothesis R_sym : ∀ a b, R a b → R b a.
Hypothesis R_trans : ∀ a b c, R a b → R b c → R a c.

Lemma representatives_le (l k : list Z) :
  NoDup l →
  (∀ r r', r ∈ l → r' ∈ l → R r r' → r = r') →
  (∀ r, r ∈ l → ∃ t, t ∈ k ∧ R r t) →
  (length l ≤ length k)%nat.
Proof.
  revert k. induction l as [|r l IH]; intros k Hnd Hsep Hcov; [simpl; lia|].
  apply NoDup_cons in Hnd as [Hr Hnd].
  destruct (Hcov r) as (t & Ht & Hrt); [left|].
  apply list_elem_of_split in Ht as (k1 & k2 & ->).
  rewrite length_app. simpl.
  enough (length l ≤ length (k1 ++ k2))%nat by (rewrite length_app in *; lia).
  apply IH; [done|..].
  - intros a b Ha Hb. apply Hsep; by right.
  - intros a Ha. destruct (Hcov a) as (t' & Ht' & Hat'); [by right|].
    exists t'. split; [|done].
    apply elem_of_app in Ht' as [Ht'|Ht']; [apply elem_of_app; by left|].
    apply elem_of_cons in Ht' as [->|Ht']; [|apply elem_of_app; by right].
    exfalso. apply Hr.
    assert (r = a) as -> by (apply Hsep; [left|by right|eauto]). done.
Qed.

Lemma classes_unique n k k' : classes n R k → classes n R k' → k = k'.
Proof.
  intros (l & <- & Hnd & Hr & Hsep & Hcov) (l' & <- & Hnd' & Hr' & Hsep' & Hcov').
  apply Nat.le_antisymm; apply representatives_le; auto.
Qed.
End classes_facts.

(** ** [countComponents], [hasCycle], [findRedundantConnection] *)

Section UnionFindRank_callers.
#[local] Abbreviation state := UnionFindRank.state.
#[local] Abbreviation parent := UnionFindRank.parent.
#[local] Abbreviation rank := UnionFindRank.rank.
#[local] Abbreviation components := UnionFindRank.components.
Implicit Types (s : state) (E : list (list Z)) (e : list Z).

Lemma same_set_seqZ n x y :
  same_set (seqZ 0 n) x y ↔ x = y ∧ 0 ≤ x < n.
Proof.
  split.
  - intros (r & Hx & Hy). pose proof (repr_range _ _ _ Hx) as Hr.
    rewrite length_seqZ in Hr.
    apply repr_seqZ in Hx, Hy. split; [congruence|lia].
  - intros [-> Hy]. apply same_set_refl; [apply forest_seqZ|].
    rewrite length_seqZ. lia.
Qed.

(** One [unite] adds one edge to the connectivity. *)
Lemma merged_joined p u v p' e x y :
  forest p → merged p u v p' →
  vget e 0 = Some u → vget e 1 = Some v →
  same_set p' x y ↔ joined (same_set p) [e] x y.
Proof.
  intros Hf Hm Hu Hv. split.
  - intros [H|[[Hxu Hyv]|[Hxv Hyu]]]%(merged_same_set p u v p' x y Hf Hm).
    + by apply joined_base.
    + eapply joined_trans; [by apply joined_base|].
      eapply joined_trans; [by eapply joined_edge; [left|..]|].
      by apply joined_sym, joined_base.
    + eapply joined_trans; [by apply joined_base|].
      eapply joined_trans; [by eapply joined_sym, joined_edge; [left|..]|].
      by apply joined_sym, joined_base.
  - induction 1 as [x y H|edge a b Hin Ha Hb|x y _ IH|x y z _ IH1 _ IH2].
    + apply (merged_same_set p u v p' x y Hf Hm). by left.
    + apply list_elem_of_singleton in Hin as ->.
      assert (a = u) as -> by congruence. assert (b = v) as -> by congruence.
      by eapply merged_joins.
    + by apply same_set_sym.
    + by eapply same_set_trans.
Qed.

Lemma UFR_unite_step n fuel u v s :
  UnionFindRank.inv n s →
  0 ≤ u < n → 0 ≤ v < n → (Z.to_nat n ≤ fuel)%nat →
  ∃ b s',
    UnionFindRank.unite fuel u v s = Ok b s' ∧ UnionFindRank.inv n s' ∧
    merged (parent s) u v (parent s') ∧
    components s' = (if b then components s - 1 else components s) ∧
    (b = true ↔ ¬ same_set (parent s) u v).
Proof.
  intros Hinv Hu Hv Hfuel.
  destruct (UFR_unite_total n fuel u v s) as (b & s' & H); [done..|].
  exists b, s'. split; [done|]. by eapply UFR_unite_inv.
Qed.

Lemma UFR_endpoints n e s :
  valid_edge n e →
  ∃ u v, vget e 0 = Some u ∧ vget e 1 = Some v ∧ 0 ≤ u < n ∧ 0 ≤ v < n ∧
         UnionFindRank.endpoints e s = Ok (u, v) s.
Proof.
  unfold valid_edge, UnionFindRank.endpoints.
  destruct (vget e 0) as [u|], (vget e 1) as [v|]; try done.
  intros [Hu Hv]. by exists u, v.
Qed.

(** The loop of [countComponents]: the sets afterwards are the sets of
    before joined along the edges. *)
Lemma UFR_countComponents_loop n fuel E s :
  UnionFindRank.inv n s → Forall (valid_edge n) E → (Z.to_nat n ≤ fuel)%nat →
  ∃ s',
    UnionFindRank.countComponents_loop fuel E s = Ok tt s' ∧
    UnionFindRank.inv n s' ∧
    ∀ x y, same_set (parent s') x y ↔ joined (same_set (parent s)) E x y.
Proof.
  intros Hinv HE Hfuel. revert s Hinv.
  induction HE as [|e E He HE IH]; intros s Hinv.
  - exists s. split_and!; [done..|]. intros x y. symmetry.
    apply joined_nil; [apply same_set_sym|apply same_set_trans].
  - destruct (UFR_endpoints n e s He) as (u & v & Hu & Hv & Hur & Hvr & Hend).
    destruct (UFR_unite_step n fuel u v s) as (b & s1 & H1 & Hinv1 & Hm & _);
      [done..|].
    destruct (IH s1 Hinv1) as (s' & Hloop & Hinv' & Hsets).
    exists s'. split_and!; [|done|].
    + simpl. erewrite bind_Ok by done. simpl.
      erewrite bind_Ok by done. done.
    + intros x y. rewrite Hsets. apply joined_cons.
      intros a b'. eapply merged_joined; [by eapply UFR_inv_forest|done..].
Qed.

(** The roots are a system of representatives of the sets. *)
Lemma roots_classes n p :
  forest p → length p = Z.to_nat n → 0 ≤ n →
  classes n (same_set p) (count_roots p).
Proof.
  intros Hf Hl Hn.
  exists (filter (is_root p) (seqZ 0 (Z.of_nat (length p)))). split_and!.
  - done.
  - apply NoDup_filter, NoDup_seqZ.
  - intros r [_ Hr%elem_of_seqZ]%list_elem_of_filter. lia.
  - intros r r' [Hr _]%list_elem_of_filter [Hr' _]%list_elem_of_filter Hsame.
    apply (same_set_repr p r r' r (repr_root _ _ Hr)) in Hsame.
    eapply repr_functional; [done|by apply repr_root].
  - intros x Hx. destruct (Hf x) as [r Hr]; [lia|].
    exists r. split; [|by exists r; split; [|eapply repr_idem]].
    apply list_elem_of_filter. split; [by eapply repr_is_root|].
    apply elem_of_seqZ. apply repr_root_range in Hr. lia.
Qed.

Lemma classes_ext n R R' k :
  (∀ x y, R x y ↔ R' x y) → classes n R k → classes n R' k.
Proof.
  intros H (reps & Hlen & Hnd & Hr & Hsep & Hcov).
  exists reps. split_and!; try done.
  - intros r r' Hin Hin' HR. apply Hsep; [done..|]. by apply H.
  - intros x Hx. destruct (Hcov x Hx) as (r & Hin & HR).
    exists r. split; [done|]. by apply H.
Qed.

(** The run of [countComponents]: the constructor, the unions, the
    counter. *)
Lemma UFR_countComponents_run n fuel E :
  0 ≤ n ≤ INT_MAX → Forall (valid_edge n) E → (Z.to_nat n ≤ fuel)%nat →
  ∃ s,
    UnionFindRank.countComponents fuel n E UnionFindRank.empty
    = Ok (components s) s ∧
    UnionFindRank.inv n s ∧
    (∀ x y, same_set (parent s) x y ↔ connected_in n E x y).
Proof.
  intros [Hn Hmax] HE Hfuel.
  pose proof (UFR_new n Hn) as Hnew.
  assert (UnionFindRank.inv n
            {| UnionFindRank.parent := seqZ 0 n;
               UnionFindRank.rank := replicate (Z.to_nat n) 0;
               UnionFindRank.components := n |}) as Hinv0
    by (by apply UFR_new_inv).
  destruct (UFR_countComponents_loop n fuel E _ Hinv0 HE Hfuel)
    as (s & Hloop & Hinv & Hsets).
  exists s. split_and!; [|done|].
  - unfold UnionFindRank.countComponents.
    erewrite bind_Ok by done. erewrite bind_Ok by done. done.
  - intros x y. rewrite Hsets. apply joined_ext. apply same_set_seqZ.
Qed.

(** X1.  [countComponents(n, edges)], for edges between vertices of
    [{0, ..., n-1}], returns the number of connected components of the
    graph: the number of classes of the relation "connected by a walk".
    In the object it leaves, two elements are in one set exactly when
    they are connected. *)
Theorem UFR_countComponents_classes n fuel E :
  0 ≤ n ≤ INT_MAX → Forall (valid_edge n) E → (Z.to_nat n ≤ fuel)%nat →
  ∃ c s,
    UnionFindRank.countComponents fuel n E UnionFindRank.empty = Ok c s ∧
    0 ≤ c ≤ n ∧
    classes n (connected_in n E) (Z.to_nat c) ∧
    (∀ x y, same_set (parent s) x y ↔ connected_in n E x y).
Proof.
  intros [Hn Hmax] HE Hfuel.
  pose proof (UFR_new n Hn) as Hnew.
  assert (UnionFindRank.inv n
            {| UnionFindRank.parent := seqZ 0 n;
               UnionFindRank.rank := replicate (Z.to_nat n) 0;
               UnionFindRank.components := n |}) as Hinv0
    by (by apply UFR_new_inv).
  destruct (UFR_countComponents_loop n fuel E _ Hinv0 HE Hfuel)
    as (s & Hloop & Hinv & Hsets).
  assert (∀ x y, same_set (parent s) x y ↔ connected_in n E x y) as Hconn.
  { intros x y. rewrite Hsets. apply joined_ext. apply same_set_seqZ. }
  exists (components s), s. split_and!.
  - unfold UnionFindRank.countComponents.
    erewrite bind_Ok by done. erewrite bind_Ok by done. done.
  - destruct Hinv as (_ & _ & _ & _ & -> & _). lia.
  - destruct Hinv as (_ & Hlp & _ & _ & Hc & _).
    pose proof (count_roots_le (parent s)). lia.
  - destruct Hinv as (_ & Hlp & _ & Hf & -> & _). rewrite Nat2Z.id.
    eapply classes_ext; [exact Hconn|]. by apply roots_classes.
  - done.
Qed.

Lemma UFR_countComponents_classes_witness :
  ∃ c s,
    UnionFindRank.countComponents 5 5 [[0; 1]; [1; 2]; [3; 4]; [2; 0]]
      UnionFindRank.empty = Ok c s ∧
    0 ≤ c ≤ 5 ∧
    classes 5 (connected_in 5 [[0; 1]; [1; 2]; [3; 4]; [2; 0]]) (Z.to_nat c) ∧
    (∀ x y, same_set (parent s) x y
            ↔ connected_in 5 [[0; 1]; [1; 2]; [3; 4]; [2; 0]] x y).
Proof.
  apply (UFR_countComponents_classes 5 5 [[0; 1]; [1; 2]; [3; 4]; [2; 0]]).
  - by vm_compute.
  - repeat constructor; by vm_compute.
  - simpl. lia.
Defined.
Lemma closes_cons R R' e E e' :
  (∀ a b, R' a b ↔ joined R [e] a b) →
  closes R' E e' ↔ closes R (e :: E) e'.
Proof.
  intros H. unfold closes. split; intros (u & v & Hu & Hv & Hj);
    exists u, v; (split; [done|]); (split; [done|]);
    by apply (joined_cons R R' e E u v H).
Qed.

Lemma closes_ext R R' E e :
  (∀ a b, R a b ↔ R' a b) → closes R E e ↔ closes R' E e.
Proof.
  intros H. unfold closes. split; intros (u & v & Hu & Hv & Hj);
    exists u, v; (split; [done|]); (split; [done|]);
    by apply (joined_ext R R' E u v H).
Qed.

(** In a list that starts with a merging edge, the closing edges are
    those of the rest over the merged sets. *)
Lemma closes_split_cons R R' e E u v :
  (∀ a b, R a b → R b a) → (∀ a b c, R a b → R b c → R a c) →
  (∀ a b, R' a b ↔ joined R [e] a b) →
  vget e 0 = Some u → vget e 1 = Some v → ¬ R u v →
  ∀ E1 e' E2,
    e :: E = E1 ++ e' :: E2 → closes R E1 e' →
    ∃ E1', E1 = e :: E1' ∧ E = E1' ++ e' :: E2 ∧ closes R' E1' e'.
Proof.
  intros Hsym Htrans H Hu Hv Hnot E1 e' E2 Heq Hc.
  destruct E1 as [|e0 E1'].
  - simpl in Heq. injection Heq as <- <-.
    destruct Hc as (u' & v' & Hu' & Hv' & Hj).
    apply (joined_nil R u' v' Hsym Htrans) in Hj. destruct Hnot. congruence.
  - simpl in Heq. injection Heq as <- ->.
    exists E1'. split_and!; [done..|]. by eapply closes_cons.
Qed.


Lemma UFR_hasCycle_loop n fuel E s :
  UnionFindRank.inv n s → Forall (valid_edge n) E → (Z.to_nat n ≤ fuel)%nat →
  ∃ b s',
    UnionFindRank.hasCycle_loop fuel E s = Ok b s' ∧
    (b = true ↔
     ∃ E1 e E2, E = E1 ++ e :: E2 ∧ closes (same_set (parent s)) E1 e).
Proof.
  intros Hinv HE Hfuel. revert s Hinv.
  induction HE as [|e E He HE IH]; intros s Hinv.
  - exists false, s. split; [done|]. split; [done|].
    intros (E1 & e & E2 & Heq & _). by destruct E1.
  - destruct (UFR_endpoints n e s He) as (u & v & Hu & Hv & Hur & Hvr & Hend).
    destruct (UFR_unite_step n fuel u v s)
      as (b & s1 & H1 & Hinv1 & Hm & _ & Hb); [done..|].
    pose proof (UFR_inv_forest _ _ Hinv) as Hf.
    assert (∀ a c, same_set (parent s1) a c
                   ↔ joined (same_set (parent s)) [e] a c) as Hstep
      by (intros a c; by eapply merged_joined).
    destruct b.
    + assert (¬ same_set (parent s) u v) as Hnot by (by apply Hb).
      destruct (IH s1 Hinv1) as (b & s' & Hloop & Hiff).
      exists b, s'. split.
      { simpl. erewrite bind_Ok by done. simpl.
        erewrite bind_Ok by done. done. }
      rewrite Hiff. split.
      * intros (E1 & e' & E2 & -> & Hc).
        exists (e :: E1), e', E2. split; [done|].
        by apply (closes_cons _ _ _ _ _ Hstep).
      * intros (E1 & e' & E2 & Heq & Hc).
        destruct (closes_split_cons _ _ _ _ _ _ (same_set_sym _)
                    (same_set_trans _) Hstep Hu Hv Hnot _ _ _ Heq Hc)
          as (E1' & -> & HE' & Hc').
        by exists E1', e', E2.
    + assert (same_set (parent s) u v) as Hsame.
      { destruct (decide (same_set (parent s) u v)) as [|Hn]; [done|].
        by apply Hb in Hn. }
      exists true, s1. split.
      { simpl. erewrite bind_Ok by done. simpl.
        erewrite bind_Ok by done. done. }
      split; [|done]. intros _. exists [], e, E. split; [done|].
      exists u, v. split_and!; [done..|]. by apply joined_base.
Qed.

(** X2.  [hasCycle(n, edges)], for edges between vertices of
    [{0, ..., n-1}], returns [true] exactly when some edge of the list
    has endpoints that the edges before it connect already, that is when
    the graph has a cycle. *)
Theorem UFR_hasCycle_iff n fuel E :
  0 ≤ n ≤ INT_MAX → Forall (valid_edge n) E → (Z.to_nat n ≤ fuel)%nat →
  ∃ b s,
    UnionFindRank.hasCycle fuel n E UnionFindRank.empty = Ok b s ∧
    (b = true ↔ ∃ E1 e E2, E = E1 ++ e :: E2 ∧ closes_in n E1 e).
Proof.
  intros [Hn Hmax] HE Hfuel.
  assert (UnionFindRank.inv n
            {| UnionFindRank.parent := seqZ 0 n;
               UnionFindRank.rank := replicate (Z.to_nat n) 0;
               UnionFindRank.components := n |}) as Hinv0
    by (apply UFR_new_inv; [done|by apply UFR_new]).
  destruct (UFR_hasCycle_loop n fuel E _ Hinv0 HE Hfuel)
    as (b & s & Hloop & Hiff).
  exists b, s. split.
  - unfold UnionFindRank.hasCycle.
    erewrite bind_Ok by (by apply UFR_new). done.
  - rewrite Hiff. simpl.
    split; intros (E1 & e & E2 & Heq & Hc); exists E1, e, E2;
      (split; [done|]); revert Hc; apply closes_ext; intros a c;
      by rewrite same_set_seqZ.
Qed.

Lemma UFR_hasCycle_iff_witness :
  ∃ b s,
    UnionFindRank.hasCycle 4 4 [[0; 1]; [2; 3]; [1; 2]; [3; 0]]
      UnionFindRank.empty = Ok b s ∧
    (b = true ↔
     ∃ E1 e E2, [[0; 1]; [2; 3]; [1; 2]; [3; 0]] = E1 ++ e :: E2 ∧
                closes_in 4 E1 e).
Proof.
  apply (UFR_hasCycle_iff 4 4 [[0; 1]; [2; 3]; [1; 2]; [3; 0]]).
  - by vm_compute.
  - repeat constructor; by vm_compute.
  - simpl. lia.
Defined.



(** The redundant edge of the triangle is its last edge. *)
Example UFR_findRedundantConnection_triangle :
  ∃ s, UnionFindRank.findRedundantConnection 4 [[1; 2]; [1; 3]; [2; 3]]
         UnionFindRank.empty = Ok [2; 3] s.
Proof. eexists. vm_compute. reflexivity. Qed.
End UnionFindRank_callers.

(** ** The sets of a [UnionFind] object are the unions made so far *)

Section UnionFind_history.
#[local] Abbreviation parent := UnionFind.parent.
#[local] Abbreviation rank := UnionFind.rank.
Implicit Types (s : UnionFind.state) (E : list (list Z)).

Lemma joined_joined R E e x y :
  joined (joined R E) [e] x y ↔ joined R (e :: E) x y.
Proof.
  split.
  - apply joined_weaken.
    + intros a b. apply joined_weaken; [intros; by apply joined_base|].
      intros edge Hin. by right.
    + intros edge ->%list_elem_of_singleton. left.
  - induction 1 as [x y HR|edge a b Hin Ha Hb|x y _ IH|x y z _ IH1 _ IH2].
    + by apply joined_base, joined_base.
    + apply elem_of_cons in Hin as [->|Hin].
      * eapply joined_edge; [left|done..].
      * apply joined_base. by eapply joined_edge.
    + by apply joined_sym.
    + by eapply joined_trans.
Qed.

Lemma UF_history_reachable n E s : UnionFind.history n E s → UnionFind.reachable n s.
Proof.
  induction 1 as [s H|E s fuel c s' _ IH H].
  - by apply UnionFind.reachable_new.
  - by eapply UnionFind.reachable_call.
Qed.

(** What a call does to the sets, with the pair it unites. *)
Lemma UF_run_united fuel c s s' x y :
  forest (parent s) →
  UnionFind.run fuel c s = Ok tt s' →
  same_set (parent s') x y
  ↔ joined (same_set (parent s)) (UnionFind.united c) x y.
Proof.
  intros Hf H.
  assert (∀ q, same_sets (parent s) q →
               same_set q x y ↔ joined (same_set (parent s)) [] x y) as Hsame.
  { intros q Hq. rewrite (same_sets_same_set _ _ x y Hq). symmetry.
    apply joined_nil; [apply same_set_sym|apply same_set_trans]. }
  destruct c as [u|u v|u v byRank|u v size|ord u v]; simpl.
  - simpl in H.
    apply bind_Ok_inv in H as (r & s1 & (p' & Hu & ->)%UF_find_inv & [= <-]).
    destruct (find_Ok_forest _ _ _ _ _ Hf Hu) as (_ & Hs & _).
    by apply Hsame.
  - apply UF_unionSets_merged in H as [Hm _]; [|done].
    by eapply merged_joined.
  - apply UF_unionSets_byRank_merged in H as [Hm _]; [|done].
    by eapply merged_joined.
  - simpl in H. apply zoom_Ok_inv in H as ([s1 size'] & H & ->).
    apply UF_unionBySize_merged in H as (Hm & _); [|done].
    by eapply merged_joined.
  - simpl in H. apply bind_Ok_inv in H as (b & s1 & H & [= <-]).
    apply UF_connected_Ok in H as (ru & rv & p' & _ & _ & _ & -> & Hs); [|done].
    by apply Hsame.
Qed.

Lemma UF_history_sets n E s :
  UnionFind.history n E s →
  ∀ x y, same_set (parent s) x y ↔ connected_in n E x y.
Proof.
  intros Hh.
  induction Hh as [s H|E s fuel c s' Hh IH H]; intros x y.
  - apply UF_new_inv in H as [Hn ->]. simpl.
    rewrite same_set_seqZ. unfold connected_in. symmetry.
    apply joined_nil; [intros a b [-> ?]; done|].
    intros a b c [-> ?] [-> ?]. done.
  - pose proof (UF_reachable_wf _ _ (UF_history_reachable _ _ _ Hh))
      as (_ & _ & _ & Hf).
    rewrite (UF_run_united _ _ _ _ x y Hf H).
    rewrite (joined_ext _ (connected_in n E) _ x y IH).
    destruct (UnionFind.united c) as [|e [|e' E']] eqn:Hc.
    + simpl. apply joined_nil; [apply joined_sym|apply joined_trans].
    + simpl. apply joined_joined.
    + by destruct c.
Qed.

Lemma UF_history_answer n E s ord fuel x y :
  UnionFind.history n E s →
  0 ≤ x < n → 0 ≤ y < n → (Z.to_nat n ≤ fuel)%nat →
  ∃ b s', UnionFind.connected ord fuel x y s = Ok b s' ∧
          (b = true ↔ connected_in n E x y).
Proof.
  intros Hh Hx Hy Hfuel.
  pose proof (UF_reachable_wf _ _ (UF_history_reachable _ _ _ Hh))
    as (Hn & Hlp & _ & Hf).
  destruct (UF_connected_spec ord fuel x y s) as (b & p' & H & _ & Hb);
    [done|lia..|].
  exists b, (UnionFind.set_parent p' s). split; [done|].
  by rewrite Hb, (UF_history_sets n E s Hh).
Qed.

(** X4.  In a [UnionFind] object reached from [UnionFind(n)] by any
    calls, two elements are in one set exactly when a chain of the pairs
    united so far, by any of the unions, leads from one to the other; and
    this is what [connected] answers. *)
Theorem UF_history_connected n E s :
  UnionFind.history n E s →
  (∀ x y, same_set (parent s) x y ↔ connected_in n E x y) ∧
  (∀ ord fuel x y,
     0 ≤ x < n → 0 ≤ y < n → (Z.to_nat n ≤ fuel)%nat →
     ∃ b s', UnionFind.connected ord fuel x y s = Ok b s' ∧
             (b = true ↔ connected_in n E x y)).
Proof.
  intros Hh. split; [by apply UF_history_sets|].
  intros ord fuel x y. by apply UF_history_answer.
Qed.

Lemma UF_history_example :
  UnionFind.history 4 [[2; 1]; [0; 1]]
    {| UnionFind.parent := [0; 0; 0; 3]; UnionFind.rank := [1; 0; 0; 0] |}.
Proof.
  apply (UnionFind.history_call 4 [[0; 1]]
           {| UnionFind.parent := [0; 0; 2; 3]; UnionFind.rank := [1; 0; 0; 0] |}
           4%nat (UnionFind.call_unionSets 2 1)); [|reflexivity].
  apply (UnionFind.history_call 4 []
           {| UnionFind.parent := [0; 1; 2; 3]; UnionFind.rank := [0; 0; 0; 0] |}
           4%nat (UnionFind.call_unionSets 0 1)); [|reflexivity].
  apply UnionFind.history_new. reflexivity.
Qed.

Lemma UF_history_connected_witness :
  (∀ x y, same_set [0; 0; 0; 3] x y ↔ connected_in 4 [[2; 1]; [0; 1]] x y) ∧
  (∀ ord fuel x y,
     0 ≤ x < 4 → 0 ≤ y < 4 → (Z.to_nat 4 ≤ fuel)%nat →
     ∃ b s',
       UnionFind.connected ord fuel x y
         {| UnionFind.parent := [0; 0; 0; 3]; UnionFind.rank := [1; 0; 0; 0] |}
       = Ok b s' ∧
       (b = true ↔ connected_in 4 [[2; 1]; [0; 1]] x y)).
Proof.
  apply (UF_history_connected 4 [[2; 1]; [0; 1]]
           {| UnionFind.parent := [0; 0; 0; 3]; UnionFind.rank := [1; 0; 0; 0] |}).
  apply UF_history_example.
Defined.
End UnionFind_history.

(** ** What [find] does on any vector, and on one it has compressed *)

Section find_behaviour.
#[local] Abbreviation parent := UnionFind.parent.
#[local] Abbreviation rank := UnionFind.rank.
Implicit Types (s : UnionFind.state) (p : list Z).

(** X5.  [find(x)] with more recursion than the vector has elements has
    one of three outcomes, fixed by the chain of parents of [x]: the chain
    ends at a root, [find] returns it and has pointed the chain at it; the
    chain leaves the vector, [find] reads out of range and has written
    nothing; or the chain does neither, it runs into a cycle, and [find]
    returns with no amount of recursion. *)
Theorem find_outcomes fuel x p :
  (length p < fuel)%nat →
  (∃ l r, path p x l r ∧ find fuel x p = Ok r (relink l r p)) ∨
  (∃ l, escapes p x l ∧ find fuel x p = Fault p) ∨
  ((∀ l r, ¬ path p x l r) ∧ (∀ l, ¬ escapes p x l) ∧
   ∀ fuel', find fuel' x p = Diverge).
Proof.
  intros Hfuel.
  destruct (find fuel x p) as [r p'|e p'|p'|] eqn:H.
  - left. apply find_Ok in H as (l & Hl & _ & ->). by exists l, r.
  - by destruct (find_no_Throw _ _ _ _ _ H).
  - right; left. pose proof (find_Fault _ _ _ _ H) as ->.
    apply find_Fault_escapes in H as (l & Hl & _). by exists l.
  - right; right. split_and!.
    + intros l r Hl. pose proof (path_length _ _ _ _ Hl).
      rewrite (find_path p x l r fuel) in H by (done || lia). done.
    + intros l Hl. pose proof (escapes_length _ _ _ Hl).
      rewrite (escapes_find fuel x p l) in H by (done || lia). done.
    + by apply (find_Diverge_cycle fuel).
Qed.

Lemma find_outcomes_witness :
  (∃ l r, path [1; 2; 1] 0 l r ∧
          find 4 0 [1; 2; 1] = Ok r (relink l r [1; 2; 1])) ∨
  (∃ l, escapes [1; 2; 1] 0 l ∧ find 4 0 [1; 2; 1] = Fault [1; 2; 1]) ∨
  ((∀ l r, ¬ path [1; 2; 1] 0 l r) ∧ (∀ l, ¬ escapes [1; 2; 1] 0 l) ∧
   ∀ fuel', find fuel' 0 [1; 2; 1] = Diverge).
Proof. apply (find_outcomes 4 0 [1; 2; 1]). simpl. lia. Defined.

(** The three outcomes on small vectors. *)
Example find_outcomes_examples :
  find 4 0 [1; 2; 2] = Ok 2 [2; 2; 2] ∧
  find 4 0 [1; 7; 2] = Fault [1; 7; 2] ∧
  find 4 0 [1; 2; 1] = Diverge.
Proof. done. Qed.

(** After [find(x)] the element [x] is a root or a child of its root. *)
Lemma find_short_path fuel x p r p' :
  find fuel x p = Ok r p' →
  vget p' x = Some r ∧ vget p' r = Some r ∧
  path p' x (if decide (x = r) then [x] else [x; r]) r.
Proof.
  intros (l & Hl & _ & ->)%find_Ok.
  pose proof (path_head _ _ _ _ Hl) as (l0 & ->).
  pose proof (path_end_in _ _ _ _ Hl) as Hr.
  pose proof (path_range _ _ _ _ Hl) as Hrange.
  assert (vget (relink (x :: l0) r p) x = Some r) as Hx.
  { apply vget_relink_in; [done|left]. }
  assert (vget (relink (x :: l0) r p) r = Some r) as Hrr.
  { by apply vget_relink_in. }
  split_and!; [done..|].
  case_decide as Hxr.
  - subst x. by constructor.
  - eapply path_step; [done|congruence|by constructor].
Qed.

(** X6.  [find] is idempotent: once [find(x)] has returned [r], [x] is a
    root or a child of its root, and a second [find(x)], with recursion
    depth two, returns [r] again and changes nothing. *)
Theorem UF_find_idempotent fuel fuel' x s r s' :
  UnionFind.find fuel x s = Ok r s' → (2 ≤ fuel')%nat →
  vget (parent s') x = Some r ∧
  UnionFind.find fuel' x s' = Ok r s'.
Proof.
  intros (p' & H & ->)%UF_find_inv Hfuel.
  destruct (find_short_path _ _ _ _ _ H) as (Hx & Hr & Hp).
  split; [done|].
  assert (find fuel' x p' = Ok r p') as H2.
  { erewrite find_path; [|done|case_decide; simpl; lia].
    f_equal. apply vget_ext; [by rewrite length_relink|].
    intros i.
    destruct (decide (i ∈ (if decide (x = r) then [x] else [x; r]))) as [Hi|Hi].
    - pose proof (vget_range _ _ _ Hx). pose proof (vget_range _ _ _ Hr).
      rewrite vget_relink_in; [| |done].
      + case_decide.
        * apply list_elem_of_singleton in Hi as ->. done.
        * apply elem_of_cons in Hi as [->|Hi]; [done|].
          apply list_elem_of_singleton in Hi as ->. done.
      + case_decide;
          [apply Forall_singleton
          |apply Forall_cons; split; [|apply Forall_singleton]]; done.
    - rewrite vget_relink_notin; [done| |done].
      pose proof (vget_range _ _ _ Hx). pose proof (vget_range _ _ _ Hr).
      case_decide;
          [apply Forall_singleton
          |apply Forall_cons; split; [|apply Forall_singleton]]; done. }
  by rewrite (UF_find_Ok fuel' x (UnionFind.set_parent p' s) r p' H2).
Qed.

Lemma UF_find_idempotent_witness :
  vget [2; 2; 2] 0 = Some 2 ∧
  UnionFind.find 2 0 {| UnionFind.parent := [2; 2; 2]; UnionFind.rank := [0; 0; 1] |}
  = Ok 2 {| UnionFind.parent := [2; 2; 2]; UnionFind.rank := [0; 0; 1] |}.
Proof.
  apply (UF_find_idempotent 4 2 0
           {| UnionFind.parent := [1; 2; 2]; UnionFind.rank := [0; 0; 1] |} 2
           {| UnionFind.parent := [2; 2; 2]; UnionFind.rank := [0; 0; 1] |});
    [reflexivity|lia].
Defined.

(** On the vector of the constructor every element is its own root. *)
Lemma find_seqZ fuel n x :
  0 ≤ x < n → (1 ≤ fuel)%nat → find fuel x (seqZ 0 n) = Ok x (seqZ 0 n).
Proof.
  intros Hx Hfuel.
  assert (is_root (seqZ 0 n) x) as Hroot.
  { unfold is_root. rewrite vget_seqZ. by rewrite decide_True by lia. }
  rewrite (find_path (seqZ 0 n) x [x] x) by (by constructor || done).
  by rewrite relink_root.
Qed.

(** X7.  The constructor: a negative [n] makes [resize] throw
    [std::length_error]; otherwise [UnionFind(n)] returns an object of [n]
    elements, each its own parent with rank zero, in which [connected(x, y)]
    holds for equal elements only, needs one level of recursion and leaves
    the object as it is. *)
Theorem UF_new_singletons n :
  (n < 0 ∧
   UnionFind.UnionFind n UnionFind.empty = Throw length_error UnionFind.empty) ∨
  (0 ≤ n ∧
   ∃ s, UnionFind.UnionFind n UnionFind.empty = Ok tt s ∧
        length (parent s) = Z.to_nat n ∧ length (rank s) = Z.to_nat n ∧
        (∀ i, 0 ≤ i < n →
              vget (parent s) i = Some i ∧ vget (rank s) i = Some 0) ∧
        (∀ ord fuel x y,
           0 ≤ x < n → 0 ≤ y < n → (1 ≤ fuel)%nat →
           UnionFind.connected ord fuel x y s = Ok (bool_decide (x = y)) s)).
Proof.
  destruct (decide (n < 0)) as [Hn|Hn]; [left; split; [done|]|right; split; [lia|]].
  { by apply UF_new_negative. }
  eexists. split; [apply UF_new; lia|]. simpl.
  split_and!.
  - rewrite length_seqZ. done.
  - by rewrite length_replicate.
  - intros i Hi. split.
    + rewrite vget_seqZ. by rewrite decide_True by lia.
    + apply vget_Some. split; [lia|]. apply lookup_replicate_2. lia.
  - intros ord fuel x y Hx Hy Hfuel.
    pose proof (find_seqZ fuel n x Hx Hfuel) as Hfx.
    pose proof (find_seqZ fuel n y Hy Hfuel) as Hfy.
    set (s := {| UnionFind.parent := seqZ 0 n;
                 UnionFind.rank := replicate (Z.to_nat n) 0 |}).
    assert (UnionFind.find fuel x s = Ok x s) as Hx'.
    { by rewrite (UF_find_Ok fuel x s x (seqZ 0 n) Hfx). }
    assert (UnionFind.find fuel y s = Ok y s) as Hy'.
    { by rewrite (UF_find_Ok fuel y s y (seqZ 0 n) Hfy). }
    destruct ord; unfold UnionFind.connected.
    + erewrite bind_Ok by done. erewrite bind_Ok by done. done.
    + erewrite bind_Ok by done. erewrite bind_Ok by done. done.
Qed.

Lemma UF_new_singletons_witness :
  (3 < 0 ∧
   UnionFind.UnionFind 3 UnionFind.empty = Throw length_error UnionFind.empty) ∨
  (0 ≤ 3 ∧
   ∃ s, UnionFind.UnionFind 3 UnionFind.empty = Ok tt s ∧
        length (parent s) = Z.to_nat 3 ∧ length (rank s) = Z.to_nat 3 ∧
        (∀ i, 0 ≤ i < 3 →
              vget (parent s) i = Some i ∧ vget (rank s) i = Some 0) ∧
        (∀ ord fuel x y,
           0 ≤ x < 3 → 0 ≤ y < 3 → (1 ≤ fuel)%nat →
           UnionFind.connected ord fuel x y s = Ok (bool_decide (x = y)) s)).
Proof. apply (UF_new_singletons 3). Defined.
End find_behaviour.

(** ** [getSetSize] of the optimised class *)

Section UnionFindRank_getSetSize.
#[local] Abbreviation state := UnionFindRank.state.
#[local] Abbreviation parent := UnionFindRank.parent.
#[local] Abbreviation rank := UnionFindRank.rank.
#[local] Abbreviation components := UnionFindRank.components.
Implicit Types (s : state) (p q : list Z).

(** Compression keeps an element that points at its root where it is. *)
Lemma relink_keeps_flat p x l r z rz :
  path p x l r → repr p z rz → vget p z = Some rz →
  vget (relink l r p) z = Some rz.
Proof.
  intros Hl Hz Hget. pose proof (path_range _ _ _ _ Hl) as Hrange.
  destruct (decide (z ∈ l)) as [Hin|Hin].
  - rewrite vget_relink_in by done. f_equal.
    destruct (path_suffix _ _ _ _ _ Hl Hin) as (l' & Hl' & _).
    eapply repr_functional; [|done]. by exists l'.
  - by rewrite vget_relink_notin.
Qed.

Lemma length_filter_snoc (P : Z → Prop) `{!∀ z, Decision (P z)} (j : nat) :
  Z.of_nat (length (filter P (seqZ 0 (Z.of_nat (S j)))))
  = Z.of_nat (length (filter P (seqZ 0 (Z.of_nat j))))
    + (if decide (P (Z.of_nat j)) then 1 else 0).
Proof.
  replace (Z.of_nat (S j)) with (Z.of_nat j + 1) by lia.
  rewrite seqZ_app by lia. rewrite filter_app, length_app.
  change (seqZ (0 + Z.of_nat j) 1) with [0 + Z.of_nat j].
  rewrite Z.add_0_l.
  case_decide.
  - rewrite filter_cons_True by done. simpl. lia.
  - rewrite filter_cons_False by done. simpl. lia.
Qed.

Lemma UFR_getSetSize_loop fuel p root N :
  forest p → Z.of_nat N ≤ INT_MAX → (N ≤ fuel)%nat →
  ∀ todo j s,
    (j + todo = N)%nat → same_sets p (parent s) → length p = N →
    (∀ z, 0 ≤ z < Z.of_nat j →
          ∃ rz, repr p z rz ∧ vget (parent s) z = Some rz) →
    ∃ s',
      UnionFindRank.getSetSize_loop fuel todo (Z.of_nat j) root
        (Z.of_nat (length (filter (λ z, repr p z root) (seqZ 0 (Z.of_nat j))))) s
      = Ok (Z.of_nat (length (filter (λ z, repr p z root) (seqZ 0 (Z.of_nat N))))) s' ∧
      rank s' = rank s ∧ components s' = components s ∧
      same_sets p (parent s') ∧
      (∀ z, 0 ≤ z < Z.of_nat N →
            ∃ rz, repr p z rz ∧ vget (parent s') z = Some rz).
Proof.
  intros Hf Hmax Hfuel todo.
  induction todo as [|todo IH]; intros j s Hj Hs Hlen Hflat.
  - assert (j = N) as -> by lia. exists s. by split_and!.
  - pose proof (same_sets_forest _ _ Hs Hf) as Hfq.
    destruct Hs as [Hlq Hs].
    destruct (find_forest fuel (parent s) (Z.of_nat j)) as (r & q & Hfind & Hr & Hq);
      [done|lia|lia|].
    pose proof Hfind as (l & Hl & _ & Hrel)%find_Ok.
    assert (repr p (Z.of_nat j) r) as Hr' by (by apply Hs).
    set (count := Z.of_nat (length (filter (λ z, repr p z root)
                                           (seqZ 0 (Z.of_nat j))))).
    assert (0 ≤ count ≤ Z.of_nat j) as Hcount.
    { subst count. split; [lia|].
      pose proof (length_filter (λ z, repr p z root) (seqZ 0 (Z.of_nat j))) as Hle.
      rewrite length_seqZ in Hle. lia. }
    destruct (IH (S j) (UnionFindRank.set_parent q s)) as (s' & Hloop & Hrk & Hc & Hs' & Hflat');
      [lia| |done|..].
    { simpl. split; [destruct Hq as [-> _]; done|].
      intros z t. destruct Hq as [_ Hq]. rewrite Hq. apply Hs. }
    { intros z Hz. simpl. destruct (decide (z = Z.of_nat j)) as [->|Hne].
      - exists r. split; [done|]. subst q.
        apply vget_relink_in; [by eapply path_range|].
        destruct (path_head _ _ _ _ Hl) as [l0 ->]. left.
      - destruct (Hflat z) as (rz & Hrz & Hget); [lia|].
        exists rz. split; [done|]. subst q.
        eapply relink_keeps_flat; [done| |done]. by apply Hs. }
    exists s'. split_and!; try done.
    rewrite <- Hloop. simpl UnionFindRank.getSetSize_loop.
    erewrite bind_Ok by (by apply UFR_find_Ok).
    rewrite (length_filter_snoc (λ z, repr p z root) j). fold count.
    unfold INT_MIN, INT_MAX in *.
    destruct (decide (r = root)) as [->|Hne].
    + rewrite decide_True by done.
      erewrite bind_Ok by (apply checked_Ok; unfold INT_MIN, INT_MAX; lia).
      erewrite bind_Ok by (apply checked_Ok; unfold INT_MIN, INT_MAX; lia).
      replace (Z.of_nat j + 1) with (Z.of_nat (S j)) by lia. done.
    + rewrite decide_False by (intros Hroot; apply Hne; by eapply repr_functional).
      erewrite bind_Ok by apply ret_Ok.
      erewrite bind_Ok by (apply checked_Ok; unfold INT_MIN, INT_MAX; lia).
      replace (Z.of_nat j + 1) with (Z.of_nat (S j)) by lia.
      by rewrite Z.add_0_r.
Qed.

(** X8.  [getSetSize(x)] of the optimised class, on a well-formed object
    and a valid [x], returns the number of elements of the set of [x]; it
    changes no set, no rank and not the counter, and leaves every element
    a root or a child of its root. *)
Theorem UFR_getSetSize_card n fuel x s :
  UnionFindRank.inv n s → 0 ≤ x < n → (Z.to_nat n ≤ fuel)%nat →
  ∃ r s',
    repr (parent s) x r ∧
    UnionFindRank.getSetSize fuel x s = Ok (Z.of_nat (card (parent s) r)) s' ∧
    UnionFindRank.inv n s' ∧
    rank s' = rank s ∧ components s' = components s ∧
    same_sets (parent s) (parent s') ∧
    (∀ z, 0 ≤ z < n → ∃ rz, repr (parent s) z rz ∧ vget (parent s') z = Some rz).
Proof.
  intros Hinv Hx Hfuel.
  pose proof (UFR_inv_forest _ _ Hinv) as Hf.
  destruct (UFR_inv_length _ _ Hinv) as [Hlp Hlr].
  pose proof Hinv as ([Hn Hmax] & _).
  destruct (find_forest fuel (parent s) x) as (r & q & Hfind & Hr & Hq);
    [done|lia|lia|].
  destruct (UFR_getSetSize_loop fuel (parent s) r (length (parent s)) Hf)
    with (todo := length (parent s)) (j := 0%nat) (s := UnionFindRank.set_parent q s)
    as (s' & Hloop & Hrk & Hc & Hs' & Hflat); [lia|lia|lia|done|done| |].
  { intros z Hz. simpl in Hz. lia. }
  exists r, s'. split_and!; try done.
  - unfold UnionFindRank.getSetSize.
    erewrite bind_Ok by (by apply UFR_find_Ok).
    erewrite bind_Ok by reflexivity.
    simpl parent. destruct Hq as [Hlq _]. rewrite Hlq.
    rewrite card_spec. exact Hloop.
  - assert (s' = UnionFindRank.set_parent (parent s') s) as ->.
    { destruct s', s. simpl in *. by subst. }
    by apply UFR_inv_same_sets.
  - intros z Hz. apply Hflat. lia.
Qed.

Lemma UFR_getSetSize_card_witness :
  ∃ r s',
    repr [1; 2; 2; 3] 0 r ∧
    UnionFindRank.getSetSize 4 0
      {| UnionFindRank.parent := [1; 2; 2; 3];
         UnionFindRank.rank := [0; 0; 1; 0];
         UnionFindRank.components := 2 |}
    = Ok (Z.of_nat (card [1; 2; 2; 3] r)) s' ∧
    UnionFindRank.inv 4 s' ∧
    rank s' = [0; 0; 1; 0] ∧ components s' = 2 ∧
    same_sets [1; 2; 2; 3] (parent s') ∧
    (∀ z, 0 ≤ z < 4 → ∃ rz, repr [1; 2; 2; 3] z rz ∧ vget (parent s') z = Some rz).
Proof.
  apply (UFR_getSetSize_card 4 4 0
           {| UnionFindRank.parent := [1; 2; 2; 3];
              UnionFindRank.rank := [0; 0; 1; 0];
              UnionFindRank.components := 2 |}); [|lia|simpl; lia].
  split_and!; simpl; try done.
  - apply forestb_forest. reflexivity.
  - intros i a Hi.
    assert (i = 0 ∨ i = 1 ∨ i = 2 ∨ i = 3) as Hcases.
    { apply vget_range in Hi. simpl in Hi. lia. }
    destruct Hcases as [-> | [-> | [-> | ->]]]; injection Hi as <-;
      change (Z.of_nat (count_roots [1; 2; 2; 3])) with 2; lia.
Defined.

Example UFR_getSetSize_example :
  UnionFindRank.getSetSize 4 0
    {| UnionFindRank.parent := [1; 2; 2; 3];
       UnionFindRank.rank := [0; 0; 1; 0];
       UnionFindRank.components := 2 |}
  = Ok 3 {| UnionFindRank.parent := [2; 2; 2; 3];
            UnionFindRank.rank := [0; 0; 1; 0];
            UnionFindRank.components := 2 |}.
Proof. reflexivity. Qed.
End UnionFindRank_getSetSize.

(** ** Union by rank keeps the trees shallow *)

Section UnionFindRank_depth.
#[local] Abbreviation state := UnionFindRank.state.
#[local] Abbreviation parent := UnionFindRank.parent.
#[local] Abbreviation rank := UnionFindRank.rank.
#[local] Abbreviation components := UnionFindRank.components.
#[local] Abbreviation set_parent := UnionFindRank.set_parent.
Implicit Types (s : state) (p q rk : list Z).

Lemma vget_is_Some_length v v' i :
  length v = length v' → is_Some (vget v i) → is_Some (vget v' i).
Proof.
  intros Hlen [x Hx]. apply vget_range in Hx. rewrite Hlen in Hx.
  by apply vget_is_Some.
Qed.

(** Along a path the rank grows with every step. *)
Lemma path_rank p rk x l r a b :
  length rk = length p → ranked p rk → path p x l r →
  vget rk x = Some a → vget rk r = Some b →
  a + Z.of_nat (length l) ≤ b + 1.
Proof.
  intros Hlen [Hlt _] Hl. revert a.
  induction Hl as [x Hx|x y l r Hx Hne Hl IH]; intros a Ha Hb.
  - simpl. assert (a = b) by congruence. lia.
  - destruct (vget_is_Some_length p rk y) as [c Hc]; [done| |].
    { apply vget_is_Some. by eapply path_start_range. }
    pose proof (Hlt x y a c Hx Hne Ha Hc).
    specialize (IH c Hc Hb). simpl length. lia.
Qed.

Lemma ranked_relink p rk x l r :
  forest p → length rk = length p → ranked p rk → path p x l r →
  ranked (relink l r p) rk.
Proof.
  intros Hf Hlen Hrk Hl. pose proof (path_range _ _ _ _ Hl) as Hrange.
  pose proof (same_sets_relink _ _ _ _ Hf Hl) as Hs.
  split.
  - intros z y a b Hz Hne Ha Hb.
    destruct (decide (z ∈ l)) as [Hin|Hin].
    + rewrite vget_relink_in in Hz by done. injection Hz as <-.
      destruct (path_suffix _ _ _ _ _ Hl Hin) as (l' & Hl' & _).
      pose proof (path_rank _ _ _ _ _ _ _ Hlen Hrk Hl' Ha Hb) as Hle.
      destruct Hl' as [z Hz|z y l' r Hz Hne' Hl']; [done|].
      destruct (path_head _ _ _ _ Hl') as [l0 ->]. simpl in Hle. lia.
    + rewrite vget_relink_notin in Hz by done.
      destruct Hrk as [Hlt _]. by eapply Hlt.
  - intros t a Ht Ha. apply (same_sets_is_root _ _ t Hs) in Ht.
    rewrite (card_same_sets _ _ t Hs).
    destruct Hrk as [_ Hpow]. by apply Hpow.
Qed.

Lemma find_ranked fuel p rk x r p' :
  forest p → length rk = length p → ranked p rk →
  find fuel x p = Ok r p' → ranked p' rk.
Proof.
  intros Hf Hlen Hrk (l & Hl & _ & ->)%find_Ok. by eapply ranked_relink.
Qed.

(** Hanging a root under a root of greater rank. *)
Lemma ranked_link_lt p rk lo hi a b :
  forest p → ranked p rk → is_root p lo → is_root p hi → lo ≠ hi →
  vget rk lo = Some a → vget rk hi = Some b → a < b →
  ranked (<[Z.to_nat lo := hi]> p) rk.
Proof.
  intros Hf [Hlt Hpow] Hlo Hhi Hne Ha Hb Hab.
  pose proof (vget_range _ _ _ Hlo) as Hrange.
  split.
  - intros z y c d Hz Hyz Hc Hd.
    destruct (decide (z = lo)) as [->|Hzlo].
    + rewrite vget_insert_eq in Hz by done.
      assert (y = hi) as -> by congruence.
      assert (c = a) as -> by congruence.
      assert (d = b) as -> by congruence. done.
    + rewrite vget_insert_ne in Hz by lia. by eapply Hlt.
  - intros t c [Ht Htlo]%is_root_link Hc; [|done..].
    destruct (decide (t = hi)) as [->|Hthi].
    + rewrite card_link by done.
      assert (c = b) as -> by congruence.
      pose proof (Hpow hi b Hhi Hb). lia.
    + rewrite card_link_other by done. by apply Hpow.
Qed.

(** Hanging a root under a root of the same rank, which grows by one. *)
Lemma ranked_link_eq p rk lo hi a :
  forest p → length rk = length p → ranked p rk →
  is_root p lo → is_root p hi → lo ≠ hi →
  vget rk lo = Some a → vget rk hi = Some a → 0 ≤ a →
  ranked (<[Z.to_nat lo := hi]> p) (<[Z.to_nat hi := a + 1]> rk).
Proof.
  intros Hf Hlen [Hlt Hpow] Hlo Hhi Hne Ha Hb Ha0.
  pose proof (vget_range _ _ _ Hlo) as Hrlo.
  pose proof (vget_range _ _ _ Hhi) as Hrhi.
  split.
  - intros z y c d Hz Hyz Hc Hd.
    destruct (decide (z = lo)) as [->|Hzlo].
    + rewrite vget_insert_eq in Hz by done.
      assert (y = hi) as -> by congruence.
      rewrite vget_insert_ne in Hc by lia.
      rewrite vget_insert_eq in Hd by lia.
      assert (c = a) as -> by congruence.
      assert (d = a + 1) as -> by congruence. lia.
    + rewrite vget_insert_ne in Hz by lia.
      assert (z ≠ hi) as Hzhi.
      { intros ->. unfold is_root in Hhi. congruence. }
      rewrite vget_insert_ne in Hc by lia.
      destruct (decide (y = hi)) as [->|Hyhi].
      * rewrite vget_insert_eq in Hd by lia.
        assert (d = a + 1) as -> by congruence.
        pose proof (Hlt z hi c a Hz Hyz Hc Hb). lia.
      * rewrite vget_insert_ne in Hd by lia. by eapply Hlt.
  - intros t c [Ht Htlo]%is_root_link Hc; [|done..].
    destruct (decide (t = hi)) as [->|Hthi].
    + rewrite card_link by done.
      rewrite vget_insert_eq in Hc by lia.
      assert (c = a + 1) as -> by congruence.
      pose proof (Hpow lo a Hlo Ha). pose proof (Hpow hi a Hhi Hb).
      rewrite Z.pow_add_r by lia. lia.
    + rewrite card_link_other by done.
      rewrite vget_insert_ne in Hc by lia. by apply Hpow.
Qed.

Lemma ranked_new n : ranked (seqZ 0 n) (replicate (Z.to_nat n) 0).
Proof.
  split.
  - intros x y a b Hx Hne. pose proof (vget_range _ _ _ Hx) as Hr.
    rewrite length_seqZ in Hr. rewrite vget_seqZ in Hx.
    rewrite decide_True in Hx by lia. congruence.
  - intros r a Hr Ha. pose proof (vget_range _ _ _ Hr) as Hrange.
    rewrite length_seqZ in Hrange.
    apply vget_Some in Ha as [_ Ha]. apply lookup_replicate in Ha as [-> _].
    rewrite card_seqZ by lia. simpl. lia.
Qed.

Lemma UFR_unite_ranked n fuel x y s b s' :
  UnionFindRank.inv n s → ranked (parent s) (rank s) →
  UnionFindRank.unite fuel x y s = Ok b s' →
  ranked (parent s') (rank s').
Proof.
  intros Hinv Hrk (rx & ry & p1 & q & Hx & Hy & Hcase)%UFR_unite_Ok.
  pose proof (UFR_inv_forest _ _ Hinv) as Hf.
  destruct (UFR_inv_length _ _ Hinv) as [Hlp Hlr].
  assert (length (rank s) = length (parent s)) as Hlen by lia.
  destruct (finds_same_sets _ _ _ _ _ _ _ _ Hf Hx Hy)
    as (Hrx & Hry & Hs1 & Hs & Hqx & Hqy).
  pose proof (same_sets_forest _ _ Hs1 Hf) as Hf1.
  pose proof (same_sets_forest _ _ Hs Hf) as Hfq.
  assert (ranked p1 (rank s)) as Hrk1.
  { by apply (find_ranked fuel (parent s) (rank s) x rx p1). }
  assert (ranked q (rank s)) as Hrkq.
  { apply (find_ranked fuel p1 (rank s) y ry q); [done| |done..].
    destruct Hs1 as [-> _]. done. }
  assert (length (rank s) = length q) as Hlenq.
  { destruct Hs as [-> _]. done. }
  destruct Hcase as [(-> & -> & ->)|(Hne & -> & a & c & Ha & Hc & _ & Hcase)];
    [done|].
  destruct Hcase as [[Hac ->]|[[Hac ->]|(-> & _ & ->)]]; simpl.
  - by apply (ranked_link_lt q (rank s) rx ry a c).
  - apply (ranked_link_lt q (rank s) ry rx c a); try done. lia.
  - apply (ranked_link_eq q (rank s) ry rx c); try done.
    destruct Hinv as (_ & _ & _ & _ & _ & Hb). by destruct (Hb rx c Ha).
Qed.

Lemma UFR_run_ranked n fuel c s s' :
  UnionFindRank.inv n s → ranked (parent s) (rank s) →
  UnionFindRank.run fuel c s = Ok tt s' → ranked (parent s') (rank s').
Proof.
  intros Hinv Hrk H. pose proof (UFR_inv_forest _ _ Hinv) as Hf.
  destruct (UFR_inv_length _ _ Hinv) as [Hlp Hlr].
  assert (length (rank s) = length (parent s)) as Hlen by lia.
  destruct c as [x|x y|ord x y|]; unfold UnionFindRank.run in H.
  - apply bind_Ok_inv in H as (r & s1 & (p' & Hx & ->)%UFR_find_inv & [= <-]).
    simpl. by eapply find_ranked.
  - apply bind_Ok_inv in H as (b & s1 & H & [= <-]).
    by eapply UFR_unite_ranked.
  - apply bind_Ok_inv in H as (b & s1 & H & [= <-]).
    assert (∀ u v ru rv p1 p2,
              find fuel u (parent s) = Ok ru p1 → find fuel v p1 = Ok rv p2 →
              ranked p2 (rank s)) as Htwo.
    { intros u v ru rv p1 p2 Hu Hv.
      destruct (finds_same_sets _ _ _ _ _ _ _ _ Hf Hu Hv)
        as (_ & _ & Hs1 & _).
      apply (find_ranked fuel p1 (rank s) v rv p2); [| | |done].
      - by eapply same_sets_forest.
      - destruct Hs1 as [-> _]. done.
      - by apply (find_ranked fuel (parent s) (rank s) u ru p1). }
    destruct ord; unfold UnionFindRank.connected in H;
      apply UFR_two_finds in H as (ra & rb & p1 & p2 & Ha & Hb & [= _ <-]);
      simpl; by eapply Htwo.
  - apply bind_Ok_inv in H as (c & s1 & [= <- <-] & [= <-]). done.
Qed.

Lemma UFR_reachable_ranked_inv n s :
  n ≤ INT_MAX → UnionFindRank.reachable n s → ranked (parent s) (rank s).
Proof.
  intros Hmax Hreach.
  induction Hreach as [s H|s fuel c s' Hreach IH H].
  - destruct (decide (n < 0)) as [Hn|Hn].
    { by rewrite UFR_new_negative in H. }
    rewrite UFR_new in H by lia. injection H as <-. apply ranked_new.
  - eapply UFR_run_ranked; [|done..]. by apply UFR_reachable_inv.
Qed.

Lemma card_le p r : (card p r ≤ length p)%nat.
Proof.
  rewrite card_spec.
  pose proof (length_filter (λ i, repr p i r)
                (seqZ 0 (Z.of_nat (length p)))) as Hle.
  rewrite length_seqZ in Hle. lia.
Qed.

(** X9.  In every object of the optimised class reached from
    [UnionFind(n)] by calls that returned, the rank grows along every
    parent link, and the set of a root of rank [a] has at least [2 ^ a]
    elements. *)
Theorem UFR_reachable_ranked n s :
  n ≤ INT_MAX → UnionFindRank.reachable n s →
  (∀ x y a b,
     vget (parent s) x = Some y → y ≠ x →
     vget (rank s) x = Some a → vget (rank s) y = Some b → a < b) ∧
  (∀ r a,
     is_root (parent s) r → vget (rank s) r = Some a →
     0 ≤ a ∧ 2 ^ a ≤ Z.of_nat (card (parent s) r) ≤ n).
Proof.
  intros Hmax Hreach.
  destruct (UFR_reachable_ranked_inv n s Hmax Hreach) as [Hlt Hpow].
  split; [done|]. intros r a Hr Ha.
  pose proof (UFR_reachable_inv _ _ Hmax Hreach) as Hinv.
  destruct (UFR_inv_length _ _ Hinv) as [Hlp _].
  destruct Hinv as (_ & _ & _ & _ & _ & Hb).
  split; [by destruct (Hb r a Ha)|]. split; [by apply Hpow|].
  pose proof (card_le (parent s) r). lia.
Qed.

Lemma UFR_reachable_example :
  UnionFindRank.reachable 4
    {| UnionFindRank.parent := [0; 0; 0; 2]; UnionFindRank.rank := [2; 0; 1; 0];
       UnionFindRank.components := 1 |}.
Proof.
  apply UnionFindRank.reachable_call
    with (s := {| UnionFindRank.parent := [0; 0; 2; 2];
                  UnionFindRank.rank := [1; 0; 1; 0];
                  UnionFindRank.components := 2 |})
         (fuel := 4%nat) (c := UnionFindRank.call_unite 1 3); [|reflexivity].
  apply UnionFindRank.reachable_call
    with (s := {| UnionFindRank.parent := [0; 0; 2; 3];
                  UnionFindRank.rank := [1; 0; 0; 0];
                  UnionFindRank.components := 3 |})
         (fuel := 4%nat) (c := UnionFindRank.call_unite 2 3); [|reflexivity].
  apply UnionFindRank.reachable_call
    with (s := {| UnionFindRank.parent := [0; 1; 2; 3];
                  UnionFindRank.rank := [0; 0; 0; 0];
                  UnionFindRank.components := 4 |})
         (fuel := 4%nat) (c := UnionFindRank.call_unite 0 1); [|reflexivity].
  apply UnionFindRank.reachable_new. reflexivity.
Qed.

Lemma UFR_reachable_ranked_witness :
  (∀ x y a b,
     vget [0; 0; 0; 2] x = Some y → y ≠ x →
     vget [2; 0; 1; 0] x = Some a → vget [2; 0; 1; 0] y = Some b → a < b) ∧
  (∀ r a,
     is_root [0; 0; 0; 2] r → vget [2; 0; 1; 0] r = Some a →
     0 ≤ a ∧ 2 ^ a ≤ Z.of_nat (card [0; 0; 0; 2] r) ≤ 4).
Proof.
  apply (UFR_reachable_ranked 4
           {| UnionFindRank.parent := [0; 0; 0; 2];
              UnionFindRank.rank := [2; 0; 1; 0];
              UnionFindRank.components := 1 |}); [by vm_compute|].
  apply UFR_reachable_example.
Defined.

(** X10.  Hence the trees are shallow: in an object of the optimised class
    reached from [UnionFind(n)], a chain of parents of [k] nodes needs
    [2 ^ (k - 1) <= n] elements, and [find] on a valid element returns its
    root with any recursion depth [d] such that [n < 2 ^ d]. *)
Theorem UFR_find_log_depth n s x :
  n ≤ INT_MAX → UnionFindRank.reachable n s → 0 ≤ x < n →
  (∀ l r, path (parent s) x l r → 2 ^ (Z.of_nat (length l) - 1) ≤ n) ∧
  (∀ fuel, n < 2 ^ Z.of_nat fuel →
           ∃ r s', UnionFindRank.find fuel x s = Ok r s' ∧
                   repr (parent s) x r ∧ same_sets (parent s) (parent s')).
Proof.
  intros Hmax Hreach Hx.
  pose proof (UFR_reachable_inv _ _ Hmax Hreach) as Hinv.
  pose proof (UFR_inv_forest _ _ Hinv) as Hf.
  destruct (UFR_inv_length _ _ Hinv) as [Hlp Hlr].
  pose proof (UFR_reachable_ranked_inv n s Hmax Hreach) as Hrk.
  pose proof Hrk as [Hlt Hpow].
  assert (∀ l r, path (parent s) x l r → 2 ^ (Z.of_nat (length l) - 1) ≤ n)
    as Hdepth.
  { intros l r Hl.
    destruct (vget_is_Some (rank s) x) as [a Ha]; [lia|].
    pose proof (path_is_root _ _ _ _ Hl) as Hr.
    destruct (vget_is_Some (rank s) r) as [b Hb].
    { apply vget_range in Hr. lia. }
    assert (length (rank s) = length (parent s)) as Hlen by lia.
    pose proof (path_rank _ _ _ _ _ _ _ Hlen Hrk Hl Ha Hb) as Hle.
    destruct Hinv as (_ & _ & _ & _ & _ & Hbound).
    destruct (Hbound x a Ha) as [Ha0 _].
    destruct (Hbound r b Hb) as [Hb0 _].
    pose proof (Hpow r b Hr Hb) as Hcard.
    pose proof (card_le (parent s) r) as Hn.
    destruct (path_head _ _ _ _ Hl) as [l0 ->]. simpl length in *.
    etrans; [|etrans; [exact Hcard|lia]].
    apply Z.pow_le_mono_r; lia. }
  split; [done|]. intros fuel Hfuel.
  destruct (Hf x) as [r [l Hl]]; [lia|].
  exists r, (set_parent (relink l r (parent s)) s).
  split_and!; [|by exists l|by eapply same_sets_relink].
  apply UFR_find_Ok, find_path; [done|].
  destruct (decide (length l ≤ fuel)%nat) as [|Hgt]; [done|]. exfalso.
  pose proof (Hdepth l r Hl) as Hle.
  assert (2 ^ Z.of_nat fuel ≤ 2 ^ (Z.of_nat (length l) - 1)) as Hpw.
  { apply Z.pow_le_mono_r; lia. }
  lia.
Qed.

Lemma UFR_find_log_depth_witness :
  (∀ l r, path [0; 0; 0; 2] 3 l r → 2 ^ (Z.of_nat (length l) - 1) ≤ 4) ∧
  (∀ fuel, 4 < 2 ^ Z.of_nat fuel →
           ∃ r s',
             UnionFindRank.find fuel 3
               {| UnionFindRank.parent := [0; 0; 0; 2];
                  UnionFindRank.rank := [2; 0; 1; 0];
                  UnionFindRank.components := 1 |}
             = Ok r s' ∧
             repr [0; 0; 0; 2] 3 r ∧ same_sets [0; 0; 0; 2] (parent s')).
Proof.
  apply (UFR_find_log_depth 4
           {| UnionFindRank.parent := [0; 0; 0; 2];
              UnionFindRank.rank := [2; 0; 1; 0];
              UnionFindRank.components := 1 |} 3); [by vm_compute| |lia].
  apply UFR_reachable_example.
Defined.

(** Without union by rank there is no such bound: the overload
    [unionSets(u, v, false)] of [UnionFind.cpp] builds a chain of all the
    elements. *)
Example UF_unionSets_byRank_false_chain :
  (UnionFind.UnionFind 4;;
   UnionFind.unionSets_byRank 4 1 0 false;;
   UnionFind.unionSets_byRank 4 2 1 false;;
   UnionFind.unionSets_byRank 4 3 2 false) UnionFind.empty
  = Ok tt {| UnionFind.parent := [1; 2; 3; 3]; UnionFind.rank := [0; 0; 0; 0] |} ∧
  path [1; 2; 3; 3] 0 [0; 1; 2; 3] 3.
Proof.
  split; [reflexivity|]. repeat (econstructor; try done).
Qed.
End UnionFindRank_depth.

(** ** The class with sizes: what [getSetSize] and [getComponents] count *)

Section UnionFindSize_history.
#[local] Abbreviation state := UnionFindSize.state.
#[local] Abbreviation parent := UnionFindSize.parent.
#[local] Abbreviation size := UnionFindSize.size.
#[local] Abbreviation components := UnionFindSize.components.
#[local] Abbreviation set_parent := UnionFindSize.set_parent.
Implicit Types (s : state) (E : list (list Z)).

Lemma UFS_unite_merged n fuel x y s b s' :
  UnionFindSize.inv n s →
  UnionFindSize.unite fuel x y s = Ok b s' →
  merged (parent s) x y (parent s').
Proof.
  intros Hinv H. pose proof H as H0. unfold UnionFindSize.unite in H0.
  apply bind_Ok_inv in H0 as (rx & s1 & (p1 & Hfx & ->)%zoom_Ok_inv & H0).
  apply bind_Ok_inv in H0 as (ry & s2 & (q & Hfy & ->)%zoom_Ok_inv & _).
  simpl in Hfy.
  pose proof Hinv as (_ & _ & _ & Hf & _ & Hsz).
  destruct (finds_same_sets _ _ _ _ _ _ _ _ Hf Hfx Hfy)
    as (Hrx & Hry & _ & Hs & _ & _).
  pose proof (Hsz rx (repr_is_root _ _ _ Hrx)) as Ha.
  pose proof (Hsz ry (repr_is_root _ _ _ Hry)) as Hb.
  pose proof (UFS_unite_result _ _ _ _ _ _ _ _ _ _ Hfx Hfy Ha Hb) as Hres.
  cbv zeta in Hres. rewrite Hres in H. clear Hres.
  exists rx, ry, q. split_and!; try done.
  repeat case_decide; try done; injection H as <- <-; simpl; auto.
Qed.

Lemma UFS_run_inv n fuel c s s' :
  UnionFindSize.inv n s →
  UnionFindSize.run fuel c s = Ok tt s' → UnionFindSize.inv n s'.
Proof.
  intros Hinv H. pose proof (UFS_inv_forest _ _ Hinv) as Hf.
  destruct c as [x|x y|x|]; unfold UnionFindSize.run in H.
  - apply bind_Ok_inv in H as (r & s1 & (p' & Hx & ->)%zoom_Ok_inv & [= <-]).
    destruct (find_Ok_forest _ _ _ _ _ Hf Hx) as (_ & Hs & _).
    by apply UFS_inv_same_sets.
  - apply bind_Ok_inv in H as (b & s1 & H & [= <-]).
    by eapply UFS_unite_inv.
  - apply bind_Ok_inv in H as (k & s1 & H & [= <-]).
    unfold UnionFindSize.getSetSize in H.
    apply bind_Ok_inv in H as (r & s2 & (p' & Hx & ->)%zoom_Ok_inv & H).
    apply zoom_Ok_inv in H as (t & [-> _]%vread_Ok_inv & ->).
    destruct (find_Ok_forest _ _ _ _ _ Hf Hx) as (_ & Hs & _).
    apply (UFS_inv_same_sets n s p') in Hs; [|done].
    by destruct s.
  - apply bind_Ok_inv in H as (c & s1 & [= <- <-] & [= <-]). done.
Qed.

Lemma UFS_run_united n fuel c s s' x y :
  UnionFindSize.inv n s →
  UnionFindSize.run fuel c s = Ok tt s' →
  same_set (parent s') x y
  ↔ joined (same_set (parent s)) (UnionFindSize.united c) x y.
Proof.
  intros Hinv H. pose proof (UFS_inv_forest _ _ Hinv) as Hf.
  assert (∀ q, same_sets (parent s) q →
               same_set q x y ↔ joined (same_set (parent s)) [] x y) as Hsame.
  { intros q Hq. rewrite (same_sets_same_set _ _ x y Hq). symmetry.
    apply joined_nil; [apply same_set_sym|apply same_set_trans]. }
  destruct c as [u|u v|u|]; unfold UnionFindSize.run in H; simpl.
  - apply bind_Ok_inv in H as (r & s1 & (p' & Hx & ->)%zoom_Ok_inv & [= <-]).
    destruct (find_Ok_forest _ _ _ _ _ Hf Hx) as (_ & Hs & _).
    by apply Hsame.
  - apply bind_Ok_inv in H as (b & s1 & H & [= <-]).
    apply (UFS_unite_merged n) in H; [|done].
    by eapply merged_joined.
  - apply bind_Ok_inv in H as (k & s1 & H & [= <-]).
    unfold UnionFindSize.getSetSize in H.
    apply bind_Ok_inv in H as (r & s2 & (p' & Hx & ->)%zoom_Ok_inv & H).
    apply zoom_Ok_inv in H as (t & [-> _]%vread_Ok_inv & ->).
    destruct (find_Ok_forest _ _ _ _ _ Hf Hx) as (_ & Hs & _).
    by apply Hsame.
  - apply bind_Ok_inv in H as (c & s1 & [= <- <-] & [= <-]).
    apply Hsame, same_sets_refl.
Qed.

Lemma UFS_history_inv n E s :
  n ≤ INT_MAX → UnionFindSize.history n E s → UnionFindSize.inv n s.
Proof.
  intros Hmax. induction 1 as [s H|E s fuel c s' _ IH H].
  - destruct (decide (n < 0)) as [Hn|Hn].
    + exfalso. unfold UnionFindSize.UnionFind in H.
      erewrite bind_Throw in H; [done|].
      unfold UnionFindSize.on_parent, zoom, resize. simpl.
      by rewrite decide_True.
    + rewrite UFS_new in H by lia. injection H as <-.
      apply UFS_new_inv. lia.
  - by eapply UFS_run_inv.
Qed.

(** X11.  The class with sizes, after any calls that returned from
    [UnionFind(n)]: the sets are the classes of the pairs given to [unite];
    [getComponents] returns their number; [getSetSize(x)] returns the
    number of elements joined to [x], with no pass over the elements. *)
Theorem UFS_history_counts n E s :
  n ≤ INT_MAX → UnionFindSize.history n E s →
  (∀ x y, same_set (parent s) x y ↔ connected_in n E x y) ∧
  (∃ c, UnionFindSize.getComponents s = Ok c s ∧
        0 ≤ c ∧ classes n (connected_in n E) (Z.to_nat c)) ∧
  (∀ fuel x,
     0 ≤ x < n → (Z.to_nat n ≤ fuel)%nat →
     ∃ k s' members,
       UnionFindSize.getSetSize fuel x s = Ok k s' ∧
       k = Z.of_nat (length members) ∧ NoDup members ∧
       ∀ y, y ∈ members ↔ connected_in n E x y).
Proof.
  intros Hmax Hh.
  pose proof (UFS_history_inv _ _ _ Hmax Hh) as Hinv.
  assert (∀ x y, same_set (parent s) x y ↔ connected_in n E x y) as Hsets.
  { clear Hinv.
    induction Hh as [s H|E s fuel c s' Hh IH H]; intros x y.
    - destruct (decide (n < 0)) as [Hn|Hn].
      { pose proof (UFS_history_inv n [] s Hmax
                      (UnionFindSize.history_new n s H)) as ([? _] & _). lia. }
      rewrite UFS_new in H by lia. injection H as <-. simpl.
      rewrite same_set_seqZ. unfold connected_in. symmetry.
      apply joined_nil; [intros a b [-> ?]; done|].
      intros a b c [-> ?] [-> ?]. done.
    - pose proof (UFS_history_inv _ _ _ Hmax Hh) as Hinv.
      rewrite (UFS_run_united n _ _ _ _ x y Hinv H).
      rewrite (joined_ext _ (connected_in n E) _ x y IH).
      destruct (UnionFindSize.united c) as [|e [|e' E']] eqn:Hc.
      + simpl. apply joined_nil; [apply joined_sym|apply joined_trans].
      + simpl. apply joined_joined.
      + by destruct c. }
  pose proof Hinv as ([Hn _] & Hlp & _ & Hf & Hc & _).
  split_and!; [done| |].
  - exists (components s). split_and!; [done|lia|].
    rewrite Hc, Nat2Z.id.
    apply (classes_ext n (same_set (parent s))); [done|].
    by apply roots_classes.
  - intros fuel x Hx Hfuel.
    destruct (Hf x) as [r Hr]; [lia|].
    destruct (UFS_getSetSize_card n fuel x r s Hinv Hr Hfuel) as (q & Hget & _).
    eexists _, _, (filter (λ i, repr (parent s) i r)
                          (seqZ 0 (Z.of_nat (length (parent s))))).
    split_and!; [exact Hget|by rewrite card_spec|apply NoDup_filter, NoDup_seqZ|].
    intros y. rewrite <- Hsets, list_elem_of_filter, elem_of_seqZ.
    rewrite (same_set_repr _ _ _ _ Hr). split; [tauto|].
    intros Hy. split; [done|]. apply repr_range in Hy. lia.
Qed.

Lemma UFS_history_example :
  UnionFindSize.history 4 [[2; 1]; [0; 1]]
    {| UnionFindSize.parent := [0; 0; 0; 3]; UnionFindSize.size := [3; 1; 1; 1];
       UnionFindSize.components := 2 |}.
Proof.
  apply (UnionFindSize.history_call 4 [[0; 1]]
           {| UnionFindSize.parent := [0; 0; 2; 3];
              UnionFindSize.size := [2; 1; 1; 1];
              UnionFindSize.components := 3 |}
           4%nat (UnionFindSize.call_unite 2 1)); [|reflexivity].
  apply (UnionFindSize.history_call 4 []
           {| UnionFindSize.parent := [0; 1; 2; 3];
              UnionFindSize.size := [1; 1; 1; 1];
              UnionFindSize.components := 4 |}
           4%nat (UnionFindSize.call_unite 0 1)); [|reflexivity].
  apply UnionFindSize.history_new. reflexivity.
Qed.

Lemma UFS_history_counts_witness :
  (∀ x y, same_set [0; 0; 0; 3] x y ↔ connected_in 4 [[2; 1]; [0; 1]] x y) ∧
  (∃ c,
     UnionFindSize.getComponents
       {| UnionFindSize.parent := [0; 0; 0; 3]; UnionFindSize.size := [3; 1; 1; 1];
          UnionFindSize.components := 2 |}
     = Ok c {| UnionFindSize.parent := [0; 0; 0; 3];
               UnionFindSize.size := [3; 1; 1; 1];
               UnionFindSize.components := 2 |} ∧
     0 ≤ c ∧ classes 4 (connected_in 4 [[2; 1]; [0; 1]]) (Z.to_nat c)) ∧
  (∀ fuel x,
     0 ≤ x < 4 → (Z.to_nat 4 ≤ fuel)%nat →
     ∃ k s' members,
       UnionFindSize.getSetSize fuel x
         {| UnionFindSize.parent := [0; 0; 0; 3];
            UnionFindSize.size := [3; 1; 1; 1];
            UnionFindSize.components := 2 |}
       = Ok k s' ∧
       k = Z.of_nat (length members) ∧ NoDup members ∧
       ∀ y, y ∈ members ↔ connected_in 4 [[2; 1]; [0; 1]] x y).
Proof.
  apply (UFS_history_counts 4 [[2; 1]; [0; 1]]
           {| UnionFindSize.parent := [0; 0; 0; 3];
              UnionFindSize.size := [3; 1; 1; 1];
              UnionFindSize.components := 2 |}); [by vm_compute|].
  apply UFS_history_example.
Defined.
End UnionFindSize_history.

(** ** [countComponents] does not depend on the order of the edges *)

Section UnionFindRank_order.
#[local] Abbreviation state := UnionFindRank.state.
#[local] Abbreviation parent := UnionFindRank.parent.
Implicit Types (s : state) (E : list (list Z)).

(** X12.  [countComponents(n, edges)] depends on the edges as a set only:
    given in another order, or with repetitions, they lead to the same
    count and to the same sets. *)
Theorem UFR_countComponents_order n fuel E E' :
  0 ≤ n ≤ INT_MAX → Forall (valid_edge n) E → (∀ e, e ∈ E ↔ e ∈ E') →
  (Z.to_nat n ≤ fuel)%nat →
  ∃ c s s',
    UnionFindRank.countComponents fuel n E UnionFindRank.empty = Ok c s ∧
    UnionFindRank.countComponents fuel n E' UnionFindRank.empty = Ok c s' ∧
    ∀ x y, same_set (parent s) x y ↔ same_set (parent s') x y.
Proof.
  intros Hn HE Hsame Hfuel.
  assert (Forall (valid_edge n) E') as HE'.
  { rewrite Forall_forall in HE |- *. intros e He. by apply HE, Hsame. }
  destruct (UFR_countComponents_run n fuel E Hn HE Hfuel)
    as (s & Hrun & Hinv & Hsets).
  destruct (UFR_countComponents_run n fuel E' Hn HE' Hfuel)
    as (s' & Hrun' & Hinv' & Hsets').
  assert (∀ x y, same_set (parent s) x y ↔ same_set (parent s') x y) as Heq.
  { intros x y. rewrite Hsets, Hsets'. by apply connected_in_perm. }
  assert (UnionFindRank.components s' = UnionFindRank.components s) as Hc.
  { destruct Hinv as ([Hn0 _] & Hlp & _ & Hf & -> & _).
    destruct Hinv' as (_ & Hlp' & _ & Hf' & -> & _). f_equal.
    apply (classes_unique (same_set (parent s))
             (same_set_sym _) (same_set_trans _) n).
    - apply (classes_ext n (same_set (parent s'))); [done|].
      by apply roots_classes.
    - by apply roots_classes. }
  exists (UnionFindRank.components s), s, s'.
  split_and!; [done|by rewrite <- Hc|done].
Qed.

Lemma UFR_countComponents_order_witness :
  ∃ c s s',
    UnionFindRank.countComponents 3 3 [[0; 1]; [1; 2]] UnionFindRank.empty
    = Ok c s ∧
    UnionFindRank.countComponents 3 3 [[1; 2]; [0; 1]; [1; 2]] UnionFindRank.empty
    = Ok c s' ∧
    ∀ x y, same_set (parent s) x y ↔ same_set (parent s') x y.
Proof.
  apply (UFR_countComponents_order 3 3 [[0; 1]; [1; 2]] [[1; 2]; [0; 1]; [1; 2]]).
  - by vm_compute.
  - repeat constructor; by vm_compute.
  - intros e. rewrite !elem_of_cons. rewrite !elem_of_nil. tauto.
  - simpl. lia.
Defined.
End UnionFindRank_order.

(** ** [kruskalMST] returns a spanning forest *)

Section kruskal.
#[local] Abbreviation state := UnionFindRank.state.
#[local] Abbreviation parent := UnionFindRank.parent.
#[local] Abbreviation components := UnionFindRank.components.
#[local] Abbreviation Edge := UnionFindRank.Edge.
#[local] Abbreviation Edge_ends := UnionFindRank.Edge_ends.
#[local] Abbreviation weight := UnionFindRank.weight.
Implicit Types (s : state) (L mst sel : list Edge) (e : Edge).

#[local] Abbreviation valid_Edge := UnionFindRank.valid_Edge.
#[local] Abbreviation mkEdge := UnionFindRank.Build_Edge.
Lemma valid_Edge_ends n L :
  Forall (valid_Edge n) L → Forall (valid_edge n) (Edge_ends <$> L).
Proof.
  intros H. apply Forall_fmap. eapply Forall_impl; [done|].
  intros e [Hu Hv]. unfold valid_edge. simpl. done.
Qed.

Lemma UFR_kruskalMST_loop n fuel L :
  (Z.to_nat n ≤ fuel)%nat → Forall (valid_Edge n) L →
  ∀ s acc,
    UnionFindRank.inv n s →
    ∃ s' sel,
      UnionFindRank.kruskalMST_loop fuel L acc s = Ok (acc ++ sel) s' ∧
      UnionFindRank.inv n s' ∧
      sublist sel L ∧
      components s' = components s - Z.of_nat (length sel) ∧
      (∀ x y, same_set (parent s') x y
              ↔ joined (same_set (parent s)) (Edge_ends <$> L) x y) ∧
      (∀ x y, same_set (parent s') x y
              ↔ joined (same_set (parent s)) (Edge_ends <$> sel) x y) ∧
      (∀ m1 e m2, sel = m1 ++ e :: m2 →
                  ¬ closes (same_set (parent s)) (Edge_ends <$> m1) (Edge_ends e)).
Proof.
  intros Hfuel HL. induction HL as [|e L [Hu Hv] HL IH]; intros s acc Hinv.
  - exists s, []. rewrite app_nil_r. split_and!; try done.
    + simpl. lia.
    + intros x y. simpl. symmetry.
      apply joined_nil; [apply same_set_sym|apply same_set_trans].
    + intros x y. simpl. symmetry.
      apply joined_nil; [apply same_set_sym|apply same_set_trans].
    + intros m1 e m2 Heq. by destruct m1.
  - destruct (UFR_unite_step n fuel _ _ s Hinv Hu Hv Hfuel)
      as (b & s1 & Hun & Hinv1 & Hm & Hc & Hb).
    pose proof (UFR_inv_forest _ _ Hinv) as Hf.
    assert (∀ a c, same_set (parent s1) a c
                   ↔ joined (same_set (parent s)) [Edge_ends e] a c) as Hstep.
    { intros a c. by eapply merged_joined. }
    destruct (IH s1 (if b then acc ++ [e] else acc) Hinv1)
      as (s' & sel & Hloop & Hinv' & Hsub & Hc' & Hall & Hsel & Hacyc).
    assert (UnionFindRank.kruskalMST_loop fuel (e :: L) acc s
            = Ok ((if b then acc ++ [e] else acc) ++ sel) s') as Hrun.
    { simpl. erewrite bind_Ok by done. done. }
    assert (∀ x y, same_set (parent s') x y
                   ↔ joined (same_set (parent s)) (Edge_ends <$> e :: L) x y)
      as Hall'.
    { intros x y. rewrite Hall. rewrite fmap_cons. by apply joined_cons. }
    destruct b.
    + exists s', (e :: sel). rewrite <- app_assoc in Hrun. simpl in Hrun.
      split_and!; try done.
      * by apply sublist_skip.
      * rewrite Hc', Hc. simpl length. lia.
      * intros x y. rewrite Hsel. rewrite fmap_cons. by apply joined_cons.
      * intros m1 e' m2 Heq.
        destruct m1 as [|e0 m1]; simpl in Heq; injection Heq as <- ->.
        -- intros (a & c & Ha & Hc0 & Hj). simpl in Ha, Hc0.
           injection Ha as <-. injection Hc0 as <-.
           apply (joined_nil (same_set (parent s)) _ _
                    (same_set_sym _) (same_set_trans _)) in Hj.
           by apply Hb.
        -- intros Hcl. apply (Hacyc m1 e' m2 eq_refl).
           rewrite fmap_cons in Hcl.
           by apply (closes_cons _ _ _ _ _ Hstep).
    + assert (same_set (parent s) (UnionFindRank.u e) (UnionFindRank.v e)) as Huv.
      { destruct (decide (same_set (parent s) (UnionFindRank.u e)
                            (UnionFindRank.v e))) as [|Hn]; [done|].
        by apply Hb in Hn. }
      assert (∀ a c, same_set (parent s1) a c ↔ same_set (parent s) a c) as Hsame.
      { intros a c. split; intros (r & Ha & Hc0); exists r;
          split; by apply (merged_same _ _ _ _ _ _ Hf Hm Huv). }
      exists s', sel. split_and!; try done.
      * by apply sublist_cons.
      * rewrite Hc', Hc. done.
      * intros x y. rewrite Hsel. by apply joined_ext.
      * intros m1 e' m2 Heq Hcl. apply (Hacyc m1 e' m2 Heq).
        by apply (closes_ext _ _ _ _ Hsame).
Qed.

(** A sublist of a sorted vector is sorted. *)
Lemma sublist_StronglySorted {A} (R R' : A → A → Prop) (l k : list A) :
  (∀ a b, R a b → R' a b) →
  sublist l k → StronglySorted R k → StronglySorted R' l.
Proof.
  intros HR Hsub. induction Hsub as [|x l k Hsub IH|x l k Hsub IH]; intros Hk.
  - constructor.
  - apply StronglySorted_inv in Hk as [Hk Hx]. constructor; [by apply IH|].
    rewrite Forall_forall in Hx |- *. intros y Hy. apply HR, Hx.
    by eapply elem_of_sublist.
  - apply StronglySorted_inv in Hk as [Hk _]. by apply IH.
Qed.

(** X13.  [kruskalMST(edges, n)], for edges between vertices of
    [{0, ..., n-1}] and a [sort] that permutes its argument into an order
    of non-decreasing weight, returns, in that order, edges among the ones
    given that form a spanning forest: they connect what the given edges
    connect, none of them joins two vertices that the ones before it join
    already, and there are [n] minus the number of components of them. *)
Theorem UFR_kruskalMST_spanning_forest sort n fuel L :
  0 ≤ n ≤ INT_MAX → Forall (valid_Edge n) L → (Z.to_nat n ≤ fuel)%nat →
  sort L ≡ₚ L →
  StronglySorted (λ a b, ¬ UnionFindRank.Edge_lt b a) (sort L) →
  ∃ mst s k,
    UnionFindRank.kruskalMST sort fuel L n UnionFindRank.empty
    = Ok (sort L, mst) s ∧
    sublist mst (sort L) ∧ (∀ e, e ∈ mst → e ∈ L) ∧
    StronglySorted (λ a b, weight a ≤ weight b) mst ∧
    (∀ x y, connected_in n (Edge_ends <$> mst) x y
            ↔ connected_in n (Edge_ends <$> L) x y) ∧
    (∀ m1 e m2, mst = m1 ++ e :: m2 →
                ¬ closes_in n (Edge_ends <$> m1) (Edge_ends e)) ∧
    classes n (connected_in n (Edge_ends <$> L)) k ∧
    Z.of_nat (length mst) = n - Z.of_nat k.
Proof.
  intros [Hn Hmax] HL Hfuel Hperm Hsorted.
  pose proof (UFR_new n Hn) as Hnew.
  set (s0 := {| UnionFindRank.parent := seqZ 0 n;
                UnionFindRank.rank := replicate (Z.to_nat n) 0;
                UnionFindRank.components := n |}) in *.
  assert (UnionFindRank.inv n s0) as Hinv0 by (by apply UFR_new_inv).
  assert (Forall (valid_Edge n) (sort L)) as HL'.
  { rewrite Forall_forall in HL |- *. intros e He. apply HL. by rewrite <- Hperm. }
  destruct (UFR_kruskalMST_loop n fuel (sort L) Hfuel HL' s0 [] Hinv0)
    as (s & mst & Hloop & Hinv & Hsub & Hc & Hall & Hsel & Hacyc).
  simpl in Hloop.
  assert (∀ E x y, joined (same_set (parent s0)) E x y ↔ connected_in n E x y)
    as Hbase.
  { intros E x y. apply joined_ext. apply same_set_seqZ. }
  assert (∀ x y, connected_in n (Edge_ends <$> sort L) x y
                 ↔ connected_in n (Edge_ends <$> L) x y) as Hsort.
  { intros x y. apply connected_in_perm. intros edge.
    rewrite !list_elem_of_fmap. by setoid_rewrite Hperm. }
  exists mst, s, (count_roots (parent s)). split_and!.
  - unfold UnionFindRank.kruskalMST. cbv zeta.
    erewrite bind_Ok by done. erewrite bind_Ok by done. done.
  - done.
  - intros e He. rewrite <- Hperm. by eapply elem_of_sublist.
  - eapply sublist_StronglySorted; [|done..].
    intros a b. unfold UnionFindRank.Edge_lt. lia.
  - intros x y. rewrite <- Hsort, <- !Hbase, <- Hsel, <- Hall. done.
  - intros m1 e m2 Heq Hcl. apply (Hacyc m1 e m2 Heq).
    eapply closes_ext; [|done]. intros a b. apply (same_set_seqZ n a b).
  - destruct Hinv as (_ & Hlp & _ & Hf & _).
    apply (classes_ext n (same_set (parent s))).
    + intros x y. by rewrite Hall, Hbase, Hsort.
    + by apply roots_classes.
  - destruct Hinv as (_ & _ & _ & _ & Hcr & _). simpl in Hc. lia.
Qed.

Lemma UFR_kruskalMST_spanning_forest_witness :
  ∃ mst s k,
    UnionFindRank.kruskalMST UnionFindRank.sort_by_weight 3
      [mkEdge 0 1 7; mkEdge 1 2 1; mkEdge 0 2 3] 3 UnionFindRank.empty
    = Ok (UnionFindRank.sort_by_weight [mkEdge 0 1 7; mkEdge 1 2 1; mkEdge 0 2 3],
          mst) s ∧
    sublist mst
      (UnionFindRank.sort_by_weight [mkEdge 0 1 7; mkEdge 1 2 1; mkEdge 0 2 3]) ∧
    (∀ e, e ∈ mst → e ∈ [mkEdge 0 1 7; mkEdge 1 2 1; mkEdge 0 2 3]) ∧
    StronglySorted (λ a b, weight a ≤ weight b) mst ∧
    (∀ x y, connected_in 3 (Edge_ends <$> mst) x y
            ↔ connected_in 3
                (Edge_ends <$> [mkEdge 0 1 7; mkEdge 1 2 1; mkEdge 0 2 3]) x y) ∧
    (∀ m1 e m2, mst = m1 ++ e :: m2 →
                ¬ closes_in 3 (Edge_ends <$> m1) (Edge_ends e)) ∧
    classes 3
      (connected_in 3 (Edge_ends <$> [mkEdge 0 1 7; mkEdge 1 2 1; mkEdge 0 2 3]))
      k ∧
    Z.of_nat (length mst) = 3 - Z.of_nat k.
Proof.
  apply (UFR_kruskalMST_spanning_forest UnionFindRank.sort_by_weight 3 3
           [mkEdge 0 1 7; mkEdge 1 2 1; mkEdge 0 2 3]).
  - by vm_compute.
  - repeat constructor; by vm_compute.
  - simpl. lia.
  - apply merge_sort_Permutation.
  - vm_compute. repeat constructor; by vm_compute.
Defined.

(** The run of the example: the edges come out by weight, the heaviest
    one is left out. *)
Example UFR_kruskalMST_example :
  UnionFindRank.kruskalMST UnionFindRank.sort_by_weight 3
    [mkEdge 0 1 7; mkEdge 1 2 1; mkEdge 0 2 3] 3 UnionFindRank.empty
  = Ok ([mkEdge 1 2 1; mkEdge 0 2 3; mkEdge 0 1 7], [mkEdge 1 2 1; mkEdge 0 2 3])
       {| UnionFindRank.parent := [1; 1; 1]; UnionFindRank.rank := [0; 1; 0];
          UnionFindRank.components := 1 |}.
Proof. vm_compute. reflexivity. Qed.

(** The selected edges join the endpoints of every edge that was seen, by
    edges that are no heavier. *)
Lemma UFR_kruskalMST_loop_light n fuel L :
  (Z.to_nat n ≤ fuel)%nat → Forall (valid_Edge n) L →
  StronglySorted (λ a b, ¬ UnionFindRank.Edge_lt b a) L →
  ∀ s acc,
    UnionFindRank.inv n s →
    ∃ s' sel,
      UnionFindRank.kruskalMST_loop fuel L acc s = Ok (acc ++ sel) s' ∧
      ∀ e, e ∈ L →
           joined (same_set (parent s))
             (Edge_ends <$> filter (λ m, weight m ≤ weight e) sel)
             (UnionFindRank.u e) (UnionFindRank.v e).
Proof.
  intros Hfuel HL Hsorted.
  induction HL as [|e0 L [Hu Hv] HL IH]; intros s acc Hinv.
  - exists s, []. rewrite app_nil_r. split; [done|].
    intros e Hin. by apply elem_of_nil in Hin.
  - apply StronglySorted_inv in Hsorted as [Hsorted Hle].
    destruct (UFR_unite_step n fuel _ _ s Hinv Hu Hv Hfuel)
      as (b & s1 & Hun & Hinv1 & Hm & _ & Hb).
    pose proof (UFR_inv_forest _ _ Hinv) as Hf.
    assert (∀ a c, same_set (parent s1) a c
                   ↔ joined (same_set (parent s)) [Edge_ends e0] a c) as Hstep.
    { intros a c. by eapply merged_joined. }
    destruct (IH Hsorted s1 (if b then acc ++ [e0] else acc) Hinv1)
      as (s' & sel & Hloop & Hlight).
    assert (UnionFindRank.kruskalMST_loop fuel (e0 :: L) acc s
            = Ok ((if b then acc ++ [e0] else acc) ++ sel) s') as Hrun.
    { simpl. erewrite bind_Ok by done. done. }
    destruct b.
    + exists s', (e0 :: sel). rewrite <- app_assoc in Hrun. split; [done|].
      intros e [->|Hin]%elem_of_cons.
      * rewrite filter_cons_True by lia. rewrite fmap_cons.
        eapply (joined_edge _ _ (Edge_ends e0)); [left|done..].
      * rewrite Forall_forall in Hle. specialize (Hle e Hin).
        unfold UnionFindRank.Edge_lt in Hle.
        rewrite filter_cons_True by lia. rewrite fmap_cons.
        apply (joined_cons _ _ _ _ _ _ Hstep). by apply Hlight.
    + assert (same_set (parent s) (UnionFindRank.u e0) (UnionFindRank.v e0))
        as Huv.
      { destruct (decide (same_set (parent s) (UnionFindRank.u e0)
                            (UnionFindRank.v e0))) as [|Hn]; [done|].
        by apply Hb in Hn. }
      assert (∀ a c, same_set (parent s1) a c ↔ same_set (parent s) a c) as Hsame.
      { intros a c. split; intros (r & Ha & Hc0); exists r;
          split; by apply (merged_same _ _ _ _ _ _ Hf Hm Huv). }
      exists s', sel. split; [done|].
      intros e [->|Hin]%elem_of_cons.
      * by apply joined_base.
      * apply (joined_ext _ _ _ _ _ Hsame). by apply Hlight.
Qed.

(** X19.  [kruskalMST] is greedy: every edge that was given has its
    endpoints joined by edges of the result that are no heavier than it
    (an edge of the result by itself, an edge left out by lighter or equal
    ones selected before it). *)
Theorem UFR_kruskalMST_light_paths sort n fuel L :
  0 ≤ n ≤ INT_MAX → Forall (valid_Edge n) L → (Z.to_nat n ≤ fuel)%nat →
  sort L ≡ₚ L →
  StronglySorted (λ a b, ¬ UnionFindRank.Edge_lt b a) (sort L) →
  ∃ mst s,
    UnionFindRank.kruskalMST sort fuel L n UnionFindRank.empty
    = Ok (sort L, mst) s ∧
    ∀ e, e ∈ L →
         connected_in n (Edge_ends <$> filter (λ m, weight m ≤ weight e) mst)
           (UnionFindRank.u e) (UnionFindRank.v e).
Proof.
  intros [Hn Hmax] HL Hfuel Hperm Hsorted.
  pose proof (UFR_new n Hn) as Hnew.
  set (s0 := {| UnionFindRank.parent := seqZ 0 n;
                UnionFindRank.rank := replicate (Z.to_nat n) 0;
                UnionFindRank.components := n |}) in *.
  assert (UnionFindRank.inv n s0) as Hinv0 by (by apply UFR_new_inv).
  assert (Forall (valid_Edge n) (sort L)) as HL'.
  { rewrite Forall_forall in HL |- *. intros e He. apply HL. by rewrite <- Hperm. }
  destruct (UFR_kruskalMST_loop_light n fuel (sort L) Hfuel HL' Hsorted s0 [] Hinv0)
    as (s & mst & Hloop & Hlight).
  simpl in Hloop.
  exists mst, s. split.
  - unfold UnionFindRank.kruskalMST. cbv zeta.
    erewrite bind_Ok by done. erewrite bind_Ok by done. done.
  - intros e He. rewrite <- Hperm in He.
    apply (joined_ext (same_set (parent s0))); [|by apply Hlight].
    apply (same_set_seqZ n).
Qed.

Lemma UFR_kruskalMST_light_paths_witness :
  ∃ mst s,
    UnionFindRank.kruskalMST UnionFindRank.sort_by_weight 3
      [mkEdge 0 1 7; mkEdge 1 2 1; mkEdge 0 2 3] 3 UnionFindRank.empty
    = Ok (UnionFindRank.sort_by_weight [mkEdge 0 1 7; mkEdge 1 2 1; mkEdge 0 2 3],
          mst) s ∧
    ∀ e, e ∈ [mkEdge 0 1 7; mkEdge 1 2 1; mkEdge 0 2 3] →
         connected_in 3 (Edge_ends <$> filter (λ m, weight m ≤ weight e) mst)
           (UnionFindRank.u e) (UnionFindRank.v e).
Proof.
  apply (UFR_kruskalMST_light_paths UnionFindRank.sort_by_weight 3 3
           [mkEdge 0 1 7; mkEdge 1 2 1; mkEdge 0 2 3]).
  - by vm_compute.
  - repeat constructor; by vm_compute.
  - simpl. lia.
  - apply merge_sort_Permutation.
  - vm_compute. repeat constructor; by vm_compute.
Defined.
End kruskal.

(** ** The basic class of the documentation *)

Section UnionFindBasic_facts.
Implicit Types (p q : list Z) (E : list (list Z)).

Lemma UFB_find_unfold fuel x p :
  UnionFindBasic.find (S fuel) x p =
  match vget p x with
  | None => Fault p
  | Some px => if decide (px = x) then Ok x p else UnionFindBasic.find fuel px p
  end.
Proof.
  simpl. unfold mbind, M_bind, vread.
  destruct (vget p x) as [px|] eqn:Hx; [|done].
  case_decide; [done|]. by rewrite Hx.
Qed.

(** The basic [find] follows the path and writes nothing. *)
Lemma UFB_find_path fuel x p l r :
  path p x l r → (length l ≤ fuel)%nat → UnionFindBasic.find fuel x p = Ok r p.
Proof.
  intros Hl. revert fuel.
  induction Hl as [x Hx|x y l r Hx Hne Hl IH]; intros fuel Hfuel;
    (destruct fuel as [|fuel]; [simpl in Hfuel; lia|]);
    rewrite UFB_find_unfold, Hx.
  - by rewrite decide_True.
  - rewrite decide_False by done. apply IH. simpl in Hfuel. lia.
Qed.

Lemma UFB_find_Ok fuel x p r p' :
  UnionFindBasic.find fuel x p = Ok r p' →
  p' = p ∧ ∃ l, path p x l r ∧ (length l ≤ fuel)%nat.
Proof.
  revert x. induction fuel as [|fuel IH]; intros x H; [done|].
  rewrite UFB_find_unfold in H.
  destruct (vget p x) as [px|] eqn:Hx; [|done].
  case_decide as Hpx.
  - injection H as <- <-. subst px. split; [done|].
    exists [x]. split; [by constructor|simpl; lia].
  - destruct (IH _ H) as (-> & l & Hl & Hlen). split; [done|].
    exists (x :: l). split; [by econstructor|simpl; lia].
Qed.

(** Whatever the outcome, the basic [find] leaves the vector as it is. *)
Lemma UFB_find_pure fuel x p :
  match UnionFindBasic.find fuel x p with
  | Ok _ p' | Throw _ p' | Fault p' => p' = p
  | Diverge => True
  end.
Proof.
  revert x. induction fuel as [|fuel IH]; intros x; [done|].
  rewrite UFB_find_unfold.
  destruct (vget p x) as [px|]; [|done].
  case_decide; [done|]. apply IH.
Qed.

Lemma UFB_find_forest fuel x p :
  forest p → 0 ≤ x < Z.of_nat (length p) → (length p ≤ fuel)%nat →
  ∃ r, UnionFindBasic.find fuel x p = Ok r p ∧ repr p x r.
Proof.
  intros Hf Hx Hfuel. destruct (Hf x Hx) as [r [l Hl]].
  exists r. split; [|by exists l].
  eapply UFB_find_path; [done|]. pose proof (path_length _ _ _ _ Hl). lia.
Qed.

Lemma UFB_new n : 0 ≤ n → UnionFindBasic.UnionFind n [] = Ok tt (seqZ 0 n).
Proof.
  intros Hn. unfold UnionFindBasic.UnionFind.
  erewrite bind_Ok by (by apply resize_empty).
  by apply identity_loop.
Qed.

Lemma UFB_new_inv n p :
  UnionFindBasic.UnionFind n [] = Ok tt p → 0 ≤ n ∧ p = seqZ 0 n.
Proof.
  intros H. destruct (decide (n < 0)) as [Hn|Hn].
  - unfold UnionFindBasic.UnionFind in H.
    erewrite bind_Throw in H; [done|].
    unfold resize. by rewrite decide_True.
  - rewrite UFB_new in H by lia. injection H as <-. split; [lia|done].
Qed.

Lemma UFB_unite_merged fuel x y p p' :
  forest p → UnionFindBasic.unite fuel x y p = Ok tt p' → merged p x y p'.
Proof.
  intros Hf H. unfold UnionFindBasic.unite in H.
  apply bind_Ok_inv in H as (rx & p1 & [-> (lx & Hlx & _)]%UFB_find_Ok & H).
  apply bind_Ok_inv in H as (ry & p2 & [-> (ly & Hly & _)]%UFB_find_Ok & H).
  exists rx, ry, p. split_and!; [by exists lx|by exists ly|apply same_sets_refl|].
  case_decide as Hne.
  - apply vwrite_Ok_inv in H as [_ ->]. right. split; [done|by left].
  - injection H as <-. left. split; [|done].
    by destruct (decide (rx = ry)).
Qed.

Lemma UFB_connected_Ok ord fuel x y p b p' :
  UnionFindBasic.connected ord fuel x y p = Ok b p' →
  p' = p ∧ ∃ rx ry, repr p x rx ∧ repr p y ry ∧ b = bool_decide (rx = ry).
Proof.
  intros H. destruct ord; unfold UnionFindBasic.connected in H.
  - apply bind_Ok_inv in H as (rx & p1 & [-> (lx & Hlx & _)]%UFB_find_Ok & H).
    apply bind_Ok_inv in H as (ry & p2 & [-> (ly & Hly & _)]%UFB_find_Ok & H).
    injection H as <- <-. split; [done|].
    exists rx, ry. split_and!; [by exists lx|by exists ly|done].
  - apply bind_Ok_inv in H as (ry & p1 & [-> (ly & Hly & _)]%UFB_find_Ok & H).
    apply bind_Ok_inv in H as (rx & p2 & [-> (lx & Hlx & _)]%UFB_find_Ok & H).
    injection H as <- <-. split; [done|].
    exists rx, ry. split_and!; [by exists lx|by exists ly|done].
Qed.

(** Whatever the outcome, [connected] of the basic class leaves the
    vector as it is. *)
Lemma UFB_connected_pure ord fuel x y p :
  match UnionFindBasic.connected ord fuel x y p with
  | Ok _ p' | Throw _ p' | Fault p' => p' = p
  | Diverge => True
  end.
Proof.
  assert (∀ u v,
    match (a ← UnionFindBasic.find fuel u;
           b ← UnionFindBasic.find fuel v;
           mret (bool_decide (a = b)) : M (list Z) bool) p with
    | Ok _ p' | Throw _ p' | Fault p' => p' = p
    | Diverge => True
    end ∧
    match (b ← UnionFindBasic.find fuel v;
           a ← UnionFindBasic.find fuel u;
           mret (bool_decide (a = b)) : M (list Z) bool) p with
    | Ok _ p' | Throw _ p' | Fault p' => p' = p
    | Diverge => True
    end) as Hboth.
  { intros u v. unfold mbind, M_bind.
    pose proof (UFB_find_pure fuel u p) as Hu.
    pose proof (UFB_find_pure fuel v p) as Hv.
    split.
    - destruct (UnionFindBasic.find fuel u p) as [ru pu|e pu|pu|]; try done.
      subst pu. by destruct (UnionFindBasic.find fuel v p) as [rv pv|e pv|pv|].
    - destruct (UnionFindBasic.find fuel v p) as [rv pv|e pv|pv|]; try done.
      subst pv. by destruct (UnionFindBasic.find fuel u p) as [ru pu|e pu|pu|]. }
  destruct ord; [apply (Hboth x y)|apply (Hboth x y)].
Qed.

Lemma UFB_run_merged fuel c p p' :
  forest p → UnionFindBasic.run fuel c p = Ok tt p' →
  p' = p ∧ UnionFindBasic.united c = [] ∨
  ∃ x y, UnionFindBasic.united c = [[x; y]] ∧ merged p x y p'.
Proof.
  intros Hf H. destruct c as [x|x y|ord x y]; simpl in H.
  - apply bind_Ok_inv in H as (r & p1 & [-> _]%UFB_find_Ok & [= <-]). by left.
  - right. exists x, y. split; [done|]. by eapply UFB_unite_merged.
  - apply bind_Ok_inv in H as (b & p1 & [-> _]%UFB_connected_Ok & [= <-]).
    by left.
Qed.

Lemma UFB_history_sets n E p :
  UnionFindBasic.history n E p →
  0 ≤ n ∧ length p = Z.to_nat n ∧ forest p ∧
  ∀ x y, same_set p x y ↔ connected_in n E x y.
Proof.
  induction 1 as [p H|E p fuel c p' Hh (Hn & Hlen & Hf & IH) H].
  - apply UFB_new_inv in H as [Hn ->]. split_and!.
    + done.
    + rewrite length_seqZ. done.
    + apply forest_seqZ.
    + intros x y. rewrite same_set_seqZ. unfold connected_in. symmetry.
      apply joined_nil; [intros a b [-> ?]; done|].
      intros a b c [-> ?] [-> ?]. done.
  - destruct (UFB_run_merged _ _ _ _ Hf H) as [[-> ->]|(u & v & -> & Hm)].
    + by split_and!.
    + split_and!; [done| |by eapply merged_forest|].
      * by rewrite (merged_length _ _ _ _ Hm).
      * intros x y. simpl.
        rewrite (merged_joined p u v p' [u; v] x y Hf Hm) by done.
        rewrite (joined_ext _ (connected_in n E) _ x y IH).
        apply joined_joined.
Qed.

Lemma UFB_history_answer n E p ord fuel x y :
  UnionFindBasic.history n E p →
  0 ≤ x < n → 0 ≤ y < n → (Z.to_nat n ≤ fuel)%nat →
  ∃ b, UnionFindBasic.connected ord fuel x y p = Ok b p ∧
       (b = true ↔ connected_in n E x y).
Proof.
  intros (Hn & Hlen & Hf & Hsets)%UFB_history_sets Hx Hy Hfuel.
  destruct (UFB_find_forest fuel x p) as (rx & Hfx & Hrx); [done|lia..|].
  destruct (UFB_find_forest fuel y p) as (ry & Hfy & Hry); [done|lia..|].
  exists (bool_decide (rx = ry)). split.
  - destruct ord; unfold UnionFindBasic.connected;
      erewrite bind_Ok by done; erewrite bind_Ok by done; done.
  - rewrite <- Hsets, bool_decide_eq_true.
    rewrite (same_set_repr _ _ _ _ Hrx). split.
    + by intros ->.
    + intros Hy'. by eapply repr_functional.
Qed.

(** X14.  The basic class, after any calls that returned from
    [UnionFind(n)]: the vector is a forest over the [n] elements whose
    trees are the classes of the pairs given to [unite]; [find] and
    [connected] write nothing, with any outcome and on any arguments, and
    what they return are roots of their arguments; [connected] on valid
    elements returns whether a chain of those pairs joins them. *)
Theorem UFB_history_connected n E p :
  UnionFindBasic.history n E p →
  length p = Z.to_nat n ∧ forest p ∧
  (∀ x y, same_set p x y ↔ connected_in n E x y) ∧
  (∀ fuel x,
     match UnionFindBasic.find fuel x p with
     | Ok r p' => p' = p ∧ repr p x r
     | Throw _ p' | Fault p' => p' = p
     | Diverge => True
     end) ∧
  (∀ ord fuel x y,
     match UnionFindBasic.connected ord fuel x y p with
     | Ok b p' =>
         p' = p ∧ ∃ rx ry, repr p x rx ∧ repr p y ry ∧ b = bool_decide (rx = ry)
     | Throw _ p' | Fault p' => p' = p
     | Diverge => True
     end) ∧
  (∀ ord fuel x y,
     0 ≤ x < n → 0 ≤ y < n → (Z.to_nat n ≤ fuel)%nat →
     ∃ b, UnionFindBasic.connected ord fuel x y p = Ok b p ∧
          (b = true ↔ connected_in n E x y)).
Proof.
  intros Hh. pose proof (UFB_history_sets _ _ _ Hh) as (Hn & Hlen & Hf & Hsets).
  split_and!; [done..| | |].
  - intros fuel x. pose proof (UFB_find_pure fuel x p) as Hpure.
    destruct (UnionFindBasic.find fuel x p) as [r p'|e p'|p'|] eqn:H; try done.
    split; [done|]. apply UFB_find_Ok in H as (_ & l & Hl & _). by exists l.
  - intros ord fuel x y. pose proof (UFB_connected_pure ord fuel x y p) as Hpure.
    destruct (UnionFindBasic.connected ord fuel x y p) as [b p'|e p'|p'|] eqn:H;
      try done.
    by apply UFB_connected_Ok in H.
  - intros ord fuel x y. by apply UFB_history_answer.
Qed.

Lemma UFB_history_example :
  UnionFindBasic.history 4 [[2; 1]; [0; 1]] [1; 1; 1; 3].
Proof.
  apply (UnionFindBasic.history_call 4 [[0; 1]] [1; 1; 2; 3]
           4%nat (UnionFindBasic.call_unite 2 1)); [|reflexivity].
  apply (UnionFindBasic.history_call 4 [] [0; 1; 2; 3]
           4%nat (UnionFindBasic.call_unite 0 1)); [|reflexivity].
  apply UnionFindBasic.history_new. reflexivity.
Qed.

Lemma UFB_history_connected_witness :
  length [1; 1; 1; 3] = Z.to_nat 4 ∧ forest [1; 1; 1; 3] ∧
  (∀ x y, same_set [1; 1; 1; 3] x y ↔ connected_in 4 [[2; 1]; [0; 1]] x y) ∧
  (∀ fuel x,
     match UnionFindBasic.find fuel x [1; 1; 1; 3] with
     | Ok r p' => p' = [1; 1; 1; 3] ∧ repr [1; 1; 1; 3] x r
     | Throw _ p' | Fault p' => p' = [1; 1; 1; 3]
     | Diverge => True
     end) ∧
  (∀ ord fuel x y,
     match UnionFindBasic.connected ord fuel x y [1; 1; 1; 3] with
     | Ok b p' =>
         p' = [1; 1; 1; 3] ∧
         ∃ rx ry, repr [1; 1; 1; 3] x rx ∧ repr [1; 1; 1; 3] y ry ∧
                  b = bool_decide (rx = ry)
     | Throw _ p' | Fault p' => p' = [1; 1; 1; 3]
     | Diverge => True
     end) ∧
  (∀ ord fuel x y,
     0 ≤ x < 4 → 0 ≤ y < 4 → (Z.to_nat 4 ≤ fuel)%nat →
     ∃ b, UnionFindBasic.connected ord fuel x y [1; 1; 1; 3] = Ok b [1; 1; 1; 3] ∧
          (b = true ↔ connected_in 4 [[2; 1]; [0; 1]] x y)).
Proof.
  apply (UFB_history_connected 4 [[2; 1]; [0; 1]] [1; 1; 1; 3]).
  apply UFB_history_example.
Defined.

(** X15.  The basic class and [UnionFind.cpp] agree: after the same pairs
    were united, in the one by [unite] and in the other by any of its
    unions, [connected] returns the same answer in both, for valid
    elements and in either order of evaluation. *)
Theorem UFB_agrees_with_UnionFind n E p (s : UnionFind.state) :
  UnionFindBasic.history n E p → UnionFind.history n E s →
  ∀ ord ord' fuel x y,
    0 ≤ x < n → 0 ≤ y < n → (Z.to_nat n ≤ fuel)%nat →
    ∃ b s',
      UnionFindBasic.connected ord fuel x y p = Ok b p ∧
      UnionFind.connected ord' fuel x y s = Ok b s'.
Proof.
  intros Hp Hs ord ord' fuel x y Hx Hy Hfuel.
  destruct (UFB_history_answer n E p ord fuel x y Hp Hx Hy Hfuel) as (b & Hb & Hiff).
  destruct (UF_history_answer n E s ord' fuel x y Hs Hx Hy Hfuel)
    as (b' & s' & Hb' & Hiff').
  exists b, s'. split; [done|].
  assert (b' = b) as ->; [|done].
  destruct b, b'; try done.
  - by apply Hiff', Hiff.
  - symmetry. by apply Hiff, Hiff'.
Qed.

Lemma UFB_agrees_with_UnionFind_witness :
  ∃ b s',
    UnionFindBasic.connected left_first 4 0 2 [1; 1; 1; 3] = Ok b [1; 1; 1; 3] ∧
    UnionFind.connected right_first 4 0 2
      {| UnionFind.parent := [0; 0; 0; 3]; UnionFind.rank := [1; 0; 0; 0] |}
    = Ok b s'.
Proof.
  apply (UFB_agrees_with_UnionFind 4 [[2; 1]; [0; 1]] [1; 1; 1; 3]
           {| UnionFind.parent := [0; 0; 0; 3]; UnionFind.rank := [1; 0; 0; 0] |}
           UFB_history_example UF_history_example
           left_first right_first 4%nat 0 2); [lia|lia|simpl; lia].
Defined.
End UnionFindBasic_facts.

(** ** [findCircleNum] counts the components of an adjacency matrix *)

Section findCircleNum.
#[local] Abbreviation state := UnionFindRank.state.
#[local] Abbreviation parent := UnionFindRank.parent.
#[local] Abbreviation components := UnionFindRank.components.
#[local] Abbreviation mget := UnionFindRank.mget.
#[local] Abbreviation marked := UnionFindRank.marked.
#[local] Abbreviation adjacent := UnionFindRank.adjacent.
Implicit Types (s : state) (E : list (list Z)) (m : list (list Z)).

(** A first batch of edges can be moved into the base relation. *)
Lemma joined_app R R' E1 E2 x y :
  (∀ a b, R' a b ↔ joined R E1 a b) →
  joined R' E2 x y ↔ joined R (E1 ++ E2) x y.
Proof.
  intros H. split.
  - apply joined_weaken.
    + intros a b Hab%H. by apply joined_app_l.
    + intros edge Hin. apply elem_of_app. by right.
  - induction 1 as [x y HR|edge a b Hin Ha Hb|x y _ IH|x y z _ IH1 _ IH2].
    + apply joined_base, H. by apply joined_base.
    + apply elem_of_app in Hin as [Hin|Hin].
      * apply joined_base, H. by eapply joined_edge.
      * by eapply joined_edge.
    + by apply joined_sym.
    + by eapply joined_trans.
Qed.

(** A loop whose every round adds edges adds them all. *)
Lemma UFR_for_range_joined n (body : Z → M state unit)
    (edges_of : Z → list (list Z)) (k : nat) :
  ∀ j0 s,
    (∀ j t, j0 ≤ j < j0 + Z.of_nat k → UnionFindRank.inv n t →
            ∃ t', body j t = Ok tt t' ∧ UnionFindRank.inv n t' ∧
                  ∀ x y, same_set (parent t') x y
                         ↔ joined (same_set (parent t)) (edges_of j) x y) →
    UnionFindRank.inv n s →
    ∃ s', for_range k j0 body s = Ok tt s' ∧ UnionFindRank.inv n s' ∧
          ∀ x y, same_set (parent s') x y
                 ↔ joined (same_set (parent s))
                     (concat (edges_of <$> seqZ j0 (Z.of_nat k))) x y.
Proof.
  induction k as [|k IH]; intros j0 s Hbody Hinv.
  - exists s. split_and!; [done..|]. intros x y. simpl. symmetry.
    apply joined_nil; [apply same_set_sym|apply same_set_trans].
  - destruct (Hbody j0 s) as (s1 & H1 & Hinv1 & Hsets1); [lia|done|].
    destruct (IH (j0 + 1) s1) as (s' & Hloop & Hinv' & Hsets); [|done|].
    { intros j t Hj. apply Hbody. lia. }
    exists s'. split_and!; [|done|].
    + simpl. erewrite bind_Ok by done. done.
    + intros x y. rewrite Hsets.
      replace (Z.of_nat (S k)) with (Z.succ (Z.of_nat k)) by lia.
      rewrite (seqZ_cons j0) by lia. rewrite Z.pred_succ. simpl.
      replace (Z.succ j0) with (j0 + 1) by lia.
      by apply joined_app.
Qed.

Lemma UFR_findCircleNum_body n fuel m i j s :
  UnionFindRank.inv n s → 0 ≤ i < n → 0 ≤ j < n → (Z.to_nat n ≤ fuel)%nat →
  is_Some (mget m i j) →
  ∃ s', UnionFindRank.findCircleNum_body fuel m i j s = Ok tt s' ∧
        UnionFindRank.inv n s' ∧
        ∀ x y, same_set (parent s') x y
               ↔ joined (same_set (parent s)) (marked m i j) x y.
Proof.
  intros Hinv Hi Hj Hfuel [c Hc].
  unfold UnionFindRank.findCircleNum_body, UnionFindRank.marked. rewrite Hc.
  destruct (decide (c = 1)) as [->|Hne].
  - destruct (UFR_unite_step n fuel i j s) as (b & s1 & H1 & Hinv1 & Hm & _);
      [done..|].
    exists s1. split_and!; [by erewrite bind_Ok by done|done|].
    intros x y. rewrite decide_True by done.
    eapply merged_joined; [by eapply UFR_inv_forest|done..].
  - exists s. split_and!; [done..|]. intros x y.
    rewrite decide_False by congruence. symmetry.
    apply joined_nil; [apply same_set_sym|apply same_set_trans].
Qed.

Lemma elem_of_concat {A} (x : A) (ls : list (list A)) :
  x ∈ concat ls ↔ ∃ l, x ∈ l ∧ l ∈ ls.
Proof.
  induction ls as [|l ls IH]; simpl.
  - split; [by intros ?%elem_of_nil|by intros (l & _ & ?%elem_of_nil)].
  - rewrite elem_of_app, IH. split.
    + intros [Hx|(l' & Hx & Hl')].
      * exists l. split; [done|left].
      * exists l'. split; [done|by right].
    + intros (l' & Hx & [->|Hl']%elem_of_cons); [by left|].
      right. by exists l'.
Qed.

(** The edges that the matrix marks are between vertices, the smaller
    one first. *)
Lemma elem_of_adjacent m n e :
  e ∈ adjacent m n ↔
  ∃ i j, e = [i; j] ∧ 0 ≤ i ∧ i < j < n ∧ mget m i j = Some 1.
Proof.
  unfold UnionFindRank.adjacent, UnionFindRank.marked. split.
  - intros (l & He & (i & -> & Hi)%list_elem_of_fmap)%elem_of_concat.
    apply elem_of_concat in He as (l' & He & (j & -> & Hj)%list_elem_of_fmap).
    apply elem_of_seqZ in Hi, Hj. case_decide as Hm; [|by apply elem_of_nil in He].
    apply list_elem_of_singleton in He as ->.
    exists i, j. split_and!; [done|lia..|done].
  - intros (i & j & -> & Hi & Hj & Hm).
    apply elem_of_concat. eexists. split; [|apply list_elem_of_fmap].
    2:{ exists i. split; [done|]. apply elem_of_seqZ. lia. }
    apply elem_of_concat. eexists. split; [|apply list_elem_of_fmap].
    2:{ exists j. split; [done|]. apply elem_of_seqZ. lia. }
    rewrite decide_True by done. left.
Qed.

(** X16.  [findCircleNum(isConnected)], for a matrix of [n] rows (within
    [int]) whose entries above the diagonal exist, returns the number of
    connected components of the graph whose edges are the pairs [i < j]
    with [isConnected[i][j] == 1]; the entries on and below the diagonal
    are not read. *)
Theorem UFR_findCircleNum_classes fuel m n :
  n = Z.of_nat (length m) →
  n ≤ INT_MAX → (length m ≤ fuel)%nat →
  (∀ i j, 0 ≤ i → i < j < n → is_Some (mget m i j)) →
  ∃ c s,
    UnionFindRank.findCircleNum fuel m UnionFindRank.empty = Ok c s ∧
    0 ≤ c ≤ n ∧
    classes n (connected_in n (adjacent m n)) (Z.to_nat c) ∧
    (∀ x y, same_set (parent s) x y ↔ connected_in n (adjacent m n) x y) ∧
    (∀ e, e ∈ adjacent m n ↔
          ∃ i j, e = [i; j] ∧ 0 ≤ i ∧ i < j < n ∧ mget m i j = Some 1).
Proof.
  intros Hlen Hmax Hfuel Hm.
  assert (0 ≤ n) as Hn by lia.
  pose proof (UFR_new n Hn) as Hnew.
  set (s0 := {| UnionFindRank.parent := seqZ 0 n;
                UnionFindRank.rank := replicate (Z.to_nat n) 0;
                UnionFindRank.components := n |}) in *.
  assert (UnionFindRank.inv n s0) as Hinv0 by (by apply UFR_new_inv).
  destruct (UFR_for_range_joined n
              (λ i, for_range (Z.to_nat (n - (i + 1))) (i + 1)
                      (UnionFindRank.findCircleNum_body fuel m i))
              (λ i, concat (marked m i <$> seqZ (i + 1) (n - (i + 1))))
              (Z.to_nat n) 0 s0) as (s & Hloop & Hinv & Hsets); [|done|].
  { intros i t Hi Hinvt.
    destruct (UFR_for_range_joined n (UnionFindRank.findCircleNum_body fuel m i)
                (marked m i) (Z.to_nat (n - (i + 1))) (i + 1) t)
      as (t' & Hrow & Hinvt' & Hsetst); [|done|].
    { intros j u Hj Hinvu. apply UFR_findCircleNum_body; [done|lia|lia|lia|].
      apply Hm; lia. }
    exists t'. split_and!; [done..|].
    intros x y. rewrite Hsetst. by rewrite Z2Nat.id by lia. }
  rewrite Z2Nat.id in Hsets by lia.
  assert (∀ x y, same_set (parent s) x y ↔ connected_in n (adjacent m n) x y)
    as Hconn.
  { intros x y. rewrite Hsets. apply joined_ext. apply (same_set_seqZ n). }
  exists (components s), s. split_and!.
  - unfold UnionFindRank.findCircleNum.
    rewrite <- Hlen.
    erewrite bind_Ok by (apply checked_Ok; unfold INT_MIN, INT_MAX in *; lia).
    erewrite bind_Ok by done. erewrite bind_Ok by done. done.
  - destruct Hinv as (_ & _ & _ & _ & -> & _). lia.
  - destruct Hinv as (_ & Hlp & _ & _ & Hc & _).
    pose proof (count_roots_le (parent s)). lia.
  - destruct Hinv as (_ & Hlp & _ & Hf & -> & _). rewrite Nat2Z.id.
    eapply classes_ext; [exact Hconn|]. by apply roots_classes.
  - done.
  - apply elem_of_adjacent.
Qed.

Lemma UFR_findCircleNum_classes_witness :
  ∃ c s,
    UnionFindRank.findCircleNum 3 [[1; 1; 0]; [1; 1; 0]; [0; 0; 1]]
      UnionFindRank.empty = Ok c s ∧
    0 ≤ c ≤ 3 ∧
    classes 3
      (connected_in 3 (adjacent [[1; 1; 0]; [1; 1; 0]; [0; 0; 1]] 3))
      (Z.to_nat c) ∧
    (∀ x y, same_set (parent s) x y
            ↔ connected_in 3 (adjacent [[1; 1; 0]; [1; 1; 0]; [0; 0; 1]] 3) x y) ∧
    (∀ e, e ∈ adjacent [[1; 1; 0]; [1; 1; 0]; [0; 0; 1]] 3 ↔
          ∃ i j, e = [i; j] ∧ 0 ≤ i ∧ i < j < 3 ∧
                 mget [[1; 1; 0]; [1; 1; 0]; [0; 0; 1]] i j = Some 1).
Proof.
  apply (UFR_findCircleNum_classes 3 [[1; 1; 0]; [1; 1; 0]; [0; 0; 1]] 3).
  - reflexivity.
  - by vm_compute.
  - simpl. lia.
  - intros i j Hi Hj. simpl in Hj.
    assert (i = 0 ∧ (j = 1 ∨ j = 2) ∨ i = 1 ∧ j = 2) as Hcases by lia.
    destruct Hcases as [[-> [-> | ->]] | [-> ->]]; by eexists.
Defined.

Example UFR_findCircleNum_example :
  ∃ s, UnionFindRank.findCircleNum 3 [[1; 1; 0]; [1; 1; 0]; [0; 0; 1]]
         UnionFindRank.empty = Ok 2 s.
Proof. eexists. vm_compute. reflexivity. Qed.
End findCircleNum.

(** ** [equationsPossible] decides whether the equations can be satisfied *)

Section equationsPossible.
#[local] Abbreviation state := UnionFindRank.state.
#[local] Abbreviation parent := UnionFindRank.parent.
#[local] Abbreviation set_parent := UnionFindRank.set_parent.
#[local] Abbreviation operands := UnionFindRank.operands.
#[local] Abbreviation operator := UnionFindRank.operator.
#[local] Abbreviation lowercase := UnionFindRank.lowercase.
#[local] Abbreviation satisfies := UnionFindRank.satisfies.
#[local] Abbreviation equalities := UnionFindRank.equalities.
#[local] Abbreviation letter := UnionFindRank.letter.
Implicit Types (s : state) (eq : string) (equations : list string).

(** In a well-formed object [connected] on valid elements returns,
    changes no set and tells whether the two are in one set. *)
Lemma UFR_connected_spec n ord fuel x y s :
  UnionFindRank.inv n s → 0 ≤ x < n → 0 ≤ y < n → (Z.to_nat n ≤ fuel)%nat →
  ∃ b s',
    UnionFindRank.connected ord fuel x y s = Ok b s' ∧
    UnionFindRank.inv n s' ∧ same_sets (parent s) (parent s') ∧
    (b = true ↔ same_set (parent s) x y).
Proof.
  intros Hinv Hx Hy Hfuel.
  pose proof (UFR_inv_forest _ _ Hinv) as Hf.
  destruct (UFR_inv_length _ _ Hinv) as [Hlp _].
  assert (∀ rx ry, repr (parent s) x rx → repr (parent s) y ry →
                   bool_decide (rx = ry) = true ↔ same_set (parent s) x y)
    as Hans.
  { intros rx ry Hrx Hry. rewrite bool_decide_eq_true.
    rewrite (same_set_repr _ _ _ _ Hrx). split.
    - by intros ->.
    - intros Hy'. by eapply repr_functional. }
  destruct ord; unfold UnionFindRank.connected.
  - destruct (find_pair fuel (parent s) x y)
      as (rx & ry & p1 & p2 & Hfx & Hfy & Hrx & Hry & _ & Hs2); [done|lia..|].
    exists (bool_decide (rx = ry)), (set_parent p2 s). split_and!.
    + erewrite bind_Ok by (by apply UFR_find_Ok).
      erewrite bind_Ok by (by apply UFR_find_Ok). done.
    + by apply UFR_inv_same_sets.
    + done.
    + by apply Hans.
  - destruct (find_pair fuel (parent s) y x)
      as (ry & rx & p1 & p2 & Hfy & Hfx & Hry & Hrx & _ & Hs2); [done|lia..|].
    exists (bool_decide (rx = ry)), (set_parent p2 s). split_and!.
    + erewrite bind_Ok by (by apply UFR_find_Ok).
      erewrite bind_Ok by (by apply UFR_find_Ok). done.
    + by apply UFR_inv_same_sets.
    + done.
    + by apply Hans.
Qed.

(** An equation with both operands has at least four characters. *)
Lemma operands_Some eq x y :
  operands eq = Some (x, y) →
  ∃ a op c b rest,
    eq = String a (String op (String c (String b rest))) ∧
    x = letter a ∧ y = letter b.
Proof.
  unfold UnionFindRank.operands.
  destruct eq as [|a [|op [|c [|b rest]]]]; simpl; try done.
  intros [= <- <-]. by exists a, op, c, b, rest.
Qed.

Lemma equalities_cons eq equations :
  equalities (eq :: equations)
  = match operands eq with
    | Some (x, y) =>
        if decide (operator eq = Some "="%char) then [[x; y]] else []
    | None => []
    end ++ equalities equations.
Proof. done. Qed.

Lemma elem_of_equalities equations e :
  e ∈ equalities equations ↔
  ∃ eq x y, eq ∈ equations ∧ operands eq = Some (x, y) ∧
            operator eq = Some "="%char ∧ e = [x; y].
Proof.
  induction equations as [|eq equations IH].
  - split; [by intros ?%elem_of_nil|by intros (? & ? & ? & ?%elem_of_nil & _)].
  - rewrite equalities_cons, elem_of_app, IH. split.
    + intros [He|(eq' & x & y & Hin & H)].
      * destruct (operands eq) as [[x y]|] eqn:Hops;
          [|by apply elem_of_nil in He].
        case_decide as Hop; [|by apply elem_of_nil in He].
        apply list_elem_of_singleton in He as ->.
        exists eq, x, y. split_and!; [left|done..].
      * exists eq', x, y. split; [by right|done].
    + intros (eq' & x & y & [->|Hin]%elem_of_cons & Hops & Hop & ->).
      * left. rewrite Hops, decide_True by done. left.
      * right. by exists eq', x, y.
Qed.

Lemma char_at_0 a l s : UnionFindRank.char_at (String a l) 0 s = Ok a s.
Proof. done. Qed.

Lemma char_at_1 a op l s :
  UnionFindRank.char_at (String a (String op l)) 1 s = Ok op s.
Proof. done. Qed.

Lemma char_at_3 a op c b l s :
  UnionFindRank.char_at (String a (String op (String c (String b l)))) 3 s
  = Ok b s.
Proof. done. Qed.

Lemma equationsPossible_unions_cons fuel eq equations :
  UnionFindRank.equationsPossible_unions fuel (eq :: equations)
  = (op ← UnionFindRank.char_at eq 1;
     (if decide (op = "="%char) then
        a ← UnionFindRank.char_at eq 0;
        b ← UnionFindRank.char_at eq 3;
        UnionFindRank.unite fuel (letter a) (letter b);; mret tt
      else mret tt);;
     UnionFindRank.equationsPossible_unions fuel equations).
Proof. done. Qed.

Lemma equationsPossible_checks_cons ord fuel eq equations :
  UnionFindRank.equationsPossible_checks ord fuel (eq :: equations)
  = (op ← UnionFindRank.char_at eq 1;
     if decide (op = "!"%char) then
       a ← UnionFindRank.char_at eq 0;
       b ← UnionFindRank.char_at eq 3;
       r ← UnionFindRank.connected ord fuel (letter a) (letter b);
       if (r : bool) then mret false
       else UnionFindRank.equationsPossible_checks ord fuel equations
     else UnionFindRank.equationsPossible_checks ord fuel equations).
Proof. done. Qed.

Lemma UFR_equations_unions fuel equations s :
  UnionFindRank.inv 26 s → Forall lowercase equations → (26 ≤ fuel)%nat →
  ∃ s',
    UnionFindRank.equationsPossible_unions fuel equations s = Ok tt s' ∧
    UnionFindRank.inv 26 s' ∧
    ∀ x y, same_set (parent s') x y
           ↔ joined (same_set (parent s)) (equalities equations) x y.
Proof.
  intros Hinv Heqs Hfuel. revert s Hinv.
  induction Heqs as [|eq equations (x & y & Hops & Hx & Hy) _ IH]; intros s Hinv.
  - exists s. split_and!; [done..|]. intros x y. symmetry.
    apply joined_nil; [apply same_set_sym|apply same_set_trans].
  - pose proof Hops as (a & op & c & b & rest & -> & -> & ->)%operands_Some.
    rewrite equalities_cons, Hops.
    change (operator (String a (String op (String c (String b rest)))))
      with (Some op).
    destruct (decide (op = "="%char)) as [->|Hop].
    + destruct (UFR_unite_step 26 fuel (letter a) (letter b) s)
        as (r & s1 & H1 & Hinv1 & Hm & _); [done|done|done|simpl; lia|].
      destruct (IH s1 Hinv1) as (s' & Hloop & Hinv' & Hsets).
      exists s'. split_and!; [|done|].
      * rewrite equationsPossible_unions_cons.
        erewrite bind_Ok by apply char_at_1.
        rewrite decide_True by done.
        erewrite bind_Ok; cycle 1.
        { erewrite bind_Ok by apply char_at_0.
          erewrite bind_Ok by apply char_at_3.
          erewrite bind_Ok by exact H1. apply ret_Ok. }
        exact Hloop.
      * intros u v. rewrite Hsets, decide_True by done.
        apply joined_cons. intros u' v'.
        eapply merged_joined; [by eapply UFR_inv_forest|done..].
    + destruct (IH s Hinv) as (s' & Hloop & Hinv' & Hsets).
      exists s'. split_and!; [|done|].
      * rewrite equationsPossible_unions_cons.
        erewrite bind_Ok by apply char_at_1.
        rewrite decide_False by done.
        erewrite bind_Ok by apply ret_Ok. exact Hloop.
      * intros u v. rewrite Hsets, decide_False by congruence. done.
Qed.

Lemma UFR_equations_checks ord fuel equations s :
  UnionFindRank.inv 26 s → Forall lowercase equations → (26 ≤ fuel)%nat →
  ∃ r s',
    UnionFindRank.equationsPossible_checks ord fuel equations s = Ok r s' ∧
    (r = true ↔
     ∀ eq x y, eq ∈ equations → operands eq = Some (x, y) →
               operator eq = Some "!"%char → ¬ same_set (parent s) x y).
Proof.
  intros Hinv Heqs Hfuel. revert s Hinv.
  induction Heqs as [|eq equations (x & y & Hops & Hx & Hy) _ IH]; intros s Hinv.
  - exists true, s. split; [done|]. split; [|done].
    intros _ eq x y Hin. by apply elem_of_nil in Hin.
  - pose proof Hops as (a & op & c & b & rest & Heq & -> & ->)%operands_Some.
    assert (operator eq = Some op) as Hop by (by subst eq).
    destruct (decide (op = "!"%char)) as [->|Hne].
    + destruct (UFR_connected_spec 26 ord fuel (letter a) (letter b) s)
        as (r & s1 & H1 & Hinv1 & Hs1 & Hr); [done|done|done|simpl; lia|].
      destruct r.
      * exists false, s1. split.
        -- subst eq. rewrite equationsPossible_checks_cons.
           erewrite bind_Ok by apply char_at_1.
           rewrite decide_True by done.
           erewrite bind_Ok by apply char_at_0.
           erewrite bind_Ok by apply char_at_3.
           erewrite bind_Ok by exact H1. done.
        -- split; [done|]. intros Hall. exfalso.
           apply (Hall eq (letter a) (letter b)); [left|done|done|].
           by apply Hr.
      * destruct (IH s1 Hinv1) as (r & s' & Hloop & Hiff).
        exists r, s'. split.
        -- subst eq. rewrite equationsPossible_checks_cons.
           erewrite bind_Ok by apply char_at_1.
           rewrite decide_True by done.
           erewrite bind_Ok by apply char_at_0.
           erewrite bind_Ok by apply char_at_3.
           erewrite bind_Ok by exact H1. done.
        -- rewrite Hiff. split.
           ++ intros Hall eq' x' y' [->|Hin]%elem_of_cons Hops' Hop'.
              ** assert (x' = letter a ∧ y' = letter b) as [-> ->]
                   by (split; congruence).
                 intros Hsame. by apply Hr in Hsame.
              ** rewrite <- (same_sets_same_set _ _ x' y' Hs1).
                 by apply (Hall eq').
           ++ intros Hall eq' x' y' Hin Hops' Hop'.
              rewrite (same_sets_same_set _ _ x' y' Hs1).
              apply (Hall eq'); [by right|done..].
    + destruct (IH s Hinv) as (r & s' & Hloop & Hiff).
      exists r, s'. split.
      * subst eq. rewrite equationsPossible_checks_cons.
        erewrite bind_Ok by apply char_at_1.
        rewrite decide_False by done. done.
      * rewrite Hiff. split.
        -- intros Hall eq' x' y' [->|Hin]%elem_of_cons Hops' Hop'.
           ++ congruence.
           ++ by apply (Hall eq').
        -- intros Hall eq' x' y' Hin Hops' Hop'.
           apply (Hall eq'); [by right|done..].
Qed.

(** X17.  [equationsPossible(equations)], for equations whose operands
    (characters 0 and 3) are lower-case letters, returns true exactly when
    values can be given to the 26 variables so that every equation holds,
    an equation being an equality when its character 1 is [=] and an
    inequality when it is [!]. *)
Theorem UFR_equationsPossible_iff ord fuel equations :
  Forall lowercase equations → (26 ≤ fuel)%nat →
  ∃ r s,
    UnionFindRank.equationsPossible ord fuel equations UnionFindRank.empty
    = Ok r s ∧
    (r = true ↔ ∃ val, Forall (satisfies val) equations).
Proof.
  intros Heqs Hfuel.
  pose proof (UFR_new 26 ltac:(lia)) as Hnew.
  set (s0 := {| UnionFindRank.parent := seqZ 0 26;
                UnionFindRank.rank := replicate (Z.to_nat 26) 0;
                UnionFindRank.components := 26 |}) in *.
  assert (UnionFindRank.inv 26 s0) as Hinv0.
  { apply UFR_new_inv; [by vm_compute|done]. }
  destruct (UFR_equations_unions fuel equations s0 Hinv0 Heqs Hfuel)
    as (s1 & Hunions & Hinv1 & Hsets).
  destruct (UFR_equations_checks ord fuel equations s1 Hinv1 Heqs Hfuel)
    as (r & s & Hchecks & Hr).
  assert (∀ x y, same_set (parent s1) x y
                 ↔ connected_in 26 (equalities equations) x y) as Hconn.
  { intros x y. rewrite Hsets. apply joined_ext. apply (same_set_seqZ 26). }
  pose proof (UFR_inv_forest _ _ Hinv1) as Hf.
  destruct (UFR_inv_length _ _ Hinv1) as [Hlp _].
  exists r, s. split.
  - unfold UnionFindRank.equationsPossible.
    erewrite bind_Ok by done. erewrite bind_Ok by done. done.
  - rewrite Hr. split.
    + intros Hall.
      exists (λ x, default (-1) (root_of (length (parent s1)) (parent s1) x)).
      rewrite Forall_forall in Heqs |- *. intros eq Hin x y Hops.
      destruct (Heqs eq Hin) as (x' & y' & Hops' & Hx & Hy).
      assert (x' = x ∧ y' = y) as [-> ->] by (split; congruence).
      destruct (Hf x) as [rx Hrx]; [lia|].
      destruct (Hf y) as [ry Hry]; [lia|].
      rewrite (proj1 (repr_root_of _ _ _) Hrx), (proj1 (repr_root_of _ _ _) Hry).
      simpl. split.
      * intros Hop.
        assert (same_set (parent s1) x y) as Hsame.
        { apply Hconn. eapply (joined_edge _ _ [x; y]); [|done..].
          apply (proj2 (elem_of_equalities equations [x; y])). exists eq, x, y.
          split; [exact Hin|]. split; [exact Hops|]. split; [exact Hop|].
          reflexivity. }
        apply (same_set_repr _ _ _ _ Hrx) in Hsame.
        exact (repr_functional _ _ _ _ Hsame Hry).
      * intros Hop Heq. subst ry. apply (Hall eq x y Hin Hops Hop).
        exists rx. split; [exact Hrx|exact Hry].
    + intros [val Hval] eq x y Hin Hops Hop Hsame.
      rewrite Forall_forall in Hval.
      destruct (Hval eq Hin x y Hops) as [_ Hne]. apply (Hne Hop).
      apply Hconn in Hsame. clear -Hsame Hval.
      induction Hsame as [u v [-> _]|edge u v Hedge Hu Hv|u v _ IH|u v w _ IH1 _ IH2].
      * done.
      * apply (proj1 (elem_of_equalities equations edge)) in Hedge
          as (eq & x & y & Hin & Hops & Hop & ->).
        injection Hu as <-. injection Hv as <-.
        destruct (Hval eq Hin x y Hops) as [Heq _]. exact (Heq Hop).
      * done.
      * congruence.
Qed.

Lemma UFR_equationsPossible_iff_witness :
  ∃ r s,
    UnionFindRank.equationsPossible left_first 26
      ["a==b"%string; "b!=c"%string; "c==a"%string] UnionFindRank.empty
    = Ok r s ∧
    (r = true ↔
     ∃ val, Forall (satisfies val) ["a==b"%string; "b!=c"%string; "c==a"%string]).
Proof.
  apply (UFR_equationsPossible_iff left_first 26
           ["a==b"%string; "b!=c"%string; "c==a"%string]); [|lia].
  repeat (apply Forall_cons; split;
          [eexists _, _; split; [reflexivity|];
           vm_compute; repeat split; congruence|]).
  exact (Forall_nil_2 _).
Defined.

(** The run of the example: [b != c] contradicts [a == b] and [c == a]. *)
Example UFR_equationsPossible_example :
  ∃ s, UnionFindRank.equationsPossible left_first 26
         ["a==b"%string; "b!=c"%string; "c==a"%string] UnionFindRank.empty
       = Ok false s.
Proof. eexists. vm_compute. reflexivity. Qed.
End equationsPossible.

(** ** [unionBySize] with a vector that only it updates *)

Section UnionFind_sized.
#[local] Abbreviation parent := UnionFind.parent.
#[local] Abbreviation rank := UnionFind.rank.
#[local] Abbreviation set_parent := UnionFind.set_parent.
Implicit Types (s : UnionFind.state) (size : list Z).

#[local] Abbreviation UF_sizes_ok := UnionFind.sizes_ok.

Lemma UF_sizes_ok_same_sets n s size q :
  UF_sizes_ok n s size → same_sets (parent s) q →
  UF_sizes_ok n (set_parent q s) size.
Proof.
  intros ((Hn & Hlp & Hlr & Hf) & Hls & Hsz) Hs.
  split; [|split]; [split_and!|..]; simpl.
  - done.
  - destruct Hs as [-> _]. done.
  - done.
  - by eapply same_sets_forest.
  - done.
  - intros r Hr. rewrite (card_same_sets _ _ _ Hs).
    apply Hsz. by apply (same_sets_is_root _ _ r Hs).
Qed.

Lemma UF_sizes_ok_link n s size q low high :
  UF_sizes_ok n s size → same_sets (parent s) q →
  is_root q low → is_root q high → low ≠ high →
  UF_sizes_ok n (set_parent (<[Z.to_nat low := high]> q) s)
    (<[Z.to_nat high :=
         Z.of_nat (card (parent s) low) + Z.of_nat (card (parent s) high)]> size).
Proof.
  intros Hok Hs Hlo Hhi Hne.
  pose proof (UF_sizes_ok_same_sets _ _ _ _ Hok Hs)
    as ((Hn & Hlp & Hlr & Hf) & Hls & Hsz).
  simpl in *. pose proof (vget_range _ _ _ Hhi) as Hhr.
  split; [|split]; [split_and!|..]; simpl.
  - done.
  - by rewrite length_insert.
  - done.
  - by apply forest_link.
  - by rewrite length_insert.
  - intros r [Hr Hrl]%is_root_link; [|done..].
    destruct (decide (r = high)) as [->|Hrh].
    + rewrite vget_insert_eq by lia. f_equal.
      rewrite card_link by done.
      rewrite !(card_same_sets _ _ _ Hs). lia.
    + rewrite vget_insert_ne by lia.
      rewrite card_link_other by done. by apply Hsz.
Qed.

Lemma UF_sized_ok n s size : UnionFind.sized n s size → UF_sizes_ok n s size.
Proof.
  induction 1 as [s H|s size fuel c s' _ IH Hc H|s size fuel u v s' size' _ IH H].
  - pose proof (UF_new_wf _ _ H) as Hwf.
    apply UF_new_inv in H as [Hn ->]. split_and!; [done|..]; simpl.
    + by rewrite length_replicate.
    + intros r Hr. pose proof (vget_range _ _ _ Hr) as Hrange.
      rewrite length_seqZ in Hrange. rewrite card_seqZ by lia.
      apply vget_Some. split; [lia|]. apply lookup_replicate_2. lia.
  - pose proof IH as ((_ & _ & _ & Hf) & _).
    destruct c as [u|u v|u v byRank|u v size0|ord u v]; try done; simpl in H.
    + apply bind_Ok_inv in H as (r & s1 & (p' & Hu & ->)%UF_find_inv & [= <-]).
      destruct (find_Ok_forest _ _ _ _ _ Hf Hu) as (_ & Hs & _).
      by apply UF_sizes_ok_same_sets.
    + apply bind_Ok_inv in H as (b & s1 & H & [= <-]).
      apply UF_connected_Ok in H as (ru & rv & p' & _ & _ & _ & -> & Hs); [|done].
      by apply UF_sizes_ok_same_sets.
  - pose proof IH as ((_ & _ & _ & Hf) & _ & Hsz).
    apply UF_unionBySize_Ok in H as (ru & rv & p1 & q & Hu & Hv & Hcase).
    destruct (finds_same_sets _ _ _ _ _ _ _ _ Hf Hu Hv)
      as (Hru & Hrv & _ & Hs & Hqu & Hqv).
    destruct Hcase as [(_ & -> & ->)|(Hne & a & b & Ha & Hb & _ & Hcase)].
    + by apply UF_sizes_ok_same_sets.
    + rewrite (Hsz ru (repr_is_root _ _ _ Hru)) in Ha. injection Ha as <-.
      rewrite (Hsz rv (repr_is_root _ _ _ Hrv)) in Hb. injection Hb as <-.
      destruct Hcase as [(_ & -> & ->)|(_ & -> & ->)].
      * rewrite Z.add_comm. by apply UF_sizes_ok_link.
      * rewrite Z.add_comm. apply UF_sizes_ok_link; [done..|]. congruence.
Qed.

(** X18.  When the vector given to [unionBySize] was [n] ones at the
    start and no other union is called, it holds at every root the number
    of elements of its set; then [unionBySize] on valid elements reads it
    in range, cannot overflow, and returns. *)
Theorem UF_unionBySize_tracks n s size :
  n ≤ INT_MAX → UnionFind.sized n s size →
  length size = Z.to_nat n ∧
  (∀ r, is_root (parent s) r →
        vget size r = Some (Z.of_nat (card (parent s) r))) ∧
  (∀ fuel u v,
     0 ≤ u < n → 0 ≤ v < n → (Z.to_nat n ≤ fuel)%nat →
     ∃ s' size',
       UnionFind.unionBySize fuel u v (s, size) = Ok tt (s', size') ∧
       UnionFind.sized n s' size').
Proof.
  intros Hmax Hsized.
  pose proof (UF_sized_ok _ _ _ Hsized) as ((Hn & Hlp & Hlr & Hf) & Hls & Hsz).
  split_and!; [done..|].
  intros fuel u v Hu Hv Hfuel.
  destruct (find_pair fuel (parent s) u v)
    as (ru & rv & p1 & p2 & Hfu & Hfv & Hru & Hrv & _ & _); [done|lia..|].
  pose proof (Hsz ru (repr_is_root _ _ _ Hru)) as Ha.
  pose proof (Hsz rv (repr_is_root _ _ _ Hrv)) as Hb.
  pose proof (UF_unionBySize_result _ _ _ _ _ _ _ _ _ _ _ Hfu Hfv Ha Hb) as Hres.
  assert (∃ s' size', UnionFind.unionBySize fuel u v (s, size) = Ok tt (s', size'))
    as (s' & size' & H).
  { rewrite Hres. destruct (decide (ru = rv)) as [|Hne]; [by eexists _, _|].
    pose proof (card_pair_le (parent s) ru rv Hne) as Hle.
    unfold INT_MIN, INT_MAX in *.
    destruct (decide (_ < _)).
    - rewrite decide_True by lia. by eexists _, _.
    - rewrite decide_True by lia. by eexists _, _. }
  exists s', size'. split; [done|].
  by eapply UnionFind.sized_union.
Qed.

Lemma UF_sized_example :
  UnionFind.sized 4
    {| UnionFind.parent := [0; 0; 0; 3]; UnionFind.rank := [0; 0; 0; 0] |}
    [3; 1; 1; 1].
Proof.
  apply (UnionFind.sized_union 4
           {| UnionFind.parent := [0; 0; 2; 3]; UnionFind.rank := [0; 0; 0; 0] |}
           [2; 1; 1; 1] 4%nat 2 1); [|reflexivity].
  apply (UnionFind.sized_union 4
           {| UnionFind.parent := [0; 1; 2; 3]; UnionFind.rank := [0; 0; 0; 0] |}
           [1; 1; 1; 1] 4%nat 0 1); [|reflexivity].
  apply (UnionFind.sized_new 4). reflexivity.
Qed.

Lemma UF_unionBySize_tracks_witness :
  length [3; 1; 1; 1] = Z.to_nat 4 ∧
  (∀ r, is_root [0; 0; 0; 3] r →
        vget [3; 1; 1; 1] r = Some (Z.of_nat (card [0; 0; 0; 3] r))) ∧
  (∀ fuel u v,
     0 ≤ u < 4 → 0 ≤ v < 4 → (Z.to_nat 4 ≤ fuel)%nat →
     ∃ s' size',
       UnionFind.unionBySize fuel u v
         ({| UnionFind.parent := [0; 0; 0; 3]; UnionFind.rank := [0; 0; 0; 0] |},
          [3; 1; 1; 1])
       = Ok tt (s', size') ∧
       UnionFind.sized 4 s' size').
Proof.
  apply (UF_unionBySize_tracks 4
           {| UnionFind.parent := [0; 0; 0; 3]; UnionFind.rank := [0; 0; 0; 0] |}
           [3; 1; 1; 1]); [by vm_compute|].
  apply UF_sized_example.
Defined.

(** Another union in between leaves the vector behind: after
    [unionSets(0, 1)] the root [0] has two elements and [size[0]] is 1. *)
Example UF_unionSets_leaves_size_behind :
  UnionFind.unionSets 2 0 1
    {| UnionFind.parent := [0; 1]; UnionFind.rank := [0; 0] |}
  = Ok tt {| UnionFind.parent := [0; 0]; UnionFind.rank := [1; 0] |} ∧
  card [0; 0] 0 = 2%nat ∧ vget [1; 1] 0 = Some 1.
Proof. done. Qed.
End UnionFind_sized.

(** ** [UnionFind.cpp]: what the unions report and what they count *)

Section UnionFind_cpp_unions.
#[local] Abbreviation parent := UnionFind.parent.
#[local] Abbreviation rank := UnionFind.rank.
#[local] Abbreviation set_parent := UnionFind.set_parent.
Implicit Types (s : UnionFind.state).

(** A merge of two sets takes one root away, a merge within a set none. *)
Lemma merged_count_roots_exact p u v p' :
  forest p → merged p u v p' →
  count_roots p
  = if decide (same_set p u v) then count_roots p' else S (count_roots p').
Proof.
  intros Hf (ru & rv & q & Hu & Hv & Hq & Hcase).
  rewrite <- (count_roots_same_sets p q Hq).
  assert (is_root q ru) as Hru
    by (eapply same_sets_is_root; [done|by eapply repr_is_root]).
  assert (is_root q rv) as Hrv
    by (eapply same_sets_is_root; [done|by eapply repr_is_root]).
  assert (same_set p u v ↔ ru = rv) as Hiff.
  { rewrite (same_set_repr _ _ _ _ Hu). split.
    - intros Hv'. by eapply repr_functional.
    - by intros ->. }
  destruct Hcase as [[Heq ->]|[Hne [-> | ->]]].
  - by rewrite decide_True by (by apply Hiff).
  - rewrite decide_False by (by rewrite Hiff). by apply count_roots_link.
  - rewrite decide_False by (by rewrite Hiff).
    apply count_roots_link; [done|congruence].
Qed.

(** C1.  [unionSets(x, y)] returns nothing.  On valid elements it returns,
    and when [x] and [y] share a root no set and no rank has changed;
    otherwise the two sets are one and there is one root less.  Whether it
    merges is what [connected(x, y)] returns before the call, negated, and
    what [unite] of the documentation's class, which makes the same update
    of [parent] and [rank], returns.  After [unionSets(0, 1)] and
    [unionSets(1, 2)] on three elements, [connected(2, 0)] is true and
    [unionSets(2, 0)] merges nothing. *)
Theorem UF_unionSets_merges_unreported :
  (∀ n fuel x y s,
     UnionFind.inv n s →
     0 ≤ x < n → 0 ≤ y < n → (Z.to_nat n ≤ fuel)%nat →
     ∃ s',
       UnionFind.unionSets fuel x y s = Ok tt s' ∧
       (same_set (parent s) x y →
          same_sets (parent s) (parent s') ∧ rank s' = rank s) ∧
       (¬ same_set (parent s) x y →
          same_set (parent s') x y ∧
          S (count_roots (parent s')) = count_roots (parent s)) ∧
       (∀ ord, ∃ t,
          UnionFind.connected ord fuel x y s
          = Ok (bool_decide (same_set (parent s) x y)) t) ∧
       (∀ c, INT_MIN ≤ c - 1 → c ≤ INT_MAX →
          UnionFindRank.unite fuel x y
            {| UnionFindRank.parent := parent s; UnionFindRank.rank := rank s;
               UnionFindRank.components := c |}
          = Ok (bool_decide (¬ same_set (parent s) x y))
               {| UnionFindRank.parent := parent s';
                  UnionFindRank.rank := rank s';
                  UnionFindRank.components :=
                    if decide (same_set (parent s) x y) then c else c - 1 |})) ∧
  (∃ s0 s1 s2 s3 t,
     UnionFind.UnionFind 3 UnionFind.empty = Ok tt s0 ∧
     UnionFind.unionSets 3 0 1 s0 = Ok tt s1 ∧
     UnionFind.unionSets 3 1 2 s1 = Ok tt s2 ∧
     UnionFind.connected left_first 3 2 0 s2 = Ok true t ∧
     UnionFind.unionSets 3 2 0 s2 = Ok tt s3 ∧
     same_sets (parent s2) (parent s3) ∧ rank s3 = rank s2).
Proof.
  split.
  - intros n fuel x y s Hinv Hx Hy Hfuel.
    pose proof (UF_inv_forest _ _ Hinv) as Hf.
    destruct (UF_inv_length _ _ Hinv) as [Hlp Hlr].
    destruct (find_pair fuel (parent s) x y)
      as (rx & ry & p1 & p2 & Hfx & Hfy & Hrx & Hry & _ & Hs2); [done|lia..|].
    pose proof (repr_is_root _ _ _ Hrx) as Hrootx.
    pose proof (repr_is_root _ _ _ Hry) as Hrooty.
    destruct (vget_is_Some (rank s) rx) as [a Ha].
    { apply vget_range in Hrootx. lia. }
    destruct (vget_is_Some (rank s) ry) as [b Hb].
    { apply vget_range in Hrooty. lia. }
    pose proof (UF_inv_rank_room _ _ _ _ Hinv Hrootx Ha) as Hroom.
    assert (same_set (parent s) x y ↔ rx = ry) as Hiff.
    { rewrite (same_set_repr _ _ _ _ Hrx). split.
      - intros Hy'. by eapply repr_functional.
      - by intros ->. }
    destruct (UF_unionSets_total n fuel x y s) as (s' & Hrun & _ & Hm); [done..|].
    pose proof (UF_unionSets_result _ _ _ _ _ _ _ _ _ _ Hfx Hfy Ha Hb) as Hres.
    rewrite Hres in Hrun.
    exists s'. split_and!.
    + by rewrite Hres.
    + intros Heq%Hiff. rewrite decide_True in Hrun by done.
      injection Hrun as <-. done.
    + intros Hnot. split; [by eapply merged_joins|].
      pose proof (merged_count_roots_exact _ _ _ _ Hf Hm) as Hcount.
      by rewrite decide_False in Hcount.
    + intros ord.
      destruct (UF_connected_answer n ord fuel x y s) as (t & Ht & _); [done..|].
      by exists t.
    + intros c Hc1 Hc2.
      pose proof (UFR_unite_result fuel x y
                    {| UnionFindRank.parent := parent s;
                       UnionFindRank.rank := rank s;
                       UnionFindRank.components := c |}
                    rx ry p1 p2 a b Hfx Hfy Ha Hb) as Hres'.
      cbv zeta in Hres'. rewrite Hres'. clear Hres Hres'.
      destruct (decide (rx = ry)) as [Heq|Hne].
      { injection Hrun as <-.
        rewrite bool_decide_eq_false_2 by (intros Hnot; by apply Hnot, Hiff).
        by rewrite decide_True by (by apply Hiff). }
      rewrite bool_decide_eq_true_2 by (by rewrite Hiff).
      rewrite (decide_False (P := same_set (parent s) x y)) by (by rewrite Hiff).
      destruct (decide (a < b)).
      { injection Hrun as <-. simpl. by rewrite decide_True by lia. }
      destruct (decide (a > b)).
      { injection Hrun as <-. simpl. by rewrite decide_True by lia. }
      rewrite decide_True in Hrun by done. rewrite decide_True by done.
      injection Hrun as <-. simpl. by rewrite decide_True by lia.
  - exists {| UnionFind.parent := [0; 1; 2]; UnionFind.rank := [0; 0; 0] |},
           {| UnionFind.parent := [0; 0; 2]; UnionFind.rank := [1; 0; 0] |},
           {| UnionFind.parent := [0; 0; 0]; UnionFind.rank := [1; 0; 0] |},
           {| UnionFind.parent := [0; 0; 0]; UnionFind.rank := [1; 0; 0] |},
           {| UnionFind.parent := [0; 0; 0]; UnionFind.rank := [1; 0; 0] |}.
    split_and!; try (vm_compute; reflexivity).
    apply same_sets_refl.
Qed.

Lemma UF_unionSets_merges_unreported_witness :
  ∃ s',
    UnionFind.unionSets 4 3 1
      {| UnionFind.parent := [0; 0; 0; 3]; UnionFind.rank := [1; 0; 0; 0] |}
    = Ok tt s' ∧
    (same_set [0; 0; 0; 3] 3 1 →
       same_sets [0; 0; 0; 3] (parent s') ∧ rank s' = [1; 0; 0; 0]) ∧
    (¬ same_set [0; 0; 0; 3] 3 1 →
       same_set (parent s') 3 1 ∧
       S (count_roots (parent s')) = count_roots [0; 0; 0; 3]) ∧
    (∀ ord, ∃ t,
       UnionFind.connected ord 4 3 1
         {| UnionFind.parent := [0; 0; 0; 3]; UnionFind.rank := [1; 0; 0; 0] |}
       = Ok (bool_decide (same_set [0; 0; 0; 3] 3 1)) t) ∧
    (∀ c, INT_MIN ≤ c - 1 → c ≤ INT_MAX →
       UnionFindRank.unite 4 3 1
         {| UnionFindRank.parent := [0; 0; 0; 3];
            UnionFindRank.rank := [1; 0; 0; 0];
            UnionFindRank.components := c |}
       = Ok (bool_decide (¬ same_set [0; 0; 0; 3] 3 1))
            {| UnionFindRank.parent := parent s';
               UnionFindRank.rank := rank s';
               UnionFindRank.components :=
                 if decide (same_set [0; 0; 0; 3] 3 1) then c else c - 1 |}).
Proof.
  apply (proj1 UF_unionSets_merges_unreported 4 4%nat 3 1
           {| UnionFind.parent := [0; 0; 0; 3]; UnionFind.rank := [1; 0; 0; 0] |}).
  - apply UF_inv_example.
  - lia.
  - lia.
  - simpl. lia.
Defined.

(** The result of [unionSets] is the same after a call that merged
    nothing and after one that merged two sets: it cannot be read as the
    boolean that tells them apart. *)
Lemma UF_unionSets_returns_no_bool :
  ∃ r1 s1 r2 s2,
    UnionFind.unionSets 3 0 1
      {| UnionFind.parent := [0; 0; 2]; UnionFind.rank := [1; 0; 0] |}
    = Ok r1 s1 ∧
    same_set [0; 0; 2] 0 1 ∧ same_sets [0; 0; 2] (parent s1) ∧
    UnionFind.unionSets 3 1 2
      {| UnionFind.parent := [0; 0; 2]; UnionFind.rank := [1; 0; 0] |}
    = Ok r2 s2 ∧
    ¬ same_set [0; 0; 2] 1 2 ∧ same_set (parent s2) 1 2 ∧
    ∀ reading : unit → bool, reading r1 = reading r2.
Proof.
  exists tt, {| UnionFind.parent := [0; 0; 2]; UnionFind.rank := [1; 0; 0] |},
         tt, {| UnionFind.parent := [0; 0; 0]; UnionFind.rank := [1; 0; 0] |}.
  split_and!.
  - vm_compute. reflexivity.
  - compute_done.
  - apply same_sets_refl.
  - vm_compute. reflexivity.
  - compute_done.
  - compute_done.
  - done.
Qed.

Lemma UF_run_count_roots fuel c s s' :
  forest (parent s) → UnionFind.run fuel c s = Ok tt s' →
  (UnionFind.united c = [] → count_roots (parent s') = count_roots (parent s)) ∧
  (∀ u v, UnionFind.united c = [[u; v]] →
          count_roots (parent s)
          = if decide (same_set (parent s) u v) then count_roots (parent s')
            else S (count_roots (parent s'))).
Proof.
  intros Hf H.
  destruct c as [u|u v|u v byRank|u v size|ord u v]; simpl.
  - simpl in H.
    apply bind_Ok_inv in H as (r & s1 & (p' & Hu & ->)%UF_find_inv & [= <-]).
    destruct (find_Ok_forest _ _ _ _ _ Hf Hu) as (_ & Hs & _).
    split; [|done]. intros _. simpl. by apply count_roots_same_sets.
  - apply UF_unionSets_merged in H as [Hm _]; [|done].
    split; [done|]. intros u' v' [= <- <-].
    by apply merged_count_roots_exact.
  - apply UF_unionSets_byRank_merged in H as [Hm _]; [|done].
    split; [done|]. intros u' v' [= <- <-].
    by apply merged_count_roots_exact.
  - simpl in H. apply zoom_Ok_inv in H as ([s1 size'] & H & ->).
    apply UF_unionBySize_merged in H as (Hm & _); [|done].
    split; [done|]. intros u' v' [= <- <-].
    by apply merged_count_roots_exact.
  - simpl in H. apply bind_Ok_inv in H as (b & s1 & H & [= <-]).
    apply UF_connected_Ok in H as (ru & rv & p' & _ & _ & _ & -> & Hs); [|done].
    split; [|done]. intros _. simpl. by apply count_roots_same_sets.
Qed.

(** C2.  The class of [UnionFind.cpp] holds no counter; its components
    are its roots.  After [UnionFind(n)], for every [n >= 0], there are
    [n] roots.  In a state reached from the constructor, a union of two
    elements of different sets leaves one root less, and every other call
    ([find], [connected], a union of two elements of one set) leaves the
    number of roots as it was; this number is the number of sets.  On five
    elements, after the unions [(0,1)], [(1,2)], [(3,4)], there are two
    roots. *)
Theorem UF_roots_count_components :
  (∀ n, 0 ≤ n →
     ∃ s, UnionFind.UnionFind n UnionFind.empty = Ok tt s ∧
          count_roots (parent s) = Z.to_nat n) ∧
  (∀ n fuel c s s',
     UnionFind.reachable n s → UnionFind.run fuel c s = Ok tt s' →
     (UnionFind.united c = [] →
        count_roots (parent s') = count_roots (parent s)) ∧
     (∀ u v, UnionFind.united c = [[u; v]] →
             count_roots (parent s)
             = if decide (same_set (parent s) u v) then count_roots (parent s')
               else S (count_roots (parent s')))) ∧
  (∀ n s,
     UnionFind.reachable n s →
     classes n (same_set (parent s)) (count_roots (parent s))) ∧
  (∃ s,
     (UnionFind.UnionFind 5;;
      UnionFind.unionSets 5 0 1;;
      UnionFind.unionSets 5 1 2;;
      UnionFind.unionSets 5 3 4) UnionFind.empty = Ok tt s ∧
     count_roots (parent s) = 2%nat).
Proof.
  split_and!.
  - intros n Hn. eexists. split; [by apply UF_new|].
    simpl. apply count_roots_seqZ.
  - intros n fuel c s s' (_ & _ & _ & Hf)%UF_reachable_wf H.
    by apply (UF_run_count_roots fuel).
  - intros n s (Hn & Hlp & _ & Hf)%UF_reachable_wf.
    by apply roots_classes.
  - exists {| UnionFind.parent := [0; 0; 0; 3; 3];
              UnionFind.rank := [1; 0; 0; 1; 0] |}.
    split; vm_compute; reflexivity.
Qed.

Lemma UF_roots_count_components_witness :
  ∃ s, UnionFind.UnionFind 5 UnionFind.empty = Ok tt s ∧
       count_roots (parent s) = Z.to_nat 5.
Proof. apply (proj1 UF_roots_count_components 5). lia. Defined.

(** After [UnionFind(5)] the object is its two vectors, and neither
    holds the number 5: no integer that the object holds is a counter
    that reads [n] after [UnionFind(n)]. *)
Lemma UF_no_component_counter :
  (∀ s, s = {| UnionFind.parent := parent s; UnionFind.rank := rank s |}) ∧
  (∃ s, UnionFind.UnionFind 5 UnionFind.empty = Ok tt s ∧
        parent s = [0; 1; 2; 3; 4] ∧ rank s = [0; 0; 0; 0; 0] ∧
        ¬ (5 ∈ parent s) ∧ ¬ (5 ∈ rank s)) ∧
  ¬ ∃ counter : UnionFind.state → Z,
      (∀ s, counter s ∈ parent s ++ rank s) ∧
      (∀ n s, 0 ≤ n → UnionFind.UnionFind n UnionFind.empty = Ok tt s →
              counter s = n).
Proof.
  assert (UnionFind.UnionFind 5 UnionFind.empty
          = Ok tt {| UnionFind.parent := [0; 1; 2; 3; 4];
                     UnionFind.rank := [0; 0; 0; 0; 0] |}) as Hnew.
  { vm_compute. reflexivity. }
  split_and!.
  - intros s. by destruct s.
  - eexists. split; [exact Hnew|]. simpl. split_and!; [done..| |].
    + rewrite !elem_of_cons, elem_of_nil. lia.
    + rewrite !elem_of_cons, elem_of_nil. lia.
  - intros (counter & Hin & Hall).
    specialize (Hall 5 _ ltac:(lia) Hnew).
    specialize (Hin {| UnionFind.parent := [0; 1; 2; 3; 4];
                       UnionFind.rank := [0; 0; 0; 0; 0] |}).
    rewrite Hall in Hin. simpl in Hin.
    rewrite !elem_of_cons, elem_of_nil in Hin. lia.
Qed.

(** C8.  [unionBySize(u, v, size)] compares what the caller's vector
    records at the two roots.  For distinct roots [ru] and [rv] with
    recorded values [a] and [b], whose sum is an [int]: the root of the
    strictly smaller value is attached under the other one ([rv] under
    [ru] when they are equal), the surviving root's entry becomes [a + b],
    no other entry and no rank changes, and [find] then returns the
    surviving root for both elements.  When the vector was [n] ones at the
    start and every union since was a [unionBySize] with it, the recorded
    values are the numbers of elements of the sets: the root of the
    strictly smaller set goes under the root of the larger, and the size
    recorded at the root of [find(u)] is the sum of the two set sizes, the
    size of the merged set. *)
Theorem UF_unionBySize_recorded_sizes :
  (∀ n fuel u v s size ru rv a b,
     UnionFind.wf n s →
     repr (parent s) u ru → repr (parent s) v rv → ru ≠ rv →
     vget size ru = Some a → vget size rv = Some b →
     INT_MIN ≤ a + b ≤ INT_MAX →
     (Z.to_nat n ≤ fuel)%nat →
     ∃ s' size' low high,
       UnionFind.unionBySize fuel u v (s, size) = Ok tt (s', size') ∧
       (a < b → low = ru ∧ high = rv) ∧
       (b ≤ a → low = rv ∧ high = ru) ∧
       vget (parent s') low = Some high ∧ is_root (parent s') high ∧
       vget size' high = Some (a + b) ∧
       (∀ i, i ≠ high → vget size' i = vget size i) ∧
       rank s' = rank s ∧
       (∃ t, UnionFind.find fuel u s' = Ok high t) ∧
       (∃ t, UnionFind.find fuel v s' = Ok high t)) ∧
  (∀ n fuel u v s size ru rv,
     n ≤ INT_MAX → UnionFind.sized n s size →
     repr (parent s) u ru → repr (parent s) v rv → ru ≠ rv →
     (Z.to_nat n ≤ fuel)%nat →
     ∃ s' size' low high,
       UnionFind.unionBySize fuel u v (s, size) = Ok tt (s', size') ∧
       vget size ru = Some (Z.of_nat (card (parent s) ru)) ∧
       vget size rv = Some (Z.of_nat (card (parent s) rv)) ∧
       ((card (parent s) ru < card (parent s) rv)%nat → low = ru ∧ high = rv) ∧
       ((card (parent s) rv ≤ card (parent s) ru)%nat → low = rv ∧ high = ru) ∧
       vget (parent s') low = Some high ∧ is_root (parent s') high ∧
       (∃ t, UnionFind.find fuel u s' = Ok high t) ∧
       vget size' high
       = Some (Z.of_nat (card (parent s) ru + card (parent s) rv)) ∧
       card (parent s') high = (card (parent s) ru + card (parent s) rv)%nat ∧
       UnionFind.sized n s' size').
Proof.
  split; [exact (proj1 union_by_size_sums)|].
  intros n fuel u v s size ru rv Hmax Hsized Hru Hrv Hne Hfuel.
  pose proof (UF_sized_ok _ _ _ Hsized) as (Hwf & Hls & Hsz).
  pose proof Hwf as (Hn & Hlp & _ & _).
  pose proof (Hsz ru (repr_is_root _ _ _ Hru)) as Ha.
  pose proof (Hsz rv (repr_is_root _ _ _ Hrv)) as Hb.
  pose proof (card_pair_le (parent s) ru rv Hne) as Hle.
  destruct (proj1 union_by_size_sums n fuel u v s size ru rv _ _
              Hwf Hru Hrv Hne Ha Hb) as
    (s' & size' & low & high & Hrun & Hlt & Hge & Hlink & Hroot & Hsize & _ & _
     & Hfu & _); [unfold INT_MIN, INT_MAX in *; lia|done|].
  pose proof (UnionFind.sized_union n s size fuel u v s' size' Hsized Hrun)
    as Hsized'.
  pose proof (UF_sized_ok _ _ _ Hsized') as (_ & _ & Hsz').
  pose proof (Hsz' high Hroot) as Hhigh. rewrite Hsize in Hhigh.
  exists s', size', low, high. split_and!; try done.
  - intros Hcmp. apply Hlt. lia.
  - intros Hcmp. apply Hge. lia.
  - rewrite Hsize. f_equal. lia.
  - injection Hhigh as Hhigh. lia.
Qed.

Lemma UF_unionBySize_recorded_sizes_witness :
  ∃ s' size' low high,
    UnionFind.unionBySize 4 1 3
      ({| UnionFind.parent := [0; 0; 0; 3]; UnionFind.rank := [0; 0; 0; 0] |},
       [3; 1; 1; 1])
    = Ok tt (s', size') ∧
    vget [3; 1; 1; 1] 0 = Some (Z.of_nat (card [0; 0; 0; 3] 0)) ∧
    vget [3; 1; 1; 1] 3 = Some (Z.of_nat (card [0; 0; 0; 3] 3)) ∧
    (Nat.lt (card [0; 0; 0; 3] 0) (card [0; 0; 0; 3] 3) → low = 0 ∧ high = 3) ∧
    (Nat.le (card [0; 0; 0; 3] 3) (card [0; 0; 0; 3] 0) → low = 3 ∧ high = 0) ∧
    vget (parent s') low = Some high ∧ is_root (parent s') high ∧
    (∃ t, UnionFind.find 4 1 s' = Ok high t) ∧
    vget size' high
    = Some (Z.of_nat (Nat.add (card [0; 0; 0; 3] 0) (card [0; 0; 0; 3] 3))) ∧
    card (parent s') high = Nat.add (card [0; 0; 0; 3] 0) (card [0; 0; 0; 3] 3) ∧
    UnionFind.sized 4 s' size'.
Proof.
  apply (proj2 UF_unionBySize_recorded_sizes 4 4%nat 1 3
           {| UnionFind.parent := [0; 0; 0; 3]; UnionFind.rank := [0; 0; 0; 0] |}
           [3; 1; 1; 1] 0 3).
  - by vm_compute.
  - apply UF_sized_example.
  - apply repr_root_of. reflexivity.
  - apply repr_root_of. reflexivity.
  - lia.
  - simpl. lia.
Defined.

(** After a union by rank the caller's vector is behind: [unionBySize]
    hangs the root of the set of two elements under the root of the set
    of one, and records 2 for a set of three. *)
Lemma UF_unionBySize_stale_vector :
  ∃ s1 s2 size2,
    (UnionFind.UnionFind 3;; UnionFind.unionSets 3 0 1) UnionFind.empty
    = Ok tt s1 ∧
    repr (parent s1) 2 2 ∧ repr (parent s1) 0 0 ∧
    card (parent s1) 2 = 1%nat ∧ card (parent s1) 0 = 2%nat ∧
    UnionFind.unionBySize 3 2 0 (s1, [1; 1; 1]) = Ok tt (s2, size2) ∧
    vget (parent s2) 0 = Some 2 ∧ is_root (parent s2) 2 ∧
    repr (parent s2) 2 2 ∧
    vget size2 2 = Some 2 ∧ card (parent s2) 2 = 3%nat.
Proof.
  exists {| UnionFind.parent := [0; 0; 2]; UnionFind.rank := [1; 0; 0] |},
         {| UnionFind.parent := [2; 0; 2]; UnionFind.rank := [1; 0; 0] |},
         [1; 1; 2].
  split_and!; try (vm_compute; reflexivity).
  - apply repr_root_of. reflexivity.
  - apply repr_root_of. reflexivity.
  - apply repr_root_of. reflexivity.
Qed.
End UnionFind_cpp_unions.
